(** * CommentForest: a shallow embedding of [asyncpraw/models/comment_forest.py]

    The Python module manipulates a graph of shared, mutable objects:
    comments own a [replies] forest whose [_comments] list is aliased by
    the [_remove_from] attribute of the placeholders ([MoreComments]) it
    contains, and every forest of a submission shares the dictionary
    [_comments_by_id].  The embedding therefore works over an explicit
    object store: node objects and Python lists live at addresses, and
    every method is a computation in a small state-and-exception monad. *)

From Stdlib Require Import ZArith Lia ZifyNat Ascii String Floats Uint63.
From stdpp Require Import base option list gmap strings.

Set Warnings "-register-all".

Local Open Scope string_scope.
Local Open Scope list_scope.

(** ** Addresses and objects *)

(** Address of a node object ([Comment] or [MoreComments] instance). *)
Abbreviation ref := nat (only parsing).
(** Address of a Python [list] object holding node references. *)
Abbreviation loc := nat (only parsing).

Module Comment.
(** The attributes of a [Comment] instance the forest reads or writes.
    [replies] is the address of [comment.replies._comments]. *)
Record t := Build {
  name : string;
  parent_id : string;
  is_root : bool;
  replies : loc;
  submission : option nat
}.
End Comment.

Module MoreComments.
(** The attributes of a [MoreComments] instance. [_remove_from] is unset
    until a gather assigns it. *)
Record t := Build {
  name : string;
  count : Z;
  children : list string;
  _remove_from : option loc;
  submission : option nat
}.
End MoreComments.

Inductive obj :=
| OComment (c : Comment.t)
| OMore (m : MoreComments.t).

Definition obj_name (o : obj) : string :=
  match o with
  | OComment c => Comment.name c
  | OMore m => MoreComments.name m
  end.

(** [isinstance(o, MoreComments)] *)
Definition isinstance_More (o : obj) : bool :=
  match o with OMore _ => true | OComment _ => false end.

(** ** The store *)

Record state := State {
  objs : list obj;                    (* node objects, by address *)
  lists : list (list ref);            (* Python lists, by address *)
  _comments_by_id : gmap string ref   (* the submission's identity index *)
}.

(** A [CommentForest] instance: [_comments] is [None] until populated. *)
Record CommentForest := Forest {
  _comments : option loc;
  _submission : nat
}.

(** ** Exceptions and the monad *)

Inductive exn :=
| DuplicateReplaceException
| AssertionError (msg : string)
| ValueError
| TypeError
| AttributeError
| IndexError
| FetchError.

Inductive outcome (A : Type) :=
| Ok (a : A)
| Raise (e : exn)
| Stuck        (* a dangling address: no Python counterpart *)
| OutOfFuel.   (* the bound given to a [while] loop was too small *)
Arguments Ok {A} a.
Arguments Raise {A} e.
Arguments Stuck {A}.
Arguments OutOfFuel {A}.

Definition M (A : Type) := state -> outcome A * state.

Definition ret {A} (a : A) : M A := fun s => (Ok a, s).
Definition raise {A} (e : exn) : M A := fun s => (Raise e, s).
Definition stuck {A} : M A := fun s => (Stuck, s).
Definition out_of_fuel {A} : M A := fun s => (OutOfFuel, s).

Definition bind {A B} (m : M A) (k : A -> M B) : M B :=
  fun s =>
    match m s with
    | (Ok a, s') => k a s'
    | (Raise e, s') => (Raise e, s')
    | (Stuck, s') => (Stuck, s')
    | (OutOfFuel, s') => (OutOfFuel, s')
    end.

Notation "'let*' x ':=' m 'in' k" := (bind m (fun x => k))
  (at level 10, x name, m at level 100, k at level 200).

Definition get_obj (r : ref) : M obj :=
  fun s => match objs s !! r with
           | Some o => (Ok o, s)
           | None => (Stuck, s)
           end.

Definition get_list (l : loc) : M (list ref) :=
  fun s => match lists s !! l with
           | Some rs => (Ok rs, s)
           | None => (Stuck, s)
           end.

Definition set_obj (r : ref) (o : obj) : M unit :=
  fun s => (Ok tt, State (<[r := o]> (objs s)) (lists s) (_comments_by_id s)).

Definition set_list (l : loc) (rs : list ref) : M unit :=
  fun s => (Ok tt, State (objs s) (<[l := rs]> (lists s)) (_comments_by_id s)).

(** [lst.append(x)] *)
Definition list_append (l : loc) (x : ref) : M unit :=
  let* rs := get_list l in set_list l (rs ++ [x]).

(** First-occurrence removal, the list surgery of [lst.remove(x)]. *)
Fixpoint remove_first (x : ref) (rs : list ref) : option (list ref) :=
  match rs with
  | [] => None
  | y :: rs' =>
      if decide (y = x) then Some rs'
      else match remove_first x rs' with
           | Some rs'' => Some (y :: rs'')
           | None => None
           end
  end.

(** [lst.remove(x)]: raises [ValueError] when [x] is not in the list.
    Modelled from the spec: the equality of two nodes, which lives in the
    node classes outside this module, is object identity (removal "by
    identity/handle lookup"). *)
Definition list_remove (l : loc) (x : ref) : M unit :=
  let* rs := get_list l in
  match remove_first x rs with
  | Some rs' => set_list l rs'
  | None => raise ValueError
  end.

Definition get_index : M (gmap string ref) :=
  fun s => (Ok (_comments_by_id s), s).

Definition set_index (i : gmap string ref) : M unit :=
  fun s => (Ok tt, State (objs s) (lists s) i).

(** [for x in xs: f(x)] *)
Fixpoint for_each {A} (f : A -> M unit) (xs : list A) : M unit :=
  match xs with
  | [] => ret tt
  | x :: xs' => let* _ := f x in for_each f xs'
  end.

(** ** [heapq]

    [heappush] and [heappop] of the Python standard library, with their
    helpers [_siftdown] and [_siftup], over a Python list.  The priority
    collection of the forest is a local list that nothing else aliases,
    so it is a value here.  An index that is out of range (an
    [IndexError] in Python) cannot arise inside these functions; the
    corresponding branches leave the list as it is. *)

Section heapq.
Context {A : Type} (lt : A -> A -> bool).

(** The [while pos > startpos] loop of [_siftdown]; [pos] bounds the
    number of iterations since it decreases every time. *)
Fixpoint _siftdown_loop (fuel : nat) (heap : list A) (newitem : A)
    (startpos pos : nat) : list A :=
  match fuel with
  | O => <[pos := newitem]> heap
  | S fuel' =>
      if decide (startpos < pos)%nat then
        let parentpos := ((pos - 1) / 2)%nat in
        match heap !! parentpos with
        | Some parent =>
            if lt newitem parent
            then _siftdown_loop fuel' (<[pos := parent]> heap) newitem
                   startpos parentpos
            else <[pos := newitem]> heap
        | None => heap
        end
      else <[pos := newitem]> heap
  end.

Definition _siftdown (heap : list A) (startpos pos : nat) : list A :=
  match heap !! pos with
  | Some newitem => _siftdown_loop pos heap newitem startpos pos
  | None => heap
  end.

(** The [while childpos < endpos] loop of [_siftup]: returns the list
    and the position of the hole. *)
Fixpoint _siftup_loop (fuel : nat) (heap : list A) (endpos pos childpos : nat)
    : list A * nat :=
  match fuel with
  | O => (heap, pos)
  | S fuel' =>
      if decide (childpos < endpos)%nat then
        let rightpos := (childpos + 1)%nat in
        match heap !! childpos with
        | Some c =>
            let childpos' :=
              match heap !! rightpos with
              | Some r =>
                  if bool_decide (rightpos < endpos)%nat && negb (lt c r)
                  then rightpos else childpos
              | None => childpos
              end in
            match heap !! childpos' with
            | Some c' =>
                _siftup_loop fuel' (<[pos := c']> heap) endpos childpos'
                  (2 * childpos' + 1)%nat
            | None => (heap, pos)
            end
        | None => (heap, pos)
        end
      else (heap, pos)
  end.

Definition _siftup (heap : list A) (pos : nat) : list A :=
  let endpos := length heap in
  let startpos := pos in
  match heap !! pos with
  | Some newitem =>
      let '(heap', pos') :=
        _siftup_loop endpos heap endpos pos (2 * pos + 1)%nat in
      _siftdown (<[pos' := newitem]> heap') startpos pos'
  | None => heap
  end.

Definition heappush (heap : list A) (item : A) : list A :=
  let heap := heap ++ [item] in
  _siftdown heap 0 (length heap - 1).

(** [None] stands for the [IndexError] of popping from an empty list. *)
Definition heappop (heap : list A) : option (A * list A) :=
  match last heap with
  | None => None
  | Some lastelt =>
      let heap := removelast heap in
      match heap with
      | returnitem :: _ => Some (returnitem, _siftup (<[0%nat := lastelt]> heap) 0)
      | [] => Some (lastelt, heap)
      end
  end.
End heapq.

(** ** Node classes: what the forest uses of them

    [MoreComments.__lt__] and the [submission] setters are defined with
    the node classes, outside this module. *)

(** [item.count] *)
Definition count_of (s : state) (r : ref) : Z :=
  match objs s !! r with
  | Some (OMore m) => MoreComments.count m
  | _ => 0%Z
  end.

(** Modelled from the spec: the ordering of [MoreComments] instances,
    missing from the module: placeholders are ordered by pending child
    count, descending, so that the smallest element of the min-heap is
    the placeholder with the largest [count]. *)
Definition more_lt (s : state) (a b : ref) : bool :=
  bool_decide (count_of s a > count_of s b)%Z.

(** Modelled from the spec: the [submission] setter of a node, missing
    from the module: on a [Comment] it sets the back-reference to the
    discussion and registers the comment in the Identity Index; on a
    [MoreComments] it is a plain attribute.  The spec is silent on the
    replies nested under the comment; the setter leaves them alone here.
    The theorems about an insert are stated so as not to depend on this
    choice: they look the index up at the names concerned instead of
    fixing the whole index, and where the name of a nested reply could
    decide the outcome ([nested_name]) they exclude it. *)
Definition set_submission (r : ref) (sub : nat) : M unit :=
  let* o := get_obj r in
  match o with
  | OComment c =>
      let* idx := get_index in
      let* _ := set_index (<[Comment.name c := r]> idx) in
      set_obj r (OComment (Comment.Build (Comment.name c) (Comment.parent_id c)
                   (Comment.is_root c) (Comment.replies c) (Some sub)))
  | OMore m =>
      set_obj r (OMore (MoreComments.Build (MoreComments.name m)
                   (MoreComments.count m) (MoreComments.children m)
                   (MoreComments._remove_from m) (Some sub)))
  end.

(** [comment._remove_from = target] *)
Definition set_remove_from (r : ref) (target : loc) : M unit :=
  let* o := get_obj r in
  match o with
  | OMore m =>
      set_obj r (OMore (MoreComments.Build (MoreComments.name m)
                   (MoreComments.count m) (MoreComments.children m)
                   (Some target) (MoreComments.submission m)))
  | OComment _ => raise AttributeError
  end.

(** [item._remove_from.remove(item)] *)
Definition remove_from_target (item : ref) : M unit :=
  let* o := get_obj item in
  match o with
  | OMore m =>
      match MoreComments._remove_from m with
      | Some l => list_remove l item
      | None => raise AttributeError
      end
  | OComment _ => raise AttributeError
  end.

(** [parent.replies._comments] *)
Definition replies_of (parent : ref) : M loc :=
  let* o := get_obj parent in
  match o with
  | OComment c => ret (Comment.replies c)
  | OMore _ => raise AttributeError
  end.

(** [heappush(more_comments, comment)] on placeholders of the store. *)
Definition heappush_more (more_comments : list ref) (comment : ref)
    : M (list ref) :=
  fun s => (Ok (heappush (more_lt s) more_comments comment), s).

(** ** [CommentForest] *)

(** [parent_tree or tree]: the first operand when it is truthy, that is,
    neither [None] nor an empty list. *)
Definition parent_tree_or_tree (parent_tree : option loc) (tree : loc)
    : M loc :=
  match parent_tree with
  | None => ret tree
  | Some pt =>
      let* rs := get_list pt in
      match rs with
      | [] => ret tree
      | _ :: _ => ret pt
      end
  end.

(** The [while queue] loop of [_gather_more_comments]. *)
Fixpoint _gather_loop (fuel : nat) (tree : loc) (parent_tree : option loc)
    (more_comments : list ref) (queue : list (option ref * ref))
    : M (list ref) :=
  match queue with
  | [] => ret more_comments
  | (parent, comment) :: queue =>
      match fuel with
      | O => out_of_fuel
      | S fuel =>
          let* o := get_obj comment in
          if isinstance_More o then
            let* more_comments := heappush_more more_comments comment in
            let* target :=
              match parent with
              | Some p => replies_of p
              | None => parent_tree_or_tree parent_tree tree
              end in
            let* _ := set_remove_from comment target in
            _gather_loop fuel tree parent_tree more_comments queue
          else
            let* items := replies_of comment in
            let* items := get_list items in
            _gather_loop fuel tree parent_tree more_comments
              (queue ++ map (fun item => (Some comment, item)) items)
      end
  end.

Definition _gather_more_comments (fuel : nat) (tree : loc)
    (parent_tree : option loc) : M (list ref) :=
  let* xs := get_list tree in
  _gather_loop fuel tree parent_tree [] (map (fun x => (None, x)) xs).

(** [self._comments] used as a list: [None] is not one. *)
Definition comments_list (self : CommentForest) (e : exn) : M loc :=
  match _comments self with
  | Some l => ret l
  | None => raise e
  end.

(** [self._comments[index]] for an integer [index]: a negative index
    counts from the end of the list. *)
Definition __getitem__ (self : CommentForest) (index : Z) : M ref :=
  let* l := comments_list self TypeError in
  let* rs := get_list l in
  let i := if (index <? 0)%Z then (index + Z.of_nat (length rs))%Z else index in
  if (i <? 0)%Z then raise IndexError
  else match rs !! Z.to_nat i with
       | Some r => ret r
       | None => raise IndexError
       end.

Definition __init__ (submission : nat) (comments : option loc)
    : CommentForest :=
  Forest comments submission.

Definition __len__ (self : CommentForest) : M nat :=
  match _comments self with
  | Some l =>
      let* rs := get_list l in
      match rs with
      | _ :: _ => ret (length rs)
      | [] => ret 0
      end
  | None => ret 0
  end.

Definition assertion_message : string :=
  "Async PRAW Error occurred. Please file a bug report and include the code that caused the error.".

Definition _insert_comment (self : CommentForest) (comment : ref) : M unit :=
  let* o := get_obj comment in
  let* idx := get_index in
  if bool_decide (is_Some (idx !! obj_name o)) then
    raise DuplicateReplaceException
  else
    let* _ := set_submission comment (_submission self) in
    let append_to_self :=
      let* l := comments_list self AttributeError in
      list_append l comment in
    match o with
    | OMore _ => append_to_self
    | OComment c =>
        if Comment.is_root c then append_to_self
        else
          let* idx := get_index in
          match idx !! Comment.parent_id c with
          | None => raise (AssertionError assertion_message)
          | Some parent =>
              let* l := replies_of parent in
              list_append l comment
          end
    end.

Definition _update (self : CommentForest) (comments : loc)
    : M CommentForest :=
  let* rs := get_list comments in
  let* _ := for_each (fun comment => set_submission comment (_submission self)) rs in
  ret (Forest (Some comments) (_submission self)).

(** The [while queue] loop of [list]. *)
Fixpoint list_loop (fuel : nat) (comments queue : list ref)
    : M (list ref) :=
  match queue with
  | [] => ret comments
  | comment :: queue =>
      match fuel with
      | O => out_of_fuel
      | S fuel =>
          let comments := comments ++ [comment] in
          let* o := get_obj comment in
          if negb (isinstance_More o) then
            let* l := replies_of comment in
            let* replies := get_list l in
            list_loop fuel comments (queue ++ replies)
          else list_loop fuel comments queue
      end
  end.

(** [CommentForest.list]; the name [list] is taken by the type. *)
Definition list_ (fuel : nat) (self : CommentForest) : M (list ref) :=
  let* l := comments_list self TypeError in
  let* queue := get_list l in
  list_loop fuel [] queue.

(** ** The fetch collaborator

    [item.comments(update=False)] performs the request and hands back a
    list of newly deserialised nodes. *)

(** What a response describes: comments with their nested replies, and
    placeholders. *)
Inductive tree :=
| TComment (name parent_id : string) (is_root : bool) (replies : list tree)
| TMore (name : string) (count : Z) (children : list string).

Definition alloc_obj (o : obj) : M ref :=
  fun s => (Ok (length (objs s)),
            State (objs s ++ [o]) (lists s) (_comments_by_id s)).

Definition alloc_list (rs : list ref) : M loc :=
  fun s => (Ok (length (lists s)),
            State (objs s) (lists s ++ [rs]) (_comments_by_id s)).

(** Modelled from the spec: deserialisation, which belongs to the
    transport layer: every node of a response becomes a new object, every
    [replies] a new list; a new placeholder has no removal target and no
    new node is attached to a discussion yet. *)
Fixpoint alloc_tree (t : tree) : M ref :=
  match t with
  | TMore n c ch => alloc_obj (OMore (MoreComments.Build n c ch None None))
  | TComment n p root kids =>
      let* rs :=
        (fix alloc_trees (ts : list tree) : M (list ref) :=
           match ts with
           | [] => ret []
           | t :: ts' =>
               let* r := alloc_tree t in
               let* rs := alloc_trees ts' in
               ret (r :: rs)
           end) kids in
      let* l := alloc_list rs in
      alloc_obj (OComment (Comment.Build n p root l None))
  end.

Fixpoint alloc_trees (ts : list tree) : M (list ref) :=
  match ts with
  | [] => ret []
  | t :: ts' =>
      let* r := alloc_tree t in
      let* rs := alloc_trees ts' in
      ret (r :: rs)
  end.

Definition alloc_forest (ts : list tree) : M loc :=
  let* rs := alloc_trees ts in alloc_list rs.

Fixpoint tree_size (t : tree) : nat :=
  match t with
  | TMore _ _ _ => 1
  | TComment _ _ _ kids =>
      S ((fix sizes (ts : list tree) : nat :=
            match ts with
            | [] => 0
            | t :: ts' => tree_size t + sizes ts'
            end) kids)
  end.

Fixpoint forest_size (ts : list tree) : nat :=
  match ts with
  | [] => 0
  | t :: ts' => tree_size t + forest_size ts'
  end.

(** ** [replace_more] *)

Section replace_more.
(** The fetch collaborator: what the service answers for a placeholder,
    which may depend on the calls made before and on the store;
    [None] is a transport failure. *)
Variable fetch : list ref -> state -> ref -> option (list tree).

(** The local variables of the loop. *)
Record locals := Locals {
  remaining : option Z;
  more_comments : list ref;
  skipped : list ref
}.

(** [remaining is not None and remaining <= 0 or item.count < threshold] *)
Definition skip_test (remaining : option Z) (threshold : Z)
    (m : MoreComments.t) : bool :=
  match remaining with
  | Some n => bool_decide (n <= 0)%Z
  | None => false
  end
  || bool_decide (MoreComments.count m < threshold)%Z.

(** The body of the loop after the fetch has answered [trees]. *)
Definition merge_fetched (self : CommentForest) (item : ref)
    (trees : list tree) (v : locals) : M locals :=
  let* new_comments := alloc_forest trees in
  let remaining :=
    match remaining v with
    | Some n => Some (n - 1)%Z
    | None => None
    end in
  let* found :=
    _gather_more_comments (S (forest_size trees)) new_comments
      (_comments self) in
  let* more_comments :=
    (fix push (found : list ref) (more_comments : list ref) : M (list ref) :=
       match found with
       | [] => ret more_comments
       | more :: found' =>
           let* _ := set_submission more (_submission self) in
           let* more_comments := heappush_more more_comments more in
           push found' more_comments
       end) found (more_comments v) in
  let* comments := get_list new_comments in
  let* _ := for_each (_insert_comment self) comments in
  let* _ := remove_from_target item in
  ret (Locals remaining more_comments (skipped v)).

(** One iteration of [while more_comments]; the third component is the
    sequence of placeholders handed to the fetch collaborator so far. *)
Definition loop_body (self : CommentForest) (threshold : Z) (v : locals)
    (log : list ref) (s : state) : outcome locals * state * list ref :=
  match heappop (more_lt s) (more_comments v) with
  | None => (Raise IndexError, s, log)
  | Some (item, more_comments) =>
      match objs s !! item with
      | Some (OMore m) =>
          if skip_test (remaining v) threshold m then
            let '(o, s') :=
              (let* _ := remove_from_target item in
               ret (Locals (remaining v) more_comments (skipped v ++ [item]))) s in
            (o, s', log)
          else
            match fetch log s item with
            | Some trees =>
                let '(o, s') :=
                  merge_fetched self item trees
                    (Locals (remaining v) more_comments (skipped v)) s in
                (o, s', log ++ [item])
            | None => (Raise FetchError, s, log ++ [item])
            end
      | Some (OComment _) => (Raise AttributeError, s, log)
      | None => (Stuck, s, log)
      end
  end.

Fixpoint replace_more_loop (fuel : nat) (self : CommentForest)
    (threshold : Z) (v : locals) (log : list ref) (s : state)
    : outcome (list ref) * state * list ref :=
  match more_comments v with
  | [] => (Ok (more_comments v ++ skipped v), s, log)
  | _ :: _ =>
      match fuel with
      | O => (OutOfFuel, s, log)
      | S fuel =>
          match loop_body self threshold v log s with
          | (Ok v', s', log') => replace_more_loop fuel self threshold v' log' s'
          | (Raise e, s', log') => (Raise e, s', log')
          | (Stuck, s', log') => (Stuck, s', log')
          | (OutOfFuel, s', log') => (OutOfFuel, s', log')
          end
      end
  end.

(** [fuel] bounds the iterations of the first gather and of the main
    loop; the result carries the final store and the fetch calls made. *)
Definition replace_more (fuel : nat) (self : CommentForest)
    (limit : option Z) (threshold : Z) (s : state)
    : outcome (list ref) * state * list ref :=
  match (let* tree := comments_list self TypeError in
         _gather_more_comments fuel tree None) s with
  | (Ok more_comments, s') =>
      replace_more_loop fuel self threshold (Locals limit more_comments []) [] s'
  | (Raise e, s') => (Raise e, s', [])
  | (Stuck, s') => (Stuck, s', [])
  | (OutOfFuel, s') => (OutOfFuel, s', [])
  end.
End replace_more.

(** ** Vocabulary of the statements *)

(** The heap invariant of [heapq] for keys in descending order: no
    element has a larger key than its parent. *)
Definition heap_ordered {A} (key : A -> Z) (h : list A) : Prop :=
  forall i x y, 0 < i -> h !! i = Some x -> h !! ((i - 1) / 2) = Some y ->
    (key x <= key y)%Z.

(** The invariant with a hole at [pos]: the element there may exceed its
    parent. *)
Definition ordered_except {A} (key : A -> Z) (h : list A) (pos : nat) : Prop :=
  forall i x y, 0 < i -> i <> pos ->
    h !! i = Some x -> h !! ((i - 1) / 2) = Some y -> (key x <= key y)%Z.

(** The children of the hole are no larger than its parent. *)
Definition children_le {A} (key : A -> Z) (h : list A) (pos : nat) : Prop :=
  forall i x y, 0 < pos -> 0 < i -> (i - 1) / 2 = pos ->
    h !! i = Some x -> h !! ((pos - 1) / 2) = Some y -> (key x <= key y)%Z.

(** The invariant of [_siftup] while the hole moves down: positions
    unrelated to the hole are in order. *)
Definition ordered_around {A} (key : A -> Z) (h : list A) (pos : nat) : Prop :=
  forall i x y, 0 < i -> i <> pos -> (i - 1) / 2 <> pos ->
    h !! i = Some x -> h !! ((i - 1) / 2) = Some y -> (key x <= key y)%Z.

(** What a computation guarantees: [Q] of its result and final store when
    it returns, [R] of the exception when it raises; it neither meets a
    dangling address nor exhausts the bound of a loop. *)
Definition post {A} (x : outcome A * state)
    (Q : A -> state -> Prop) (R : exn -> Prop) : Prop :=
  match x with
  | (Ok a, s') => Q a s'
  | (Raise e, _) => R e
  | (Stuck, _) | (OutOfFuel, _) => False
  end.

(** *** Forests in the store *)

(** The shape of a forest as a tree of addresses: a comment node with the
    address of its replies list and its reply nodes, or a placeholder. *)
Inductive stree :=
| SComment (r : ref) (l : loc) (kids : list stree)
| SMore (r : ref).

Definition sroot (t : stree) : ref :=
  match t with
  | SComment r _ _ => r
  | SMore r => r
  end.

(** The store holds the tree [t]: every node is an object of the right
    class, and the replies list of every comment lists its reply nodes. *)
Fixpoint shape (s : state) (t : stree) : Prop :=
  match t with
  | SMore r => exists m, objs s !! r = Some (OMore m)
  | SComment r l kids =>
      (exists c, objs s !! r = Some (OComment c) /\ Comment.replies c = l) /\
      lists s !! l = Some (map sroot kids) /\
      fold_right (fun k P => shape s k /\ P) True kids
  end.

(** The list at [top] holds the forest [ts]. *)
Definition forest_shape (s : state) (top : loc) (ts : list stree) : Prop :=
  lists s !! top = Some (map sroot ts) /\ Forall (shape s) ts.

(** All nodes of a tree, and their number. *)
Fixpoint srefs (t : stree) : list ref :=
  match t with
  | SMore r => [r]
  | SComment r _ kids => r :: flat_map srefs kids
  end.

Fixpoint ssize (t : stree) : nat :=
  match t with
  | SMore _ => 1
  | SComment _ _ kids => S (fold_right (fun k n => ssize k + n) 0 kids)
  end.

Definition ssizes (ts : list stree) : nat :=
  fold_right (fun k n => ssize k + n) 0 ts.

(** The placeholders of a tree, each with the list that contains it;
    [c] is the list that contains the root. *)
Fixpoint targets (c : loc) (t : stree) : list (ref * loc) :=
  match t with
  | SMore r => [(r, c)]
  | SComment _ l kids => flat_map (targets l) kids
  end.

Definition forest_targets (top : loc) (ts : list stree) : list (ref * loc) :=
  flat_map (targets top) ts.

(** The placeholders of a forest. *)
Definition forest_mores (top : loc) (ts : list stree) : list ref :=
  (forest_targets top ts).*1.

(** The lists of a forest, each with the nodes it holds. *)
Fixpoint tree_lists (t : stree) : list (loc * list stree) :=
  match t with
  | SMore _ => []
  | SComment _ l kids => (l, kids) :: flat_map tree_lists kids
  end.

Definition forest_lists (top : loc) (ts : list stree)
    : list (loc * list stree) :=
  (top, ts) :: flat_map tree_lists ts.

(** The addresses of the replies lists of some trees. *)
Definition lists_of (ts : list stree) : list loc :=
  (flat_map tree_lists ts).*1.

(** The forest after [lst.append] of the root of [tc] to the list [l]:
    [tc] is a new last reply wherever [l] is the replies list. *)
Fixpoint graft (l : loc) (tc : stree) (t : stree) : stree :=
  match t with
  | SMore r => SMore r
  | SComment r l' kids =>
      SComment r l' (map (graft l tc) kids
                       ++ if decide (l' = l) then [tc] else [])
  end.

Definition graft_forest (l : loc) (tc : stree) (top : loc)
    (ts : list stree) : list stree :=
  map (graft l tc) ts ++ if decide (top = l) then [tc] else [].

(** The forest after [lst.remove] of the node [x] from the list [l]. *)
Fixpoint remove_kid (x : ref) (kids : list stree) : list stree :=
  match kids with
  | [] => []
  | k :: kids' => if decide (sroot k = x) then kids' else k :: remove_kid x kids'
  end.

Fixpoint prune (l : loc) (x : ref) (t : stree) : stree :=
  match t with
  | SMore r => SMore r
  | SComment r l' kids =>
      let kids' := map (prune l x) kids in
      SComment r l' (if decide (l' = l) then remove_kid x kids' else kids')
  end.

Definition prune_forest (l : loc) (x : ref) (top : loc)
    (ts : list stree) : list stree :=
  let ts' := map (prune l x) ts in
  if decide (top = l) then remove_kid x ts' else ts'.

(** A tree without its placeholders, at any depth: nothing is left of a
    placeholder, and a comment keeps the replies that are comments. *)
Fixpoint strip (t : stree) : list stree :=
  match t with
  | SMore _ => []
  | SComment r l kids => [SComment r l (flat_map strip kids)]
  end.

(** The nodes met by walking from the list at [top] through the replies
    of comments; a placeholder has no replies to walk into. *)
Inductive reach (s : state) (top : loc) : ref -> Prop :=
| reach_top rs r :
    lists s !! top = Some rs -> r ∈ rs -> reach s top r
| reach_reply p c rs r :
    reach s top p -> objs s !! p = Some (OComment c) ->
    lists s !! Comment.replies c = Some rs -> r ∈ rs -> reach s top r.

Definition is_more (s : state) (r : ref) : Prop :=
  exists m, objs s !! r = Some (OMore m).

Definition is_comment (s : state) (r : ref) : Prop :=
  exists c, objs s !! r = Some (OComment c).

(** [n] is the name of a comment nested under the comment [c]: of one of
    its replies, at any depth. *)
Definition nested_name (s : state) (c : Comment.t) (n : string) : Prop :=
  exists r c', reach s (Comment.replies c) r /\
               objs s !! r = Some (OComment c') /\ Comment.name c' = n.

(** What of an object the forest never writes: everything but the
    removal target and the discussion back-reference. *)
Definition core (o : obj) : obj :=
  match o with
  | OComment c =>
      OComment (Comment.Build (Comment.name c) (Comment.parent_id c)
                  (Comment.is_root c) (Comment.replies c) None)
  | OMore m =>
      OMore (MoreComments.Build (MoreComments.name m) (MoreComments.count m)
               (MoreComments.children m) None None)
  end.

(** [s'] has every object of [s], up to the attributes the forest writes. *)
Definition extends (s s' : state) : Prop :=
  forall r o, objs s !! r = Some o ->
    exists o', objs s' !! r = Some o' /\ core o' = core o.

Definition with_target (c : loc) (m : MoreComments.t) : MoreComments.t :=
  MoreComments.Build (MoreComments.name m) (MoreComments.count m)
    (MoreComments.children m) (Some c) (MoreComments.submission m).

(** Number of occurrences in a list. *)
Definition occ (r : ref) (rs : list ref) : nat :=
  length (filter (fun x => x = r) rs).

(** A response without placeholders, at any depth. *)
Fixpoint no_more (t : tree) : Prop :=
  match t with
  | TMore _ _ _ => False
  | TComment _ _ _ kids => fold_right (fun k P => no_more k /\ P) True kids
  end.

(** *** Gathering *)

(** A queue entry of [_gather_more_comments] stands for the tree [ct.2]
    whose root lies in the list [ct.1]: the replies of the entry's parent,
    or the fallback [fb] of the gather. *)
Definition qrel (s : state) (fb : loc) (e : option ref * ref)
    (ct : loc * stree) : Prop :=
  sroot ct.2 = e.2 /\ shape s ct.2 /\
  match e.1 with
  | Some p => exists c, objs s !! p = Some (OComment c) /\ Comment.replies c = ct.1
  | None => ct.1 = fb
  end.

Definition queue_targets (qt : list (loc * stree)) : list (ref * loc) :=
  flat_map (fun ct => targets ct.1 ct.2) qt.

(** The effect of a gather on the store: the placeholders of [T] have
    received their removal target and nothing else has changed. *)
Definition gathered (s s' : state) (T : list (ref * loc)) : Prop :=
  lists s' = lists s /\ _comments_by_id s' = _comments_by_id s /\
  length (objs s') = length (objs s) /\
  (forall r, r ∉ T.*1 -> objs s' !! r = objs s !! r) /\
  (forall r, r ∈ T.*1 ->
     exists m c, objs s !! r = Some (OMore m) /\ (r, c) ∈ T /\
                 objs s' !! r = Some (OMore (with_target c m))).

(** *** Allocation *)

(** A new comment has a new replies list, a new list holds new nodes;
    [n_o] and [n_l] are the sizes of the store before. *)
Definition new_obj_ok (n_l : nat) (o : obj) : Prop :=
  match o with
  | OComment c => n_l <= Comment.replies c
  | OMore _ => True
  end.

Definition new_list_ok (n_o : nat) (rs : list ref) : Prop :=
  Forall (fun r => n_o <= r) rs.

Definition obj_is_comment (o : obj) : Prop :=
  match o with
  | OComment _ => True
  | OMore _ => False
  end.

Definition new_obj_has_list (n : nat) (o : obj) : Prop :=
  match o with
  | OComment c => Comment.replies c < n
  | OMore _ => True
  end.

(** [s'] is [s] with new objects [os] and new lists [ls]. *)
Definition allocated (n_o n_l : nat) (s s' : state)
    (os : list obj) (ls : list (list ref)) : Prop :=
  objs s' = objs s ++ os /\ lists s' = lists s ++ ls /\
  _comments_by_id s' = _comments_by_id s /\
  Forall (new_obj_ok n_l) os /\ Forall (new_list_ok n_o) ls /\
  Forall (new_obj_has_list (length (lists s'))) os.

(** *** The loop of [replace_more] *)

(** A computation keeps every object, whatever its outcome. *)
Definition preserves {A} (m : M A) : Prop :=
  forall s, extends s (m s).2.

(** The placeholders of the priority collection are distinct, and each
    lies in the list its removal target designates. *)
Definition pending (s : state) (heap : list ref) : Prop :=
  NoDup heap /\
  forall r, r ∈ heap ->
    exists m l rs, objs s !! r = Some (OMore m) /\
                   MoreComments._remove_from m = Some l /\
                   lists s !! l = Some rs /\ r ∈ rs.

(** The invariant of the loop while every fetch answers comments only.
    [s0] is the store at the call, holding the forest [ts] at [top];
    [s] is the store now and [heap] the priority collection. *)
Record resolving (s0 : state) (top : loc) (ts : list stree)
    (s : state) (heap : list ref) : Prop := Resolving {
  (* the placeholders still to process *)
  rs_nodup : NoDup heap;
  rs_pending : forall r, r ∈ heap ->
    exists m l rs, objs s !! r = Some (OMore m) /\
                   (0 <= MoreComments.count m)%Z /\
                   MoreComments._remove_from m = Some l /\
                   (r, l) ∈ forest_targets top ts /\
                   lists s !! l = Some rs /\ r ∈ rs;
  (* the objects of the call are still there *)
  rs_extends : extends s0 s;
  (* an object made since is a comment with a list made since *)
  rs_new_objs : forall r o, length (objs s0) <= r -> objs s !! r = Some o ->
    exists c, o = OComment c /\ length (lists s0) <= Comment.replies c;
  (* a list made since holds objects made since *)
  rs_new_lists : forall l rs r, length (lists s0) <= l ->
    lists s !! l = Some rs -> r ∈ rs -> length (objs s0) <= r;
  (* a list of the call has gained no object of the call *)
  rs_old_lists : forall l rs0, lists s0 !! l = Some rs0 ->
    exists rs, lists s !! l = Some rs /\
               forall r, r < length (objs s0) -> occ r rs <= occ r rs0;
  (* a processed placeholder has left its list *)
  rs_done : forall r l rs, (r, l) ∈ forest_targets top ts -> r ∉ heap ->
    lists s !! l = Some rs -> r ∉ rs
}.

(** The lists of the trees [ts] are distinct and were made when the
    store had [n] lists. *)
Definition fresh_lists (n : nat) (ts : list stree) : Prop :=
  NoDup (lists_of ts) /\ Forall (fun l => n <= l) (lists_of ts).

(** The invariant of the inserts that merge a response: the list at
    [top] holds some forest, and the trees [rem] of the response that are
    still to insert are held by the store, apart from that forest and
    from the replies of every comment of the index. *)
Record growing (s : state) (top : loc) (rem : list stree) : Prop := Growing {
  gr_forest : exists ts, forest_shape s top ts /\
    forall l, l ∈ lists_of rem -> l ∉ (forest_lists top ts).*1;
  gr_rem : Forall (shape s) rem;
  gr_nodup : NoDup (lists_of rem);
  gr_index : forall n p c, _comments_by_id s !! n = Some p ->
    objs s !! p = Some (OComment c) -> Comment.replies c ∉ lists_of rem
}.

(** No attribute dangles: every comment has its replies list, and the
    index holds comments. *)
Definition store_ok (s : state) : Prop :=
  (forall r c, objs s !! r = Some (OComment c) ->
     is_Some (lists s !! Comment.replies c)) /\
  (forall n r, _comments_by_id s !! n = Some r -> is_comment s r).

(** The errors of an insert, and those of [replace_more]. *)
Definition insert_error (e : exn) : Prop :=
  e = DuplicateReplaceException \/ e = AssertionError assertion_message.

Definition replace_more_error (e : exn) : Prop :=
  insert_error e \/ e = FetchError.

(** The states of the loop in a run of [replace_more] on [s0]: the one
    the first gather leaves, and those the iterations lead to. *)
Inductive in_run (fetch : list ref -> state -> ref -> option (list tree))
    (self : CommentForest) (limit : option Z) (threshold : Z) (s0 : state)
    : locals -> list ref -> state -> Prop :=
| in_run_start fuel tree heap s :
    _comments self = Some tree ->
    _gather_more_comments fuel tree None s0 = (Ok heap, s) ->
    in_run fetch self limit threshold s0 (Locals limit heap []) [] s
| in_run_step v log s v' log' s' :
    in_run fetch self limit threshold s0 v log s ->
    more_comments v <> [] ->
    loop_body fetch self threshold v log s = (Ok v', s', log') ->
    in_run fetch self limit threshold s0 v' log' s'.

(** *** Breadth-first order *)

Definition skids (t : stree) : list stree :=
  match t with
  | SComment _ _ kids => kids
  | SMore _ => []
  end.

(** The nodes of a forest level by level: the roots from left to right,
    then the replies of the roots, and so on; [fuel] bounds the depth. *)
Fixpoint levels (fuel : nat) (ts : list stree) : list ref :=
  match fuel with
  | O => []
  | S fuel =>
      match ts with
      | [] => []
      | _ :: _ => map sroot ts ++ levels fuel (flat_map skids ts)
      end
  end.

(** The order in which a queue of trees is left. *)
Fixpoint bfsq (fuel : nat) (q : list stree) : list ref :=
  match q with
  | [] => []
  | t :: q' =>
      match fuel with
      | O => []
      | S fuel => sroot t :: bfsq fuel (q' ++ skids t)
      end
  end.

(** *** What a computation keeps *)

(** No comment has left a list, and no comment has left the index. *)
Definition keeps_comments (s s' : state) : Prop :=
  extends s s' /\
  (forall l rs, lists s !! l = Some rs ->
     exists rs', lists s' !! l = Some rs' /\
       forall r, is_comment s r -> occ r rs <= occ r rs') /\
  (forall n, is_Some (_comments_by_id s !! n) ->
     is_Some (_comments_by_id s' !! n)).

Definition keeping {A} (m : M A) : Prop :=
  forall s, keeps_comments s (m s).2.

(** The lists and the index are those of before. *)
Definition frames {A} (m : M A) : Prop :=
  forall s, lists (m s).2 = lists s /\
            _comments_by_id (m s).2 = _comments_by_id s.

Definition tree_name (t : tree) : string :=
  match t with
  | TComment n _ _ _ => n
  | TMore n _ _ => n
  end.

(** The node [r] of the store carries the name that [t] describes. *)
Definition named (s : state) (r : ref) (t : tree) : Prop :=
  exists o, objs s !! r = Some o /\ obj_name o = tree_name t.

(** *** Responses of new comments *)

(** The names of the nodes of a response, at every depth. *)
Fixpoint tree_names (t : tree) : list string :=
  match t with
  | TMore n _ _ => [n]
  | TComment n _ _ kids => n :: flat_map tree_names kids
  end.

(** The node [r] of the store is the root of [t] as deserialised: it has
    the class, the name, the parent and the root flag that [t] gives. *)
Definition describes (s : state) (r : ref) (t : tree) : Prop :=
  exists o, objs s !! r = Some o /\ obj_name o = tree_name t /\
    match t, o with
    | TComment _ p root _, OComment c =>
        Comment.parent_id c = p /\ Comment.is_root c = root
    | TMore _ _ _, OMore _ => True
    | _, _ => False
    end.

(** A top-level node of a response that an insert can place: a
    placeholder, a root comment, or a reply to a comment of the index. *)
Definition attachable (s : state) (t : tree) : Prop :=
  match t with
  | TComment _ p root _ => root = true \/ is_Some (_comments_by_id s !! p)
  | TMore _ _ _ => True
  end.

(** Every name of the index is the name of an object of the store. *)
Definition index_named (s : state) : Prop :=
  forall n, is_Some (_comments_by_id s !! n) ->
    exists r o, objs s !! r = Some o /\ obj_name o = n.

(** A response of new nodes for the store [s]: its nodes, at every
    depth, carry distinct names that no object of the store carries,
    and each of its top-level nodes can be placed. *)
Definition fresh_response (s : state) (trees : list tree) : Prop :=
  NoDup (flat_map tree_names trees) /\
  (forall n r o, n ∈ flat_map tree_names trees -> objs s !! r = Some o ->
     obj_name o <> n) /\
  Forall (attachable s) trees.

(** ** Example stores *)

Definition more (name : string) (count : Z) : obj :=
  OMore (MoreComments.Build name count [] None None).

Definition comment (name parent_id : string) (is_root : bool) (replies : loc)
    : obj :=
  OComment (Comment.Build name parent_id is_root replies None).

(** The forest whose top-level sequence is the list at address 0. *)
Definition forest0 : CommentForest := Forest (Some 0) 0.

(** A service that has nothing to answer. *)
Definition no_children : list ref -> state -> ref -> option (list tree) :=
  fun _ _ _ => Some [].

(** Four top-level placeholders with the same pending count. *)
Definition equal_counts : state :=
  State [more "a" 5; more "b" 5; more "c" 5; more "d" 5] [[0; 1; 2; 3]] ∅.

(** Top-level placeholders with pending counts 5, 50, 1 and 20. *)
Definition spec_counts : state :=
  State [more "a" 5; more "b" 50; more "c" 1; more "d" 20] [[0; 1; 2; 3]] ∅.

(** A thread: the root comment x, with a placeholder and the comment y
    as replies, y with a placeholder as reply; and a top-level
    placeholder. *)
Definition thread : state :=
  State [comment "x" "t3_1" true 1; more "a" 5; comment "y" "x" false 2;
         more "b" 7; more "c" 1]
        [[0; 4]; [1; 2]; [3]]
        (<["x" := 0]> (<["y" := 2]> ∅)).

Definition thread_shape : list stree :=
  [SComment 0 1 [SMore 1; SComment 2 2 [SMore 3]]; SMore 4].

(** A service that answers every placeholder with one new reply to x,
    itself with one reply; the names follow the number of calls. *)
Definition one_reply : list ref -> state -> ref -> option (list tree) :=
  fun log _ _ =>
    let n := String (Ascii.ascii_of_nat (65 + length log)) "" in
    Some [TComment n "x" false [TComment (n ++ "r") n false []]].

(** A forest made of one placeholder, in a discussion that has a comment
    p elsewhere. *)
Definition lone_placeholder : state :=
  State [more "m1" 5; comment "p" "t3_1" true 1] [[0]; []]
        (<["p" := 1]> ∅).

(** A service that answers the first call with a reply to p that holds a
    placeholder, the second call with a placeholder, and then nothing. *)
Definition nested_answers : list ref -> state -> ref -> option (list tree) :=
  fun log _ _ =>
    match length log with
    | 0 => Some [TComment "c1" "p" false [TMore "m2" 3 []]]
    | 1 => Some [TMore "m3" 1 []]
    | _ => Some []
    end.

(** A comment that names itself as its parent, not yet in the index. *)
Definition self_parent : state :=
  State [comment "c1" "c1" false 1] [[]; []] ∅.

(** A root comment, not yet in the index, and an empty forest. *)
Definition root_comment : state :=
  State [comment "c1" "t3_1" true 1] [[]; []] ∅.

(** A comment x in the index and a reply z to it, still to insert. *)
Definition reply_to_x : state :=
  State [comment "x" "t3_1" true 1; more "a" 1; comment "z" "x" false 2]
        [[0]; []; []]
        (<["x" := 0]> ∅).

(** A response of two root comments, attached to no discussion yet. *)
Definition root_comments : state :=
  State [comment "c1" "t3_1" true 1; comment "c2" "t3_1" true 2]
        [[0; 1]; []; []] ∅.

(** An empty top-level list (address 0) and a response that holds one
    placeholder (list at address 1). *)
Definition fetched_placeholder : state :=
  State [more "m3" 1] [[]; [0]] ∅.

(** A service that answers the comment x again. *)
Definition answers_x : list ref -> state -> ref -> option (list tree) :=
  fun _ _ _ => Some [TComment "x" "t3_1" true []].

(** A service that answers every placeholder with one new root comment,
    under a name longer than every name of the store. *)
Definition longest (s : state) : nat :=
  fold_right (fun o n => Nat.max (String.length (obj_name o)) n) 0 (objs s).

Fixpoint long_name (n : nat) : string :=
  match n with
  | O => EmptyString
  | S n => String "n" (long_name n)
  end.

Definition new_root : list ref -> state -> ref -> option (list tree) :=
  fun _ s _ => Some [TComment (long_name (S (longest s))) "t3_1" true []].

(** A reply whose parent is not in the index. *)
Definition missing_parent : state :=
  State [comment "q" "gone" false 1] [[]; []] ∅.

(** Two top-level placeholders with pending counts 3 and 15, as a gather
    leaves them. *)
Definition gathered_counts : state :=
  State [OMore (MoreComments.Build "a" 3 [] (Some 0) None);
         OMore (MoreComments.Build "b" 15 [] (Some 0) None)]
        [[0; 1]] ∅.

(** * Reddit: a shallow embedding of parts of [asyncpraw/reddit.py]

    The methods of the [Reddit] class that decide something themselves:
    the rate-limit back-off of [post], the batching and the argument
    check of [info], [random_subreddit], and the switch between the
    read-only and the authorized session.  What they call outside the
    module (the objector, the sessions of asyncprawcore, [asyncio.sleep])
    is a parameter; the calls made are recorded in a trace. *)

Module Reddit.

(** ** Python values *)

(** The exceptions the module raises itself or lets a built-in raise. *)
Inductive pyexn :=
| TypeError (msg : string)
| ValueError
| AttributeError
| IndexError
| ClientException (msg : string).

Inductive result (A : Type) :=
| Return (a : A)
| Raises (e : pyexn).
Arguments Return {A} a.
Arguments Raises {A} e.

(** A number: Python keeps [int] and [float] apart. *)
Inductive num :=
| PyInt (z : Z)
| PyFloat (f : float).

(** [float(z)]; exact for the integers that occur here (below 2^53). *)
Definition float_of_int (z : Z) : float :=
PrimFloat.of_uint63 (Uint63.of_Z z).

(** [a / b] on integers: true division, a float. *)
Definition truediv (a b : Z) : float :=
PrimFloat.div (float_of_int a) (float_of_int b).

(** [min(a, b)] for a float [a] and an integer [b]: the built-in keeps
  its first argument unless a later one is smaller. *)
Definition min_ (a : float) (b : Z) : num :=
if PrimFloat.ltb (float_of_int b) a then PyInt b else PyFloat a.

(** [a + x] for an integer [a]. *)
Definition add (a : Z) (x : num) : num :=
match x with
| PyInt b => PyInt (a + b)
| PyFloat f => PyFloat (PrimFloat.add (float_of_int a) f)
end.

(** [int(s)] for a string of decimal digits; [None] stands for the
  [ValueError] of other strings (of the strings Python accepts beyond
  these, with a sign, blanks or underscores, none is a string of
  digits). *)
Definition digit_of (c : ascii) : option Z :=
let n := nat_of_ascii c in
if decide (48 <= n <= 57) then Some (Z.of_nat (n - 48)) else None.

Fixpoint int_digits (acc : Z) (s : string) : option Z :=
match s with
| EmptyString => Some acc
| String c s' =>
    match digit_of c with
    | Some d => int_digits (10 * acc + d) s'
    | None => None
    end
end.

Definition int_ (s : string) : option Z :=
match s with
| EmptyString => None
| String _ _ => int_digits 0 s
end.

(** [needle in hay] on strings. *)
Fixpoint contains (needle hay : string) : bool :=
if String.prefix needle hay then true
else match hay with
     | EmptyString => false
     | String _ hay' => contains needle hay'
     end.

(** [s.split(sep)] for a separator of one character. *)
Fixpoint split (sep : ascii) (s : string) : list string :=
match s with
| EmptyString => [EmptyString]
| String c s' =>
    if decide (c = sep) then EmptyString :: split sep s'
    else match split sep s' with
         | h :: t => String c h :: t
         | [] => [String c EmptyString]
         end
end.

(** ** Regular expressions

  The fragment of [re] that [_ratelimit_regex] is written in, with the
  semantics of the library: backtracking, alternatives from left to
  right, greedy repetition, numbered groups; [search] takes the
  leftmost position at which the pattern matches. *)

Inductive regex :=
| Eps
| Chr (c : ascii)                  (* a literal character *)
| Range (lo hi : ascii)            (* [lo-hi] *)
| Seq (r1 r2 : regex)
| Alt (r1 r2 : regex)              (* r1|r2 *)
| Opt (r : regex)                  (* r? *)
| Rep (min max : nat) (r : regex)  (* r{min,max} *)
| Group (i : nat) (r : regex).     (* (r), the group number i *)

(** Match [r] at [pos], then go on with [k]; the groups matched so far
  are in [caps]. *)
Fixpoint rmatch {R} (r : regex) (s : string) (pos : nat)
  (caps : gmap nat string) (k : nat -> gmap nat string -> option R)
  : option R :=
match r with
| Eps => k pos caps
| Chr c =>
    match String.get pos s with
    | Some c' => if decide (c' = c) then k (S pos) caps else None
    | None => None
    end
| Range lo hi =>
    match String.get pos s with
    | Some c' =>
        if decide (nat_of_ascii lo <= nat_of_ascii c' <= nat_of_ascii hi)
        then k (S pos) caps else None
    | None => None
    end
| Seq r1 r2 =>
    rmatch r1 s pos caps (fun pos' caps' => rmatch r2 s pos' caps' k)
| Alt r1 r2 =>
    match rmatch r1 s pos caps k with
    | Some x => Some x
    | None => rmatch r2 s pos caps k
    end
| Opt r =>
    match rmatch r s pos caps k with
    | Some x => Some x
    | None => k pos caps
    end
| Rep min max r =>
    (fix rep (min max : nat) (pos : nat) (caps : gmap nat string)
       : option R :=
       match max with
       | O => match min with O => k pos caps | S _ => None end
       | S max' =>
           match rmatch r s pos caps
                   (fun pos' caps' => rep (pred min) max' pos' caps') with
           | Some x => Some x
           | None => match min with O => k pos caps | S _ => None end
           end
       end) min max pos caps
| Group i r =>
    rmatch r s pos caps
      (fun pos' caps' =>
         k pos' (<[i := substring pos (pos' - pos) s]> caps'))
end.

(** A literal word. *)
Fixpoint lit (s : string) : regex :=
match s with
| EmptyString => Eps
| String c s' => Seq (Chr c) (lit s')
end.

(** [fuel] bounds the positions still to try after [pos]. *)
Fixpoint search_from (fuel : nat) (r : regex) (s : string) (pos : nat)
  : option (gmap nat string) :=
match rmatch r s pos ∅ (fun _ caps => Some caps) with
| Some caps => Some caps
| None =>
    match fuel with
    | O => None
    | S fuel => search_from fuel r s (S pos)
    end
end.

(** [r.search(s)]: the groups of the leftmost match, if there is one. *)
Definition search (r : regex) (s : string) : option (gmap nat string) :=
search_from (String.length s) r s 0.

(** ** [_handle_rate_limit] *)

(** [re.compile(r"([0-9]{1,2}) (seconds?|minutes?)")] *)
Definition _ratelimit_regex : regex :=
Seq (Group 1 (Rep 1 2 (Range "0" "9")))
    (Seq (Chr " ")
         (Group 2 (Alt (Seq (lit "second") (Opt (Chr "s")))
                       (Seq (lit "minute") (Opt (Chr "s")))))).

(** An item of a [RedditAPIException]. *)
Record RedditErrorItem := ErrorItem {
error_type : string;
message : string;
field : option string
}.

(** [ratelimit_seconds] is [int(self.config.ratelimit_seconds)]. A
  group that took no part in the match is [None] in Python, and
  [int(None)] a [TypeError]. *)
Fixpoint _handle_rate_limit (ratelimit_seconds : Z)
  (items : list RedditErrorItem) : result (option num) :=
match items with
| [] => Return None
| item :: items =>
    if decide (error_type item = "RATELIMIT") then
      match search _ratelimit_regex (message item) with
      | None => Return None
      | Some amount_search =>
          match amount_search !! 1, amount_search !! 2 with
          | Some g1, Some g2 =>
              match int_ g1 with
              | None => Raises ValueError
              | Some seconds =>
                  let seconds :=
                    if contains "minute" g2 then (seconds * 60)%Z
                    else seconds in
                  if (seconds <=? ratelimit_seconds)%Z then
                    let sleep_seconds :=
                      add seconds (min_ (truediv seconds 10) 1) in
                    Return (Some sleep_seconds)
                  else _handle_rate_limit ratelimit_seconds items
              end
          | _, _ => Raises (TypeError "int() argument")
          end
      end
    else _handle_rate_limit ratelimit_seconds items
end.

(** The delay [x] stands for the [seconds] read from a message: one
  second more when they are more than ten, and a float between
  [seconds] and [seconds + 1] otherwise. *)
Definition delay_ok (x : num) (seconds : Z) : bool :=
match x with
| PyInt z => (10 <? seconds)%Z && (z =? seconds + 1)%Z
| PyFloat f =>
    (seconds <=? 10)%Z && PrimFloat.leb (float_of_int seconds) f
    && PrimFloat.leb f (float_of_int (seconds + 1))
end.


(** The message [msg] holds the text [t] at the position [pos]. *)
Definition holds_at (msg : string) (pos : nat) (t : string) : Prop :=
substring pos (String.length t) msg = t.

(** The text of a delay: a count, a blank and a unit. *)
Definition delay_text (count unit_ : string) : string :=
count +:+ " " +:+ unit_.

(** A count of one or two digits, and its value. *)
Definition is_count (count : string) (n : Z) : Prop :=
1 <= String.length count <= 2 /\ int_ count = Some n.

(** The seconds of a unit. *)
Definition unit_seconds (unit_ : string) : option Z :=
if decide (unit_ ∈ ["seconds"; "second"]) then Some 1%Z
else if decide (unit_ ∈ ["minutes"; "minute"]) then Some 60%Z
else None.

(** The delay [x] was read from [msg]: at the first position where the
  message holds a count and a unit, it holds [seconds] seconds, and
  [x] is that delay with its margin. *)
Definition read_from (msg : string) (seconds : Z) (x : num) : Prop :=
exists pos count unit_ n k,
  is_count count n /\ unit_seconds unit_ = Some k /\
  holds_at msg pos (delay_text count unit_) /\
  (forall pos' count' unit' n' k',
     pos' < pos -> is_count count' n' -> unit_seconds unit' = Some k' ->
     ~ holds_at msg pos' (delay_text count' unit')) /\
  seconds = (n * k)%Z /\ delay_ok x seconds = true.

(** The table of the delays that can arise: the counts from 0 to 99, as
  seconds and as minutes. *)
Definition delay_checked (n : nat) : bool :=
let check (seconds : Z) :=
  delay_ok (add seconds (min_ (truediv seconds 10) 1)) seconds in
check (Z.of_nat n) && check (Z.of_nat n * 60)%Z.


(** ** Requests *)

(** The body of a request: a dictionary, bytes, a string or a file. *)
Inductive body (A : Type) :=
| Dict (d : list (string * A))
| Bytes (b : string)
| Str (s : string)
| File (fd : nat).
Arguments Dict {A} d.
Arguments Bytes {A} b.
Arguments Str {A} s.
Arguments File {A} fd.

(** Truth value: an empty dictionary, empty bytes and the empty string
  are false. *)
Definition truthy {A} (b : body A) : bool :=
match b with
| Dict [] => false
| Bytes EmptyString => false
| Str EmptyString => false
| _ => true
end.

(** A value of a dictionary of query parameters. *)
Inductive pval :=
| VStr (s : string)
| VInt (z : Z).

Inductive params :=
| PStr (s : string)
| PDict (d : list (string * pval)).

(** A [Subreddit], or a name: the items that [info] accepts as
  [subreddits]. *)
Inductive name_item (Sub : Type) :=
| NameStr (s : string)
| NameSub (x : Sub).
Arguments NameStr {Sub} s.
Arguments NameSub {Sub} x.

(** An argument that is to be iterated: a string, or another iterable,
  given by its items. *)
Inductive iterable (A : Type) :=
| IsStr (s : string)
| Items (l : list A).
Arguments IsStr {A} s.
Arguments Items {A} l.

(** The generator that [info] returns. *)
Inductive generator (Sub : Type) :=
| GenFullnames (names : list string)
| GenSubreddits (names : list (name_item Sub))
| GenUrl (url : string).
Arguments GenFullnames {Sub} names.
Arguments GenSubreddits {Sub} names.
Arguments GenUrl {Sub} url.

Section requests.
(** JSON payloads, file mappings, dictionary values, parsed objects,
  exceptions of the collaborators, [Subreddit] instances. *)
Context {J F A V X Sub : Type}.

(** The keyword arguments of [_objectify_request]. *)
Record call := Call {
data : option (body A);
files : option F;
json : option J;
method : string;
params_ : option params;
path : string
}.

Inductive error :=
| RedditAPIException (items : list RedditErrorItem)
| Redirect (redirect_path : string)
| Python (e : pyexn)
| Other (e : X).

(** What happens outside: requests, sleeps, fetches of a subreddit. *)
Inductive event :=
| Request (c : call)
| Sleep (seconds : num)
| FetchSubreddit (display_name : string).

(** [self._objectify_request]: its answer may depend on what happened
  before. *)
Variable _objectify_request : list event -> call -> V + error.

(** [models.Subreddit(self, display_name)], which may raise, and
  [subreddit._fetch()] *)
Variable Subreddit : string -> Sub + error.
Variable _fetch : list event -> Sub -> option error.

(** [int(self.config.ratelimit_seconds)] *)
Variable ratelimit_seconds : Z.

(** [API_PATH["info"]], and [API_PATH["subreddit"].format(subreddit=x)] *)
Variable API_PATH_info : string.
Variable API_PATH_subreddit : string -> string.

(** [str(item)] of a [Subreddit], and the items of a parsed listing. *)
Variable str_ : Sub -> string.
Variable elements : V -> list V.

Definition M (T : Type) : Type := list event -> (T + error) * list event.

(** One call of [self._objectify_request]. *)
Definition request_ (c : call) : M V :=
fun tr => (_objectify_request tr c, tr ++ [Request c]).

Definition get (path : string) (params : option params) : M V :=
request_ (Call None None None "GET" params path).

(** [data or {}] *)
Definition or_empty (data : option (body A)) : body A :=
match data with
| Some d => if truthy d then d else Dict []
| None => Dict []
end.

(** The message of [logger.debug] is not part of the model. *)
Definition post (path : string) (data : option (body A)) (files : option F)
  (params : option params) (json : option J) : M V :=
fun tr =>
  let data :=
    match json with
    | None => Some (or_empty data)
    | Some _ => data
    end in
  match request_ (Call data files json "POST" params path) tr with
  | (inr (RedditAPIException items), tr) =>
      match _handle_rate_limit ratelimit_seconds items with
      | Return (Some seconds) =>
          request_ (Call data files None "POST" params path)
            (tr ++ [Sleep seconds])
      | Return None => (inr (RedditAPIException items), tr)
      | Raises e => (inr (Python e), tr)
      end
  | (r, tr) => (r, tr)
  end.

(** *** [info] *)

Definition is_None {T} (x : option T) : bool :=
match x with None => true | Some _ => false end.

Definition info_TypeError_one : string :=
"Either `fullnames`, `url`, or `subreddits` must be provided.".

Definition info_TypeError_str : string :=
"`fullnames` and `subreddits` must be a non-str iterable.".

(** [(a, b, c).count(None)] *)
Definition none_count {T1 T2 T3} (a : option T1) (b : option T2)
  (c : option T3) : nat :=
List.length (List.filter (fun x : bool => x)
               [is_None a; is_None b; is_None c]).

Definition info (fullnames : option (iterable string)) (url : option string)
  (subreddits : option (iterable (name_item Sub)))
  : result (generator Sub) :=
if negb (none_count fullnames url subreddits =? 2)%nat
then Raises (TypeError info_TypeError_one)
else
  match fullnames with
  | Some (IsStr _) => Raises (TypeError info_TypeError_str)
  | Some (Items names) => Return (GenFullnames names)
  | None =>
      match subreddits with
      | Some (IsStr _) => Raises (TypeError info_TypeError_str)
      | Some (Items names) => Return (GenSubreddits names)
      | None =>
          match url with
          | Some u => Return (GenUrl u)
          | None => Raises (TypeError info_TypeError_one)
          end
      end
  end.

Definition str_item (item : name_item Sub) : string :=
match item with
| NameStr s => s
| NameSub x => str_ x
end.

(** The [while True] loop of the generator over names, run until the
  generator is exhausted: what it yields, how it ends ([None] after
  the last chunk), and the trace. [None] as a whole stands for a
  bound [fuel] that was too small. *)
Fixpoint info_loop (fuel : nat) (api_parameter_name : string)
  (iterable : list string) (yielded : list V) (tr : list event)
  : option (list V * option error * list event) :=
let chunk := take 100 iterable in
match chunk with
| [] => Some (yielded, None, tr)
| _ :: _ =>
    match fuel with
    | O => None
    | S fuel =>
        let params :=
          PDict [(api_parameter_name, VStr (String.concat "," chunk))] in
        match get API_PATH_info (Some params) tr with
        | (inl v, tr) =>
            info_loop fuel api_parameter_name (drop 100 iterable)
              (yielded ++ elements v) tr
        | (inr e, tr) => Some (yielded, Some e, tr)
        end
    end
end.

(** Running a generator of [info] to its end. *)
Definition drain (g : generator Sub) (tr : list event)
  : option (list V * option error * list event) :=
match g with
| GenFullnames names => info_loop (S (length names)) "id" names [] tr
| GenSubreddits names =>
    info_loop (S (length names)) "sr_name" (map str_item names) [] tr
| GenUrl url =>
    match get API_PATH_info (Some (PDict [("url", VStr url)])) tr with
    | (inl v, tr) => Some (elements v, None, tr)
    | (inr e, tr) => Some ([], Some e, tr)
    end
end.

(** The request for a chunk of names. *)
Definition info_request (api_parameter_name : string) (chunk : list string)
  : call :=
Call None None None "GET"
  (Some (PDict [(api_parameter_name, VStr (String.concat "," chunk))]))
  API_PATH_info.

Definition info_call (api_parameter_name : string) (chunk : list string)
  : event :=
Request (info_request api_parameter_name chunk).

(** The answer to the request for the [i]-th of the [chunks], made
  after the requests for the chunks before it. *)
Definition answer (api_parameter_name : string)
  (chunks : list (list string)) (tr : list event) (i : nat)
  : option (V + error) :=
match chunks !! i with
| Some chunk =>
    Some (_objectify_request
            (tr ++ map (info_call api_parameter_name) (take i chunks))
            (info_request api_parameter_name chunk))
| None => None
end.

(** A drained generator went through [names] in batches: [chunks] are
  the consecutive chunks of 100 names, the last one of what is left.
  The requests were made chunk by chunk; [vs] are the answers of
  those that returned, whose items were yielded. Either every chunk
  was requested and answered, or the request after those answered
  raised the exception that ended the run, and was the last one. *)
Definition batched (api_parameter_name : string) (names : list string)
  (yielded : list V) (tr : list event)
  (res : list V * option error * list event) : Prop :=
exists chunks vs,
  concat chunks = names /\
  length chunks = (length names + 99) / 100 /\
  Forall (fun c => 0 < length c <= 100) chunks /\
  (forall i c, chunks !! i = Some c -> S i < length chunks ->
     length c = 100) /\
  (forall i v, vs !! i = Some v ->
     answer api_parameter_name chunks tr i = Some (inl v)) /\
  res.1.1 = yielded ++ flat_map elements vs /\
  match res.1.2 with
  | None =>
      length vs = length chunks /\
      res.2 = tr ++ map (info_call api_parameter_name) chunks
  | Some e =>
      answer api_parameter_name chunks tr (length vs) = Some (inr e) /\
      res.2 = tr ++ map (info_call api_parameter_name)
                      (take (S (length vs)) chunks)
  end.

(** *** [random_subreddit] *)

(** [self._next_unique]: the value of the counter, which it advances. *)
Definition _next_unique (counter : Z) : Z * Z := (counter, (counter + 1)%Z).

(** The result is the [Subreddit] returned, with the new value of the
  counter; the fetch is recorded with the name the subreddit was
  made from. *)
Definition random_subreddit (nsfw : bool) (counter : Z)
  : list event -> (Sub + error) * Z * list event :=
fun tr =>
  let url := API_PATH_subreddit (if nsfw then "randnsfw" else "random") in
  let '(unique, counter) := _next_unique counter in
  let '(r, tr) := get url (Some (PDict [("unique", VInt unique)])) tr in
  let finish (path : option string) :=
    match path with
    | None => (inr (Python AttributeError), counter, tr)
    | Some p =>
        match split "/" p !! 2 with
        | None => (inr (Python IndexError), counter, tr)
        | Some name =>
            match Subreddit name with
            | inr e => (inr e, counter, tr)
            | inl subreddit =>
                match _fetch tr subreddit with
                | Some e => (inr e, counter, tr ++ [FetchSubreddit name])
                | None =>
                    (inl subreddit, counter, tr ++ [FetchSubreddit name])
                end
            end
        end
    end in
  match r with
  | inl _ => finish None
  | inr (Redirect p) => finish (Some p)
  | inr e => (inr e, counter, tr)
  end.
End requests.

(** ** The sessions *)

(** A setting of the configuration: not given, [None], or a value. *)
Inductive setting :=
| CONFIG_NOT_SET
| PyNone
| Value (s : string).

(** The settings of [self.config] that the sessions depend on. *)
Record Config := MkConfig {
client_id : setting;
client_secret : setting;
redirect_uri : setting;
username : setting;
password : setting;
_do_not_use_refresh_token : setting
}.

Inductive authenticator :=
| TrustedAuthenticator (client_id client_secret redirect_uri : setting)
| UntrustedAuthenticator (client_id redirect_uri : setting).

Inductive authorizer :=
| ReadOnlyAuthorizer (a : authenticator)
| DeviceIDAuthorizer (a : authenticator)
| ScriptAuthorizer (a : authenticator) (username password : setting)
| Authorizer (a : authenticator) (refresh_token : option setting)
  (callbacks : bool).

(** A session object; [session_id] is its identity. *)
Record session := Session {
session_id : nat;
session_authorizer : authorizer
}.

(** The attributes of a [Reddit] instance that the sessions depend on;
  [sessions_made] numbers the sessions as they are created. *)
Record reddit := Build {
_core : option session;
_authorized_core : option session;
_read_only_core : option session;
_token_manager : bool;              (* [self._token_manager is not None] *)
config : Config;
sessions_made : nat
}.

(** [session(authorizer)]: a new object. *)
Definition new_session (a : authorizer) (self : reddit) : session * reddit :=
(Session (sessions_made self) a,
 Build (_core self) (_authorized_core self) (_read_only_core self)
   (_token_manager self) (config self) (S (sessions_made self))).

Definition set_cores (core authorized read_only : option session)
  (self : reddit) : reddit :=
Build core authorized read_only (_token_manager self) (config self)
  (sessions_made self).

(** [x == y] on sessions: the identity of the objects. *)
Definition same_session (x y : option session) : bool :=
match x, y with
| None, None => true
| Some a, Some b => (session_id a =? session_id b)%nat
| _, _ => false
end.

(** The property [read_only] and its setter. *)
Definition read_only (self : reddit) : bool :=
same_session (_core self) (_read_only_core self).

Definition read_only_message : string :=
"read_only cannot be unset as only the ReadOnlyAuthorizer is available.".

Definition set_read_only (value : bool) (self : reddit) : result reddit :=
if value then
  Return (set_cores (_read_only_core self) (_authorized_core self)
            (_read_only_core self) self)
else
  match _authorized_core self with
  | None => Raises (ClientException read_only_message)
  | Some _ =>
      Return (set_cores (_authorized_core self) (_authorized_core self)
                (_read_only_core self) self)
  end.

Definition refresh_token_message : string :=
"legacy ``refresh_token`` setting cannot be provided when providing ``token_manager``".

Definition is_set (x : setting) : bool :=
match x with CONFIG_NOT_SET => false | _ => true end.

Definition _prepare_common_authorizer (a : authenticator) (self : reddit)
  : result reddit :=
let refresh_token := _do_not_use_refresh_token (config self) in
if _token_manager self then
  if is_set refresh_token then
    Raises (TypeError refresh_token_message)
  else
    let '(s, self) := new_session (Authorizer a None true) self in
    Return (set_cores (Some s) (Some s) (_read_only_core self) self)
else if is_set refresh_token then
  let '(s, self) :=
    new_session (Authorizer a (Some refresh_token) false) self in
  Return (set_cores (Some s) (Some s) (_read_only_core self) self)
else
  Return (set_cores (_read_only_core self) (_authorized_core self)
            (_read_only_core self) self).

Definition _prepare_untrusted_asyncprawcore (self : reddit) : result reddit :=
let authenticator :=
  UntrustedAuthenticator (client_id (config self))
    (redirect_uri (config self)) in
let '(s, self) := new_session (DeviceIDAuthorizer authenticator) self in
let self := set_cores (_core self) (_authorized_core self) (Some s) self in
_prepare_common_authorizer authenticator self.

Section truth.
(** [bool(x)] of a setting, as the class of the configuration defines
  it. *)
Variable truth : setting -> bool.

Definition _prepare_trusted_asyncprawcore (self : reddit) : result reddit :=
let authenticator :=
  TrustedAuthenticator (client_id (config self))
    (client_secret (config self)) (redirect_uri (config self)) in
let '(s, self) := new_session (ReadOnlyAuthorizer authenticator) self in
let self := set_cores (_core self) (_authorized_core self) (Some s) self in
if truth (username (config self)) && truth (password (config self)) then
  let '(s, self) :=
    new_session
      (ScriptAuthorizer authenticator (username (config self))
         (password (config self))) self in
  Return (set_cores (Some s) (Some s) (_read_only_core self) self)
else _prepare_common_authorizer authenticator self.

(** The sessions that [_prepare_asyncprawcore] sets up; the requestor
  it builds first is not part of the model. *)
Definition _prepare_asyncprawcore (self : reddit) : result reddit :=
if truth (client_secret (config self))
then _prepare_trusted_asyncprawcore self
else _prepare_untrusted_asyncprawcore self.
End truth.

(** The attributes as [__init__] sets them before it prepares the
  sessions. *)
Definition fresh (token_manager : bool) (config : Config) : reddit :=
Build None None None token_manager config 0.

(** A script is authorized by name and password: a trusted client with
  both of them set. *)
Definition script (truth : setting -> bool) (config : Config) : bool :=
truth (client_secret config) && truth (username config)
&& truth (password config).

(** The number of "/" in a path, and a piece of a path: a string
  without "/". *)
Definition slashes (s : string) : nat :=
List.length (List.filter (Ascii.eqb "/") (list_ascii_of_string s)).

Definition no_slash (s : string) : Prop := slashes s = 0.

(** ** Examples *)

(** A service that answers the first request with a rate limit of five
  seconds and every later one normally. *)
Definition rate_limited_once
  : list (@event string unit string) -> @call string unit string
    -> string + @error unit :=
fun tr _ =>
  match tr with
  | [] => inr (RedditAPIException
                 [ErrorItem "RATELIMIT"
                    "Looks like you've been doing that a lot. Take a break for 5 seconds before trying again."
                    (Some "ratelimit")])
  | _ :: _ => inl "ok"
  end.

(** A service that redirects every request to r/redditdev. *)
Definition redirects
  : list (@event string unit string) -> @call string unit string
    -> string + @error unit :=
fun _ _ => inr (Redirect "/r/redditdev/?unique=0").

(** Three error items: the second one is a rate limit without a delay. *)
Definition no_delay_first : list RedditErrorItem :=
[ErrorItem "BAD_SR_NAME" "that name isn't going to work" (Some "sr")]
++ ErrorItem "RATELIMIT" "you are doing that too much" None
:: [ErrorItem "RATELIMIT" "try again in 5 seconds" None].

(** The subreddit paths, and a subreddit that is always fetched. *)
Definition subreddit_path (subreddit : string) : string :=
"r/" +:+ subreddit +:+ "/".

Definition fetched : list (@event string unit string) -> string
  -> option (@error unit) :=
fun _ _ => None.

(** A subreddit that is its name; the empty name is refused. *)
Definition named_subreddit (display_name : string) : string + @error unit :=
match display_name with
| EmptyString => inr (Python ValueError)
| String _ _ => inl display_name
end.

End Reddit.

(** * Proofs *)

(** Linear arithmetic with the division by two of the heap indices. *)
Ltac dlia := zify; Z.to_euclidean_division_equations; lia.

(** ** [heapq]: the list keeps its elements *)

Section heapq_perm.
Context {A : Type} (less : A -> A -> bool).

Lemma cons_insert_perm (h : list A) (j : nat) (b x : A) :
  h !! j = Some b -> b :: <[j := x]> h ≡ₚ x :: h.
Proof.
  revert j. induction h as [|y h IH]; intros [|j] Hj; simplify_eq/=.
  - apply perm_swap.
  - rewrite perm_swap, (IH _ Hj). apply perm_swap.
Qed.

(** Moving the element at [j] into the hole at [i] and making [j] the
    new hole keeps the elements. *)
Lemma insert_swap_perm (h : list A) (i j : nat) (b x : A) :
  h !! j = Some b -> i <> j -> i < length h ->
  <[j := x]> (<[i := b]> h) ≡ₚ <[i := x]> h.
Proof.
  revert i j. induction h as [|y h IH]; intros [|i] [|j] Hj Hne Hi;
    simplify_eq/=; try lia.
  - by apply cons_insert_perm.
  - destruct (lookup_lt_is_Some_2 h i) as [a Ha]; [lia|].
    apply (Permutation_cons_inv (a := a)).
    rewrite (perm_swap x a), (perm_swap b a), !(cons_insert_perm _ _ _ _ Ha).
    apply perm_swap.
  - f_equiv. apply IH; [done | lia | lia].
Qed.

Lemma _siftdown_loop_perm fuel (heap : list A) newitem startpos pos :
  pos < length heap ->
  _siftdown_loop less fuel heap newitem startpos pos ≡ₚ <[pos := newitem]> heap.
Proof.
  revert heap pos.
  induction fuel as [|fuel IH]; intros heap pos Hpos; cbn [_siftdown_loop].
  - done.
  - case_decide as Hlt; [|done].
    destruct (heap !! ((pos - 1) / 2)) as [parent|] eqn:Hp.
    + destruct (less newitem parent); [|done].
      rewrite IH by (rewrite length_insert; dlia).
      apply insert_swap_perm; [done | dlia | done].
    + apply lookup_ge_None in Hp. dlia.
Qed.

Lemma _siftdown_perm (heap : list A) startpos pos :
  _siftdown less heap startpos pos ≡ₚ heap.
Proof.
  unfold _siftdown. destruct (heap !! pos) as [x|] eqn:Hx; [|done].
  rewrite _siftdown_loop_perm by (by eapply lookup_lt_Some).
  by rewrite list_insert_id.
Qed.

Lemma _siftup_loop_perm fuel (heap : list A) endpos pos childpos heap' pos' x :
  pos < length heap -> pos < childpos ->
  _siftup_loop less fuel heap endpos pos childpos = (heap', pos') ->
  pos' < length heap' /\ <[pos' := x]> heap' ≡ₚ <[pos := x]> heap.
Proof.
  revert heap pos childpos.
  induction fuel as [|fuel IH]; intros heap pos childpos Hpos Hc;
    cbn [_siftup_loop].
  - intros [= <- <-]. done.
  - case_decide as Hlt; [|by intros [= <- <-]].
    destruct (heap !! childpos) as [c|] eqn:Hcp; [|by intros [= <- <-]].
    set (childpos' := match heap !! (childpos + 1) with
                      | Some r => if bool_decide (childpos + 1 < endpos)
                                      && negb (less c r)
                                  then childpos + 1 else childpos
                      | None => childpos end).
    assert (childpos' = childpos \/ childpos' = childpos + 1) as Hcase.
    { unfold childpos'. destruct (heap !! (childpos + 1)); [|by left].
      destruct (_ && _); auto. }
    destruct (heap !! childpos') as [c'|] eqn:Hc'; [|by intros [= <- <-]].
    intros Hloop. apply IH in Hloop as [Hlen Hperm].
    + split; [done|]. rewrite Hperm.
      apply insert_swap_perm; [done | lia | done].
    + rewrite length_insert. by eapply lookup_lt_Some.
    + lia.
Qed.

Lemma _siftup_perm (heap : list A) pos : _siftup less heap pos ≡ₚ heap.
Proof.
  unfold _siftup. destruct (heap !! pos) as [x|] eqn:Hx; [|done].
  destruct (_siftup_loop _ _ _ _ _ _) as [heap' pos'] eqn:Hloop.
  apply _siftup_loop_perm with (x := x) in Hloop as [Hlen Hperm];
    [| by eapply lookup_lt_Some | lia].
  rewrite _siftdown_perm, Hperm. by rewrite list_insert_id.
Qed.

Lemma heappush_perm (heap : list A) item :
  heappush less heap item ≡ₚ item :: heap.
Proof.
  unfold heappush. rewrite _siftdown_perm.
  by rewrite Permutation_app_comm.
Qed.

Lemma heappop_None (heap : list A) : heappop less heap = None <-> heap = [].
Proof.
  unfold heappop. destruct (last heap) eqn:Hl.
  - split; [|by intros ->]. by destruct (removelast heap).
  - apply last_None in Hl. by subst.
Qed.

Lemma heappop_perm (heap : list A) item heap' :
  heappop less heap = Some (item, heap') -> heap ≡ₚ item :: heap'.
Proof.
  unfold heappop. destruct (last heap) as [lastelt|] eqn:Hl; [|done].
  apply last_Some in Hl as [front ->].
  rewrite removelast_last.
  destruct front as [|returnitem front]; intros [= <- <-].
  - done.
  - rewrite _siftup_perm. simpl. f_equiv.
    symmetry. apply Permutation_cons_append.
Qed.
End heapq_perm.

(** ** [heapq]: the heap invariant *)

Section heapq_order.
Context {A : Type} (less : A -> A -> bool) (key : A -> Z).
Hypothesis less_key : forall a b, less a b = bool_decide (key a > key b)%Z.

Lemma _siftdown_loop_ordered fuel (heap : list A) newitem pos :
  pos <= fuel -> pos < length heap ->
  ordered_except key (<[pos := newitem]> heap) pos ->
  children_le key (<[pos := newitem]> heap) pos ->
  heap_ordered key (_siftdown_loop less fuel heap newitem 0 pos).
Proof.
  revert heap pos.
  induction fuel as [|fuel IH]; intros heap pos Hfuel Hpos Hexc Hch;
    cbn [_siftdown_loop].
  - intros i x y Hi. apply Hexc; lia.
  - case_decide as Hlt.
    2:{ intros i x y Hi. apply Hexc; lia. }
    destruct (heap !! ((pos - 1) / 2)) as [parent|] eqn:Hp.
    2:{ apply lookup_ge_None in Hp. dlia. }
    set (pp := (pos - 1) / 2) in *.
    assert (pp < pos) as Hpp by (unfold pp; dlia).
    assert (<[pos := newitem]> heap !! pp = Some parent) as HHpp
      by (by rewrite list_lookup_insert_ne by lia).
    rewrite less_key. case_bool_decide as Hcmp.
    + apply IH; [lia | rewrite length_insert; lia | |].
      * intros i x y Hi Hne Hx Hy.
        rewrite list_lookup_insert_ne in Hx by done.
        destruct (decide (i = pos)) as [->|Hnpos].
        { fold pp in Hy.
          rewrite list_lookup_insert_eq in Hx by done.
          rewrite list_lookup_insert_eq in Hy by (rewrite length_insert; lia).
          simplify_eq. lia. }
        rewrite list_lookup_insert_ne in Hx by done.
        assert (<[pos := newitem]> heap !! i = Some x) as HHx
          by (by rewrite list_lookup_insert_ne).
        destruct (decide ((i - 1) / 2 = pp)) as [Hpar|Hnpar].
        { rewrite Hpar, list_lookup_insert_eq in Hy
            by (rewrite length_insert; lia).
          assert (key x <= key parent)%Z; [|simplify_eq; lia].
          apply (Hexc i x parent); [done|done|done|by rewrite Hpar]. }
        rewrite list_lookup_insert_ne in Hy by done.
        destruct (decide ((i - 1) / 2 = pos)) as [Hpar'|Hnpar'].
        { rewrite Hpar', list_lookup_insert_eq in Hy by done. simplify_eq.
          apply (Hch i x y); [lia|done|done|done|done]. }
        rewrite list_lookup_insert_ne in Hy by done.
        apply (Hexc i x y); [done|done|done|].
        by rewrite list_lookup_insert_ne.
      * intros i x y Hpp0 Hi Hpar Hx Hy.
        rewrite list_lookup_insert_ne in Hx by lia.
        rewrite !list_lookup_insert_ne in Hy by dlia.
        assert (<[pos := newitem]> heap !! ((pp - 1) / 2) = Some y) as HHy
          by (by rewrite list_lookup_insert_ne by dlia).
        assert (key parent <= key y)%Z as Hpy
          by (apply (Hexc pp parent y); [done|lia|done|done]).
        destruct (decide (i = pos)) as [->|Hnpos].
        { rewrite list_lookup_insert_eq in Hx by done. by simplify_eq. }
        rewrite list_lookup_insert_ne in Hx by done.
        assert (key x <= key parent)%Z; [|lia].
        apply (Hexc i x parent); [done|done| |by rewrite Hpar].
        by rewrite list_lookup_insert_ne.
    + intros i x y Hi Hx Hy.
      destruct (decide (i = pos)) as [->|Hne].
      * rewrite list_lookup_insert_eq in Hx by done.
        fold pp in Hy. simplify_eq. lia.
      * by apply (Hexc i x y).
Qed.

Lemma _siftdown_ordered (heap : list A) pos newitem :
  heap !! pos = Some newitem ->
  ordered_except key heap pos -> children_le key heap pos ->
  heap_ordered key (_siftdown less heap 0 pos).
Proof.
  intros Hpos Hexc Hch. unfold _siftdown. rewrite Hpos.
  apply _siftdown_loop_ordered;
    [done | by eapply lookup_lt_Some | |]; by rewrite list_insert_id.
Qed.

Lemma _siftup_loop_ordered fuel (heap : list A) endpos pos heap' pos' :
  endpos = length heap -> pos < endpos -> endpos - pos <= fuel ->
  ordered_around key heap pos -> children_le key heap pos ->
  _siftup_loop less fuel heap endpos pos (2 * pos + 1) = (heap', pos') ->
  length heap' = endpos /\ pos' < endpos /\ endpos <= 2 * pos' + 1 /\
  ordered_around key heap' pos' /\ children_le key heap' pos'.
Proof.
  revert heap pos.
  induction fuel as [|fuel IH]; intros heap pos Hend Hpos Hfuel Har Hch;
    cbn [_siftup_loop]; [lia|].
  case_decide as Hlt; [|intros [= <- <-]; repeat split; (done || lia)].
  destruct (heap !! (2 * pos + 1)) as [c|] eqn:Hc.
  2:{ apply lookup_ge_None in Hc. lia. }
  set (childpos := 2 * pos + 1) in *.
  set (childpos' := match heap !! (childpos + 1) with
                    | Some r => if bool_decide (childpos + 1 < endpos)
                                    && negb (less c r)
                                then childpos + 1 else childpos
                    | None => childpos end).
  assert (exists c', heap !! childpos' = Some c' /\
            (childpos' = childpos \/ childpos' = childpos + 1) /\
            (forall i x, 0 < i -> (i - 1) / 2 = pos -> heap !! i = Some x ->
               (key x <= key c')%Z)) as (c' & Hc' & Hcase & Hmax).
  { unfold childpos'.
    destruct (heap !! (childpos + 1)) as [r|] eqn:Hr.
    - rewrite less_key.
      assert (childpos + 1 < endpos) by (subst; by eapply lookup_lt_Some).
      rewrite bool_decide_true by done. cbn [andb].
      case_bool_decide as Hcmp; cbn [negb].
      + exists c. split; [done|]. split; [by left|].
        intros i x Hi Hpar Hx.
        assert (i = childpos \/ i = childpos + 1) as [->| ->]
          by (unfold childpos; dlia); simplify_eq; lia.
      + exists r. split; [done|]. split; [by right|].
        intros i x Hi Hpar Hx.
        assert (i = childpos \/ i = childpos + 1) as [->| ->]
          by (unfold childpos; dlia); simplify_eq; lia.
    - exists c. split; [done|]. split; [by left|].
      intros i x Hi Hpar Hx.
      assert (i = childpos \/ i = childpos + 1) as [->| ->]
        by (unfold childpos; dlia); simplify_eq. lia. }
  rewrite Hc'. intros Hloop.
  assert (pos < childpos' /\ (childpos' - 1) / 2 = pos) as [Hgt Hparc]
    by (unfold childpos in *; dlia).
  apply IH in Hloop; [done | | | | |].
  - by rewrite length_insert.
  - subst endpos. by eapply lookup_lt_Some.
  - lia.
  - intros i x y Hi Hne Hnpar Hx Hy.
    destruct (decide (i = pos)) as [->|Hnpos].
    { rewrite list_lookup_insert_eq in Hx by lia.
      rewrite list_lookup_insert_ne in Hy by dlia. simplify_eq.
      apply (Hch childpos' x y); [lia|lia|done|done|done]. }
    rewrite list_lookup_insert_ne in Hx by done.
    destruct (decide ((i - 1) / 2 = pos)) as [Hpar|Hnp].
    { rewrite Hpar, list_lookup_insert_eq in Hy by lia. simplify_eq.
      by apply (Hmax i x). }
    rewrite list_lookup_insert_ne in Hy by done.
    by apply (Har i x y).
  - intros i x y _ Hi Hpar Hx Hy.
    rewrite Hparc, list_lookup_insert_eq in Hy by lia. simplify_eq.
    rewrite list_lookup_insert_ne in Hx by dlia.
    apply (Har i x y); [done|dlia|lia|done|by rewrite Hpar].
Qed.

Lemma _siftup_ordered (heap : list A) :
  ordered_around key heap 0 -> heap_ordered key (_siftup less heap 0).
Proof.
  intros Har. unfold _siftup.
  destruct (heap !! 0) as [newitem|] eqn:Hx.
  2:{ apply lookup_ge_None in Hx. intros i x y Hi Hi'.
      apply lookup_lt_Some in Hi'. lia. }
  destruct (_siftup_loop _ _ _ _ _ _) as [heap' pos'] eqn:Hloop.
  apply (_siftup_loop_ordered _ _ (length heap) 0) in Hloop
    as (Hlen & Hpos' & Hleaf & Har' & Hch');
    [|done|by eapply lookup_lt_Some|lia|done|intros ???; lia].
  apply (_siftdown_ordered _ _ newitem).
  - by rewrite list_lookup_insert_eq by lia.
  - intros i x y Hi Hne Hx' Hy.
    rewrite list_lookup_insert_ne in Hx' by done.
    destruct (decide ((i - 1) / 2 = pos')) as [Hpar|Hnpar].
    { apply lookup_lt_Some in Hx'. dlia. }
    rewrite list_lookup_insert_ne in Hy by done.
    by apply (Har' i x y).
  - intros i x y _ Hi Hpar Hx' Hy.
    apply lookup_lt_Some in Hx'. rewrite length_insert in Hx'. dlia.
Qed.

Lemma heappush_ordered (heap : list A) item :
  heap_ordered key heap -> heap_ordered key (heappush less heap item).
Proof.
  intros Hord. unfold heappush.
  rewrite length_app, Nat.add_sub. simpl.
  apply (_siftdown_ordered _ _ item).
  - by rewrite list_lookup_middle.
  - intros i x y Hi Hne Hx Hy.
    assert (i < length heap).
    { apply lookup_lt_Some in Hx. rewrite length_app in Hx. simpl in Hx. lia. }
    rewrite lookup_app_l in Hx by done.
    rewrite lookup_app_l in Hy by dlia.
    by apply (Hord i x y).
  - intros i x y _ Hi Hpar Hx Hy.
    apply lookup_lt_Some in Hx. rewrite length_app in Hx. simpl in Hx. dlia.
Qed.

(** In an ordered heap the first element has the largest key. *)
Lemma heap_ordered_root (heap : list A) root i x :
  heap_ordered key heap -> heap !! 0 = Some root -> heap !! i = Some x ->
  (key x <= key root)%Z.
Proof.
  intros Hord Hroot. revert x.
  induction (lt_wf i) as [i _ IH]. intros x Hx.
  destruct (decide (i = 0)) as [->|Hne]; [by simplify_eq|].
  destruct (lookup_lt_is_Some_2 heap ((i - 1) / 2)) as [y Hy].
  { apply lookup_lt_Some in Hx. dlia. }
  assert (key x <= key y)%Z by (apply (Hord i x y); [lia|done|done]).
  assert (key y <= key root)%Z by (apply (IH ((i - 1) / 2)); [dlia|done]).
  lia.
Qed.

Lemma heappop_ordered (heap : list A) item heap' :
  heap_ordered key heap -> heappop less heap = Some (item, heap') ->
  heap_ordered key heap' /\ forall x, x ∈ heap' -> (key x <= key item)%Z.
Proof.
  intros Hord Hpop. split.
  - revert Hpop. unfold heappop.
    destruct (last heap) as [lastelt|] eqn:Hl; [|done].
    apply last_Some in Hl as [front ->]. rewrite removelast_last.
    destruct front as [|returnitem front]; intros [= <- <-].
    { intros i x y _ Hx. done. }
    apply _siftup_ordered.
    intros i x y Hi _ Hnpar Hx Hy.
    destruct i as [|i]; [lia|]. simpl in Hx.
    destruct ((S i - 1) / 2) as [|j] eqn:Hj; [done|]. simpl in Hy.
    apply (Hord (S i) x y); [lia| |].
    + simpl. apply lookup_app_l_Some. done.
    + rewrite Hj. simpl. by apply lookup_app_l_Some.
  - intros x Hx.
    assert (x ∈ heap) as Hin.
    { rewrite (heappop_perm less _ _ _ Hpop). by right. }
    apply list_elem_of_lookup in Hin as [i Hi].
    apply (heap_ordered_root heap item i x); [done| |done].
    revert Hpop. unfold heappop.
    destruct (last heap) as [lastelt|] eqn:Hl; [|done].
    apply last_Some in Hl as [front ->]. rewrite removelast_last.
    destruct front as [|returnitem front]; by intros [= <- <-].
Qed.
End heapq_order.

(** ** The monad *)

Lemma bind_Ok {A B} (m : M A) (k : A -> M B) s a s1 :
  m s = (Ok a, s1) -> bind m k s = k a s1.
Proof. unfold bind. by intros ->. Qed.

Lemma bind_Ok_inv {A B} (m : M A) (k : A -> M B) s b s' :
  bind m k s = (Ok b, s') ->
  exists a s1, m s = (Ok a, s1) /\ k a s1 = (Ok b, s').
Proof.
  unfold bind. destruct (m s) as [[a| | |] s1]; try done. eauto.
Qed.

(** Invert a successful run of a sequence of binds. *)
Tactic Notation "inv_bind" hyp(H) :=
  let a := fresh "a" in
  let s1 := fresh "s" in
  let H1 := fresh "H" in
  apply bind_Ok_inv in H as (a & s1 & H1 & H).

Tactic Notation "inv_bind" hyp(H) "as" ident(a) ident(s1) ident(H1) :=
  apply bind_Ok_inv in H as (a & s1 & H1 & H).

Lemma post_bind {A B} (m : M A) (k : A -> M B) s
    (Q1 : A -> state -> Prop) (Q : B -> state -> Prop) (R : exn -> Prop) :
  post (m s) Q1 R ->
  (forall a s1, Q1 a s1 -> post (k a s1) Q R) ->
  post (bind m k s) Q R.
Proof.
  unfold post at 1. unfold bind. destruct (m s) as [[a| | |] s1]; simpl; auto.
Qed.

Lemma post_weaken {A} (x : outcome A * state)
    (Q Q' : A -> state -> Prop) (R R' : exn -> Prop) :
  post x Q R -> (forall a s, Q a s -> Q' a s) -> (forall e, R e -> R' e) ->
  post x Q' R'.
Proof. unfold post. destruct x as [[a| | |] s]; auto. Qed.

(** ** Trees of addresses *)

Lemma stree_ind' (P : stree -> Prop) :
  (forall r, P (SMore r)) ->
  (forall r l kids, Forall P kids -> P (SComment r l kids)) ->
  forall t, P t.
Proof.
  intros Hm Hc. fix IH 1. intros [r l kids|r]; [|apply Hm].
  apply Hc. induction kids as [|k kids IHk]; constructor; [apply IH|done].
Qed.

Lemma shape_kids s kids :
  fold_right (fun k P => shape s k /\ P) True kids <-> Forall (shape s) kids.
Proof.
  induction kids as [|k kids IH]; simpl.
  - split; [constructor|done].
  - rewrite IH, Forall_cons. done.
Qed.

Lemma shape_SComment s r l kids :
  shape s (SComment r l kids) <->
  (exists c, objs s !! r = Some (OComment c) /\ Comment.replies c = l) /\
  lists s !! l = Some (map sroot kids) /\ Forall (shape s) kids.
Proof. simpl. by rewrite shape_kids. Qed.

Lemma ssizes_app ts1 ts2 : ssizes (ts1 ++ ts2) = ssizes ts1 + ssizes ts2.
Proof. induction ts1 as [|t ts1 IH]; simpl; [done|]. unfold ssizes in *. simpl. lia. Qed.

Lemma ssize_SComment r l kids : ssize (SComment r l kids) = S (ssizes kids).
Proof. done. Qed.

Lemma ssizes_cons t ts : ssizes (t :: ts) = ssize t + ssizes ts.
Proof. done. Qed.

Lemma length_flat_map_srefs ts : length (flat_map srefs ts) = ssizes ts.
Proof.
  induction ts as [|t ts IH]; [done|].
  rewrite ssizes_cons. simpl. rewrite length_app, IH. f_equal.
  clear IH. induction t as [r|r l kids IHk] using stree_ind'; [done|].
  rewrite ssize_SComment. simpl. f_equal.
  induction IHk as [|k kids Hk _ IH]; [done|].
  rewrite ssizes_cons. simpl. rewrite length_app. lia.
Qed.

(** ** [list] on a forest of the store *)

Lemma get_obj_Some s r o : objs s !! r = Some o -> get_obj r s = (Ok o, s).
Proof. unfold get_obj. by intros ->. Qed.

Lemma get_list_Some s l rs : lists s !! l = Some rs -> get_list l s = (Ok rs, s).
Proof. unfold get_list. by intros ->. Qed.

Lemma replies_of_Some s r c :
  objs s !! r = Some (OComment c) -> replies_of r s = (Ok (Comment.replies c), s).
Proof. intros H. unfold replies_of. by rewrite (bind_Ok _ _ _ _ _ (get_obj_Some _ _ _ H)). Qed.

Lemma list_loop_shape fuel comments qt s :
  Forall (shape s) qt -> ssizes qt <= fuel ->
  exists res, list_loop fuel comments (map sroot qt) s = (Ok res, s) /\
              res ≡ₚ comments ++ flat_map srefs qt.
Proof.
  revert comments qt.
  induction fuel as [|fuel IH]; intros comments [|t qt] Hsh Hfuel; simpl.
  - exists comments. by rewrite app_nil_r.
  - rewrite ssizes_cons in Hfuel. destruct t; simpl in Hfuel; lia.
  - exists comments. by rewrite app_nil_r.
  - apply Forall_cons in Hsh as [Ht Hqt]. rewrite ssizes_cons in Hfuel.
    destruct t as [r l kids|r].
    + apply shape_SComment in Ht as ((c & Hc & <-) & Hl & Hkids).
      rewrite ssize_SComment in Hfuel. simpl.
      rewrite (bind_Ok _ _ _ _ _ (get_obj_Some _ _ _ Hc)). simpl.
      rewrite (bind_Ok _ _ _ _ _ (replies_of_Some _ _ _ Hc)).
      rewrite (bind_Ok _ _ _ _ _ (get_list_Some _ _ _ Hl)).
      rewrite <- map_app.
      destruct (IH (comments ++ [r]) (qt ++ kids)) as (res & Hres & Hperm).
      { apply Forall_app. done. }
      { rewrite ssizes_app. lia. }
      exists res. split; [done|].
      rewrite Hperm, flat_map_app, <- !app_assoc. f_equiv. simpl.
      f_equiv. apply Permutation_app_comm.
    + destruct Ht as (m & Hm). simpl in Hfuel. simpl.
      rewrite (bind_Ok _ _ _ _ _ (get_obj_Some _ _ _ Hm)). simpl.
      destruct (IH (comments ++ [r]) qt) as (res & Hres & Hperm);
        [done|lia|].
      exists res. split; [done|]. by rewrite Hperm, <- app_assoc.
Qed.

(** ** The lists of a forest *)

Lemma elem_of_flat_map {A B} (f : A -> list B) (l : list A) (x : B) :
  x ∈ flat_map f l <-> exists y, y ∈ l /\ x ∈ f y.
Proof.
  rewrite list_elem_of_In, in_flat_map.
  by setoid_rewrite list_elem_of_In.
Qed.

Lemma tree_lists_closed t l kids k x :
  (l, kids) ∈ tree_lists t -> k ∈ kids -> x ∈ tree_lists k -> x ∈ tree_lists t.
Proof.
  induction t as [r|r l0 kids0 IH] using stree_ind'; simpl;
    [by intros ?%elem_of_nil|].
  rewrite Forall_forall in IH.
  intros [[= -> ->]|Hin]%elem_of_cons Hk Hx; right; apply elem_of_flat_map.
  - by exists k.
  - apply elem_of_flat_map in Hin as (t & Ht & Hin).
    exists t. split; [done|]. by apply IH.
Qed.

Lemma forest_lists_closed top ts l kids k x :
  (l, kids) ∈ forest_lists top ts -> k ∈ kids -> x ∈ tree_lists k ->
  x ∈ forest_lists top ts.
Proof.
  unfold forest_lists.
  intros [[= -> ->]|Hin]%elem_of_cons Hk Hx; right; apply elem_of_flat_map.
  - by exists k.
  - apply elem_of_flat_map in Hin as (t & Ht & Hin).
    exists t. split; [done|]. by eapply tree_lists_closed.
Qed.

Lemma tree_lists_shape s t l kids :
  shape s t -> (l, kids) ∈ tree_lists t ->
  lists s !! l = Some (map sroot kids) /\ Forall (shape s) kids.
Proof.
  induction t as [r|r l0 kids0 IH] using stree_ind';
    [by intros _ ?%elem_of_nil|].
  intros (_ & Hl & Hkids)%shape_SComment. simpl.
  intros [[= -> ->]|Hin]%elem_of_cons; [done|].
  apply elem_of_flat_map in Hin as (t & Ht & Hin).
  rewrite Forall_forall in IH, Hkids. by apply (IH t); [|apply Hkids|].
Qed.

Lemma forest_lists_shape s top ts l kids :
  forest_shape s top ts -> (l, kids) ∈ forest_lists top ts ->
  lists s !! l = Some (map sroot kids) /\ Forall (shape s) kids.
Proof.
  intros [Htop Hts]. unfold forest_lists.
  intros [[= -> ->]|Hin]%elem_of_cons; [done|].
  apply elem_of_flat_map in Hin as (t & Ht & Hin).
  rewrite Forall_forall in Hts.
  eapply tree_lists_shape; [by apply Hts|done].
Qed.

Lemma targets_lists c t r l :
  (r, l) ∈ targets c t <->
  (t = SMore r /\ l = c) \/
  exists kids, (l, kids) ∈ tree_lists t /\ SMore r ∈ kids.
Proof.
  revert c. induction t as [r0|r0 l0 kids0 IH] using stree_ind'; intros c; simpl.
  - rewrite list_elem_of_singleton. split.
    + intros [= -> ->]. by left.
    + intros [[[= ->] ->]|(kids & []%elem_of_nil & _)]. done.
  - rewrite elem_of_flat_map. rewrite Forall_forall in IH. split.
    + intros (k & Hk & Hin). right.
      apply (IH k Hk) in Hin as [[-> ->]|(kids & Hkids & Hr)].
      * exists kids0. split; [by left|done].
      * exists kids. split; [|done]. right.
        apply elem_of_flat_map. by exists k.
    + intros [[? _]|(kids & Hkids & Hr)]; [done|].
      apply elem_of_cons in Hkids as [[= -> ->]|Hkids].
      * exists (SMore r). split; [done|]. simpl. by left.
      * apply elem_of_flat_map in Hkids as (k & Hk & Hin).
        exists k. split; [done|]. apply (IH k Hk). right. eauto.
Qed.

Lemma forest_targets_lists top ts r l :
  (r, l) ∈ forest_targets top ts <->
  exists kids, (l, kids) ∈ forest_lists top ts /\ SMore r ∈ kids.
Proof.
  unfold forest_targets, forest_lists. rewrite elem_of_flat_map. split.
  - intros (t & Ht & Hin).
    apply targets_lists in Hin as [[-> ->]|(kids & Hkids & Hr)].
    + exists ts. split; [by left|done].
    + exists kids. split; [|done]. right.
      apply elem_of_flat_map. by exists t.
  - intros (kids & [[= -> ->]|Hkids]%elem_of_cons & Hr).
    + exists (SMore r). split; [done|]. simpl. by left.
    + apply elem_of_flat_map in Hkids as (t & Ht & Hin).
      exists t. split; [done|]. apply targets_lists. right. eauto.
Qed.

Lemma srefs_lists t r :
  r ∈ srefs t <->
  r = sroot t \/
  exists l kids k, (l, kids) ∈ tree_lists t /\ k ∈ kids /\ sroot k = r.
Proof.
  induction t as [r0|r0 l0 kids0 IH] using stree_ind'; simpl.
  - rewrite list_elem_of_singleton. split; [by left|].
    intros [->|(l & kids & k & []%elem_of_nil & _)]. done.
  - rewrite elem_of_cons, elem_of_flat_map. rewrite Forall_forall in IH. split.
    + intros [->|(k & Hk & Hin)]; [by left|]. right.
      apply (IH k Hk) in Hin as [->|(l & kids & k' & Hl & Hk' & <-)].
      * exists l0, kids0, k. split; [by left|done].
      * exists l, kids, k'. split; [|done]. right.
        apply elem_of_flat_map. by exists k.
    + intros [->|(l & kids & k & Hl & Hk & <-)]; [by left|]. right.
      apply elem_of_cons in Hl as [[= -> ->]|Hl].
      * exists k. split; [done|]. apply (IH k Hk). by left.
      * apply elem_of_flat_map in Hl as (t & Ht & Hin).
        exists t. split; [done|]. apply (IH t Ht). right.
        by exists l, kids, k.
Qed.

Lemma forest_refs_lists top ts r :
  r ∈ flat_map srefs ts <->
  exists l kids k, (l, kids) ∈ forest_lists top ts /\ k ∈ kids /\ sroot k = r.
Proof.
  unfold forest_lists. rewrite elem_of_flat_map. split.
  - intros (t & Ht & Hin).
    apply srefs_lists in Hin as [->|(l & kids & k & Hl & Hk & <-)].
    + exists top, ts, t. split; [by left|done].
    + exists l, kids, k. split; [|done]. right.
      apply elem_of_flat_map. by exists t.
  - intros (l & kids & k & [[= -> ->]|Hl]%elem_of_cons & Hk & <-).
    + exists k. split; [done|]. apply srefs_lists. by left.
    + apply elem_of_flat_map in Hl as (t & Ht & Hin).
      exists t. split; [done|]. apply srefs_lists. right.
      by exists l, kids, k.
Qed.

(** ** Reachability in a forest *)

Lemma reach_forest_lists s top ts r :
  forest_shape s top ts -> reach s top r ->
  exists l kids k, (l, kids) ∈ forest_lists top ts /\ k ∈ kids /\ sroot k = r.
Proof.
  intros Hsh. induction 1 as [rs r Hrs Hr|p c rs r _ IH Hp Hrs Hr].
  - destruct Hsh as [Htop _]. simplify_eq.
    apply list_elem_of_fmap in Hr as (k & -> & Hk).
    exists top, ts, k. split; [by left|done].
  - destruct IH as (l & kids & k & Hl & Hk & <-).
    destruct (forest_lists_shape _ _ _ _ _ Hsh Hl) as [_ Hkids].
    rewrite Forall_forall in Hkids. specialize (Hkids _ Hk).
    destruct k as [p l' kids'|p]; simpl in Hp.
    2:{ destruct Hkids as (m & ?). simplify_eq. }
    apply shape_SComment in Hkids as ((c' & Hc' & <-) & Hl' & _).
    simplify_eq.
    apply list_elem_of_fmap in Hr as (k & -> & Hk').
    exists (Comment.replies c), kids', k. split; [|done].
    eapply forest_lists_closed; [done|done|]. simpl. by left.
Qed.

Lemma forest_lists_reach s top ts l kids k :
  forest_shape s top ts -> (l, kids) ∈ forest_lists top ts -> k ∈ kids ->
  reach s top (sroot k).
Proof.
  intros Hsh Hl Hk.
  assert (forall t, shape s t -> reach s top (sroot t) ->
            forall l kids k, (l, kids) ∈ tree_lists t -> k ∈ kids ->
              reach s top (sroot k)) as Htree.
  { clear. intros t.
    induction t as [r|r l0 kids0 IH] using stree_ind';
      [by intros _ _ ??? ?%elem_of_nil|].
    intros ((c & Hc & <-) & Hl & Hkids)%shape_SComment Hr l kids k. simpl.
    assert (forall k, k ∈ kids0 -> reach s top (sroot k)) as Hdown.
    { intros k' Hk'. eapply reach_reply; [done|done|done|].
      apply list_elem_of_fmap. eauto. }
    intros [[= -> ->]|Hin]%elem_of_cons Hk; [by apply Hdown|].
    apply elem_of_flat_map in Hin as (t & Ht & Hin).
    rewrite Forall_forall in IH, Hkids.
    eapply (IH t); [done|by apply Hkids|by apply Hdown|done|done]. }
  destruct Hsh as [Htop Hts]. unfold forest_lists in Hl.
  assert (forall t, t ∈ ts -> reach s top (sroot t)) as Hroots.
  { intros t Ht. eapply reach_top; [done|]. apply list_elem_of_fmap. eauto. }
  apply elem_of_cons in Hl as [[= -> ->]|Hl]; [by apply Hroots|].
  apply elem_of_flat_map in Hl as (t & Ht & Hin).
  rewrite Forall_forall in Hts.
  eapply (Htree t); [by apply Hts|by apply Hroots|done|done].
Qed.

Lemma reach_forest s top ts r :
  forest_shape s top ts -> reach s top r <-> r ∈ flat_map srefs ts.
Proof.
  intros Hsh. rewrite (forest_refs_lists top). split.
  - by apply reach_forest_lists.
  - intros (l & kids & k & Hl & Hk & <-). by eapply forest_lists_reach.
Qed.

(** ** Stores that agree on a forest *)

Lemma core_OComment o c :
  core o = core (OComment c) ->
  exists c', o = OComment c' /\ Comment.replies c' = Comment.replies c /\
             Comment.name c' = Comment.name c /\
             Comment.parent_id c' = Comment.parent_id c /\
             Comment.is_root c' = Comment.is_root c.
Proof. destruct o as [c'|m]; [|done]. intros [= ????]. eauto 10. Qed.

Lemma core_OMore o m :
  core o = core (OMore m) ->
  exists m', o = OMore m' /\ MoreComments.count m' = MoreComments.count m /\
             MoreComments.name m' = MoreComments.name m.
Proof. destruct o as [c'|m']; [done|]. intros [= ???]. eauto. Qed.

Lemma extends_refl s : extends s s.
Proof. intros r o Hr. eauto. Qed.

Lemma extends_trans s1 s2 s3 : extends s1 s2 -> extends s2 s3 -> extends s1 s3.
Proof.
  intros H12 H23 r o Hr.
  destruct (H12 _ _ Hr) as (o2 & Hr2 & Hc2).
  destruct (H23 _ _ Hr2) as (o3 & Hr3 & Hc3).
  exists o3. split; [done|congruence].
Qed.

Lemma shape_mono s s' t :
  extends s s' ->
  (forall l rs, lists s !! l = Some rs -> lists s' !! l = Some rs) ->
  shape s t -> shape s' t.
Proof.
  intros Hext Hlists.
  induction t as [r|r l kids IH] using stree_ind'.
  - intros (m & Hm). destruct (Hext _ _ Hm) as (o' & Ho' & Hc).
    apply core_OMore in Hc as (m' & -> & _). by exists m'.
  - intros ((c & Hc & <-) & Hl & Hkids)%shape_SComment.
    apply shape_SComment. split; [|split].
    + destruct (Hext _ _ Hc) as (o' & Ho' & Hcore).
      apply core_OComment in Hcore as (c' & -> & Hrep & _). eauto.
    + by apply Hlists.
    + rewrite Forall_forall in *. auto.
Qed.

Lemma with_target_with_target c c' m :
  with_target c' (with_target c m) = with_target c' m.
Proof. done. Qed.

Lemma set_remove_from_More s r m c :
  objs s !! r = Some (OMore m) ->
  set_remove_from r c s =
    (Ok tt, State (<[r := OMore (with_target c m)]> (objs s)) (lists s)
              (_comments_by_id s)).
Proof.
  intros Hr. unfold set_remove_from.
  by rewrite (bind_Ok _ _ _ _ _ (get_obj_Some _ _ _ Hr)).
Qed.

Lemma extends_set_target s r m c :
  objs s !! r = Some (OMore m) ->
  extends s (State (<[r := OMore (with_target c m)]> (objs s)) (lists s)
               (_comments_by_id s)).
Proof.
  intros Hr r' o Hr'. simpl.
  destruct (decide (r = r')) as [<-|Hne].
  - rewrite list_lookup_insert_eq by (by eapply lookup_lt_Some).
    simplify_eq. eauto.
  - rewrite list_lookup_insert_ne by done. eauto.
Qed.

(** ** [_gather_more_comments] on a forest of the store *)

Lemma gathered_equiv s s' T T' :
  (forall x, x ∈ T <-> x ∈ T') -> gathered s s' T -> gathered s s' T'.
Proof.
  intros Heq (Hl & Hi & Hlen & Hout & Hin).
  assert (forall r, r ∈ T.*1 <-> r ∈ T'.*1) as Heq1.
  { intros r. rewrite !list_elem_of_fmap. by setoid_rewrite Heq. }
  split_and!; [done|done|done| |].
  - intros r Hr. apply Hout. by rewrite Heq1.
  - intros r Hr. apply Heq1, Hin in Hr as (m & c & ? & ? & ?).
    exists m, c. by rewrite <- Heq.
Qed.

Lemma gathered_nil s : gathered s s [].
Proof. split_and!; try done. by intros r ?%elem_of_nil. Qed.

Lemma gathered_step s r m c s' T :
  objs s !! r = Some (OMore m) ->
  gathered (State (<[r := OMore (with_target c m)]> (objs s)) (lists s)
              (_comments_by_id s)) s' T ->
  gathered s s' ((r, c) :: T).
Proof.
  intros Hr (Hl & Hi & Hlen & Hout & Hin). simpl in *.
  assert (r < length (objs s)) as Hlt by (by eapply lookup_lt_Some).
  rewrite length_insert in Hlen.
  split_and!; [done|done|done| |].
  - intros r' [Hne Hr']%not_elem_of_cons.
    rewrite (Hout _ Hr'). by rewrite list_lookup_insert_ne.
  - intros r' Hr'. destruct (decide (r' ∈ T.*1)) as [HT|HT].
    + destruct (Hin _ HT) as (m1 & c' & Hm1 & Hc' & Hs').
      destruct (decide (r = r')) as [<-|Hne].
      * rewrite list_lookup_insert_eq in Hm1 by done. simplify_eq.
        exists m, c'. split; [done|]. split; [by right|done].
      * rewrite list_lookup_insert_ne in Hm1 by done.
        exists m1, c'. split; [done|]. split; [by right|done].
    + apply elem_of_cons in Hr' as [->|?]; [|done].
      exists m, c. split; [done|]. split; [by left|].
      rewrite (Hout _ HT). by rewrite list_lookup_insert_eq.
Qed.

Lemma queue_targets_kids l kids :
  queue_targets (map (fun k => (l, k)) kids) = flat_map (targets l) kids.
Proof.
  unfold queue_targets. induction kids as [|k kids IH]; simpl; [done|].
  by rewrite IH.
Qed.

Lemma queue_targets_app qt1 qt2 :
  queue_targets (qt1 ++ qt2) = queue_targets qt1 ++ queue_targets qt2.
Proof. apply flat_map_app. Qed.

Lemma gather_loop_total fuel tree pt fb heap queue qt s :
  Forall2 (qrel s fb) queue qt ->
  (forall s', lists s' = lists s ->
     parent_tree_or_tree pt tree s' = (Ok fb, s')) ->
  ssizes qt.*2 <= fuel ->
  exists heap' s',
    _gather_loop fuel tree pt heap queue s = (Ok heap', s') /\
    gathered s s' (queue_targets qt) /\
    heap' ≡ₚ heap ++ (queue_targets qt).*1.
Proof.
  revert heap queue qt s.
  induction fuel as [|fuel IH]; intros heap queue qt s Hq Hfb Hfuel.
  - destruct Hq as [|e [c t] queue qt _ _]; simpl.
    + exists heap, s. split; [done|]. split; [apply gathered_nil|].
      by rewrite app_nil_r.
    + rewrite fmap_cons, ssizes_cons in Hfuel. destruct t; simpl in Hfuel; lia.
  - destruct Hq as [|[p r] [c t] queue qt (Hroot & Ht & Hp) Hq]; simpl.
    + exists heap, s. split; [done|]. split; [apply gathered_nil|].
      by rewrite app_nil_r.
    + simpl in Hroot, Ht, Hp. subst r.
      rewrite fmap_cons, ssizes_cons in Hfuel. simpl in Hfuel.
      destruct t as [r l kids|r].
      * (* a comment: its replies join the queue *)
        apply shape_SComment in Ht as ((c0 & Hc0 & <-) & Hl & Hkids).
        rewrite ssize_SComment in Hfuel. simpl.
        rewrite (bind_Ok _ _ _ _ _ (get_obj_Some _ _ _ Hc0)). simpl.
        rewrite (bind_Ok _ _ _ _ _ (replies_of_Some _ _ _ Hc0)).
        rewrite (bind_Ok _ _ _ _ _ (get_list_Some _ _ _ Hl)).
        destruct (IH heap
                    (queue ++ map (fun item => (Some r, item)) (map sroot kids))
                    (qt ++ map (fun k => (Comment.replies c0, k)) kids) s)
          as (heap' & s' & Hrun & Hg & Hperm).
        { apply Forall2_app; [done|].
          rewrite map_map. apply Forall2_fmap, Forall_Forall2_diag.
          rewrite Forall_forall in *. intros k Hk. split; [done|].
          split; [by apply Hkids|]. simpl. eauto. }
        { done. }
        { rewrite fmap_app, ssizes_app.
          rewrite <- list_fmap_compose.
          assert ((snd ∘ (fun k => (Comment.replies c0, k))) <$> kids = kids) as ->
            by (by rewrite <- (list_fmap_id kids) at 2).
          lia. }
        assert (queue_targets
                  (qt ++ map (fun k => (Comment.replies c0, k)) kids) ≡ₚ
                queue_targets
                  ((c, SComment r (Comment.replies c0) kids) :: qt)) as Heq.
        { rewrite queue_targets_app, queue_targets_kids.
          apply Permutation_app_comm. }
        exists heap', s'. split; [done|]. split.
        -- eapply gathered_equiv; [|done]. intros x. by rewrite Heq.
        -- by rewrite Hperm, Heq.
      * (* a placeholder: pushed, and given its removal target *)
        destruct Ht as (m & Hm). simpl.
        rewrite (bind_Ok _ _ _ _ _ (get_obj_Some _ _ _ Hm)). simpl.
        unfold heappush_more at 1. unfold bind at 1.
        assert ((match p with
                 | Some p => replies_of p
                 | None => parent_tree_or_tree pt tree
                 end) s = (Ok c, s)) as Htarget.
        { destruct p as [p|]; simpl in Hp.
          - destruct Hp as (c0 & Hc0 & <-). by apply replies_of_Some.
          - subst c. by apply Hfb. }
        rewrite (bind_Ok _ _ _ _ _ Htarget).
        rewrite (bind_Ok _ _ _ _ _ (set_remove_from_More _ _ _ c Hm)).
        set (s1 := State (<[r := OMore (with_target c m)]> (objs s)) (lists s)
                     (_comments_by_id s)).
        destruct (IH (heappush (more_lt s) heap r) queue qt s1)
          as (heap' & s' & Hrun & Hg & Hperm).
        { eapply Forall2_impl; [done|].
          intros [p' r'] [c' t'] (Hroot' & Ht' & Hp'). split; [done|]. split.
          - eapply shape_mono; [by apply extends_set_target|done|done].
          - destruct p' as [p'|]; [|done]. simpl in *.
            destruct Hp' as (c0 & Hc0 & <-). exists c0. split; [|done].
            rewrite list_lookup_insert_ne; [done|]. intros ->. simplify_eq. }
        { intros s'' Hs''. by apply Hfb. }
        { simpl in Hfuel. lia. }
        exists heap', s'. split; [done|]. split.
        -- by eapply gathered_step.
        -- rewrite Hperm, heappush_perm. simpl.
           by rewrite Permutation_middle.
Qed.

Lemma gather_total fuel tree pt fb ts s :
  forest_shape s tree ts ->
  (forall s', lists s' = lists s ->
     parent_tree_or_tree pt tree s' = (Ok fb, s')) ->
  ssizes ts <= fuel ->
  exists heap s',
    _gather_more_comments fuel tree pt s = (Ok heap, s') /\
    gathered s s' (flat_map (targets fb) ts) /\
    heap ≡ₚ (flat_map (targets fb) ts).*1.
Proof.
  intros [Htree Hts] Hfb Hfuel. unfold _gather_more_comments.
  rewrite (bind_Ok _ _ _ _ _ (get_list_Some _ _ _ Htree)).
  destruct (gather_loop_total fuel tree pt fb []
              (map (fun x => (None, x)) (map sroot ts))
              (map (fun t => (fb, t)) ts) s)
    as (heap & s' & Hrun & Hg & Hperm).
  - rewrite map_map. apply Forall2_fmap, Forall_Forall2_diag.
    rewrite Forall_forall in *. intros t Ht. split; [done|].
    split; [by apply Hts|done].
  - done.
  - rewrite <- list_fmap_compose.
    assert ((snd ∘ (fun t => (fb, t))) <$> ts = ts) as ->
      by (by rewrite <- (list_fmap_id ts) at 2).
    done.
  - rewrite queue_targets_kids in Hg, Hperm. eauto.
Qed.

(** ** Allocation of a response *)

Lemma tree_ind' (P : tree -> Prop) :
  (forall n c ch, P (TMore n c ch)) ->
  (forall n p root kids, Forall P kids -> P (TComment n p root kids)) ->
  forall t, P t.
Proof.
  intros Hm Hc. fix IH 1. intros [n p root kids|n c ch]; [|apply Hm].
  apply Hc. induction kids as [|k kids IHk]; constructor; [apply IH|done].
Qed.

Lemma alloc_tree_TComment n p root kids :
  alloc_tree (TComment n p root kids) =
  (let* rs := alloc_trees kids in
   let* l := alloc_list rs in
   alloc_obj (OComment (Comment.Build n p root l None))).
Proof. reflexivity. Qed.

Lemma tree_size_TComment n p root kids :
  tree_size (TComment n p root kids) = S (forest_size kids).
Proof. reflexivity. Qed.

Lemma no_more_TComment n p root kids :
  no_more (TComment n p root kids) <-> Forall no_more kids.
Proof.
  simpl. induction kids as [|k kids IH]; simpl.
  - split; [constructor|done].
  - by rewrite IH, Forall_cons.
Qed.

Lemma extends_app s s' os :
  objs s' = objs s ++ os -> extends s s'.
Proof.
  intros Ho r o Hr. exists o. split; [|done].
  rewrite Ho. by apply lookup_app_l_Some.
Qed.

Lemma allocated_refl n_o n_l s : allocated n_o n_l s s [] [].
Proof. unfold allocated. rewrite !app_nil_r. split_and!; done. Qed.

Lemma allocated_trans n_o n_l s1 s2 s3 os1 ls1 os2 ls2 :
  allocated n_o n_l s1 s2 os1 ls1 -> allocated n_o n_l s2 s3 os2 ls2 ->
  allocated n_o n_l s1 s3 (os1 ++ os2) (ls1 ++ ls2).
Proof.
  intros (Ho1 & Hl1 & Hi1 & HP1 & HQ1 & HL1) (Ho2 & Hl2 & Hi2 & HP2 & HQ2 & HL2).
  unfold allocated. rewrite Ho2, Ho1, Hi2, Hi1.
  split_and!; try done; try (by apply Forall_app).
  - by rewrite app_assoc.
  - by rewrite Hl2, Hl1, app_assoc.
  - apply Forall_app. split; [|done].
    eapply Forall_impl; [done|]. intros [c|m]; simpl; [|done].
    rewrite Hl2, length_app. lia.
Qed.

Lemma allocated_shape n_o n_l s s' os ls t :
  allocated n_o n_l s s' os ls -> shape s t -> shape s' t.
Proof.
  intros (Ho & Hl & _). apply shape_mono.
  - by eapply extends_app.
  - intros l rs Hrs. rewrite Hl. by apply lookup_app_l_Some.
Qed.

Lemma lists_of_cons t ts : lists_of (t :: ts) = (tree_lists t).*1 ++ lists_of ts.
Proof. unfold lists_of. simpl. by rewrite fmap_app. Qed.

Lemma lists_of_SComment r l kids :
  (tree_lists (SComment r l kids)).*1 = l :: lists_of kids.
Proof. done. Qed.

Lemma elem_of_lists_of ts l :
  l ∈ lists_of ts <-> exists t, t ∈ ts /\ l ∈ (tree_lists t).*1.
Proof.
  unfold lists_of. rewrite list_elem_of_fmap. split.
  - intros (x & -> & (t & Ht & Hx)%elem_of_flat_map).
    exists t. split; [done|]. apply list_elem_of_fmap. eauto.
  - intros (t & Ht & (x & -> & Hx)%list_elem_of_fmap).
    exists x. split; [done|]. apply elem_of_flat_map. eauto.
Qed.

(** A list of a tree that the store holds is a list of the store. *)
Lemma tree_lists_lt s t l :
  shape s t -> l ∈ (tree_lists t).*1 -> l < length (lists s).
Proof.
  intros Ht ([l' kids] & -> & Hin)%list_elem_of_fmap.
  destruct (tree_lists_shape _ _ _ _ Ht Hin) as [Hl _].
  by eapply lookup_lt_Some.
Qed.

Lemma lists_of_lt s ts l :
  Forall (shape s) ts -> l ∈ lists_of ts -> l < length (lists s).
Proof.
  rewrite Forall_forall. intros Hts (t & Ht & Hl)%elem_of_lists_of.
  eapply tree_lists_lt; [by apply Hts|done].
Qed.

Lemma fresh_lists_nil n : fresh_lists n [].
Proof. split; [apply NoDup_nil_2|apply Forall_nil_2]. Qed.

Lemma fresh_lists_cons s n n' t ts :
  shape s t -> n <= n' -> n' = length (lists s) ->
  fresh_lists n [t] -> fresh_lists n' ts -> fresh_lists n (t :: ts).
Proof.
  intros Ht Hle -> [Hnd1 Hge1] [Hnd2 Hge2].
  rewrite lists_of_cons in Hnd1, Hge1. unfold lists_of in Hnd1, Hge1 at 1.
  simpl in Hnd1, Hge1. rewrite app_nil_r in Hnd1, Hge1.
  unfold fresh_lists. rewrite lists_of_cons. split.
  - apply NoDup_app. split; [done|]. split; [|done].
    intros l Hl Hl'. pose proof (tree_lists_lt _ _ _ Ht Hl).
    rewrite Forall_forall in Hge2. specialize (Hge2 _ Hl'). lia.
  - apply Forall_app. split; [done|].
    eapply Forall_impl; [done|]. simpl. lia.
Qed.

Lemma fresh_lists_SComment s n r kids :
  Forall (shape s) kids -> n <= length (lists s) -> fresh_lists n kids ->
  fresh_lists n [SComment r (length (lists s)) kids].
Proof.
  intros Hkids Hle [Hnd Hge]. unfold fresh_lists.
  rewrite lists_of_cons, lists_of_SComment. unfold lists_of at 2 4. simpl.
  rewrite !app_nil_r. split.
  - apply NoDup_cons. split; [|done].
    intros Hl. pose proof (lists_of_lt _ _ _ Hkids Hl). lia.
  - by constructor.
Qed.

(** What allocating the trees [ts] guarantees. *)
Lemma alloc_trees_from ts :
  Forall (fun t => forall s n_o n_l,
            n_o <= length (objs s) -> n_l <= length (lists s) ->
            exists r s' st os ls,
              alloc_tree t s = (Ok r, s') /\ allocated n_o n_l s s' os ls /\
              sroot st = r /\ shape s' st /\ ssize st = tree_size t /\
              n_o <= r /\
              (no_more t -> Forall obj_is_comment os /\
                            forall c, targets c st = []) /\
              fresh_lists (length (lists s)) [st]) ts ->
  forall s n_o n_l,
    n_o <= length (objs s) -> n_l <= length (lists s) ->
    exists rs s' sts os ls,
      alloc_trees ts s = (Ok rs, s') /\ allocated n_o n_l s s' os ls /\
      map sroot sts = rs /\ Forall (shape s') sts /\
      ssizes sts = forest_size ts /\ Forall (fun r => n_o <= r) rs /\
      (Forall no_more ts -> Forall obj_is_comment os /\
                            forall c, flat_map (targets c) sts = []) /\
      fresh_lists (length (lists s)) sts.
Proof.
  induction 1 as [|t ts Ht _ IH]; intros s n_o n_l Hno Hnl; simpl.
  - exists [], s, [], [], []. split_and!; try done.
    + apply allocated_refl.
    + apply fresh_lists_nil.
  - destruct (Ht s n_o n_l Hno Hnl)
      as (r & s1 & st & os1 & ls1 & Hrun1 & Hal1 & Hroot & Hst & Hsz & Hr & Hnm
          & Hfr).
    assert (n_o <= length (objs s1) /\ n_l <= length (lists s1) /\
            length (lists s) <= length (lists s1)) as (Hno1 & Hnl1 & Hmono).
    { destruct Hal1 as (-> & -> & _). rewrite !length_app. lia. }
    destruct (IH s1 n_o n_l Hno1 Hnl1)
      as (rs & s2 & sts & os2 & ls2 & Hrun2 & Hal2 & Hroots & Hsts & Hszs
          & Hrs & Hnms & Hfrs).
    exists (r :: rs), s2, (st :: sts), (os1 ++ os2), (ls1 ++ ls2).
    split_and!.
    + rewrite (bind_Ok _ _ _ _ _ Hrun1), (bind_Ok _ _ _ _ _ Hrun2). done.
    + by eapply allocated_trans.
    + simpl. by rewrite Hroot, Hroots.
    + constructor; [|done]. by eapply allocated_shape.
    + rewrite ssizes_cons. lia.
    + by constructor.
    + intros [Hnt Hnts]%Forall_cons.
      destruct (Hnm Hnt) as [Hos1 Ht1]. destruct (Hnms Hnts) as [Hos2 Ht2].
      split; [by apply Forall_app|].
      intros c. simpl. by rewrite Ht1, Ht2.
    + by eapply fresh_lists_cons.
Qed.

Lemma alloc_tree_spec t :
  forall s n_o n_l,
    n_o <= length (objs s) -> n_l <= length (lists s) ->
    exists r s' st os ls,
      alloc_tree t s = (Ok r, s') /\ allocated n_o n_l s s' os ls /\
      sroot st = r /\ shape s' st /\ ssize st = tree_size t /\
      n_o <= r /\
      (no_more t -> Forall obj_is_comment os /\ forall c, targets c st = []) /\
      fresh_lists (length (lists s)) [st].
Proof.
  induction t as [n c ch|n p root kids IH] using tree_ind';
    intros s n_o n_l Hno Hnl.
  - set (o := OMore (MoreComments.Build n c ch None None)).
    exists (length (objs s)), (State (objs s ++ [o]) (lists s) (_comments_by_id s)),
      (SMore (length (objs s))), [o], [].
    split_and!; try done.
    + unfold allocated. simpl. rewrite app_nil_r.
      split_and!; try done; by constructor.
    + simpl. exists (MoreComments.Build n c ch None None).
      by rewrite list_lookup_middle.
    + apply fresh_lists_nil.
  - destruct (alloc_trees_from kids IH s n_o n_l Hno Hnl)
      as (rs & s1 & sts & os & ls & Hrun & Hal & Hroots & Hsts & Hszs & Hrs
          & Hnm & Hfr).
    set (l := length (lists s1)).
    set (o := OComment (Comment.Build n p root l None)).
    set (r := length (objs s1)).
    set (s2 := State (objs s1 ++ [o]) (lists s1 ++ [rs]) (_comments_by_id s1)).
    assert (allocated n_o n_l s1 s2 [o] [rs]) as Hal2.
    { unfold allocated. simpl. split_and!; try done.
      - constructor; [|done]. simpl. unfold l.
        destruct Hal as (_ & -> & _). rewrite length_app. lia.
      - by constructor.
      - constructor; [|done]. simpl. unfold l. rewrite length_app. simpl. lia. }
    exists r, s2, (SComment r l sts), (os ++ [o]), (ls ++ [rs]).
    split_and!.
    + rewrite alloc_tree_TComment, (bind_Ok _ _ _ _ _ Hrun). done.
    + by eapply allocated_trans.
    + done.
    + apply shape_SComment. split_and!.
      * exists (Comment.Build n p root l None). simpl.
        by rewrite list_lookup_middle.
      * simpl. rewrite Hroots. by rewrite list_lookup_middle.
      * eapply Forall_impl; [done|]. intros t. by eapply allocated_shape.
    + rewrite ssize_SComment, tree_size_TComment. by rewrite Hszs.
    + unfold r. destruct Hal as (-> & _). rewrite length_app. lia.
    + intros Hk%no_more_TComment. destruct (Hnm Hk) as [Hos Ht].
      split; [apply Forall_app; split; [done|by constructor]|].
      intros c. simpl. apply Ht.
    + apply fresh_lists_SComment; [done| |done].
      destruct Hal as (_ & -> & _). rewrite length_app. lia.
Qed.

Lemma alloc_trees_spec ts s n_o n_l :
  n_o <= length (objs s) -> n_l <= length (lists s) ->
  exists rs s' sts os ls,
    alloc_trees ts s = (Ok rs, s') /\ allocated n_o n_l s s' os ls /\
    map sroot sts = rs /\ Forall (shape s') sts /\
    ssizes sts = forest_size ts /\ Forall (fun r => n_o <= r) rs /\
    (Forall no_more ts -> Forall obj_is_comment os /\
                          forall c, flat_map (targets c) sts = []) /\
    fresh_lists (length (lists s)) sts.
Proof.
  apply alloc_trees_from, Forall_forall. intros t _. apply alloc_tree_spec.
Qed.

Lemma alloc_forest_spec ts s n_o n_l :
  n_o <= length (objs s) -> n_l <= length (lists s) ->
  exists l s' sts os ls,
    alloc_forest ts s = (Ok l, s') /\ allocated n_o n_l s s' os ls /\
    forest_shape s' l sts /\ ssizes sts = forest_size ts /\
    n_l <= l /\ Forall (fun r => n_o <= r) (map sroot sts) /\
    Forall (fun r => r < length (objs s')) (map sroot sts) /\
    (Forall no_more ts -> Forall obj_is_comment os /\
                          forall c, flat_map (targets c) sts = []) /\
    fresh_lists (length (lists s)) sts.
Proof.
  intros Hno Hnl.
  destruct (alloc_trees_spec ts s n_o n_l Hno Hnl)
    as (rs & s1 & sts & os & ls & Hrun & Hal & Hroots & Hsts & Hszs & Hrs & Hnm
        & Hfr).
  set (s2 := State (objs s1) (lists s1 ++ [rs]) (_comments_by_id s1)).
  assert (allocated n_o n_l s1 s2 [] [rs]) as Hal2.
  { unfold allocated. simpl. rewrite app_nil_r. split_and!; try done.
    by constructor. }
  exists (length (lists s1)), s2, sts, (os ++ []), (ls ++ [rs]).
  split_and!.
  - unfold alloc_forest. by rewrite (bind_Ok _ _ _ _ _ Hrun).
  - by eapply allocated_trans.
  - split.
    + simpl. rewrite Hroots. by rewrite list_lookup_middle.
    + eapply Forall_impl; [done|]. intros t. by eapply allocated_shape.
  - done.
  - destruct Hal as (_ & -> & _). rewrite length_app. lia.
  - by rewrite Hroots.
  - rewrite Forall_forall. intros r (t & -> & Ht)%list_elem_of_fmap.
    rewrite Forall_forall in Hsts. specialize (Hsts _ Ht). simpl.
    destruct t as [r l kids|r]; simpl.
    + apply shape_SComment in Hsts as ((c & Hc & _) & _).
      by eapply lookup_lt_Some.
    + destruct Hsts as (m & Hm). by eapply lookup_lt_Some.
  - rewrite app_nil_r. done.
  - done.
Qed.

(** ** Appending to and removing from a list of a forest *)

(** A tree is still held when none of its lists has changed. *)
Lemma shape_frame s s' t :
  extends s s' ->
  (forall l, l ∈ (tree_lists t).*1 -> lists s' !! l = lists s !! l) ->
  shape s t -> shape s' t.
Proof.
  intros Hext. induction t as [r|r l kids IH] using stree_ind'; intros Hsame.
  - intros (m & Hm). destruct (Hext _ _ Hm) as (o' & Ho' & Hc).
    apply core_OMore in Hc as (m' & -> & _). by exists m'.
  - intros ((c & Hc & <-) & Hl & Hkids)%shape_SComment.
    apply shape_SComment. split; [|split].
    + destruct (Hext _ _ Hc) as (o' & Ho' & Hcore).
      apply core_OComment in Hcore as (c' & -> & Hrep & _). eauto.
    + rewrite Hsame; [done|]. rewrite lists_of_SComment. by left.
    + rewrite Forall_forall in *. intros k Hk. apply IH; [done| |by apply Hkids].
      intros l' Hl'. apply Hsame. rewrite lists_of_SComment. right.
      apply elem_of_lists_of. eauto.
Qed.

Lemma shapes_frame s s' ts :
  extends s s' ->
  (forall l, l ∈ lists_of ts -> lists s' !! l = lists s !! l) ->
  Forall (shape s) ts -> Forall (shape s') ts.
Proof.
  intros Hext Hsame. rewrite !Forall_forall. intros Hts t Ht.
  apply (shape_frame s); [done| |by apply Hts].
  intros l Hl. apply Hsame, elem_of_lists_of. eauto.
Qed.

Lemma forest_lists_fst top ts : (forest_lists top ts).*1 = top :: lists_of ts.
Proof. done. Qed.

Lemma forest_shape_frame s s' top ts :
  extends s s' ->
  (forall l, l ∈ (forest_lists top ts).*1 -> lists s' !! l = lists s !! l) ->
  forest_shape s top ts -> forest_shape s' top ts.
Proof.
  intros Hext Hsame [Htop Hts]. split.
  - rewrite Hsame; [done|]. rewrite forest_lists_fst. by left.
  - apply (shapes_frame s); [done| |done].
    intros l Hl. apply Hsame. rewrite forest_lists_fst. by right.
Qed.

Lemma sroot_graft l tc t : sroot (graft l tc t) = sroot t.
Proof. by destruct t. Qed.

Lemma map_sroot_graft l tc ts : map sroot (map (graft l tc) ts) = map sroot ts.
Proof.
  rewrite map_map. apply map_ext. intros t. apply sroot_graft.
Qed.

Section graft.
Variables (s s' : state) (l : loc) (rs : list ref) (tc : stree).
Hypothesis Hext : extends s s'.
Hypothesis Hl : lists s !! l = Some rs.
Hypothesis Hs' : lists s' = <[l := rs ++ [sroot tc]]> (lists s).
Hypothesis Htc : shape s' tc.

Lemma graft_list l' kids :
  lists s !! l' = Some (map sroot kids) ->
  lists s' !! l' =
    Some (map sroot (map (graft l tc) kids
                       ++ if decide (l' = l) then [tc] else [])).
Proof.
  intros Hl'. rewrite map_app, map_sroot_graft, Hs'.
  case_decide as Heq.
  - subst l'. rewrite list_lookup_insert_eq by (by eapply lookup_lt_Some).
    simpl. congruence.
  - rewrite list_lookup_insert_ne by done. simpl. by rewrite app_nil_r.
Qed.

Lemma shape_graft t : shape s t -> shape s' (graft l tc t).
Proof.
  induction t as [r|r l' kids IH] using stree_ind'.
  - intros (m & Hm). destruct (Hext _ _ Hm) as (o' & Ho' & Hc).
    apply core_OMore in Hc as (m' & -> & _). by exists m'.
  - intros ((c & Hc & <-) & Hl' & Hkids)%shape_SComment.
    cbn [graft]. apply shape_SComment. split; [|split].
    + destruct (Hext _ _ Hc) as (o' & Ho' & Hcore).
      apply core_OComment in Hcore as (c' & -> & Hrep & _). eauto.
    + by apply graft_list.
    + apply Forall_app. split.
      * rewrite Forall_forall in *.
        intros k' (k & -> & Hk)%list_elem_of_fmap. apply IH; auto.
      * case_decide; by repeat constructor.
Qed.

Lemma forest_shape_graft top ts :
  forest_shape s top ts -> forest_shape s' top (graft_forest l tc top ts).
Proof.
  intros [Htop Hts]. split.
  - by apply graft_list.
  - unfold graft_forest. apply Forall_app. split.
    + rewrite Forall_forall in *.
      intros k' (k & -> & Hk)%list_elem_of_fmap. apply shape_graft; auto.
    + case_decide; by repeat constructor.
Qed.
End graft.

Lemma tree_lists_graft l tc t x :
  x ∈ (tree_lists (graft l tc t)).*1 ->
  x ∈ (tree_lists t).*1 \/ x ∈ (tree_lists tc).*1.
Proof.
  induction t as [r|r l' kids IH] using stree_ind'; [by left|].
  cbn [graft]. rewrite !lists_of_SComment.
  intros [->|Hx]%elem_of_cons; [left; by left|].
  apply elem_of_lists_of in Hx as (k' & Hk' & Hx).
  apply elem_of_app in Hk' as [Hk'|Hk'].
  - apply list_elem_of_fmap in Hk' as (k & -> & Hk).
    rewrite Forall_forall in IH. destruct (IH _ Hk Hx) as [?|?]; [|by right].
    left. right. apply elem_of_lists_of. eauto.
  - case_decide; [|by apply elem_of_nil in Hk'].
    apply list_elem_of_singleton in Hk' as ->. by right.
Qed.

Lemma forest_lists_graft l tc top ts x :
  x ∈ (forest_lists top (graft_forest l tc top ts)).*1 ->
  x ∈ (forest_lists top ts).*1 \/ x ∈ (tree_lists tc).*1.
Proof.
  rewrite !forest_lists_fst.
  intros [->|Hx]%elem_of_cons; [left; by left|].
  apply elem_of_lists_of in Hx as (k' & Hk' & Hx).
  apply elem_of_app in Hk' as [Hk'|Hk'].
  - apply list_elem_of_fmap in Hk' as (k & -> & Hk).
    destruct (tree_lists_graft _ _ _ _ Hx) as [?|?]; [|by right].
    left. right. apply elem_of_lists_of. eauto.
  - case_decide; [|by apply elem_of_nil in Hk'].
    apply list_elem_of_singleton in Hk' as ->. by right.
Qed.

Lemma sroot_prune l x t : sroot (prune l x t) = sroot t.
Proof. by destruct t. Qed.

Lemma map_sroot_prune l x ts : map sroot (map (prune l x) ts) = map sroot ts.
Proof.
  rewrite map_map. apply map_ext. intros t. apply sroot_prune.
Qed.

Lemma remove_kid_sroot x kids rs' :
  remove_first x (map sroot kids) = Some rs' ->
  map sroot (remove_kid x kids) = rs'.
Proof.
  revert rs'. induction kids as [|k kids IH]; intros rs'; [done|]. simpl.
  case_decide; [by intros [= <-]|].
  destruct (remove_first x (map sroot kids)) as [rs''|]; [|done].
  intros [= <-]. simpl. by rewrite (IH rs'').
Qed.

Lemma remove_kid_Forall (P : stree -> Prop) x kids :
  Forall P kids -> Forall P (remove_kid x kids).
Proof.
  induction 1 as [|k kids Hk Hkids IH]; simpl; [done|].
  case_decide; [done|by constructor].
Qed.

Section prune.
Variables (s s' : state) (l : loc) (x : ref) (rs rs' : list ref).
Hypothesis Hext : extends s s'.
Hypothesis Hl : lists s !! l = Some rs.
Hypothesis Hrm : remove_first x rs = Some rs'.
Hypothesis Hs' : lists s' = <[l := rs']> (lists s).

Lemma prune_list l' kids :
  lists s !! l' = Some (map sroot kids) ->
  lists s' !! l' =
    Some (map sroot (let kids' := map (prune l x) kids in
                     if decide (l' = l) then remove_kid x kids' else kids')).
Proof.
  intros Hl'. rewrite Hs'. cbn zeta. case_decide as Heq.
  - subst l'. rewrite list_lookup_insert_eq by (by eapply lookup_lt_Some).
    f_equal. symmetry. apply remove_kid_sroot.
    rewrite map_sroot_prune. congruence.
  - rewrite list_lookup_insert_ne by done. by rewrite map_sroot_prune.
Qed.

Lemma shape_prune t : shape s t -> shape s' (prune l x t).
Proof.
  induction t as [r|r l' kids IH] using stree_ind'.
  - intros (m & Hm). destruct (Hext _ _ Hm) as (o' & Ho' & Hc).
    apply core_OMore in Hc as (m' & -> & _). by exists m'.
  - intros ((c & Hc & <-) & Hl' & Hkids)%shape_SComment.
    cbn [prune]. apply shape_SComment. split; [|split].
    + destruct (Hext _ _ Hc) as (o' & Ho' & Hcore).
      apply core_OComment in Hcore as (c' & -> & Hrep & _). eauto.
    + by apply prune_list.
    + assert (Forall (shape s') (map (prune l x) kids)) as Hkids'.
      { rewrite Forall_forall in *.
        intros k' (k & -> & Hk)%list_elem_of_fmap. apply IH; auto. }
      cbn zeta. case_decide; [by apply remove_kid_Forall|done].
Qed.

Lemma forest_shape_prune top ts :
  forest_shape s top ts -> forest_shape s' top (prune_forest l x top ts).
Proof.
  intros [Htop Hts]. split.
  - by apply prune_list.
  - assert (Forall (shape s') (map (prune l x) ts)) as Hts'.
    { rewrite Forall_forall in *.
      intros k' (k & -> & Hk)%list_elem_of_fmap. apply shape_prune; auto. }
    unfold prune_forest. cbn zeta.
    case_decide; [by apply remove_kid_Forall|done].
Qed.
End prune.

(** ** Computations keep the objects of the store *)

Lemma preserves_bind {A B} (m : M A) (k : A -> M B) :
  preserves m -> (forall a, preserves (k a)) -> preserves (bind m k).
Proof.
  intros Hm Hk s. unfold bind. specialize (Hm s).
  destruct (m s) as [[a| | |] s1]; simpl in *; try done.
  eapply extends_trans; [done|]. apply Hk.
Qed.

Lemma preserves_ret {A} (a : A) : preserves (ret a).
Proof. intros s. apply extends_refl. Qed.

Lemma preserves_raise {A} e : preserves (raise (A := A) e).
Proof. intros s. apply extends_refl. Qed.

Lemma preserves_get_obj r : preserves (get_obj r).
Proof. intros s. unfold get_obj. destruct (objs s !! r); apply extends_refl. Qed.

Lemma preserves_get_list l : preserves (get_list l).
Proof. intros s. unfold get_list. destruct (lists s !! l); apply extends_refl. Qed.

Lemma preserves_get_index : preserves get_index.
Proof. intros s. apply extends_refl. Qed.

Lemma preserves_set_index i : preserves (set_index i).
Proof. intros s r o Hr. simpl. eauto. Qed.

Lemma preserves_set_list l rs : preserves (set_list l rs).
Proof. intros s r o Hr. simpl. eauto. Qed.

Lemma preserves_alloc_obj o : preserves (alloc_obj o).
Proof. intros s. by eapply extends_app. Qed.

Lemma preserves_alloc_list rs : preserves (alloc_list rs).
Proof. intros s r o Hr. simpl. eauto. Qed.

Lemma preserves_heappush_more h x : preserves (heappush_more h x).
Proof. intros s. apply extends_refl. Qed.

Lemma extends_set_obj s r o o' :
  objs s !! r = Some o -> core o' = core o ->
  extends s (State (<[r := o']> (objs s)) (lists s) (_comments_by_id s)).
Proof.
  intros Hr Hc r' o1 Hr'. simpl.
  destruct (decide (r = r')) as [<-|Hne].
  - rewrite list_lookup_insert_eq by (by eapply lookup_lt_Some).
    simplify_eq. eauto.
  - rewrite list_lookup_insert_ne by done. eauto.
Qed.

Lemma preserves_set_submission r sub : preserves (set_submission r sub).
Proof.
  intros s. unfold set_submission, bind, get_obj.
  destruct (objs s !! r) as [[c|m]|] eqn:Hr; simpl; [| |apply extends_refl].
  - by apply (extends_set_obj (State (objs s) (lists s) _) r (OComment c)).
  - by apply (extends_set_obj s r (OMore m)).
Qed.

Lemma preserves_set_remove_from r c : preserves (set_remove_from r c).
Proof.
  intros s. unfold set_remove_from, bind, get_obj.
  destruct (objs s !! r) as [[c'|m]|] eqn:Hr; simpl; try apply extends_refl.
  by apply (extends_set_obj s r (OMore m)).
Qed.

Create HintDb preserves.
#[local] Hint Resolve preserves_ret preserves_raise preserves_get_obj
  preserves_get_list preserves_get_index preserves_set_index
  preserves_set_list preserves_alloc_obj preserves_alloc_list
  preserves_heappush_more preserves_set_submission
  preserves_set_remove_from : preserves.

(** Split a computation into its steps. *)
Ltac preserves_step :=
  match goal with
  | |- preserves (bind _ _) => apply preserves_bind; [|intros ?]
  | |- preserves (match ?x with _ => _ end) => destruct x
  | |- preserves (if ?x then _ else _) => destruct x
  | |- preserves (let _ := _ in _) => cbv zeta
  | |- preserves _ => solve [auto with preserves]
  end.
Ltac preserves_tac := repeat preserves_step.

Lemma preserves_list_append l x : preserves (list_append l x).
Proof. unfold list_append. preserves_tac. Qed.

Lemma preserves_list_remove l x : preserves (list_remove l x).
Proof. unfold list_remove. preserves_tac. Qed.

#[local] Hint Resolve preserves_list_append preserves_list_remove : preserves.

Lemma preserves_replies_of r : preserves (replies_of r).
Proof. unfold replies_of. preserves_tac. Qed.

Lemma preserves_remove_from_target r : preserves (remove_from_target r).
Proof. unfold remove_from_target. preserves_tac. Qed.

Lemma preserves_parent_tree_or_tree pt tree :
  preserves (parent_tree_or_tree pt tree).
Proof. unfold parent_tree_or_tree. preserves_tac. Qed.

Lemma preserves_comments_list self e : preserves (comments_list self e).
Proof. unfold comments_list. preserves_tac. Qed.

#[local] Hint Resolve preserves_replies_of preserves_remove_from_target
  preserves_parent_tree_or_tree preserves_comments_list : preserves.

Lemma preserves_for_each {A} (f : A -> M unit) xs :
  (forall x, preserves (f x)) -> preserves (for_each f xs).
Proof. intros Hf. induction xs; simpl; preserves_tac. Qed.

Lemma preserves_insert_comment self comment :
  preserves (_insert_comment self comment).
Proof. unfold _insert_comment. preserves_tac. Qed.

Lemma preserves_gather_loop fuel tree pt heap queue :
  preserves (_gather_loop fuel tree pt heap queue).
Proof.
  revert heap queue. induction fuel as [|fuel IH]; intros heap queue.
  - destruct queue as [|[p r] queue]; simpl; [preserves_tac|].
    intros s. apply extends_refl.
  - destruct queue as [|[p r] queue]; simpl; preserves_tac.
Qed.

#[local] Hint Resolve preserves_insert_comment preserves_gather_loop
  : preserves.

Lemma preserves_gather fuel tree pt :
  preserves (_gather_more_comments fuel tree pt).
Proof. unfold _gather_more_comments. preserves_tac. Qed.

Lemma preserves_alloc_tree t : preserves (alloc_tree t).
Proof.
  induction t as [n c ch|n p root kids IH] using tree_ind'; [simpl; preserves_tac|].
  rewrite alloc_tree_TComment. apply preserves_bind; [|intros; preserves_tac].
  induction IH; simpl; preserves_tac.
Qed.

#[local] Hint Resolve preserves_gather preserves_alloc_tree : preserves.

Lemma preserves_alloc_trees ts : preserves (alloc_trees ts).
Proof. induction ts; simpl; preserves_tac. Qed.

#[local] Hint Resolve preserves_alloc_trees : preserves.

Lemma preserves_alloc_forest ts : preserves (alloc_forest ts).
Proof. unfold alloc_forest. preserves_tac. Qed.

#[local] Hint Resolve preserves_alloc_forest : preserves.

Lemma preserves_merge_fetched self item trees v :
  preserves (merge_fetched self item trees v).
Proof.
  unfold merge_fetched. apply preserves_bind; [preserves_tac|]. intros new.
  apply preserves_bind; [preserves_tac|]. intros found.
  apply preserves_bind.
  - generalize (more_comments v). induction found; intros h; preserves_tac.
  - intros h. preserves_tac. apply preserves_for_each. auto with preserves.
Qed.

Lemma preserves_Ok {A} (m : M A) s a s' :
  preserves m -> m s = (Ok a, s') -> extends s s'.
Proof. intros Hm Hrun. specialize (Hm s). by rewrite Hrun in Hm. Qed.

(** ** Lists *)

Lemma list_append_Some s l rs x :
  lists s !! l = Some rs ->
  list_append l x s =
    (Ok tt, State (objs s) (<[l := rs ++ [x]]> (lists s)) (_comments_by_id s)).
Proof.
  intros Hl. unfold list_append.
  by rewrite (bind_Ok _ _ _ _ _ (get_list_Some _ _ _ Hl)).
Qed.

Lemma remove_first_elem x rs : x ∈ rs -> is_Some (remove_first x rs).
Proof.
  induction rs as [|y rs IH]; [by intros ?%elem_of_nil|]. simpl.
  intros Hin. case_decide; [by eexists|].
  apply elem_of_cons in Hin as [->|Hin]; [done|].
  destruct (IH Hin) as [rs' ->]. by eexists.
Qed.

Lemma remove_first_perm x rs rs' :
  remove_first x rs = Some rs' -> rs ≡ₚ x :: rs'.
Proof.
  revert rs'. induction rs as [|y rs IH]; intros rs'; [done|]. simpl.
  case_decide as Hy; [intros [= <-]; by subst|].
  destruct (remove_first x rs) as [rs''|]; [|done]. intros [= <-].
  rewrite (IH rs'' eq_refl). apply perm_swap.
Qed.

Lemma remove_first_sublist x rs rs' :
  remove_first x rs = Some rs' -> sublist rs' rs.
Proof.
  revert rs'. induction rs as [|y rs IH]; intros rs'; [done|]. simpl.
  case_decide as Hy; [intros [= <-]; by apply sublist_cons|].
  destruct (remove_first x rs) as [rs''|]; [|done]. intros [= <-].
  apply sublist_skip. by apply IH.
Qed.

Lemma remove_first_other x y rs rs' :
  remove_first x rs = Some rs' -> y <> x -> y ∈ rs -> y ∈ rs'.
Proof.
  intros Hrm Hne Hin. rewrite (remove_first_perm _ _ _ Hrm) in Hin.
  by apply elem_of_cons in Hin as [->|?].
Qed.

Lemma list_remove_Some s l rs x rs' :
  lists s !! l = Some rs -> remove_first x rs = Some rs' ->
  list_remove l x s =
    (Ok tt, State (objs s) (<[l := rs']> (lists s)) (_comments_by_id s)).
Proof.
  intros Hl Hrm. unfold list_remove.
  rewrite (bind_Ok _ _ _ _ _ (get_list_Some _ _ _ Hl)). by rewrite Hrm.
Qed.

Lemma remove_from_target_Some s item m l rs rs' :
  objs s !! item = Some (OMore m) -> MoreComments._remove_from m = Some l ->
  lists s !! l = Some rs -> remove_first item rs = Some rs' ->
  remove_from_target item s =
    (Ok tt, State (objs s) (<[l := rs']> (lists s)) (_comments_by_id s)).
Proof.
  intros Hm Hl Hrs Hrm. unfold remove_from_target.
  rewrite (bind_Ok _ _ _ _ _ (get_obj_Some _ _ _ Hm)). rewrite Hl.
  by eapply list_remove_Some.
Qed.

(** ** The budget *)

Section budget.
Variable fetch : list ref -> state -> ref -> option (list tree).

Lemma merge_fetched_remaining self item trees v s v' s' :
  merge_fetched self item trees v s = (Ok v', s') ->
  remaining v' = (fun n => (n - 1)%Z) <$> remaining v /\
  skipped v' = skipped v.
Proof.
  unfold merge_fetched. intros H.
  do 6 inv_bind H. injection H as <- <-. simpl.
  by destruct (remaining v).
Qed.

(** An iteration either leaves the fetch log and the budget alone, or
    logs one fetch, which a set budget must allow and pays for. *)
Lemma loop_body_log self threshold v log s o s' log' :
  loop_body fetch self threshold v log s = (o, s', log') ->
  (log' = log /\ forall v', o = Ok v' -> remaining v' = remaining v) \/
  (length log' = S (length log) /\
   (forall n, remaining v = Some n -> (0 < n)%Z) /\
   forall v', o = Ok v' ->
     remaining v' = (fun n => (n - 1)%Z) <$> remaining v).
Proof.
  unfold loop_body.
  destruct (heappop _ _) as [[item rest]|]; [|intros [= <- <- <-]; by left].
  destruct (objs s !! item) as [[c|m]|]; try (intros [= <- <- <-]; by left).
  destruct (skip_test _ _ _) eqn:Hskip.
  - destruct (bind _ _ s) as [o1 s1] eqn:Hrun. intros [= <- <- <-]. left.
    split; [done|]. intros v' ->.
    inv_bind Hrun. by injection Hrun as <-.
  - assert (forall n, remaining v = Some n -> (0 < n)%Z) as Hpos.
    { intros n Hn. unfold skip_test in Hskip. rewrite Hn in Hskip.
      apply orb_false_iff in Hskip as [Hskip _].
      apply bool_decide_eq_false in Hskip. lia. }
    destruct (fetch log s item) as [trees|].
    + destruct (merge_fetched _ _ _ _ _) as [o1 s1] eqn:Hrun.
      intros [= <- <- <-]. right. split; [rewrite length_app; simpl; lia|].
      split; [done|]. intros v' ->.
      by apply merge_fetched_remaining in Hrun as [-> _].
    + intros [= <- <- <-]. right.
      split; [rewrite length_app; simpl; lia|]. done.
Qed.

Lemma replace_more_loop_log fuel self threshold v log s o s' log' n :
  replace_more_loop fetch fuel self threshold v log s = (o, s', log') ->
  remaining v = Some n ->
  length log' <= length log + Z.to_nat n.
Proof.
  revert v log s n. induction fuel as [|fuel IH]; intros v log s n; simpl.
  - destruct (more_comments v); intros [= <- <- <-] _; lia.
  - destruct (more_comments v) eqn:Hheap; [intros [= <- <- <-] _; lia|].
    destruct (loop_body _ _ _ _ _ _) as [[o1 s1] log1] eqn:Hbody.
    intros Hrun Hn.
    apply loop_body_log in Hbody as [[-> Hrem]|(Hlen & Hpos & Hrem)].
    + destruct o1 as [v1| | |]; try (injection Hrun as <- <- <-; lia).
      apply (IH _ _ _ n) in Hrun; [done|].
      by rewrite (Hrem v1 eq_refl).
    + specialize (Hpos n Hn).
      destruct o1 as [v1| | |]; try (injection Hrun as <- <- <-; lia).
      apply (IH _ _ _ (n - 1)%Z) in Hrun; [lia|].
      by rewrite (Hrem v1 eq_refl), Hn.
Qed.

Lemma replace_more_log fuel self threshold n s o s' log :
  replace_more fetch fuel self (Some n) threshold s = (o, s', log) ->
  length log <= Z.to_nat n.
Proof.
  unfold replace_more.
  destruct (bind _ _ s) as [[h| | |] s1]; try (intros [= <- <- <-]; simpl; lia).
  intros Hrun. by apply (replace_more_loop_log _ _ _ _ _ _ _ _ _ n) in Hrun.
Qed.
End budget.

(** ** After the first gather *)

Lemma flat_map_sublist {A B} (f g : A -> list B) (l : list A) :
  (forall x, x ∈ l -> f x `sublist_of` g x) ->
  flat_map f l `sublist_of` flat_map g l.
Proof.
  induction l as [|x l IH]; intros Hfg; simpl; [done|].
  apply sublist_app; [apply Hfg; by left|].
  apply IH. intros y Hy. apply Hfg. by right.
Qed.

Lemma fmap_flat_map {A B C} (h : B -> C) (f : A -> list B) (l : list A) :
  h <$> flat_map f l = flat_map (fun x => h <$> f x) l.
Proof. induction l as [|x l IH]; simpl; [done|]. by rewrite fmap_app, IH. Qed.

Lemma targets_fst_sublist c t : (targets c t).*1 `sublist_of` srefs t.
Proof.
  revert c. induction t as [r|r l kids IH] using stree_ind'; intros c; simpl.
  - done.
  - apply sublist_cons. rewrite fmap_flat_map.
    apply flat_map_sublist. rewrite Forall_forall in IH. auto.
Qed.

Lemma forest_targets_NoDup top ts :
  NoDup (flat_map srefs ts) -> NoDup (forest_targets top ts).*1.
Proof.
  intros Hnd. eapply sublist_NoDup; [done|].
  unfold forest_targets. rewrite fmap_flat_map.
  apply flat_map_sublist. intros t _. apply targets_fst_sublist.
Qed.

Lemma sroot_sublist kids : map sroot kids `sublist_of` flat_map srefs kids.
Proof.
  induction kids as [|k kids IH]; simpl; [done|].
  destruct k as [r l kids'|r]; simpl.
  - apply sublist_skip. by apply sublist_inserts_l.
  - by apply sublist_skip.
Qed.

Lemma forest_targets_member s top ts r l :
  forest_shape s top ts -> (r, l) ∈ forest_targets top ts ->
  is_more s r /\ exists rs, lists s !! l = Some rs /\ r ∈ rs.
Proof.
  intros Hsh (kids & Hl & Hr)%forest_targets_lists.
  destruct (forest_lists_shape _ _ _ _ _ Hsh Hl) as [Hrs Hkids].
  rewrite Forall_forall in Hkids. split; [by apply (Hkids _ Hr)|].
  exists (map sroot kids). split; [done|].
  apply list_elem_of_fmap. by exists (SMore r).
Qed.

Lemma gathered_extends s s' T : gathered s s' T -> extends s s'.
Proof.
  intros (_ & _ & _ & Hout & Hin) r o Hr.
  destruct (decide (r ∈ T.*1)) as [HT|HT].
  - destruct (Hin _ HT) as (m & c & Hm & _ & Hs'). simplify_eq.
    by exists (OMore (with_target c m)).
  - exists o. split; [|done]. by rewrite (Hout _ HT).
Qed.

Lemma gathered_pending s s' top ts heap :
  forest_shape s top ts -> NoDup (flat_map srefs ts) ->
  gathered s s' (forest_targets top ts) ->
  heap ≡ₚ forest_mores top ts ->
  pending s' heap.
Proof.
  intros Hsh Hnd Hg Hperm. split.
  - rewrite Hperm. by apply forest_targets_NoDup.
  - intros r Hr. rewrite Hperm in Hr.
    destruct Hg as (Hl & _ & _ & _ & Hin).
    destruct (Hin _ Hr) as (m & c & Hm & Hc & Hs').
    destruct (forest_targets_member _ _ _ _ _ Hsh Hc) as (_ & rs & Hrs & Hmem).
    exists (with_target c m), c, rs. by rewrite Hl.
Qed.

(** ** Skipping *)

Lemma pending_remove s heap item rest m l rs rs' :
  pending s heap -> heap ≡ₚ item :: rest ->
  objs s !! item = Some (OMore m) -> MoreComments._remove_from m = Some l ->
  lists s !! l = Some rs -> remove_first item rs = Some rs' ->
  pending (State (objs s) (<[l := rs']> (lists s)) (_comments_by_id s)) rest.
Proof.
  intros [Hnd Hpend] Hperm Hm Hl Hrs Hrm.
  rewrite Hperm in Hnd. apply NoDup_cons in Hnd as [Hnotin Hnd].
  split; [done|]. intros r Hr.
  destruct (Hpend r) as (m' & l' & rs0 & Hm' & Hl' & Hrs0 & Hin).
  { rewrite Hperm. by right. }
  simpl. destruct (decide (l = l')) as [<-|Hne].
  - exists m', l, rs'. split_and!; [done|done| |].
    + rewrite list_lookup_insert_eq by (by eapply lookup_lt_Some). done.
    + simplify_eq. eapply remove_first_other; [done| |done].
      intros ->. done.
  - exists m', l', rs0. split_and!; [done|done| |done].
    by rewrite list_lookup_insert_ne.
Qed.

Lemma lists_sub_remove (ls : list (list ref)) l rs rs' :
  ls !! l = Some rs -> sublist rs' rs -> Forall2 sublist (<[l := rs']> ls) ls.
Proof.
  intros Hl Hsub. rewrite <- (list_insert_id ls l rs) at 2 by done.
  apply Forall2_insert; [|done]. by apply Forall_Forall2_diag, Forall_true.
Qed.

Lemma heappop_is_Some {A} (less : A -> A -> bool) (heap : list A) :
  heap <> [] -> exists item rest, heappop less heap = Some (item, rest).
Proof.
  intros Hne. destruct (heappop less heap) as [[item rest]|] eqn:Hpop; [eauto|].
  by apply heappop_None in Hpop.
Qed.

Section skip.
Variable fetch : list ref -> state -> ref -> option (list tree).

Lemma replace_more_loop_S fuel self threshold v log s :
  more_comments v <> [] ->
  replace_more_loop fetch (S fuel) self threshold v log s =
  match loop_body fetch self threshold v log s with
  | (Ok v', s', log') => replace_more_loop fetch fuel self threshold v' log' s'
  | (Raise e, s', log') => (Raise e, s', log')
  | (Stuck, s', log') => (Stuck, s', log')
  | (OutOfFuel, s', log') => (OutOfFuel, s', log')
  end.
Proof. intros Hne. simpl. by destruct (more_comments v). Qed.

Lemma replace_more_loop_nil fuel self threshold v log s :
  more_comments v = [] ->
  replace_more_loop fetch fuel self threshold v log s = (Ok (skipped v), s, log).
Proof. intros Hnil. destruct fuel; simpl; by rewrite Hnil. Qed.

Lemma skip_loop fuel self threshold n heap sk log s :
  (n <= 0)%Z -> pending s heap -> length heap <= fuel ->
  exists res s',
    replace_more_loop fetch fuel self threshold
      (Locals (Some n) heap sk) log s = (Ok (sk ++ res), s', log) /\
    res ≡ₚ heap /\ objs s' = objs s /\
    _comments_by_id s' = _comments_by_id s /\
    Forall2 sublist (lists s') (lists s).
Proof.
  intros Hn. revert heap sk s.
  induction fuel as [|fuel IH]; intros heap sk s Hpend Hfuel.
  - destruct heap; [|simpl in Hfuel; lia]. exists [], s. simpl.
    rewrite app_nil_r.
    split_and!; try done; by apply Forall_Forall2_diag, Forall_true.
  - destruct (decide (heap = [])) as [->|Hne].
    { exists [], s. simpl. rewrite app_nil_r.
      split_and!; try done; by apply Forall_Forall2_diag, Forall_true. }
    rewrite replace_more_loop_S by done.
    destruct (heappop_is_Some (more_lt s) heap) as (item & rest & Hpop);
      [done|].
    pose proof (heappop_perm _ _ _ _ Hpop) as Hperm.
    destruct (proj2 Hpend item) as (m & l & rs & Hm & Hl & Hrs & Hin);
      [rewrite Hperm; by left|].
    destruct (remove_first_elem _ _ Hin) as [rs' Hrm].
    set (s1 := State (objs s) (<[l := rs']> (lists s)) (_comments_by_id s)).
    assert (loop_body fetch self threshold (Locals (Some n) heap sk) log s
            = (Ok (Locals (Some n) rest (sk ++ [item])), s1, log))
      as Hbody.
    { unfold loop_body. cbn [more_comments remaining skipped].
      rewrite Hpop, Hm. unfold skip_test.
      rewrite bool_decide_true by done. cbn [orb].
      rewrite (bind_Ok _ _ _ _ _
                 (remove_from_target_Some _ _ _ _ _ _ Hm Hl Hrs Hrm)).
      done. }
    rewrite Hbody.
    destruct (IH rest (sk ++ [item]) s1)
      as (res & s' & Hrun & Hres & Hobjs & Hidx & Hsub).
    { by eapply pending_remove. }
    { apply Permutation_length in Hperm. simpl in Hperm. lia. }
    exists (item :: res), s'. split_and!.
    + rewrite Hrun. by rewrite <- app_assoc.
    + by rewrite Hperm, Hres.
    + done.
    + done.
    + etrans; [done|]. simpl.
      eapply lists_sub_remove; [done|]. by eapply remove_first_sublist.
Qed.
End skip.

(** ** Occurrences *)

Lemma occ_app r rs1 rs2 : occ r (rs1 ++ rs2) = occ r rs1 + occ r rs2.
Proof. unfold occ. by rewrite filter_app, length_app. Qed.

Lemma occ_cons r x rs :
  occ r (x :: rs) = (if decide (x = r) then 1 else 0) + occ r rs.
Proof. unfold occ. rewrite filter_cons. by case_decide. Qed.

Lemma occ_snoc_ne r x rs : x <> r -> occ r (rs ++ [x]) = occ r rs.
Proof.
  intros Hne. rewrite occ_app, occ_cons. rewrite decide_False by done.
  unfold occ. simpl. lia.
Qed.

Lemma occ_elem r rs : r ∈ rs <-> 0 < occ r rs.
Proof.
  induction rs as [|x rs IH].
  - split; [by intros ?%elem_of_nil|]. unfold occ. simpl. lia.
  - rewrite occ_cons, elem_of_cons, IH.
    case_decide; subst; split; lia.
Qed.

Lemma occ_NoDup r rs : NoDup rs -> occ r rs <= 1.
Proof.
  induction 1 as [|x rs Hx _ IH]; [unfold occ; simpl; lia|].
  rewrite occ_cons. case_decide; [|lia]. subst.
  apply (not_iff_compat (occ_elem r rs)) in Hx. lia.
Qed.

Lemma occ_remove_first x rs rs' r :
  remove_first x rs = Some rs' ->
  occ r rs = (if decide (x = r) then 1 else 0) + occ r rs'.
Proof.
  intros Hrm. unfold occ at 1.
  rewrite (remove_first_perm _ _ _ Hrm). fold (occ r (x :: rs')).
  apply occ_cons.
Qed.

(** ** Resolving every placeholder *)

Lemma elem_flat_map_sublist {A B} (f : A -> list B) (l : list A) x :
  x ∈ l -> f x `sublist_of` flat_map f l.
Proof.
  induction l as [|y l IH]; [by intros ?%elem_of_nil|].
  intros [->|Hx]%elem_of_cons; simpl.
  - by apply sublist_inserts_r.
  - apply sublist_inserts_l. by apply IH.
Qed.

Lemma tree_lists_refs_sublist t l kids :
  (l, kids) ∈ tree_lists t -> flat_map srefs kids `sublist_of` srefs t.
Proof.
  induction t as [r|r l0 kids0 IH] using stree_ind'; simpl;
    [by intros ?%elem_of_nil|].
  rewrite Forall_forall in IH.
  intros [[= -> ->]|Hin]%elem_of_cons; [by apply sublist_cons|].
  apply elem_of_flat_map in Hin as (t & Ht & Hin).
  apply sublist_cons. etrans; [by apply (IH t)|].
  by apply elem_flat_map_sublist.
Qed.

Lemma forest_lists_NoDup top ts l kids :
  NoDup (flat_map srefs ts) -> (l, kids) ∈ forest_lists top ts ->
  NoDup (map sroot kids).
Proof.
  intros Hnd Hl. eapply sublist_NoDup; [done|].
  etrans; [apply sroot_sublist|].
  unfold forest_lists in Hl.
  apply elem_of_cons in Hl as [[= -> ->]|Hl]; [done|].
  apply elem_of_flat_map in Hl as (t & Ht & Hin).
  etrans; [by eapply tree_lists_refs_sublist|].
  by apply elem_flat_map_sublist.
Qed.

Lemma NoDup_fst_functional {A B} (l : list (A * B)) x y1 y2 :
  NoDup l.*1 -> (x, y1) ∈ l -> (x, y2) ∈ l -> y1 = y2.
Proof.
  induction l as [|[a b] l IH]; [by intros _ ?%elem_of_nil|].
  rewrite fmap_cons, NoDup_cons. simpl. intros [Ha Hnd].
  assert (forall y, (a, y) ∈ l -> False) as Hno.
  { intros y Hy. apply Ha, list_elem_of_fmap. by exists (a, y). }
  intros [[= -> ->]|H1]%elem_of_cons [[= ->]|H2]%elem_of_cons; try done.
  - by destruct (Hno _ H2).
  - subst. by destruct (Hno _ H1).
  - by apply IH.
Qed.

(** ** Stores without dangling attributes *)

Lemma store_ok_alloc n_o n_l s s' os ls :
  store_ok s -> allocated n_o n_l s s' os ls -> store_ok s'.
Proof.
  intros [Hrep Hidx] (Ho & Hl & Hi & _ & _ & Hhas). split.
  - intros r c. rewrite Ho. intros [Hin|[_ Hin]]%lookup_app_Some.
    + destruct (Hrep _ _ Hin) as [rs Hrs]. exists rs.
      rewrite Hl. by apply lookup_app_l_Some.
    + apply list_elem_of_lookup_2 in Hin.
      rewrite Forall_forall in Hhas. specialize (Hhas _ Hin).
      by apply lookup_lt_is_Some_2.
  - intros n r. rewrite Hi. intros Hn. destruct (Hidx _ _ Hn) as [c Hc].
    exists c. rewrite Ho. by apply lookup_app_l_Some.
Qed.

Lemma store_ok_register s r c c' :
  store_ok s -> objs s !! r = Some (OComment c) ->
  Comment.replies c' = Comment.replies c ->
  store_ok (State (<[r := OComment c']> (objs s)) (lists s)
              (<[Comment.name c := r]> (_comments_by_id s))).
Proof.
  intros [Hrep Hidx] Hr Heq.
  assert (r < length (objs s)) as Hlt by (by eapply lookup_lt_Some).
  split; simpl.
  - intros r' c1 [(<- & [= <-] & _)|[_ Hin]]%list_lookup_insert_Some.
    + rewrite Heq. by eapply Hrep.
    + by eapply Hrep.
  - intros n r' [[<- <-]|[_ Hn]]%lookup_insert_Some.
    + exists c'. simpl. by rewrite list_lookup_insert_eq.
    + destruct (Hidx _ _ Hn) as [c1 Hc1].
      destruct (decide (r = r')) as [<-|Hne].
      * exists c'. simpl. by rewrite list_lookup_insert_eq.
      * exists c1. simpl. by rewrite list_lookup_insert_ne.
Qed.

Lemma store_ok_set_list s l rs :
  store_ok s ->
  store_ok (State (objs s) (<[l := rs]> (lists s)) (_comments_by_id s)).
Proof.
  intros [Hrep Hidx]. split; simpl; [|done].
  intros r c Hr. apply list_lookup_insert_is_Some. by eapply Hrep.
Qed.

Lemma store_ok_gathered s s' T : gathered s s' T -> store_ok s -> store_ok s'.
Proof.
  intros (Hl & Hi & _ & Hout & Hin) [Hrep Hidx].
  assert (forall r c, objs s !! r = Some (OComment c) <->
                      objs s' !! r = Some (OComment c)) as Hcom.
  { intros r c. destruct (decide (r ∈ T.*1)) as [HT|HT].
    - destruct (Hin _ HT) as (m & c' & Hm & _ & Hs'). rewrite Hm, Hs'. done.
    - by rewrite (Hout _ HT). }
  split.
  - intros r c Hr. rewrite Hl. apply Hcom in Hr. by eapply Hrep.
  - intros n r. rewrite Hi. intros Hn. destruct (Hidx _ _ Hn) as [c Hc].
    exists c. by apply Hcom.
Qed.

(** ** Merging a response into the forest *)

Lemma get_obj_Ok s r o s' : get_obj r s = (Ok o, s') -> objs s !! r = Some o /\ s' = s.
Proof. unfold get_obj. destruct (objs s !! r); by intros [= <- <-]. Qed.

Lemma get_list_Ok s l rs s' :
  get_list l s = (Ok rs, s') -> lists s !! l = Some rs /\ s' = s.
Proof. unfold get_list. destruct (lists s !! l); by intros [= <- <-]. Qed.

Lemma replies_of_Ok s r l s' :
  replies_of r s = (Ok l, s') ->
  exists c, objs s !! r = Some (OComment c) /\ Comment.replies c = l /\ s' = s.
Proof.
  unfold replies_of. intros H. inv_bind H.
  apply get_obj_Ok in H0 as [Ho ->].
  destruct a as [c|m]; [|done]. injection H as <- <-. eauto.
Qed.

Lemma set_submission_Comment s r c sub :
  objs s !! r = Some (OComment c) ->
  set_submission r sub s =
    (Ok tt,
     State (<[r := OComment (Comment.Build (Comment.name c)
                           (Comment.parent_id c) (Comment.is_root c)
                           (Comment.replies c) (Some sub))]> (objs s))
       (lists s) (<[Comment.name c := r]> (_comments_by_id s))).
Proof.
  intros Hr. unfold set_submission.
  by rewrite (bind_Ok _ _ _ _ _ (get_obj_Some _ _ _ Hr)).
Qed.

Lemma gathered_nil_inv s s' : gathered s s' [] -> s' = s.
Proof.
  intros (Hl & Hi & _ & Hout & _).
  destruct s as [o l i], s' as [o' l' i']. simpl in *. subst. f_equal.
  apply list_eq. intros r. apply Hout. by intros ?%elem_of_nil.
Qed.

Lemma set_submission_More s r m sub :
  objs s !! r = Some (OMore m) ->
  set_submission r sub s =
    (Ok tt,
     State (<[r := OMore (MoreComments.Build (MoreComments.name m)
                            (MoreComments.count m) (MoreComments.children m)
                            (MoreComments._remove_from m) (Some sub))]> (objs s))
       (lists s) (_comments_by_id s)).
Proof.
  intros Hr. unfold set_submission.
  by rewrite (bind_Ok _ _ _ _ _ (get_obj_Some _ _ _ Hr)).
Qed.

Lemma list_append_Ok s l x s' :
  list_append l x s = (Ok tt, s') ->
  exists rs, lists s !! l = Some rs /\
    s' = State (objs s) (<[l := rs ++ [x]]> (lists s)) (_comments_by_id s).
Proof.
  unfold list_append. intros H. inv_bind H as rs s1 H1.
  apply get_list_Ok in H1 as [Hrs ->]. injection H as <-. eauto.
Qed.

Lemma remove_from_target_Ok s item s' :
  remove_from_target item s = (Ok tt, s') ->
  exists l rs rs', lists s !! l = Some rs /\ remove_first item rs = Some rs' /\
    s' = State (objs s) (<[l := rs']> (lists s)) (_comments_by_id s).
Proof.
  unfold remove_from_target. intros H. inv_bind H as o s1 H1.
  apply get_obj_Ok in H1 as [_ ->].
  destruct o as [c|m]; [done|].
  destruct (MoreComments._remove_from m) as [l|]; [|done].
  unfold list_remove in H. inv_bind H as rs s1 H1.
  apply get_list_Ok in H1 as [Hrs ->].
  destruct (remove_first item rs) as [rs'|] eqn:Hrm; [|done].
  injection H as <-. eauto 10.
Qed.

Lemma set_obj_extends_back s r o o' :
  objs s !! r = Some o -> core o' = core o ->
  extends (State (<[r := o']> (objs s)) (lists s) (_comments_by_id s)) s.
Proof.
  intros Hr Hc r' o1. simpl.
  intros [(<- & <- & _)|[_ Hr']]%list_lookup_insert_Some; eauto.
Qed.

(** A successful insert is an append, to the top-level list or to the
    replies of a comment of the index, after the node was attached to the
    discussion. *)
Lemma insert_comment_Ok self top r s s' :
  _comments self = Some top -> _insert_comment self r s = (Ok tt, s') ->
  exists s1 l,
    extends s s1 /\ extends s1 s /\ lists s1 = lists s /\
    (forall n p, _comments_by_id s1 !! n = Some p ->
       p = r \/ _comments_by_id s !! n = Some p) /\
    (l = top \/
     exists n p pc, _comments_by_id s1 !! n = Some p /\
       objs s1 !! p = Some (OComment pc) /\ Comment.replies pc = l) /\
    list_append l r s1 = (Ok tt, s').
Proof.
  intros Hself Hrun. unfold _insert_comment in Hrun.
  inv_bind Hrun as o s1 Ho. apply get_obj_Ok in Ho as [Ho ->].
  unfold get_index at 1 in Hrun. unfold bind at 1 in Hrun.
  case_bool_decide; [done|].
  inv_bind Hrun as u s2 Hsub. destruct o as [c|m].
  - rewrite (set_submission_Comment _ _ _ _ Ho) in Hsub.
    injection Hsub as _ Hs2. rewrite <- Hs2 in Hrun. clear Hs2 s2.
    set (s1 := State _ _ _) in *.
    assert (extends s s1 /\ extends s1 s) as [Hext Hext'].
    { split; [by eapply extends_set_obj|by eapply set_obj_extends_back]. }
    assert (forall n p, _comments_by_id s1 !! n = Some p ->
              p = r \/ _comments_by_id s !! n = Some p) as Hidx.
    { intros n p. unfold s1. cbn [_comments_by_id].
      intros [[_ <-]|[_ Hn]]%lookup_insert_Some; auto. }
    destruct (Comment.is_root c).
    + unfold comments_list in Hrun. rewrite Hself in Hrun.
      unfold ret at 1 in Hrun. unfold bind at 1 in Hrun.
      exists s1, top. split_and!; auto.
    + unfold get_index at 1 in Hrun. unfold bind at 1 in Hrun.
      destruct (_ !! Comment.parent_id c) as [parent|] eqn:Hparent; [|done].
      inv_bind Hrun as l s3 Hrep.
      apply replies_of_Ok in Hrep as (pc & Hpc & <- & ->).
      exists s1, (Comment.replies pc). split_and!; auto.
      right. eauto 10.
  - rewrite (set_submission_More _ _ _ _ Ho) in Hsub.
    injection Hsub as _ Hs2. rewrite <- Hs2 in Hrun. clear Hs2 s2.
    set (s1 := State _ _ _) in *.
    unfold comments_list in Hrun. rewrite Hself in Hrun.
    unfold ret at 1 in Hrun. unfold bind at 1 in Hrun.
    exists s1, top. split_and!; auto.
    + by eapply extends_set_obj.
    + by eapply set_obj_extends_back.
Qed.

Lemma growing_alloc n_o n_l s s' os ls top sts :
  store_ok s -> growing s top [] -> allocated n_o n_l s s' os ls ->
  Forall (shape s') sts -> fresh_lists (length (lists s)) sts ->
  growing s' top sts.
Proof.
  intros [Hrep Hidx] [(ts & Hfs & _) _ _ _] Hal Hsts [Hnd Hge].
  pose proof Hal as (Ho & Hl & Hi & _).
  rewrite Forall_forall in Hge. split; [|done|done|].
  - exists ts. split.
    + destruct Hfs as [Htop Hts]. split.
      * rewrite Hl. by apply lookup_app_l_Some.
      * eapply Forall_impl; [done|]. intros t. by eapply allocated_shape.
    + intros l Hnew ([l' kids] & -> & Hin)%list_elem_of_fmap.
      destruct (forest_lists_shape _ _ _ _ _ Hfs Hin) as [Hl' _].
      apply lookup_lt_Some in Hl'. specialize (Hge _ Hnew). simpl in Hge. lia.
  - intros n p c. rewrite Hi. intros Hn Hp Hnew.
    destruct (Hidx _ _ Hn) as [c0 Hc0].
    rewrite Ho, (lookup_app_l_Some _ _ _ _ Hc0) in Hp. injection Hp as <-.
    destruct (Hrep _ _ Hc0) as [rs Hrs]. apply lookup_lt_Some in Hrs.
    specialize (Hge _ Hnew). simpl in Hge. lia.
Qed.

(** Inserting the first of the trees still to insert. *)
Lemma growing_insert self top t rem s s' :
  _comments self = Some top -> growing s top (t :: rem) ->
  _insert_comment self (sroot t) s = (Ok tt, s') -> growing s' top rem.
Proof.
  intros Hself [(ts & Hfs & HD) Hrem Hnd HE] Hrun.
  destruct (insert_comment_Ok _ _ _ _ _ Hself Hrun)
    as (s1 & l & Hext & Hext' & Hlists & Hidx & Hl & Happ).
  apply list_append_Ok in Happ as (rs & Hrs & ->).
  rewrite lists_of_cons in Hnd. apply NoDup_app in Hnd as (Hnd1 & Hdisj & Hnd2).
  apply Forall_cons in Hrem as [Ht Hrem].
  assert (forall n p c, _comments_by_id s1 !! n = Some p ->
            objs s1 !! p = Some (OComment c) ->
            Comment.replies c ∉ lists_of rem) as HE1.
  { intros n p c Hn Hp. destruct (Hext' _ _ Hp) as (o & Ho & Hcore).
    apply core_OComment in Hcore as (c0 & -> & <- & _).
    destruct (Hidx _ _ Hn) as [->|Hn0].
    - apply Hdisj. destruct t as [r l0 kids|r]; simpl in *.
      + apply shape_SComment in Ht as ((c1 & Hc1 & <-) & _).
        simplify_eq. by left.
      + destruct Ht as (m & Hm). simplify_eq.
    - intros Hin. apply (HE _ _ _ Hn0 Ho).
      rewrite lists_of_cons. apply elem_of_app. by right. }
  assert (l ∉ lists_of rem) as Hlrem.
  { destruct Hl as [->|(n & p & pc & Hn & Hp & <-)]; [|by eapply HE1].
    intros Hin. apply (HD top).
    - rewrite lists_of_cons. apply elem_of_app. by right.
    - rewrite forest_lists_fst. by left. }
  set (s' := State _ _ _).
  assert (extends s s') as Hext2 by (intros r o Hr; by apply Hext).
  rewrite Hlists in Hrs.
  assert (lists s' = <[l := rs ++ [sroot t]]> (lists s)) as Hs'
    by (unfold s'; simpl; by rewrite Hlists).
  assert (forall l', l' <> l -> lists s' !! l' = lists s !! l') as Hother
    by (intros l' Hne; rewrite Hs'; by apply list_lookup_insert_ne).
  split; [|by (apply (shapes_frame s); [done| |done];
                intros l' Hl'; apply Hother; by intros ->)|done|done].
  destruct (decide (l ∈ (forest_lists top ts).*1)) as [Hin|Hout].
  - assert (shape s' t) as Ht'.
    { apply (shape_frame s); [done| |done].
      intros l' Hl'. apply Hother. intros ->. apply (HD l); [|done].
      rewrite lists_of_cons. apply elem_of_app. by left. }
    exists (graft_forest l t top ts). split.
    + by eapply forest_shape_graft.
    + intros l' Hl' [Hg|Hg]%forest_lists_graft.
      * apply (HD l'); [|done]. rewrite lists_of_cons. apply elem_of_app.
        by right.
      * by apply (Hdisj l').
  - exists ts. split.
    + apply (forest_shape_frame s); [done| |done].
      intros l' Hl'. apply Hother. by intros ->.
    + intros l' Hl'. apply HD. rewrite lists_of_cons. apply elem_of_app.
      by right.
Qed.

Lemma growing_inserts self top rem s s' :
  _comments self = Some top -> growing s top rem ->
  for_each (_insert_comment self) (map sroot rem) s = (Ok tt, s') ->
  growing s' top [].
Proof.
  intros Hself. revert s. induction rem as [|t rem IH]; intros s Hgr Hrun.
  - by injection Hrun as <-.
  - simpl in Hrun. inv_bind Hrun as u s1 Hins. destruct u.
    apply (IH s1); [|done]. by eapply growing_insert.
Qed.

Lemma growing_remove s top l x rs rs' :
  growing s top [] -> lists s !! l = Some rs ->
  remove_first x rs = Some rs' ->
  growing (State (objs s) (<[l := rs']> (lists s)) (_comments_by_id s)) top [].
Proof.
  intros [(ts & Hfs & _) _ _ _] Hl Hrm. split.
  - exists (prune_forest l x top ts). split.
    + eapply (forest_shape_prune s); [|done|done|done|done].
      intros r o Hr. eauto.
    + by intros l' ?%elem_of_nil.
  - constructor.
  - apply NoDup_nil_2.
  - by intros n p c _ _ ?%elem_of_nil.
Qed.

(** The list at the top holds a forest after the merge of a response
    of comments. *)
Lemma growing_merge self top item trees v s v' s' :
  store_ok s -> growing s top [] -> _comments self = Some top ->
  Forall no_more trees ->
  merge_fetched self item trees v s = (Ok v', s') -> growing s' top [].
Proof.
  intros Hok Hgr Hself Hnm Hrun.
  destruct (alloc_forest_spec trees s (length (objs s)) (length (lists s))
              ltac:(lia) ltac:(lia))
    as (new & s1 & sts & os & ls & Halloc & Hal & Hnew & Hsz & _ & Hge & Hlt
        & Hcom & Hfr).
  destruct (Hcom Hnm) as [Hos Hnone].
  assert (growing s1 top sts) as Hgr1
    by (eapply growing_alloc; [done|done|done|apply Hnew|done]).
  destruct (gr_forest _ _ _ Hgr1) as (ts1 & [Hrtop _] & _).
  unfold merge_fetched in Hrun. rewrite (bind_Ok _ _ _ _ _ Halloc) in Hrun.
  set (rtop := map sroot ts1) in *.
  set (fb := match rtop with [] => new | _ :: _ => top end).
  destruct (gather_total (S (forest_size trees)) new (Some top) fb sts s1)
    as (found & s2 & Hgather & Hg & Hfound); [done| |lia|].
  { intros s'' Hs''. unfold parent_tree_or_tree.
    rewrite (bind_Ok _ _ _ _ _ (get_list_Some _ _ rtop ltac:(by rewrite Hs''))).
    unfold fb. by destruct rtop. }
  rewrite Hnone in Hg, Hfound.
  apply gathered_nil_inv in Hg as ->. apply Permutation_nil_r in Hfound as ->.
  rewrite Hself in Hrun. rewrite (bind_Ok _ _ _ _ _ Hgather) in Hrun.
  unfold ret at 1 in Hrun. unfold bind at 1 in Hrun.
  rewrite (bind_Ok _ _ _ _ _ (get_list_Some _ _ _ (proj1 Hnew))) in Hrun.
  inv_bind Hrun as u s3 Hins. destruct u.
  apply (growing_inserts _ _ _ _ _ Hself Hgr1) in Hins.
  inv_bind Hrun as u s4 Hrm. destruct u. injection Hrun as _ <-.
  apply remove_from_target_Ok in Hrm as (l & rs & rs' & Hl & Hrm & ->).
  by eapply growing_remove.
Qed.

Section resolving.
Variables (s0 : state) (top : loc) (ts : list stree).
Hypothesis Hsh : forest_shape s0 top ts.
Hypothesis Hnd : NoDup (flat_map srefs ts).

Local Abbreviation n_o := (length (objs s0)).
Local Abbreviation n_l := (length (lists s0)).
Local Abbreviation T := (forest_targets top ts).

(** What the forest says of a placeholder and its list. *)
Lemma target_old r l :
  (r, l) ∈ T ->
  r < n_o /\ is_more s0 r /\
  exists rs0, lists s0 !! l = Some rs0 /\ r ∈ rs0 /\ NoDup rs0.
Proof.
  intros Hr.
  destruct (forest_targets_member _ _ _ _ _ Hsh Hr) as ([m Hm] & rs & Hrs & Hin).
  split; [by eapply lookup_lt_Some|]. split; [by exists m|].
  exists rs. split; [done|]. split; [done|].
  apply forest_targets_lists in Hr as (kids & Hl & _).
  destruct (forest_lists_shape _ _ _ _ _ Hsh Hl) as [Hrs' _].
  simplify_eq. by eapply forest_lists_NoDup.
Qed.

Lemma target_unique r l l' : (r, l) ∈ T -> (r, l') ∈ T -> l = l'.
Proof.
  apply NoDup_fst_functional. by apply forest_targets_NoDup.
Qed.

Lemma resolving_lengths s heap :
  resolving s0 top ts s heap ->
  n_o <= length (objs s) /\ n_l <= length (lists s).
Proof.
  intros Hres. split.
  - destruct (decide (n_o = 0)) as [->|Hne]; [lia|].
    destruct (lookup_lt_is_Some_2 (objs s0) (n_o - 1)) as [o Ho]; [lia|].
    destruct (rs_extends _ _ _ _ _ Hres _ _ Ho) as (o' & Ho' & _).
    apply lookup_lt_Some in Ho'. lia.
  - destruct (decide (n_l = 0)) as [->|Hne]; [lia|].
    destruct (lookup_lt_is_Some_2 (lists s0) (n_l - 1)) as [rs0 Hrs0]; [lia|].
    destruct (rs_old_lists _ _ _ _ _ Hres _ _ Hrs0) as (rs & Hrs & _).
    apply lookup_lt_Some in Hrs. lia.
Qed.

Lemma resolving_init s1 heap :
  (forall r m, r ∈ forest_mores top ts -> objs s0 !! r = Some (OMore m) ->
     (0 <= MoreComments.count m)%Z) ->
  gathered s0 s1 T -> heap ≡ₚ forest_mores top ts ->
  resolving s0 top ts s1 heap.
Proof.
  intros Hcount Hg Hperm.
  pose proof Hg as (Hl & _ & Hlen & _ & Hin).
  split.
  - rewrite Hperm. by apply forest_targets_NoDup.
  - intros r Hr. rewrite Hperm in Hr.
    destruct (Hin _ Hr) as (m & c & Hm & Hc & Hs1).
    destruct (target_old _ _ Hc) as (_ & _ & rs0 & Hrs0 & Hmem & _).
    exists (with_target c m), c, rs0. rewrite Hl.
    split_and!; try done. simpl. by eapply Hcount.
  - by eapply gathered_extends.
  - intros r o Hr Ho. apply lookup_lt_Some in Ho. lia.
  - intros l rs r Hlge Hrs. rewrite Hl in Hrs.
    apply lookup_lt_Some in Hrs. lia.
  - intros l rs0 Hrs0. exists rs0. by rewrite Hl.
  - intros r l rs Hr Hnotin. exfalso. apply Hnotin. rewrite Hperm.
    apply list_elem_of_fmap. by exists (r, l).
Qed.

Lemma resolving_alloc s heap s' os ls :
  resolving s0 top ts s heap ->
  allocated n_o n_l s s' os ls -> Forall obj_is_comment os ->
  resolving s0 top ts s' heap.
Proof.
  intros Hres (Ho & Hl & _ & Hos & Hls & _) Hcom.
  destruct (resolving_lengths _ _ Hres) as [Hno Hnl].
  assert (forall l rs, lists s !! l = Some rs -> lists s' !! l = Some rs)
    as Hlists.
  { intros l rs Hrs. rewrite Hl. by apply lookup_app_l_Some. }
  assert (forall l rs, l < length (lists s) -> lists s' !! l = Some rs ->
            lists s !! l = Some rs) as Hlists'.
  { intros l rs Hlt. rewrite Hl. by rewrite lookup_app_l. }
  destruct Hres as [Hnodup Hpend Hext Hnew Hnewl Hold Hdone]. split.
  - done.
  - intros r Hr.
    destruct (Hpend r Hr) as (m & l & rs & Hm & Hc & Hrf & HT & Hrs & Hin).
    exists m, l, rs. split_and!; try done.
    + rewrite Ho. by apply lookup_app_l_Some.
    + by apply Hlists.
  - eapply extends_trans; [done|]. by eapply extends_app.
  - intros r o Hr. rewrite Ho. intros [Hin|[_ Hin]]%lookup_app_Some.
    + by eapply Hnew.
    + apply list_elem_of_lookup_2 in Hin.
      rewrite Forall_forall in Hos, Hcom.
      specialize (Hos _ Hin). specialize (Hcom _ Hin).
      destruct o as [c|m]; [|done]. by exists c.
  - intros l rs r Hlge. rewrite Hl.
    intros [Hin|[_ Hin]]%lookup_app_Some Hr.
    + by eapply Hnewl.
    + apply list_elem_of_lookup_2 in Hin.
      rewrite Forall_forall in Hls. specialize (Hls _ Hin).
      unfold new_list_ok in Hls. rewrite Forall_forall in Hls. by apply Hls.
  - intros l rs0 Hrs0. destruct (Hold _ _ Hrs0) as (rs & Hrs & Hocc).
    exists rs. split; [by apply Hlists|done].
  - intros r l rs HT Hnotin Hrs.
    destruct (target_old _ _ HT) as (_ & _ & rs0 & Hrs0 & _).
    destruct (Hold _ _ Hrs0) as (rs1 & Hrs1 & _).
    eapply (Hdone r l); [done|done|].
    apply Hlists'; [by eapply lookup_lt_Some|done].
Qed.

Lemma resolving_set_obj s heap r c c' idx :
  resolving s0 top ts s heap ->
  objs s !! r = Some (OComment c) -> n_o <= r ->
  Comment.replies c' = Comment.replies c ->
  resolving s0 top ts
    (State (<[r := OComment c']> (objs s)) (lists s) idx) heap.
Proof.
  intros [Hnodup Hpend Hext Hnew Hnewl Hold Hdone] Hr Hge Hrep.
  split; simpl; try done.
  - intros r' Hr'.
    destruct (Hpend r' Hr') as (m & l & rs & Hm & Hrest).
    exists m, l, rs. split; [|done].
    rewrite list_lookup_insert_ne; [done|]. intros ->. simplify_eq.
  - intros r' o Ho. destruct (Hext _ _ Ho) as (o' & Ho' & Hcore).
    exists o'. split; [|done]. simpl.
    rewrite list_lookup_insert_ne; [done|].
    apply lookup_lt_Some in Ho. lia.
  - intros r' o Hr' Ho.
    apply list_lookup_insert_Some in Ho as [(<- & <- & _)|[_ Ho]].
    + destruct (Hnew _ _ Hr' Hr) as (c1 & [= <-] & Hc1).
      exists c'. split; [done|]. by rewrite Hrep.
    + by eapply Hnew.
Qed.

Lemma resolving_append s heap l rs r idx :
  resolving s0 top ts s heap ->
  lists s !! l = Some rs -> n_o <= r ->
  resolving s0 top ts
    (State (objs s) (<[l := rs ++ [r]]> (lists s)) idx) heap.
Proof.
  intros [Hnodup Hpend Hext Hnew Hnewl Hold Hdone] Hrs Hge.
  assert (l < length (lists s)) as Hlt by (by eapply lookup_lt_Some).
  split; simpl; try done.
  - intros r' Hr'.
    destruct (Hpend r' Hr') as (m & l' & rs' & Hm & Hc & Hrf & HT & Hrs' & Hin).
    destruct (decide (l = l')) as [<-|Hne].
    + exists m, l, (rs ++ [r]). rewrite list_lookup_insert_eq by done.
      split_and!; try done. simplify_eq. apply elem_of_app. by left.
    + exists m, l', rs'. rewrite list_lookup_insert_ne by done. done.
  - intros l' rs' r' Hl'.
    intros [(<- & <- & _)|[_ Hin]]%list_lookup_insert_Some.
    + intros [Hin|Hin%list_elem_of_singleton]%elem_of_app; [|by subst].
      by eapply Hnewl.
    + by eapply Hnewl.
  - intros l' rs0 Hrs0. destruct (Hold _ _ Hrs0) as (rs' & Hrs' & Hocc).
    destruct (decide (l = l')) as [<-|Hne].
    + exists (rs ++ [r]). rewrite list_lookup_insert_eq by done.
      split; [done|]. intros r' Hr'. simplify_eq.
      rewrite occ_snoc_ne by lia. by apply Hocc.
    + exists rs'. by rewrite list_lookup_insert_ne.
  - intros r' l' rs' HT Hnotin.
    intros [(<- & <- & _)|[_ Hin]]%list_lookup_insert_Some.
    + intros [Hin|Hin%list_elem_of_singleton]%elem_of_app.
      * by eapply (Hdone r' l).
      * destruct (target_old _ _ HT) as (Hlt' & _). lia.
    + by eapply Hdone.
Qed.

Lemma resolving_remove s heap item rest m l rs rs' idx :
  resolving s0 top ts s heap -> heap ≡ₚ item :: rest ->
  objs s !! item = Some (OMore m) ->
  MoreComments._remove_from m = Some l ->
  lists s !! l = Some rs -> remove_first item rs = Some rs' ->
  resolving s0 top ts
    (State (objs s) (<[l := rs']> (lists s)) idx) rest.
Proof.
  intros [Hnodup Hpend Hext Hnew Hnewl Hold Hdone] Hperm Hm Hrf Hrs Hrm.
  assert (l < length (lists s)) as Hlt by (by eapply lookup_lt_Some).
  rewrite Hperm in Hnodup. apply NoDup_cons in Hnodup as [Hnotin Hnodup].
  destruct (Hpend item) as (m' & l' & rs1 & Hm' & _ & Hrf' & HT & _);
    [rewrite Hperm; by left|].
  assert (m' = m) as -> by congruence. assert (l' = l) as -> by congruence.
  clear Hm' Hrf'.
  split; simpl; try done.
  - intros r Hr.
    destruct (Hpend r) as (m1 & l1 & rs1' & Hm1 & Hc & Hrf1 & HT1 & Hrs1 & Hin);
      [rewrite Hperm; by right|].
    destruct (decide (l = l1)) as [<-|Hne].
    + exists m1, l, rs'. rewrite list_lookup_insert_eq by done.
      split_and!; try done. simplify_eq.
      eapply remove_first_other; [done| |done]. by intros ->.
    + exists m1, l1, rs1'. by rewrite list_lookup_insert_ne.
  - intros l1 rs1' r Hl1.
    intros [(<- & <- & _)|[_ Hin]]%list_lookup_insert_Some Hr.
    + eapply Hnewl; [done|done|].
      rewrite (remove_first_perm _ _ _ Hrm). by right.
    + by eapply Hnewl.
  - intros l1 rs0 Hrs0. destruct (Hold _ _ Hrs0) as (rs1' & Hrs1 & Hocc).
    destruct (decide (l = l1)) as [<-|Hne].
    + exists rs'. rewrite list_lookup_insert_eq by done.
      split; [done|]. intros r Hr. simplify_eq.
      specialize (Hocc r Hr).
      rewrite (occ_remove_first _ _ _ r Hrm) in Hocc. lia.
    + exists rs1'. by rewrite list_lookup_insert_ne.
  - intros r l1 rs1' HT1 Hnotin1.
    intros [(<- & <- & _)|[Hne Hin]]%list_lookup_insert_Some.
    + destruct (decide (r = item)) as [->|Hner].
      * (* the placeholder just removed occurred once *)
        destruct (target_old _ _ HT) as (Hold_item & _ & rs0 & Hrs0 & _ & Hnd0).
        destruct (Hold _ _ Hrs0) as (rs2 & Hrs2 & Hocc).
        simplify_eq. specialize (Hocc item Hold_item).
        pose proof (occ_NoDup item _ Hnd0) as Hle.
        rewrite (occ_remove_first _ _ _ item Hrm) in Hocc.
        rewrite decide_True in Hocc by done.
        intros Hin%occ_elem. lia.
      * intros Hin. eapply (Hdone r l); [done| |done|].
        -- rewrite Hperm. intros [?|?]%elem_of_cons; done.
        -- rewrite (remove_first_perm _ _ _ Hrm). by right.
    + eapply (Hdone r l1); [done| |done].
      rewrite Hperm. intros [->|?]%elem_of_cons; [|done].
      apply Hne. by eapply target_unique.
Qed.

Lemma resolving_top s heap :
  resolving s0 top ts s heap -> is_Some (lists s !! top).
Proof.
  intros Hres. destruct Hsh as [Htop _].
  destruct (rs_old_lists _ _ _ _ _ Hres _ _ Htop) as (rs & Hrs & _). eauto.
Qed.

(** Inserting a comment made since the call keeps the invariant, or
    raises one of the two errors of an insert. *)
Lemma resolving_insert self s heap r :
  resolving s0 top ts s heap -> store_ok s -> _comments self = Some top ->
  n_o <= r -> r < length (objs s) ->
  post (_insert_comment self r s)
    (fun _ s' => resolving s0 top ts s' heap /\ store_ok s' /\
                 length (objs s') = length (objs s)) insert_error.
Proof.
  intros Hres Hok Hself Hge Hlt.
  destruct (lookup_lt_is_Some_2 _ _ Hlt) as [o Ho].
  destruct (rs_new_objs _ _ _ _ _ Hres _ _ Hge Ho) as (c & -> & Hc).
  unfold _insert_comment.
  rewrite (bind_Ok _ _ _ _ _ (get_obj_Some _ _ _ Ho)).
  unfold get_index at 1. unfold bind at 1.
  case_bool_decide; [by left|].
  rewrite (bind_Ok _ _ _ _ _ (set_submission_Comment _ _ _ _ Ho)).
  set (c' := Comment.Build _ _ _ _ _).
  set (s1 := State _ _ _).
  assert (resolving s0 top ts s1 heap) as Hres1
    by (by eapply resolving_set_obj).
  assert (store_ok s1) as Hok1 by (by apply store_ok_register).
  assert (length (objs s1) = length (objs s)) as Hlen1
    by (unfold s1; simpl; by rewrite length_insert).
  assert (forall l, is_Some (lists s1 !! l) ->
            post (list_append l r s1)
              (fun _ s' => resolving s0 top ts s' heap /\ store_ok s' /\
                           length (objs s') = length (objs s)) insert_error)
    as Happend.
  { intros l [rs Hrs]. rewrite (list_append_Some _ _ _ _ Hrs). unfold post.
    split; [by eapply resolving_append|].
    split; [by apply store_ok_set_list|done]. }
  simpl. destruct (Comment.is_root c).
  - unfold comments_list. rewrite Hself. unfold bind at 1, ret at 1.
    apply Happend. by eapply resolving_top.
  - unfold get_index at 1. unfold bind at 1.
    destruct (_ !! Comment.parent_id c) as [parent|] eqn:Hparent;
      [|by right].
    destruct (proj2 Hok1 _ _ Hparent) as [pc Hpc].
    rewrite (bind_Ok _ _ _ _ _ (replies_of_Some _ _ _ Hpc)).
    apply Happend. by eapply (proj1 Hok1).
Qed.

Lemma resolving_inserts self s heap rs :
  resolving s0 top ts s heap -> store_ok s -> _comments self = Some top ->
  Forall (fun r => n_o <= r /\ r < length (objs s)) rs ->
  post (for_each (_insert_comment self) rs s)
    (fun _ s' => resolving s0 top ts s' heap /\ store_ok s') insert_error.
Proof.
  intros Hres Hok Hself. revert s Hres Hok.
  induction rs as [|r rs IH]; intros s Hres Hok Hrs; [done|].
  apply Forall_cons in Hrs as [[Hge Hlt] Hrs]. simpl.
  eapply post_bind; [by apply resolving_insert|].
  intros [] s1 (Hres1 & Hok1 & Hlen1). apply IH; [done|done|].
  eapply Forall_impl; [done|]. simpl. intros r' ?. by rewrite Hlen1.
Qed.

(** One fetch that answers comments only. *)
Lemma resolving_merge self s heap item rest trees sk :
  resolving s0 top ts s heap -> store_ok s -> _comments self = Some top ->
  heap ≡ₚ item :: rest -> Forall no_more trees ->
  post (merge_fetched self item trees (Locals None rest sk) s)
    (fun v' s' => v' = Locals None rest sk /\
                  resolving s0 top ts s' rest /\ store_ok s') insert_error.
Proof.
  intros Hres Hok Hself Hperm Hnm.
  destruct (resolving_lengths _ _ Hres) as [Hno Hnl].
  destruct (alloc_forest_spec trees s n_o n_l Hno Hnl)
    as (new & s1 & sts & os & ls & Halloc & Hal & Hnew & Hsz & _ & Hge & Hlt
        & Hcom & _).
  destruct (Hcom Hnm) as [Hos Hnone].
  assert (resolving s0 top ts s1 heap) as Hres1
    by (by eapply resolving_alloc).
  assert (store_ok s1) as Hok1 by (by eapply store_ok_alloc).
  unfold merge_fetched. rewrite (bind_Ok _ _ _ _ _ Halloc).
  cbn [remaining more_comments skipped].
  destruct (resolving_top _ _ Hres1) as [rtop Hrtop].
  set (fb := match rtop with [] => new | _ :: _ => top end).
  destruct (gather_total (S (forest_size trees)) new (Some top) fb sts s1)
    as (found & s2 & Hgather & Hg & Hfound); [done| |lia|].
  { intros s' Hs'. unfold parent_tree_or_tree.
    rewrite (bind_Ok _ _ _ _ _ (get_list_Some _ _ rtop ltac:(by rewrite Hs'))).
    unfold fb. by destruct rtop. }
  rewrite Hnone in Hg, Hfound.
  apply gathered_nil_inv in Hg as ->. apply Permutation_nil_r in Hfound as ->.
  rewrite Hself. rewrite (bind_Ok _ _ _ _ _ Hgather).
  unfold ret at 1. unfold bind at 1.
  rewrite (bind_Ok _ _ _ _ _ (get_list_Some _ _ _ (proj1 Hnew))).
  eapply post_bind.
  { apply resolving_inserts; [done|done|done|].
    rewrite Forall_forall in *. intros r Hr. split; auto. }
  intros [] s3 [Hres3 Hok3]. simpl in Hres3.
  destruct (rs_pending _ _ _ _ _ Hres3 item)
    as (m & l & rs & Hm & _ & Hrf & _ & Hrs & Hin);
    [rewrite Hperm; by left|].
  destruct (remove_first_elem _ _ Hin) as [rs' Hrm].
  rewrite (bind_Ok _ _ _ _ _
             (remove_from_target_Some _ _ _ _ _ _ Hm Hrf Hrs Hrm)).
  unfold ret, post. split; [done|].
  split; [by eapply resolving_remove|by apply store_ok_set_list].
Qed.

Section loop.
Variable fetch : list ref -> state -> ref -> option (list tree).
Hypothesis fetch_comments : forall log s r trees,
  fetch log s r = Some trees -> Forall no_more trees.

Lemma resolving_loop fuel self heap sk log s :
  resolving s0 top ts s heap -> store_ok s -> growing s top [] ->
  _comments self = Some top -> length heap <= fuel ->
  match replace_more_loop fetch fuel self 0
          (Locals None heap sk) log s with
  | (Ok res, s', _) =>
      res = sk /\ resolving s0 top ts s' [] /\ growing s' top []
  | (Raise e, _, _) => replace_more_error e
  | (Stuck, _, _) | (OutOfFuel, _, _) => False
  end.
Proof.
  intros Hres Hok Hgr Hself. revert heap sk log s Hres Hok Hgr.
  induction fuel as [|fuel IH]; intros heap sk log s Hres Hok Hgr Hfuel.
  { destruct heap; [|simpl in Hfuel; lia]. by rewrite replace_more_loop_nil. }
  destruct (decide (heap = [])) as [->|Hne];
    [by rewrite replace_more_loop_nil|].
  rewrite replace_more_loop_S by done.
  destruct (heappop_is_Some (more_lt s) heap) as (item & rest & Hpop);
    [done|].
  pose proof (heappop_perm _ _ _ _ Hpop) as Hperm.
  destruct (rs_pending _ _ _ _ _ Hres item)
    as (m & l & rs & Hm & Hcount & _); [rewrite Hperm; by left|].
  unfold loop_body. cbn [remaining more_comments skipped].
  rewrite Hpop, Hm. unfold skip_test.
  rewrite bool_decide_false by lia. cbn [orb].
  destruct (fetch log s item) as [trees|] eqn:Hfetch; [|by right].
  pose proof (fetch_comments _ _ _ _ Hfetch) as Hnm.
  pose proof (resolving_merge self s heap item rest trees sk Hres Hok Hself
                Hperm Hnm) as Hpost.
  unfold post in Hpost.
  destruct (merge_fetched _ _ _ _ _) as [[v'| | |] s1] eqn:Hmerge;
    try done.
  - destruct Hpost as (-> & Hres1 & Hok1). apply IH; [done|done| |].
    + exact (growing_merge _ _ _ _ _ _ _ _ Hok Hgr Hself Hnm Hmerge).
    + apply Permutation_length in Hperm. simpl in Hperm. lia.
  - by left.
Qed.
End loop.

(** When the priority collection is empty, no placeholder of the call
    can be reached, and nothing made since is a placeholder. *)
Lemma resolving_reach_old s r :
  resolving s0 top ts s [] -> reach s top r -> r < n_o ->
  exists l kids, (l, kids) ∈ forest_lists top ts /\
    exists rs, lists s !! l = Some rs /\ r ∈ rs.
Proof.
  intros Hres. induction 1 as [rs r Hrs Hr|p c rs r Hp IH Hpc Hrs Hr];
    intros Hold.
  - exists top, ts. split; [by left|]. eauto.
  - destruct (decide (p < n_o)) as [Hpold|Hpnew].
    + destruct (IH Hpold) as (lp & kidsp & Hlp & rsp & Hrsp & Hpin).
      destruct (forest_lists_shape _ _ _ _ _ Hsh Hlp) as [Hrsp0 Hkidsp].
      destruct (rs_old_lists _ _ _ _ _ Hres _ _ Hrsp0) as (rsp' & Hrsp' & Hocc).
      simplify_eq.
      assert (p ∈ map sroot kidsp) as Hpin0.
      { apply occ_elem. apply occ_elem in Hpin. specialize (Hocc p Hpold). lia. }
      apply list_elem_of_fmap in Hpin0 as (k & -> & Hk).
      rewrite Forall_forall in Hkidsp. specialize (Hkidsp _ Hk).
      destruct (lookup_lt_is_Some_2 (objs s0) (sroot k) Hpold) as [o0 Ho0].
      destruct (rs_extends _ _ _ _ _ Hres _ _ Ho0) as (o' & Ho' & Hcore).
      simplify_eq. symmetry in Hcore.
      apply core_OComment in Hcore as (c0 & -> & Hrep & _).
      destruct k as [p l kids|p]; simpl in *.
      2:{ destruct Hkidsp as (m & ?). simplify_eq. }
      apply shape_SComment in Hkidsp as ((c1 & Hc1 & <-) & _).
      simplify_eq. exists (Comment.replies c), kids. rewrite <- Hrep. split.
      * eapply forest_lists_closed; [done|done|]. simpl. rewrite Hrep. by left.
      * rewrite Hrep. eauto.
    + destruct (rs_new_objs _ _ _ _ _ Hres p _ ltac:(lia) Hpc)
        as (c' & [= <-] & Hc).
      pose proof (rs_new_lists _ _ _ _ _ Hres _ _ _ Hc Hrs Hr). lia.
Qed.

Lemma resolving_no_more s r :
  resolving s0 top ts s [] -> reach s top r -> ~ is_more s r.
Proof.
  intros Hres Hreach [m Hm].
  destruct (decide (r < n_o)) as [Hold|Hnew].
  2:{ destruct (rs_new_objs _ _ _ _ _ Hres r _ ltac:(lia) Hm) as (c & ? & _).
      done. }
  destruct (resolving_reach_old _ _ Hres Hreach Hold)
    as (l & kids & Hl & rs & Hrs & Hin).
  destruct (forest_lists_shape _ _ _ _ _ Hsh Hl) as [Hrs0 Hkids].
  destruct (rs_old_lists _ _ _ _ _ Hres _ _ Hrs0) as (rs' & Hrs' & Hocc).
  simplify_eq.
  assert (r ∈ map sroot kids) as Hin0.
  { apply occ_elem. apply occ_elem in Hin. specialize (Hocc r Hold). lia. }
  apply list_elem_of_fmap in Hin0 as (k & -> & Hk).
  rewrite Forall_forall in Hkids. specialize (Hkids _ Hk).
  destruct (lookup_lt_is_Some_2 (objs s0) (sroot k) Hold) as [o0 Ho0].
  destruct (rs_extends _ _ _ _ _ Hres _ _ Ho0) as (o' & Ho' & Hcore).
  simplify_eq. symmetry in Hcore.
  apply core_OMore in Hcore as (m0 & -> & _).
  destruct k as [r l' kids'|r]; simpl in *.
  { apply shape_SComment in Hkids as ((c1 & Hc1 & _) & _). simplify_eq. }
  eapply (rs_done _ _ _ _ _ Hres r l); [|by intros ?%elem_of_nil|done|done].
  apply forest_targets_lists. eauto.
Qed.
End resolving.

(** ** What [list] can yield *)

Lemma list_loop_reach top fuel comments queue s res s' :
  list_loop fuel comments queue s = (Ok res, s') ->
  Forall (reach s top) queue ->
  s' = s /\ exists visited, res = comments ++ visited /\
    Forall (fun r => reach s top r /\ is_Some (objs s !! r)) visited.
Proof.
  revert comments queue.
  induction fuel as [|fuel IH]; intros comments [|r queue]; simpl;
    try (intros [= <- <-] _; split; [done|]; exists []; by rewrite app_nil_r);
    try done.
  intros H [Hr Hq]%Forall_cons. inv_bind H.
  apply get_obj_Ok in H0 as [Ho ->].
  destruct a as [c|m]; simpl in H.
  - inv_bind H. apply replies_of_Ok in H0 as (c' & Hc' & <- & ->).
    inv_bind H. apply get_list_Ok in H0 as [Hl ->]. simplify_eq.
    apply IH in H as [-> (visited & -> & Hv)].
    + split; [done|]. exists (r :: visited). rewrite <- app_assoc.
      split; [done|]. constructor; [|done]. eauto.
    + apply Forall_app. split; [done|]. rewrite Forall_forall.
      intros r' Hr'. by eapply reach_reply.
  - apply IH in H as [-> (visited & -> & Hv)]; [|done].
    split; [done|]. exists (r :: visited). rewrite <- app_assoc.
    split; [done|]. constructor; [|done]. eauto.
Qed.

Lemma list_reach fuel self top s res s' :
  _comments self = Some top -> list_ fuel self s = (Ok res, s') ->
  s' = s /\ Forall (fun r => reach s top r /\ is_Some (objs s !! r)) res.
Proof.
  intros Hself. unfold list_, comments_list. rewrite Hself.
  unfold ret at 1. unfold bind at 1. intros H. inv_bind H.
  apply get_list_Ok in H0 as [Hl ->].
  apply (list_loop_reach top) in H as [-> (visited & -> & Hv)]; [done|].
  rewrite Forall_forall. intros r Hr. by eapply reach_top.
Qed.

(** ** The priority collection stays an ordered heap *)

Lemma is_more_extends s s' r : extends s s' -> is_more s r -> is_more s' r.
Proof.
  intros Hext [m Hm]. destruct (Hext _ _ Hm) as (o' & Ho' & Hcore).
  apply core_OMore in Hcore as (m' & -> & _). by exists m'.
Qed.

Lemma count_of_extends s s' r :
  extends s s' -> is_more s r -> count_of s' r = count_of s r.
Proof.
  intros Hext [m Hm]. destruct (Hext _ _ Hm) as (o' & Ho' & Hcore).
  apply core_OMore in Hcore as (m' & -> & Hcount & _).
  unfold count_of. by rewrite Hm, Ho'.
Qed.

Lemma heap_ordered_extends s s' h :
  extends s s' -> Forall (is_more s) h ->
  heap_ordered (count_of s) h -> heap_ordered (count_of s') h.
Proof.
  intros Hext Hmore Hord i x y Hi Hx Hy. rewrite Forall_forall in Hmore.
  rewrite !(count_of_extends s s') by
    (try done; apply Hmore; by eapply list_elem_of_lookup_2).
  by eapply Hord.
Qed.

Lemma more_lt_key s a b :
  more_lt s a b = bool_decide (count_of s a > count_of s b)%Z.
Proof. done. Qed.

(** A heap of placeholders, ordered by pending count. *)
Lemma ordered_extends s s' h :
  extends s s' ->
  Forall (is_more s) h /\ heap_ordered (count_of s) h ->
  Forall (is_more s') h /\ heap_ordered (count_of s') h.
Proof.
  intros Hext [Hmore Hord]. split; [|by eapply heap_ordered_extends].
  eapply Forall_impl; [done|]. intros r. by apply is_more_extends.
Qed.

Lemma ordered_push s h r :
  is_more s r ->
  Forall (is_more s) h /\ heap_ordered (count_of s) h ->
  Forall (is_more s) (heappush (more_lt s) h r) /\
  heap_ordered (count_of s) (heappush (more_lt s) h r).
Proof.
  intros Hr [Hmore Hord]. split.
  - rewrite heappush_perm. by constructor.
  - apply heappush_ordered; [apply more_lt_key|done].
Qed.

Lemma gather_loop_ordered fuel tree pt heap queue s heap' s' :
  _gather_loop fuel tree pt heap queue s = (Ok heap', s') ->
  Forall (is_more s) heap /\ heap_ordered (count_of s) heap ->
  Forall (is_more s') heap' /\ heap_ordered (count_of s') heap'.
Proof.
  revert heap queue s.
  induction fuel as [|fuel IH]; intros heap [|[p r] queue] s; simpl;
    try (by intros [= <- <-]); try done.
  intros H Hheap. inv_bind H. apply get_obj_Ok in H0 as [Ho ->].
  destruct a as [c|m]; simpl in H.
  - inv_bind H. apply replies_of_Ok in H0 as (c' & _ & _ & ->).
    inv_bind H. apply get_list_Ok in H0 as [_ ->]. by eapply IH.
  - inv_bind H. unfold heappush_more in H0. injection H0 as <- <-.
    inv_bind H. inv_bind H.
    assert (extends s s1) as Hext.
    { eapply extends_trans.
      - eapply preserves_Ok; [|done]. destruct p; auto with preserves.
      - by eapply (preserves_Ok _ _ _ _ (preserves_set_remove_from _ _)). }
    eapply IH; [done|]. apply (ordered_extends s); [done|].
    apply ordered_push; [by exists m|done].
Qed.

Lemma gather_ordered fuel tree pt s heap s' :
  _gather_more_comments fuel tree pt s = (Ok heap, s') ->
  Forall (is_more s') heap /\ heap_ordered (count_of s') heap.
Proof.
  unfold _gather_more_comments. intros H. inv_bind H.
  apply get_list_Ok in H0 as [_ ->].
  eapply gather_loop_ordered; [done|]. split; [done|].
  by intros i x y _ ?.
Qed.

Section ordered.
Variable fetch : list ref -> state -> ref -> option (list tree).

Lemma merge_fetched_ordered self item trees v s v' s' :
  merge_fetched self item trees v s = (Ok v', s') ->
  Forall (is_more s) (more_comments v) /\
    heap_ordered (count_of s) (more_comments v) ->
  Forall (is_more s') (more_comments v') /\
    heap_ordered (count_of s') (more_comments v').
Proof.
  unfold merge_fetched. intros H Hheap.
  inv_bind H as new s1 Halloc.
  inv_bind H as found s2 Hgather.
  inv_bind H as h3 s3 Hpush.
  inv_bind H as comments s3' Hget. apply get_list_Ok in Hget as [_ ->].
  inv_bind H as u4 s4 Hins.
  inv_bind H as u5 s5 Hrm. injection H as <- <-. simpl.
  pose proof (preserves_Ok _ _ _ _ (preserves_alloc_forest _) Halloc) as E1.
  pose proof (preserves_Ok _ _ _ _ (preserves_gather _ _ _) Hgather) as E2.
  pose proof (preserves_Ok _ _ _ _
                (preserves_for_each _ _ (preserves_insert_comment self)) Hins)
    as E4.
  pose proof (preserves_Ok _ _ _ _ (preserves_remove_from_target _) Hrm) as E5.
  apply gather_ordered in Hgather as [Hfound _].
  apply (ordered_extends s3); [by eapply extends_trans|].
  assert (Forall (is_more s2) (more_comments v) /\
          heap_ordered (count_of s2) (more_comments v)) as Hheap2.
  { apply (ordered_extends s); [by eapply extends_trans|done]. }
  clear - Hpush Hfound Hheap2.
  revert Hpush Hheap2. generalize (more_comments v). revert s2 Hfound.
  induction found as [|more found IH]; intros s2 Hfound h Hpush Hheap.
  - by injection Hpush as <- <-.
  - apply Forall_cons in Hfound as [Hmore Hfound].
    inv_bind Hpush as u s2' Hsub. inv_bind Hpush as h' s2'' Hpushed.
    unfold heappush_more in Hpushed. injection Hpushed as <- <-.
    pose proof (preserves_Ok _ _ _ _ (preserves_set_submission _ _) Hsub) as E.
    eapply (IH s2'); [|done|].
    + eapply Forall_impl; [done|]. intros r. by apply is_more_extends.
    + apply ordered_push; [by eapply is_more_extends|].
      by apply (ordered_extends s2).
Qed.

(** From an ordered heap, an iteration processes a placeholder with the
    largest pending count and leaves an ordered heap. *)
Lemma loop_body_ordered self threshold v log s :
  Forall (is_more s) (more_comments v) ->
  heap_ordered (count_of s) (more_comments v) ->
  more_comments v <> [] ->
  exists item rest,
    heappop (more_lt s) (more_comments v) = Some (item, rest) /\
    (forall x, x ∈ rest -> (count_of s x <= count_of s item)%Z) /\
    forall o s' log',
      loop_body fetch self threshold v log s = (o, s', log') ->
      (log' = log \/ log' = log ++ [item]) /\
      forall v', o = Ok v' ->
        Forall (is_more s') (more_comments v') /\
        heap_ordered (count_of s') (more_comments v').
Proof.
  intros Hmore Hord Hne.
  destruct (heappop_is_Some (more_lt s) _ Hne) as (item & rest & Hpop).
  exists item, rest. split; [done|].
  destruct (heappop_ordered _ _ (more_lt_key s) _ _ _ Hord Hpop)
    as [Hord' Hmax].
  split; [done|].
  assert (Forall (is_more s) rest) as Hmore'.
  { rewrite Forall_forall in *. intros x Hx. apply Hmore.
    rewrite (heappop_perm _ _ _ _ Hpop). by right. }
  intros o s' log'. unfold loop_body. rewrite Hpop.
  destruct (objs s !! item) as [[c|m]|];
    try (intros [= <- <- <-]; split; [by left|done]).
  destruct (skip_test _ _ _).
  - destruct (bind _ _ s) as [o1 s1] eqn:Hrun. intros [= <- <- <-].
    split; [by left|]. intros v' ->. inv_bind Hrun.
    injection Hrun as <- <-. simpl.
    apply (ordered_extends s); [|done].
    by eapply (preserves_Ok _ _ _ _ (preserves_remove_from_target _)).
  - destruct (fetch log s item) as [trees|];
      [|intros [= <- <- <-]; split; [by right|done]].
    destruct (merge_fetched _ _ _ _ _) as [o1 s1] eqn:Hrun.
    intros [= <- <- <-]. split; [by right|]. intros v' ->.
    by apply merge_fetched_ordered in Hrun.
Qed.
End ordered.

(** ** The bound of the nested gather *)

(** The gather over a response just allocated always completes within the
    bound [merge_fetched] gives it, the number of nodes of the response. *)
Lemma fetched_gather_total trees pt s :
  match pt with Some l => is_Some (lists s !! l) | None => True end ->
  exists new s1 found s2,
    alloc_forest trees s = (Ok new, s1) /\
    _gather_more_comments (S (forest_size trees)) new pt s1 = (Ok found, s2).
Proof.
  intros Hpt.
  destruct (alloc_forest_spec trees s 0 0 ltac:(lia) ltac:(lia))
    as (new & s1 & sts & os & ls & Halloc & Hal & Hnew & Hsz & _).
  assert (exists fb, forall s', lists s' = lists s1 ->
            parent_tree_or_tree pt new s' = (Ok fb, s')) as [fb Hfb].
  { destruct pt as [l|]; [|by exists new].
    destruct Hpt as [rs Hrs].
    assert (lists s1 !! l = Some rs) as Hrs1.
    { destruct Hal as (_ & -> & _). by apply lookup_app_l_Some. }
    exists (match rs with [] => new | _ :: _ => l end).
    intros s' Hs'. unfold parent_tree_or_tree.
    rewrite (bind_Ok _ _ _ _ _ (get_list_Some _ _ rs ltac:(by rewrite Hs'))).
    by destruct rs. }
  destruct (gather_total (S (forest_size trees)) new pt fb sts s1)
    as (found & s2 & Hgather & _); [done|done|lia|].
  by exists new, s1, found, s2.
Qed.

(** ** Skipping every placeholder *)

Lemma filter_all {A} (P : A -> Prop) `{!forall x, Decision (P x)} (l : list A) :
  Forall P l -> filter P l = l.
Proof.
  induction 1 as [|x l Hx _ IH]; [done|].
  rewrite filter_cons_True by done. by rewrite IH.
Qed.

Lemma filter_equiv {A} (P Q : A -> Prop) `{!forall x, Decision (P x)}
    `{!forall x, Decision (Q x)} (l : list A) :
  (forall x, x ∈ l -> P x <-> Q x) -> filter P l = filter Q l.
Proof.
  induction l as [|x l IH]; intros Hpq; [done|].
  assert (filter P l = filter Q l) as Hl
    by (apply IH; intros y Hy; apply Hpq; by right).
  destruct (decide (P x)) as [Hp|Hp].
  - rewrite !filter_cons_True; [by rewrite Hl|by apply (Hpq x); [left|]|done].
  - rewrite !filter_cons_False; [done| |done].
    intros Hq. apply Hp. apply (Hpq x); [by left|done].
Qed.

(** Removing the one occurrence of an element that a filter keeps. *)
Lemma remove_first_filter (P Q : ref -> Prop) `{!forall x, Decision (P x)}
    `{!forall x, Decision (Q x)} (x : ref) (rs : list ref) :
  NoDup rs -> x ∈ rs -> P x -> ~ Q x ->
  (forall y, y <> x -> P y <-> Q y) ->
  remove_first x (filter P rs) = Some (filter Q rs).
Proof.
  intros Hnd Hin Hpx Hqx Hpq.
  induction rs as [|y rs IH]; [by apply elem_of_nil in Hin|].
  apply NoDup_cons in Hnd as [Hy Hnd].
  destruct (decide (y = x)) as [->|Hne].
  - rewrite filter_cons_True by done. rewrite filter_cons_False by done.
    simpl. rewrite decide_True by done. f_equal.
    apply filter_equiv. intros z Hz. apply Hpq. by intros ->.
  - apply elem_of_cons in Hin as [->|Hin]; [done|].
    specialize (IH Hnd Hin).
    destruct (decide (P y)) as [Hp|Hp].
    + rewrite !filter_cons_True; [|by apply Hpq|done].
      simpl. rewrite decide_False by done. by rewrite IH.
    + rewrite !filter_cons_False; [done| |done].
      intros Hq. by apply Hp, Hpq.
Qed.

Section skip_all.
Variable fetch : list ref -> state -> ref -> option (list tree).
Variables (top : loc) (ts : list stree).
Hypothesis Hnd : NoDup (flat_map srefs ts).

Local Abbreviation T := (forest_targets top ts).

(** What is left in the list [l] of the forest while the placeholders
    of [heap] are still to skip. *)
Local Abbreviation left_in heap l :=
  (fun r : ref => (r, l) ∉ T \/ r ∈ heap).

(** With the budget exhausted, every placeholder of the priority
    collection leaves its list, and nothing else changes in a list of
    the forest. *)
Lemma skip_loop_lists fuel self threshold n heap sk log s :
  (n <= 0)%Z -> NoDup heap ->
  (forall r, r ∈ heap ->
     exists m l, objs s !! r = Some (OMore m) /\
                 MoreComments._remove_from m = Some l /\ (r, l) ∈ T) ->
  (forall l kids, (l, kids) ∈ forest_lists top ts ->
     lists s !! l = Some (filter (left_in heap l) (map sroot kids))) ->
  length heap <= fuel ->
  exists res s',
    replace_more_loop fetch fuel self threshold
      (Locals (Some n) heap sk) log s = (Ok (sk ++ res), s', log) /\
    forall l kids, (l, kids) ∈ forest_lists top ts ->
      lists s' !! l = Some (filter (left_in [] l) (map sroot kids)).
Proof.
  intros Hn. revert heap sk s.
  induction fuel as [|fuel IH]; intros heap sk s Hheap Hpend Hlists Hfuel.
  { destruct heap; [|simpl in Hfuel; lia]. exists [], s. simpl.
    by rewrite app_nil_r. }
  destruct (decide (heap = [])) as [->|Hne].
  { exists [], s. simpl. by rewrite app_nil_r. }
  rewrite replace_more_loop_S by done.
  destruct (heappop_is_Some (more_lt s) heap) as (item & rest & Hpop);
    [done|].
  pose proof (heappop_perm _ _ _ _ Hpop) as Hperm.
  assert (item ∈ heap) as Hitem by (rewrite Hperm; by left).
  assert (NoDup (item :: rest)) as Hnd' by (by rewrite <- Hperm).
  apply NoDup_cons in Hnd' as [Hnotin Hrest].
  destruct (Hpend item Hitem) as (m & l & Hm & Hl & HT).
  pose proof HT as (kids & Hkids & Hmore)%forest_targets_lists.
  pose proof (Hlists _ _ Hkids) as Hrs.
  assert (item ∈ map sroot kids) as Hin
    by (apply list_elem_of_fmap; by exists (SMore item)).
  assert (NoDup (map sroot kids)) as Hndk
    by (by eapply forest_lists_NoDup).
  assert (forall l' r, left_in rest l' r <->
            left_in heap l' r /\ (r = item -> l' <> l)) as Hleft.
  { intros l' r. cbv beta. rewrite Hperm, elem_of_cons. split.
    - intros [Hout|Hr]; [split; [by left|]|split; [by right; right|]].
      + intros -> ->. done.
      + intros ->. done.
    - intros [[Hout|[->|Hr]] Hne']; [by left| |by right].
      left. intros HT'. apply Hne'; [done|].
      eapply NoDup_fst_functional; [by apply forest_targets_NoDup|done..]. }
  assert (remove_first item (filter (left_in heap l) (map sroot kids))
          = Some (filter (left_in rest l) (map sroot kids))) as Hrm.
  { apply remove_first_filter; [done|done|by right| |].
    - intros Hitem'. apply Hleft in Hitem' as [_ Hne']. by apply Hne'.
    - intros y Hy. rewrite Hleft. split; [|by intros [? _]].
      intros Hy'. split; [done|]. by intros ->. }
  set (s1 := State (objs s)
               (<[l := filter (left_in rest l) (map sroot kids)]> (lists s))
               (_comments_by_id s)).
  assert (loop_body fetch self threshold (Locals (Some n) heap sk) log s
          = (Ok (Locals (Some n) rest (sk ++ [item])), s1, log))
    as Hbody.
  { unfold loop_body. cbn [more_comments remaining skipped].
    rewrite Hpop, Hm. unfold skip_test.
    rewrite bool_decide_true by done. cbn [orb].
    rewrite (bind_Ok _ _ _ _ _
               (remove_from_target_Some _ _ _ _ _ _ Hm Hl Hrs Hrm)).
    done. }
  rewrite Hbody.
  destruct (IH rest (sk ++ [item]) s1) as (res & s' & Hrun & Hfinal).
  - done.
  - intros r Hr. destruct (Hpend r) as (m' & l' & Hm' & Hrest');
      [rewrite Hperm; by right|].
    by exists m', l'.
  - intros l' kids' Hkids'. unfold s1. cbn [lists].
    destruct (decide (l' = l)) as [->|Hne'].
    + rewrite list_lookup_insert_eq by (by eapply lookup_lt_Some).
      f_equal. pose proof (Hlists _ _ Hkids') as Hrs'.
      rewrite Hrs in Hrs'. injection Hrs' as Heq.
      (* the two entries of the forest for [l] hold the same nodes *)
      assert (forall rs : list ref, filter (left_in rest l) rs
                = filter (fun r => r <> item) (filter (left_in heap l) rs))
        as Hsplit.
      { intros rs. rewrite list_filter_filter. apply filter_equiv.
        intros r _. rewrite Hleft. split.
        - intros [Hr Hne']. split; [|done]. intros ->. by apply Hne'.
        - intros [Hne' Hr]. split; [done|]. by intros ->. }
      rewrite !Hsplit. by rewrite Heq.
    + rewrite list_lookup_insert_ne by done.
      rewrite (Hlists _ _ Hkids'). f_equal.
      apply filter_equiv. intros r _. rewrite Hleft.
      split; [|by intros [? _]]. intros Hr. split; [done|]. done.
  - apply Permutation_length in Hperm. simpl in Hperm. lia.
  - exists (item :: res), s'. split; [|done].
    rewrite Hrun. by rewrite <- app_assoc.
Qed.
End skip_all.

(** The forest that is left when every placeholder has left its list. *)
Section stripped.
Variables (s s' : state) (top : loc) (ts : list stree).
Hypothesis Hsh : forest_shape s top ts.
Hypothesis Hext : extends s s'.
Hypothesis Hlists : forall l kids, (l, kids) ∈ forest_lists top ts ->
  lists s' !! l
  = Some (filter (fun r : ref => (r, l) ∉ forest_targets top ts \/ r ∈ [])
            (map sroot kids)).

Lemma filter_strip l kids :
  (l, kids) ∈ forest_lists top ts ->
  filter (fun r : ref => (r, l) ∉ forest_targets top ts \/ r ∈ [])
    (map sroot kids)
  = map sroot (flat_map strip kids).
Proof.
  intros Hl. destruct (forest_lists_shape _ _ _ _ _ Hsh Hl) as [_ Hkids].
  assert (forall ks, (forall k, k ∈ ks -> k ∈ kids) ->
            filter (fun r : ref =>
                      (r, l) ∉ forest_targets top ts \/ r ∈ [])
              (map sroot ks)
            = map sroot (flat_map strip ks)) as Hks.
  2:{ by apply Hks. }
  induction ks as [|k ks IH]; intros Hsub; [done|].
  assert (k ∈ kids) as Hk by (apply Hsub; by left).
  rewrite Forall_forall in Hkids. pose proof (Hkids _ Hk) as Hshape.
  specialize (IH ltac:(intros k' ?; apply Hsub; by right)).
  destruct k as [r l' kids'|r]; cbn [map flat_map strip sroot app].
  - rewrite filter_cons_True; [by rewrite IH|]. left. intros HT.
    destruct (forest_targets_member _ _ _ _ _ Hsh HT) as [[m Hm] _].
    apply shape_SComment in Hshape as ((c & Hc & _) & _). congruence.
  - rewrite filter_cons_False; [done|].
    intros [Hout|Hin%elem_of_nil]; [|done]. apply Hout.
    apply forest_targets_lists. eauto.
Qed.

Lemma shape_strip t :
  shape s t -> (forall x, x ∈ tree_lists t -> x ∈ forest_lists top ts) ->
  Forall (shape s') (strip t).
Proof.
  induction t as [r|r l kids IH] using stree_ind'; intros Ht Hsub;
    [constructor|].
  apply shape_SComment in Ht as ((c & Hc & <-) & Hl & Hkids).
  destruct (Hext _ _ Hc) as (o' & Ho' & Hcore).
  apply core_OComment in Hcore as (c' & -> & Hrep & _).
  cbn [strip]. constructor; [|constructor].
  apply shape_SComment. split_and!.
  - eauto.
  - assert ((Comment.replies c, kids) ∈ forest_lists top ts) as Hmem
      by (apply Hsub; simpl; by left).
    rewrite (Hlists _ _ Hmem). f_equal. by apply filter_strip.
  - apply Forall_forall. intros x (k & Hkin & Hx)%elem_of_flat_map.
    rewrite Forall_forall in IH, Hkids.
    assert (Forall (shape s') (strip k)) as Hall.
    { apply IH; [done|by apply Hkids|]. intros y Hy. apply Hsub. simpl.
      right. apply elem_of_flat_map. by exists k. }
    rewrite Forall_forall in Hall. by apply Hall.
Qed.

Lemma forest_shape_strip : forest_shape s' top (flat_map strip ts).
Proof.
  destruct Hsh as [Htop Hts]. split.
  - assert ((top, ts) ∈ forest_lists top ts) as Hmem by (by left).
    rewrite (Hlists _ _ Hmem). f_equal. by apply filter_strip.
  - apply Forall_forall. intros x (t & Ht & Hx)%elem_of_flat_map.
    rewrite Forall_forall in Hts.
    assert (Forall (shape s') (strip t)) as Hall.
    { apply shape_strip; [by apply Hts|]. intros y Hy. right.
      apply elem_of_flat_map. by exists t. }
    rewrite Forall_forall in Hall. by apply Hall.
Qed.
End stripped.

(** Only comments are left in a tree without its placeholders. *)
Lemma strip_comments s t r :
  Forall (shape s) (strip t) -> r ∈ flat_map srefs (strip t) ->
  is_comment s r.
Proof.
  revert r. induction t as [r0|r0 l kids IH] using stree_ind'; intros r;
    [by intros _ ?%elem_of_nil|].
  cbn [strip flat_map srefs]. rewrite app_nil_r.
  intros [Hshape _]%Forall_cons.
  apply shape_SComment in Hshape as ((c & Hc & _) & _ & Hkids).
  intros [->|Hr]%elem_of_cons; [by exists c|].
  apply elem_of_flat_map in Hr as (x & Hx & Hr).
  apply elem_of_flat_map in Hx as (k & Hk & Hx).
  rewrite Forall_forall in IH. apply (IH k Hk).
  - apply Forall_forall. intros y Hy. rewrite Forall_forall in Hkids.
    apply Hkids. apply elem_of_flat_map. by exists k.
  - apply elem_of_flat_map. by exists x.
Qed.

(** The nodes of a tree without its placeholders are nodes of the tree. *)
Lemma strip_srefs t x r : x ∈ strip t -> r ∈ srefs x -> r ∈ srefs t.
Proof.
  revert x r. induction t as [r0|r0 l kids IH] using stree_ind';
    intros x r; [by intros ?%elem_of_nil|].
  cbn [strip]. intros ->%list_elem_of_singleton. cbn [srefs].
  intros [->|Hr]%elem_of_cons; [by left|]. right.
  apply elem_of_flat_map in Hr as (y & Hy & Hr).
  apply elem_of_flat_map in Hy as (k & Hk & Hy).
  apply elem_of_flat_map. exists k. split; [done|].
  rewrite Forall_forall in IH. by apply (IH k Hk y).
Qed.

Lemma strip_reach s top ts r :
  forest_shape s top (flat_map strip ts) -> reach s top r -> is_comment s r.
Proof.
  intros Hsh Hr. apply (reach_forest _ _ _ _ Hsh) in Hr.
  apply elem_of_flat_map in Hr as (x & Hx & Hr).
  apply elem_of_flat_map in Hx as (t & Ht & Hx).
  apply (strip_comments s t).
  - apply Forall_forall. intros y Hy. destruct Hsh as [_ Hall].
    rewrite Forall_forall in Hall. apply Hall.
    apply elem_of_flat_map. by exists t.
  - apply elem_of_flat_map. by exists x.
Qed.

(** With the limit 0 every placeholder of the forest is skipped: the
    placeholders are returned, and the forest is left without them. *)
Lemma skip_all fetch fuel self threshold top ts s :
  _comments self = Some top -> forest_shape s top ts ->
  NoDup (flat_map srefs ts) -> ssizes ts <= fuel ->
  exists res s',
    replace_more fetch fuel self (Some 0%Z) threshold s = (Ok res, s', []) /\
    res ≡ₚ forest_mores top ts /\
    length (objs s') = length (objs s) /\
    _comments_by_id s' = _comments_by_id s /\
    Forall2 sublist (lists s') (lists s) /\
    extends s s' /\
    forest_shape s' top (flat_map strip ts).
Proof.
  intros Hself Hsh Hnd Hfuel.
  destruct (gather_total fuel top None top ts s)
    as (heap & s1 & Hg & Hgd & Hperm); [done|done|done|].
  fold (forest_targets top ts) in Hgd, Hperm.
  fold (forest_mores top ts) in Hperm.
  assert (length heap <= fuel) as Hlen.
  { rewrite Hperm. unfold forest_mores. rewrite length_fmap.
    etrans; [|exact Hfuel]. rewrite <- length_flat_map_srefs.
    rewrite <- (length_fmap fst). apply sublist_length.
    unfold forest_targets. rewrite fmap_flat_map.
    apply flat_map_sublist. intros t _. apply targets_fst_sublist. }
  destruct (skip_loop fetch fuel self threshold 0 heap [] [] s1)
    as (res & s' & Hrun & Hres & Hobjs & Hidx & Hsub);
    [lia|by eapply gathered_pending|done|].
  pose proof (gathered_extends _ _ _ Hgd) as Hext1.
  destruct Hgd as (Hl1 & Hi1 & Hlen1 & _ & Hin1).
  destruct (skip_loop_lists fetch top ts Hnd fuel self threshold 0 heap [] []
              s1) as (res2 & s2 & Hrun2 & Hlists); [lia| | | |done|].
  { rewrite Hperm. by apply forest_targets_NoDup. }
  { intros r Hr. rewrite Hperm in Hr.
    destruct (Hin1 _ Hr) as (m & c & Hm & Hc & Hs1).
    by exists (with_target c m), c. }
  { intros l kids Hkids. rewrite Hl1.
    destruct (forest_lists_shape _ _ _ _ _ Hsh Hkids) as [-> _].
    f_equal. symmetry. apply filter_all. apply Forall_forall. intros r _.
    destruct (decide ((r, l) ∈ forest_targets top ts)) as [HT|HT];
      [|by left].
    right. rewrite Hperm. apply list_elem_of_fmap. by exists (r, l). }
  rewrite Hrun in Hrun2. injection Hrun2 as _ <-.
  assert (extends s s') as Hext.
  { intros r o Hr. destruct (Hext1 _ _ Hr) as (o' & Ho' & Hcore).
    exists o'. by rewrite Hobjs. }
  exists res, s'. split_and!.
  - unfold replace_more, comments_list. rewrite Hself.
    unfold ret at 1. unfold bind at 1. by rewrite Hg.
  - by rewrite Hres.
  - by rewrite Hobjs.
  - by rewrite Hidx.
  - by rewrite <- Hl1.
  - done.
  - by eapply forest_shape_strip.
Qed.

(** ** Responses of new comments *)

Lemma obj_name_core o o' : core o' = core o -> obj_name o' = obj_name o.
Proof. destruct o, o'; simpl; congruence. Qed.

Lemma describes_extends s s' r t :
  extends s s' -> describes s r t -> describes s' r t.
Proof.
  intros Hext (o & Ho & Hn & Hd). destruct (Hext _ _ Ho) as (o' & Ho' & Hcore).
  exists o'. split; [done|]. split; [by rewrite (obj_name_core _ _ Hcore)|].
  destruct t, o, o'; simpl in *; try done. injection Hcore as _ Hp Hr _.
  destruct Hd as [<- <-]. done.
Qed.

Lemma alloc_tree_describes t s r s' :
  alloc_tree t s = (Ok r, s') -> describes s' r t.
Proof.
  destruct t as [n p root kids|n c ch].
  - rewrite alloc_tree_TComment. intros H.
    inv_bind H as rs s1 H1. inv_bind H as l s2 H2.
    unfold alloc_obj in H. injection H as <- <-.
    eexists. split; [simpl; apply list_lookup_middle; done|done].
  - simpl. unfold alloc_obj. intros [= <- <-].
    eexists. split; [simpl; apply list_lookup_middle; done|done].
Qed.

Lemma alloc_trees_describes ts s rs s' :
  alloc_trees ts s = (Ok rs, s') -> Forall2 (describes s') rs ts.
Proof.
  revert s rs. induction ts as [|t ts IH]; intros s rs; simpl.
  - by intros [= <- <-].
  - intros H. inv_bind H as r s1 H1. inv_bind H as rs' s2 H2.
    injection H as <- <-. constructor; [|by eapply IH].
    eapply describes_extends; [|by eapply alloc_tree_describes].
    by eapply (preserves_Ok _ _ _ _ (preserves_alloc_trees ts)).
Qed.

Lemma alloc_forest_describes ts s new s' :
  alloc_forest ts s = (Ok new, s') ->
  exists rs, lists s' !! new = Some rs /\ Forall2 (describes s') rs ts.
Proof.
  unfold alloc_forest. intros H. inv_bind H as rs s1 H1.
  unfold alloc_list in H. injection H as <- <-.
  exists rs. split; [simpl; by apply list_lookup_middle|].
  eapply Forall2_impl; [by eapply alloc_trees_describes|].
  intros r t (o & Ho & Hn). by exists o.
Qed.

Lemma tree_name_names t : tree_name t ∈ tree_names t.
Proof. destruct t; simpl; by left. Qed.

Lemma tree_names_top ts : map tree_name ts `sublist_of` flat_map tree_names ts.
Proof.
  induction ts as [|t ts IH]; simpl; [done|].
  destruct t as [n p root kids|n c ch]; simpl.
  - apply sublist_skip. by apply sublist_inserts_l.
  - by apply sublist_skip.
Qed.

Lemma not_insert_error_AttributeError : ~ insert_error AttributeError.
Proof. by intros [?|?]. Qed.

(** An append does not raise, and writes a list only. *)
Lemma list_append_sound l r s :
  match list_append l r s with
  | (Ok _, s') =>
      objs s' = objs s /\ _comments_by_id s' = _comments_by_id s
  | (Raise e, _) => False
  | (Stuck, _) | (OutOfFuel, _) => True
  end.
Proof.
  unfold list_append, bind, get_list. by destruct (lists s !! l).
Qed.

(** The placement of a node that is registered: what can go wrong is no
    error of an insert. *)
Lemma append_to_self_sound self r s :
  match (let* l := comments_list self AttributeError in list_append l r) s
  with
  | (Ok _, s') =>
      objs s' = objs s /\ _comments_by_id s' = _comments_by_id s
  | (Raise e, _) => ~ insert_error e
  | (Stuck, _) | (OutOfFuel, _) => True
  end.
Proof.
  unfold comments_list. destruct (_comments self) as [l|].
  - unfold ret at 1. unfold bind at 1.
    pose proof (list_append_sound l r s) as H.
    by destruct (list_append l r s) as [[u|e| |] s'].
  - unfold raise, bind. apply not_insert_error_AttributeError.
Qed.

Lemma append_to_parent_sound parent r s :
  match (let* l := replies_of parent in list_append l r) s with
  | (Ok _, s') =>
      objs s' = objs s /\ _comments_by_id s' = _comments_by_id s
  | (Raise e, _) => ~ insert_error e
  | (Stuck, _) | (OutOfFuel, _) => True
  end.
Proof.
  unfold replies_of, get_obj. unfold bind at 1 2.
  destruct (objs s !! parent) as [[c|m]|]; [| |done].
  - unfold ret. pose proof (list_append_sound (Comment.replies c) r s) as H.
    by destruct (list_append _ r s) as [[u|e| |] s'].
  - unfold raise. apply not_insert_error_AttributeError.
Qed.

(** The insert of a node of a response under a new name, which can be
    placed: no error of an insert is raised, and the index gains the
    name at most. *)
Lemma insert_fresh self r t s :
  describes s r t -> _comments_by_id s !! tree_name t = None ->
  attachable s t ->
  match _insert_comment self r s with
  | (Ok _, s') =>
      extends s s' /\
      (forall n, is_Some (_comments_by_id s !! n) ->
         is_Some (_comments_by_id s' !! n)) /\
      (forall n, is_Some (_comments_by_id s' !! n) ->
         n = tree_name t \/ is_Some (_comments_by_id s !! n))
  | (Raise e, _) => ~ insert_error e
  | (Stuck, _) | (OutOfFuel, _) => True
  end.
Proof.
  intros (o & Ho & Hn & Hd) Hfresh Hatt. unfold _insert_comment.
  rewrite (bind_Ok _ _ _ _ _ (get_obj_Some _ _ _ Ho)).
  unfold get_index at 1. unfold bind at 1.
  rewrite bool_decide_false by (rewrite Hn, Hfresh; by intros [? ?]).
  destruct o as [c|m].
  - destruct t as [n p root kids|]; [|done]. simpl in Hn, Hd, Hatt, Hfresh.
    destruct Hd as [Hp Hroot]. subst n.
    rewrite (bind_Ok _ _ _ _ _ (set_submission_Comment _ _ _ _ Ho)).
    set (c' := Comment.Build _ _ _ _ _). set (s1 := State _ _ _).
    assert (extends s s1) as Hext by (by eapply extends_set_obj).
    assert (forall s', objs s' = objs s1 ->
              _comments_by_id s' = _comments_by_id s1 ->
              extends s s' /\
              (forall n, is_Some (_comments_by_id s !! n) ->
                 is_Some (_comments_by_id s' !! n)) /\
              (forall n, is_Some (_comments_by_id s' !! n) ->
                 n = Comment.name c \/ is_Some (_comments_by_id s !! n)))
      as Hfinal.
    { intros s' Ho' Hi'. split_and!.
      - intros r' o' Hr'. rewrite Ho'. by apply Hext.
      - intros n Hn. rewrite Hi'. unfold s1. cbn [_comments_by_id].
        apply lookup_insert_is_Some. destruct (decide (Comment.name c = n));
          auto.
      - intros n. rewrite Hi'. unfold s1. cbn [_comments_by_id].
        intros [?|[_ ?]]%lookup_insert_is_Some; auto. }
    simpl. rewrite Hroot. destruct root.
    + pose proof (append_to_self_sound self r s1) as H.
      destruct (bind _ _ s1) as [[u|e| |] s']; try done.
      destruct H as [Ho' Hi']. by apply Hfinal.
    + destruct Hatt as [?|Hparent]; [done|].
      unfold get_index at 1. unfold bind at 1.
      assert (is_Some (_comments_by_id s1 !! p)) as [parent Hlook].
      { unfold s1. cbn [_comments_by_id]. apply lookup_insert_is_Some.
        destruct (decide (Comment.name c = p)); auto. }
      rewrite Hp, Hlook.
      pose proof (append_to_parent_sound parent r s1) as H.
      destruct (bind _ _ s1) as [[u|e| |] s']; try done.
      destruct H as [Ho' Hi']. by apply Hfinal.
  - destruct t as [|n cnt ch]; [done|].
    rewrite (bind_Ok _ _ _ _ _ (set_submission_More _ _ _ _ Ho)).
    set (s1 := State _ _ _).
    assert (extends s s1) as Hext by (by eapply extends_set_obj).
    pose proof (append_to_self_sound self r s1) as H. simpl.
    destruct (bind _ _ s1) as [[u|e| |] s']; try done.
    destruct H as [Ho' Hi']. split_and!.
    + intros r' o' Hr'. rewrite Ho'. by apply Hext.
    + intros n'. by rewrite Hi'.
    + intros n'. rewrite Hi'. auto.
Qed.

Lemma index_named_extends s s' :
  extends s s' -> index_named s ->
  (forall n, is_Some (_comments_by_id s' !! n) ->
     is_Some (_comments_by_id s !! n) \/
     exists r o, objs s' !! r = Some o /\ obj_name o = n) ->
  index_named s'.
Proof.
  intros Hext Hnamed Hidx n Hn. destruct (Hidx n Hn) as [Hold|?]; [|done].
  destruct (Hnamed n Hold) as (r & o & Ho & <-).
  destruct (Hext _ _ Ho) as (o' & Ho' & Hcore).
  exists r, o'. split; [done|]. by apply obj_name_core.
Qed.

(** The inserts of a response of new nodes. *)
Lemma inserts_fresh self rs ts s :
  Forall2 (describes s) rs ts -> NoDup (map tree_name ts) ->
  (forall t, t ∈ ts -> _comments_by_id s !! tree_name t = None) ->
  Forall (attachable s) ts -> index_named s ->
  match for_each (_insert_comment self) rs s with
  | (Ok _, s') => index_named s'
  | (Raise e, _) => ~ insert_error e
  | (Stuck, _) | (OutOfFuel, _) => True
  end.
Proof.
  intros Hdesc. revert s Hdesc.
  induction rs as [|r rs IH] in ts |- *; intros s Hdesc Hnd Hfresh Hatt Hnamed.
  { by apply Forall2_nil_inv_l in Hdesc as ->. }
  apply Forall2_cons_inv_l in Hdesc as (t & ts' & Ht & Hts & ->).
  rewrite fmap_cons in Hnd. apply NoDup_cons in Hnd as [Hnotin Hnd].
  apply Forall_cons in Hatt as [Hatt Hatts].
  pose proof (insert_fresh self r t s Ht (Hfresh t ltac:(by left)) Hatt)
    as Hins.
  cbn [for_each]. unfold bind.
  destruct (_insert_comment self r s) as [[u|e| |] s1]; try done.
  destruct Hins as (Hext & Hmono & Hidx).
  apply (IH ts').
  - eapply Forall2_impl; [done|]. intros r' t'. by apply describes_extends.
  - done.
  - intros t' Ht'. apply eq_None_not_Some. intros [Heq|Hold]%Hidx.
    + apply Hnotin. apply list_elem_of_fmap. by exists t'.
    + rewrite (Hfresh t') in Hold by (by right). by destruct Hold.
  - eapply Forall_impl; [done|]. intros [n p root kids|n c ch]; simpl; [|done].
    intros [?|?]; auto.
  - apply (index_named_extends s); [done|done|].
    intros n [->|?]%Hidx; [|by left]. right.
    destruct (describes_extends _ _ _ _ Hext Ht) as (o & Ho & Hn & _).
    eauto.
Qed.

Lemma remove_from_target_sound item s :
  match remove_from_target item s with
  | (Ok _, s') =>
      objs s' = objs s /\ _comments_by_id s' = _comments_by_id s
  | (Raise e, _) => ~ insert_error e
  | (Stuck, _) | (OutOfFuel, _) => True
  end.
Proof.
  unfold remove_from_target, get_obj. unfold bind at 1.
  destruct (objs s !! item) as [[c|m]|]; [| |done].
  - apply not_insert_error_AttributeError.
  - destruct (MoreComments._remove_from m) as [l|];
      [|apply not_insert_error_AttributeError].
    unfold list_remove, get_list, bind. destruct (lists s !! l) as [rs|]; [|done].
    destruct (remove_first item rs); [done|]. by intros [?|?].
Qed.

(** The merge of a response of new comments raises no error of an
    insert, and the index stays one of names of the store. *)
Lemma merge_fetched_fresh self top item trees v s :
  _comments self = Some top -> is_Some (lists s !! top) ->
  Forall no_more trees -> fresh_response s trees -> index_named s ->
  match merge_fetched self item trees v s with
  | (Ok _, s') => index_named s'
  | (Raise e, _) => ~ insert_error e
  | (Stuck, _) | (OutOfFuel, _) => True
  end.
Proof.
  intros Hself [rtop0 Hrtop0] Hnm (Hnd & Hnew_names & Hatt) Hnamed.
  destruct (alloc_forest_spec trees s (length (objs s)) (length (lists s))
              ltac:(lia) ltac:(lia))
    as (new & s1 & sts & os & ls & Halloc & Hal & Hnew & Hsz & _ & Hge & Hlt
        & Hcom & _).
  destruct (Hcom Hnm) as [Hos Hnone].
  destruct (alloc_forest_describes _ _ _ _ Halloc) as (rs & Hrs & Hdesc).
  rewrite (proj1 Hnew) in Hrs. injection Hrs as <-.
  pose proof Hal as (Ho1 & Hl1 & Hi1 & _).
  assert (lists s1 !! top = Some rtop0) as Hrtop
    by (rewrite Hl1; by apply lookup_app_l_Some).
  unfold merge_fetched. rewrite (bind_Ok _ _ _ _ _ Halloc).
  set (fb := match rtop0 with [] => new | _ :: _ => top end).
  destruct (gather_total (S (forest_size trees)) new (Some top) fb sts s1)
    as (found & s2 & Hgather & Hg & Hfound); [done| |lia|].
  { intros s' Hs'. unfold parent_tree_or_tree.
    rewrite (bind_Ok _ _ _ _ _ (get_list_Some _ _ rtop0 ltac:(by rewrite Hs'))).
    unfold fb. by destruct rtop0. }
  rewrite Hnone in Hg, Hfound.
  apply gathered_nil_inv in Hg as ->. apply Permutation_nil_r in Hfound as ->.
  rewrite Hself. rewrite (bind_Ok _ _ _ _ _ Hgather).
  unfold ret at 1. unfold bind at 1.
  rewrite (bind_Ok _ _ _ _ _ (get_list_Some _ _ _ (proj1 Hnew))).
  assert (index_named s1) as Hnamed1.
  { intros n. rewrite Hi1. intros Hn.
    destruct (Hnamed n Hn) as (r & o & Ho & Hname).
    exists r, o. split; [|done]. rewrite Ho1. by apply lookup_app_l_Some. }
  pose proof (inserts_fresh self (map sroot sts) trees s1 Hdesc) as Hins.
  unfold bind at 1.
  destruct (for_each _ _ s1) as [[u|e| |] s3]; try done.
  - assert (index_named s3) as Hnamed3.
    { apply Hins; try done.
      - eapply sublist_NoDup; [done|apply tree_names_top].
      - intros t Ht. rewrite Hi1. apply eq_None_not_Some. intros Hsome.
        destruct (Hnamed _ Hsome) as (r & o & Ho & Hname).
        apply (Hnew_names (tree_name t) r o); [|done|done].
        apply elem_of_flat_map. exists t. split; [done|].
        apply tree_name_names.
      - eapply Forall_impl; [done|].
        intros [n p root kids|n c ch]; simpl; [|done]. by rewrite Hi1. }
    pose proof (remove_from_target_sound item s3) as Hrm.
    unfold bind.
    destruct (remove_from_target item s3) as [[u'|e| |] s4]; try done.
    destruct Hrm as [Ho4 Hi4]. unfold ret.
    intros n. rewrite Hi4. intros Hn.
    destruct (Hnamed3 n Hn) as (r & o & Ho & Hname).
    exists r, o. by rewrite Ho4.
  - apply Hins; try done.
    + eapply sublist_NoDup; [done|apply tree_names_top].
    + intros t Ht. rewrite Hi1. apply eq_None_not_Some. intros Hsome.
      destruct (Hnamed _ Hsome) as (r & o & Ho & Hname).
      apply (Hnew_names (tree_name t) r o); [|done|done].
      apply elem_of_flat_map. exists t. split; [done|].
      apply tree_name_names.
    + eapply Forall_impl; [done|].
      intros [n p root kids|n c ch]; simpl; [|done]. by rewrite Hi1.
Qed.

(** The loop returns when every answer of the run is a response of new
    comments. *)
Section returns.
Variables (s0 : state) (top : loc) (ts : list stree).
Hypothesis Hsh : forest_shape s0 top ts.
Hypothesis Hnd : NoDup (flat_map srefs ts).
Variable fetch : list ref -> state -> ref -> option (list tree).
Variable self : CommentForest.
Hypothesis Hself : _comments self = Some top.
Hypothesis fetch_comments : forall log s r trees,
  fetch log s r = Some trees -> Forall no_more trees.
Hypothesis fetch_fresh : forall v log s item,
  in_run fetch self None 0 s0 v log s -> item ∈ more_comments v ->
  exists trees, fetch log s item = Some trees /\ fresh_response s trees.

Lemma resolving_loop_returns fuel heap sk log s :
  resolving s0 top ts s heap -> store_ok s -> growing s top [] ->
  index_named s ->
  in_run fetch self None 0 s0 (Locals None heap sk) log s ->
  length heap <= fuel ->
  exists s' log',
    replace_more_loop fetch fuel self 0 (Locals None heap sk) log s
    = (Ok sk, s', log').
Proof.
  revert heap sk log s.
  induction fuel as [|fuel IH];
    intros heap sk log s Hres Hok Hgr Hnamed Hin Hfuel.
  { destruct heap; [|simpl in Hfuel; lia].
    rewrite replace_more_loop_nil by done. eauto. }
  destruct (decide (heap = [])) as [->|Hne].
  { rewrite replace_more_loop_nil by done. eauto. }
  rewrite replace_more_loop_S by done.
  destruct (heappop_is_Some (more_lt s) heap) as (item & rest & Hpop);
    [done|].
  pose proof (heappop_perm _ _ _ _ Hpop) as Hperm.
  assert (item ∈ heap) as Hitem by (rewrite Hperm; by left).
  destruct (rs_pending _ _ _ _ _ Hres item Hitem)
    as (m & l & rs & Hm & Hcount & _).
  destruct (fetch_fresh _ _ _ item Hin Hitem) as (trees & Hfetch & Hfresh).
  pose proof (fetch_comments _ _ _ _ Hfetch) as Hnm.
  assert (loop_body fetch self 0 (Locals None heap sk) log s
          = (let '(o, s') :=
               merge_fetched self item trees (Locals None rest sk) s in
             (o, s', log ++ [item]))) as Hbody.
  { unfold loop_body. cbn [remaining more_comments skipped].
    rewrite Hpop, Hm. unfold skip_test.
    rewrite bool_decide_false by lia. cbn [orb]. by rewrite Hfetch. }
  pose proof (resolving_merge s0 top ts Hsh Hnd self s heap item rest trees
                sk Hres Hok Hself Hperm Hnm) as Hpost.
  pose proof (merge_fetched_fresh self top item trees (Locals None rest sk)
                s Hself (resolving_top s0 top ts Hsh _ _ Hres) Hnm Hfresh
                Hnamed) as Hsound.
  unfold post in Hpost.
  destruct (merge_fetched _ _ _ _ _) as [[v'|e| |] s1] eqn:Hmerge;
    try done.
  destruct Hpost as (-> & Hres1 & Hok1). rewrite Hbody.
  apply IH; try done.
  - exact (growing_merge _ _ _ _ _ _ _ _ Hok Hgr Hself Hnm Hmerge).
  - eapply in_run_step; [exact Hin|done|exact Hbody].
  - apply Permutation_length in Hperm. simpl in Hperm. lia.
Qed.
End returns.

(** ** A collaborator that answers new root comments *)

Lemma length_long_name n : String.length (long_name n) = n.
Proof. induction n as [|n IH]; simpl; [done|]. by rewrite IH. Qed.

Lemma longest_ge s r o :
  objs s !! r = Some o -> String.length (obj_name o) <= longest s.
Proof.
  unfold longest. intros Hr. apply list_elem_of_lookup_2 in Hr.
  induction (objs s) as [|o' os IH]; [by apply elem_of_nil in Hr|].
  simpl. apply elem_of_cons in Hr as [->|Hr]; [lia|].
  specialize (IH Hr). lia.
Qed.

Lemma new_root_fresh log s item :
  exists trees, new_root log s item = Some trees /\ fresh_response s trees.
Proof.
  eexists. split; [reflexivity|]. split_and!.
  - simpl. apply NoDup_singleton.
  - simpl. intros n r o ->%list_elem_of_singleton Ho Hname.
    apply longest_ge in Ho.
    assert (String.length (obj_name o) = S (longest s)) as Hlen
      by (rewrite Hname; exact (length_long_name (S (longest s)))).
    lia.
  - constructor; [by left|constructor].
Qed.

Lemma new_root_comments log s r trees :
  new_root log s r = Some trees -> Forall no_more trees.
Proof. intros [= <-]. by repeat constructor. Qed.

(** ** Nested replies *)

(** A comment whose replies list is empty has nothing nested under it. *)
Lemma nested_name_empty (s : state) (c : Comment.t) (n : string) :
  lists s !! Comment.replies c = Some [] -> ~ nested_name s c n.
Proof.
  intros Hnil (r & c' & Hreach & _). clear c'.
  induction Hreach as [rs r Hrs Hr|p c1 rs r _ IH _ _ _]; [|done].
  rewrite Hnil in Hrs. injection Hrs as <-. by apply elem_of_nil in Hr.
Qed.

(** * The claims *)

(** ** Length *)

(** C10: the length of a forest whose comment sequence is unset, and of
    one whose sequence is the empty list, is 0; [__len__] does not fail
    in either state (and leaves the store as it is). *)
Theorem len_unset_or_empty (self : CommentForest) (s : state) :
  (_comments self = None -> __len__ self s = (Ok 0, s)) /\
  (forall l, _comments self = Some l -> lists s !! l = Some [] ->
     __len__ self s = (Ok 0, s)).
Proof.
  unfold __len__. split.
  - by intros ->.
  - intros l -> Hl. by rewrite (bind_Ok _ _ _ _ _ (get_list_Some _ _ _ Hl)).
Qed.

Lemma len_unset_or_empty_witness :
  __len__ (Forest None 0) equal_counts = (Ok 0, equal_counts) /\
  (lists self_parent !! 0 = Some [] /\
   __len__ forest0 self_parent = (Ok 0, self_parent)).
Proof.
  split; [|split].
  - by apply (proj1 (len_unset_or_empty (Forest None 0) equal_counts)).
  - reflexivity.
  - apply (proj2 (len_unset_or_empty forest0 self_parent) 0); reflexivity.
Defined.

(** ** Insertion *)

(** C4: inserting a node whose identity is already in the Identity Index
    raises [DuplicateReplaceException], and the store is the one before
    the call: nothing was written, nothing dropped or deduplicated. *)
Theorem insert_duplicate_raises (self : CommentForest) (comment : ref)
    (o : obj) (s : state) :
  objs s !! comment = Some o ->
  is_Some (_comments_by_id s !! obj_name o) ->
  _insert_comment self comment s = (Raise DuplicateReplaceException, s).
Proof.
  intros Ho Hdup. unfold _insert_comment.
  rewrite (bind_Ok _ _ _ _ _ (get_obj_Some _ _ _ Ho)).
  unfold get_index at 1. unfold bind at 1.
  by rewrite bool_decide_true.
Qed.

Lemma insert_duplicate_raises_witness :
  objs thread !! 2 = Some (comment "y" "x" false 2) /\
  is_Some (_comments_by_id thread !! "y") /\
  _insert_comment forest0 2 thread = (Raise DuplicateReplaceException, thread).
Proof.
  assert (is_Some (_comments_by_id thread !! "y")) as Hy
    by (exists 2; reflexivity).
  split; [reflexivity|]. split; [exact Hy|].
  exact (insert_duplicate_raises forest0 2 (comment "y" "x" false 2) thread
           eq_refl Hy).
Defined.

(** C5, as stated, fails: a non-root comment that names itself as its
    parent, and whose identity is not in the index when the insert
    starts, is registered by the insert before the parent is looked up;
    the assertion passes and the comment is appended to its own replies. *)
Lemma insert_self_parent_accepted :
  objs self_parent !! 0 = Some (comment "c1" "c1" false 1) /\
  _comments_by_id self_parent !! "c1" = None /\
  exists s', _insert_comment forest0 0 self_parent = (Ok tt, s') /\
             lists s' = [[]; [0]].
Proof.
  split; [reflexivity|]. split; [reflexivity|].
  eexists. split; [vm_compute; reflexivity|reflexivity].
Qed.

Lemma insert_non_root (self : CommentForest) (comment : ref)
    (c : Comment.t) (s : state) :
  objs s !! comment = Some (OComment c) ->
  Comment.is_root c = false ->
  _comments_by_id s !! Comment.name c = None ->
  _insert_comment self comment s =
  match <[Comment.name c := comment]> (_comments_by_id s)
          !! Comment.parent_id c with
  | Some parent => let* l := replies_of parent in list_append l comment
  | None => raise (AssertionError assertion_message)
  end
    (State (<[comment := OComment (Comment.Build (Comment.name c)
                            (Comment.parent_id c) (Comment.is_root c)
                            (Comment.replies c) (Some (_submission self)))]>
              (objs s))
       (lists s) (<[Comment.name c := comment]> (_comments_by_id s))).
Proof.
  intros Ho Hroot Hfresh. unfold _insert_comment.
  rewrite (bind_Ok _ _ _ _ _ (get_obj_Some _ _ _ Ho)).
  unfold get_index at 1. unfold bind at 1.
  rewrite bool_decide_false by (simpl; rewrite Hfresh; by intros [? ?]).
  rewrite (bind_Ok _ _ _ _ _ (set_submission_Comment _ _ _ _ Ho)).
  rewrite Hroot. unfold get_index at 1. unfold bind at 1. done.
Qed.

(** C5 (amended): for a non-root comment that passes the duplicate check
    and whose parent identity is absent from the Identity Index, is not
    its own identity and is not the identity of a comment nested under
    it, the insert aborts with an [AssertionError] that carries the
    diagnostic message; no list of the store has changed, so the node is
    in no container, while its identity is in the index by then. When
    the parent identity is in the index at the call, the assertion does
    not fail. *)
Theorem insert_missing_parent (self : CommentForest) (comment : ref)
    (c : Comment.t) (s : state) :
  objs s !! comment = Some (OComment c) ->
  Comment.is_root c = false ->
  _comments_by_id s !! Comment.name c = None ->
  (_comments_by_id s !! Comment.parent_id c = None ->
   Comment.parent_id c <> Comment.name c ->
   ~ nested_name s c (Comment.parent_id c) ->
   exists s', _insert_comment self comment s =
                (Raise (AssertionError assertion_message), s') /\
              lists s' = lists s /\
              is_Some (_comments_by_id s' !! Comment.name c)) /\
  (is_Some (_comments_by_id s !! Comment.parent_id c) ->
   forall msg s',
     _insert_comment self comment s <> (Raise (AssertionError msg), s')).
Proof.
  intros Ho Hroot Hfresh. rewrite (insert_non_root _ _ _ _ Ho Hroot Hfresh).
  split.
  - intros Habsent Hne _. rewrite lookup_insert_ne by done. rewrite Habsent.
    eexists. split; [reflexivity|]. split; [done|].
    simpl. rewrite lookup_insert_eq. by eexists.
  - intros [parent Hparent] msg s'.
    rewrite lookup_insert_ne by congruence. rewrite Hparent.
    unfold replies_of, list_append, get_obj, get_list, set_list, bind, ret, raise.
    repeat case_match; simplify_eq; done.
Qed.

Lemma insert_missing_parent_witness :
  objs missing_parent !! 0 = Some (comment "q" "gone" false 1) /\
  _comments_by_id missing_parent !! "q" = None /\
  _comments_by_id missing_parent !! "gone" = None /\
  exists s',
    _insert_comment forest0 0 missing_parent =
      (Raise (AssertionError assertion_message), s') /\
    lists s' = lists missing_parent /\
    is_Some (_comments_by_id s' !! "q").
Proof.
  assert (_comments_by_id missing_parent !! "q" = None) as Hq
    by (vm_compute; reflexivity).
  assert (_comments_by_id missing_parent !! "gone" = None) as Hgone
    by (vm_compute; reflexivity).
  split; [reflexivity|]. split; [exact Hq|]. split; [exact Hgone|].
  refine (proj1 (insert_missing_parent forest0 0
                   (Comment.Build "q" "gone" false 1 None) missing_parent
                   eq_refl eq_refl Hq) Hgone _ _).
  - discriminate.
  - apply nested_name_empty. reflexivity.
Defined.

(** ** Flattening *)

(** C7: on a forest held by the store, [list] returns, with the store
    unchanged, a sequence that holds exactly the nodes of the forest:
    those reached from the top-level sequence through the replies of
    comments (a placeholder has none to walk into), each as often as the
    forest holds it, so that their number is the number of nodes of the
    forest. *)
Theorem list_yields_forest (fuel : nat) (self : CommentForest) (top : loc)
    (ts : list stree) (s : state) :
  _comments self = Some top -> forest_shape s top ts -> ssizes ts <= fuel ->
  exists rs,
    list_ fuel self s = (Ok rs, s) /\
    rs ≡ₚ flat_map srefs ts /\
    length rs = ssizes ts /\
    forall r, r ∈ rs <-> reach s top r.
Proof.
  intros Hself Hsh Hfuel. pose proof Hsh as [Htop Hts].
  destruct (list_loop_shape fuel [] ts s Hts Hfuel) as (rs & Hrun & Hperm).
  simpl in Hperm. exists rs. split_and!.
  - unfold list_, comments_list. rewrite Hself.
    unfold ret at 1. unfold bind at 1.
    by rewrite (bind_Ok _ _ _ _ _ (get_list_Some _ _ _ Htop)).
  - done.
  - by rewrite Hperm, length_flat_map_srefs.
  - intros r. rewrite Hperm. symmetry. by apply reach_forest.
Qed.

Lemma thread_forest_shape : forest_shape thread 0 thread_shape.
Proof.
  split; [reflexivity|].
  repeat (first [apply Forall_nil_2 | apply Forall_cons_2
                | apply shape_SComment; split_and!
                | by eexists | reflexivity
                | eexists; split; reflexivity]).
Qed.

Lemma list_yields_forest_witness :
  _comments forest0 = Some 0 /\ ssizes thread_shape <= 5 /\
  exists rs,
    list_ 5 forest0 thread = (Ok rs, thread) /\
    rs ≡ₚ flat_map srefs thread_shape /\
    length rs = ssizes thread_shape /\
    forall r, r ∈ rs <-> reach thread 0 r.
Proof.
  split; [reflexivity|]. split; [vm_compute; lia|].
  apply (list_yields_forest 5 forest0 0 thread_shape thread).
  - reflexivity.
  - exact thread_forest_shape.
  - vm_compute. lia.
Defined.

(** ** One iteration *)

(** C3: in an iteration that pops the placeholder [item], if a budget is
    set and exhausted, or the pending count of [item] is below the
    threshold, then [item] is skipped: no fetch is made, the budget is as
    before, [item] joins the skipped placeholders and one occurrence of
    it leaves the list that is its removal target. Otherwise the fetch
    collaborator is called on [item]. *)
Theorem loop_body_skips_or_fetches
    (fetch : list ref -> state -> ref -> option (list tree))
    (self : CommentForest) (threshold : Z) (v : locals) (log : list ref)
    (s : state) (item : ref) (rest : list ref) (m : MoreComments.t) :
  heappop (more_lt s) (more_comments v) = Some (item, rest) ->
  objs s !! item = Some (OMore m) ->
  ((exists n, remaining v = Some n /\ (n <= 0)%Z) \/
   (MoreComments.count m < threshold)%Z ->
   forall l rs,
     MoreComments._remove_from m = Some l -> lists s !! l = Some rs ->
     item ∈ rs ->
     exists rs',
       remove_first item rs = Some rs' /\ rs ≡ₚ item :: rs' /\
       loop_body fetch self threshold v log s =
         (Ok (Locals (remaining v) rest (skipped v ++ [item])),
          State (objs s) (<[l := rs']> (lists s)) (_comments_by_id s),
          log)) /\
  (~ ((exists n, remaining v = Some n /\ (n <= 0)%Z) \/
      (MoreComments.count m < threshold)%Z) ->
   exists o s', loop_body fetch self threshold v log s = (o, s', log ++ [item])).
Proof.
  intros Hpop Hm.
  assert (skip_test (remaining v) threshold m = true <->
          (exists n, remaining v = Some n /\ (n <= 0)%Z) \/
          (MoreComments.count m < threshold)%Z) as Hskip.
  { unfold skip_test. rewrite orb_true_iff, !bool_decide_eq_true.
    destruct (remaining v) as [n|].
    - rewrite bool_decide_eq_true. split.
      + intros [?|?]; [left; eauto|by right].
      + intros [(n' & [= <-] & ?)|?]; [by left|by right].
    - split.
      + intros [?|?]; [done|by right].
      + intros [(n' & ? & ?)|?]; [done|by right]. }
  unfold loop_body. rewrite Hpop, Hm. split.
  - intros Hcond l rs Hl Hrs Hin. apply Hskip in Hcond. rewrite Hcond.
    destruct (remove_first_elem _ _ Hin) as [rs' Hrm].
    exists rs'. split; [done|]. split; [by apply remove_first_perm|].
    by rewrite (bind_Ok _ _ _ _ _
                  (remove_from_target_Some _ _ _ _ _ _ Hm Hl Hrs Hrm)).
  - intros Hcond. rewrite <- Hskip in Hcond.
    apply not_true_is_false in Hcond. rewrite Hcond.
    destruct (fetch log s item) as [trees|]; [|eauto].
    destruct (merge_fetched _ _ _ _ _) as [o s']. eauto.
Qed.

Lemma loop_body_skips_or_fetches_witness :
  (* pending count 15, threshold 10: fetched *)
  (heappop (more_lt gathered_counts) [1; 0] = Some (1, [0]) /\
   ~ ((exists n, (None : option Z) = Some n /\ (n <= 0)%Z) \/ (15 < 10)%Z) /\
   exists o s',
     loop_body no_children forest0 10 (Locals None [1; 0] []) []
       gathered_counts = (o, s', [] ++ [1])) /\
  (* pending count 3, threshold 10: skipped *)
  (heappop (more_lt gathered_counts) [0] = Some (0, []) /\
   (3 < 10)%Z /\ lists gathered_counts !! 0 = Some [0; 1] /\
   exists rs',
     remove_first 0 [0; 1] = Some rs' /\ [0; 1] ≡ₚ 0 :: rs' /\
     loop_body no_children forest0 10 (Locals None [0] []) [1]
       gathered_counts =
       (Ok (Locals None [] ([] ++ [0])),
        State (objs gathered_counts) (<[0 := rs']> (lists gathered_counts))
          (_comments_by_id gathered_counts), [1])).
Proof.
  assert (~ ((exists n, (None : option Z) = Some n /\ (n <= 0)%Z) \/
             (15 < 10)%Z)) as Hnot.
  { intros [(n & Hn & _)|Hlt]; [discriminate Hn|lia]. }
  split.
  - split; [reflexivity|]. split; [exact Hnot|].
    exact (proj2 (loop_body_skips_or_fetches no_children forest0 10
                    (Locals None [1; 0] []) [] gathered_counts 1 [0]
                    (MoreComments.Build "b" 15 [] (Some 0) None)
                    eq_refl eq_refl) Hnot).
  - split; [reflexivity|]. split; [lia|]. split; [reflexivity|].
    refine (proj1 (loop_body_skips_or_fetches no_children forest0 10
                     (Locals None [0] []) [1] gathered_counts 0 []
                     (MoreComments.Build "a" 3 [] (Some 0) None)
                     eq_refl eq_refl) _ 0 [0; 1] eq_refl eq_refl _).
    + right. simpl. lia.
    + apply elem_of_cons. by left.
Defined.

(** ** The budget *)

(** C2: with a limit [n], [replace_more] calls the fetch collaborator at
    most [n] times, whatever the outcome of the call (no call at all when
    [n] is negative). With the limit 0, on a forest held by the store
    whose nodes are distinct objects, it makes no call and returns the
    placeholders of the forest, all of them and each once, every one
    skipped: the forest is afterwards the forest of before without its
    placeholders, so that no returned placeholder can be reached in it
    and what can be reached is a comment. No object is created, the
    index is unchanged and no list has gained a node: no comment was
    added. *)
Theorem replace_more_respects_limit
    (fetch : list ref -> state -> ref -> option (list tree))
    (self : CommentForest) (threshold : Z) :
  (forall fuel n s,
     length (replace_more fetch fuel self (Some n) threshold s).2
       <= Z.to_nat n) /\
  (forall fuel top ts s,
     _comments self = Some top -> forest_shape s top ts ->
     NoDup (flat_map srefs ts) -> ssizes ts <= fuel ->
     exists res s',
       replace_more fetch fuel self (Some 0%Z) threshold s = (Ok res, s', []) /\
       res ≡ₚ forest_mores top ts /\
       length (objs s') = length (objs s) /\
       _comments_by_id s' = _comments_by_id s /\
       Forall2 sublist (lists s') (lists s) /\
       forest_shape s' top (flat_map strip ts) /\
       (forall r, r ∈ res -> is_more s' r /\ ~ reach s' top r) /\
       (forall r, reach s' top r -> is_comment s' r /\ reach s top r)).
Proof.
  split.
  - intros fuel n s.
    destruct (replace_more _ _ _ _ _ _) as [[o s'] log] eqn:Hrun.
    by eapply replace_more_log.
  - intros fuel top ts s Hself Hsh Hnd Hfuel.
    destruct (skip_all fetch fuel self threshold top ts s Hself Hsh Hnd Hfuel)
      as (res & s' & Hrun & Hres & Hobjs & Hidx & Hsub & Hext & Hstrip).
    exists res, s'. split_and!; try done.
    + intros r Hr. rewrite Hres in Hr.
      apply list_elem_of_fmap in Hr as ([r' l] & -> & HT). simpl.
      destruct (forest_targets_member _ _ _ _ _ Hsh HT) as [Hmore _].
      apply (is_more_extends _ _ _ Hext) in Hmore.
      split; [done|]. intros Hreach.
      destruct (strip_reach _ _ _ _ Hstrip Hreach) as [c Hc].
      destruct Hmore as [m Hm]. congruence.
    + intros r Hreach. split; [by eapply strip_reach|].
      apply (reach_forest _ _ _ _ Hstrip) in Hreach.
      apply (reach_forest _ _ _ _ Hsh).
      apply elem_of_flat_map in Hreach as (x & Hx & Hr).
      apply elem_of_flat_map in Hx as (t & Ht & Hx).
      apply elem_of_flat_map. exists t. split; [done|].
      by eapply strip_srefs.
Qed.

Lemma thread_NoDup : NoDup (flat_map srefs thread_shape).
Proof.
  refine (bool_decide_unpack (NoDup (flat_map srefs thread_shape)) _).
  vm_compute. exact I.
Qed.

Lemma replace_more_respects_limit_witness :
  length (replace_more one_reply 5 forest0 (Some 2%Z) 0 thread).2
    <= Z.to_nat 2 /\
  exists res s',
    replace_more one_reply 5 forest0 (Some 0%Z) 0 thread = (Ok res, s', []) /\
    res ≡ₚ forest_mores 0 thread_shape /\
    length (objs s') = length (objs thread) /\
    _comments_by_id s' = _comments_by_id thread /\
    Forall2 sublist (lists s') (lists thread) /\
    forest_shape s' 0 (flat_map strip thread_shape) /\
    (forall r, r ∈ res -> is_more s' r /\ ~ reach s' 0 r) /\
    (forall r, reach s' 0 r -> is_comment s' r /\ reach thread 0 r).
Proof.
  split.
  - apply (proj1 (replace_more_respects_limit one_reply forest0 0)).
  - apply (proj2 (replace_more_respects_limit one_reply forest0 0) 5 0
             thread_shape thread).
    + reflexivity.
    + exact thread_forest_shape.
    + exact thread_NoDup.
    + vm_compute. lia.
Defined.

(** ** Full resolution *)

(** A flatten of a forest that the store holds returns its nodes. *)
Lemma growing_list self top s :
  _comments self = Some top -> growing s top [] ->
  exists fuel rs,
    list_ fuel self s = (Ok rs, s) /\ forall r, r ∈ rs <-> reach s top r.
Proof.
  intros Hself [(ts & Hsh & _) _ _ _]. pose proof Hsh as [Htop Hts].
  destruct (list_loop_shape (ssizes ts) [] ts s Hts (le_n _))
    as (rs & Hrun & Hperm).
  simpl in Hperm. exists (ssizes ts), rs. split.
  - unfold list_, comments_list. rewrite Hself.
    unfold ret at 1. unfold bind at 1.
    by rewrite (bind_Ok _ _ _ _ _ (get_list_Some _ _ _ Htop)).
  - intros r. rewrite Hperm. symmetry. by apply reach_forest.
Qed.

Lemma growing_gathered s s' top ts T :
  forest_shape s top ts -> gathered s s' T -> growing s' top [].
Proof.
  intros [Htop Hts] Hg. pose proof (gathered_extends _ _ _ Hg) as Hext.
  destruct Hg as (Hl & _). split.
  - exists ts. split; [|by intros l ?%elem_of_nil]. split.
    + by rewrite Hl.
    + eapply Forall_impl; [done|]. intros t. apply shape_mono; [done|].
      by rewrite Hl.
  - constructor.
  - apply NoDup_nil_2.
  - by intros n p c _ _ ?%elem_of_nil.
Qed.

(** C6, as stated, fails: the thread holds the comment x, and the
    collaborator answers a comment named x, without replies, to
    every placeholder: it returns child comments with no nested
    placeholders. With no limit and threshold 0 the call does not return
    the empty sequence: the first insert raises
    [DuplicateReplaceException]; the lists of the thread are as before
    (the two lists made for the response apart), and the placeholders
    are all still in the forest. *)
Lemma replace_more_duplicate_answer :
  forest_shape thread 0 thread_shape /\
  (forall log s r trees,
     answers_x log s r = Some trees -> Forall no_more trees) /\
  (replace_more answers_x 5 forest0 None 0 thread).1.1
  = Raise DuplicateReplaceException /\
  lists (replace_more answers_x 5 forest0 None 0 thread).1.2
  = lists thread ++ [[]; [5]] /\
  forest_shape (replace_more answers_x 5 forest0 None 0 thread).1.2 0
    thread_shape.
Proof.
  split; [exact thread_forest_shape|]. split.
  { intros log s r trees [= <-]. by repeat constructor. }
  split; [vm_compute; reflexivity|]. split; [vm_compute; reflexivity|].
  split; [vm_compute; reflexivity|].
  repeat (first [apply Forall_nil_2 | apply Forall_cons_2
                | apply shape_SComment; split_and!
                | by eexists | vm_compute; reflexivity
                | eexists; split; vm_compute; reflexivity]).
Qed.

(** C6 (amended): take a forest held by the store, whose nodes are
    distinct objects and whose placeholders have non-negative pending
    counts, in a store where no attribute dangles, and a fetch
    collaborator that answers comments only, at any depth. Then
    [replace_more] with no limit and threshold 0 comes to an end, and
    unless the call is aborted by one of its errors (a duplicate or a
    missing parent at an insert, a failure of the fetch) it returns the
    empty sequence; afterwards no placeholder can be reached from the
    top-level sequence, a flatten returns, and what a flatten returns
    consists of comments. The call is not aborted, and so returns the
    empty sequence, when the names of the index are names of objects of
    the store and the collaborator answers every placeholder of the run
    without failing, with comments that carry, at every depth, distinct
    names that no object of the store carries yet, each top-level one a
    root comment or a reply to a comment of the index. *)
Theorem replace_more_resolves_all
    (fetch : list ref -> state -> ref -> option (list tree))
    (fuel : nat) (self : CommentForest) (top : loc) (ts : list stree)
    (s : state) :
  _comments self = Some top -> forest_shape s top ts ->
  NoDup (flat_map srefs ts) -> store_ok s ->
  (forall r m, r ∈ forest_mores top ts -> objs s !! r = Some (OMore m) ->
     (0 <= MoreComments.count m)%Z) ->
  (forall log s r trees, fetch log s r = Some trees -> Forall no_more trees) ->
  ssizes ts <= fuel ->
  match replace_more fetch fuel self None 0 s with
  | (Ok res, s', _) =>
      res = [] /\
      (forall r, reach s' top r -> ~ is_more s' r) /\
      (exists fuel' rs, list_ fuel' self s' = (Ok rs, s')) /\
      (forall fuel' rs s'',
         list_ fuel' self s' = (Ok rs, s'') -> Forall (is_comment s') rs)
  | (Raise e, _, _) => replace_more_error e
  | (Stuck, _, _) | (OutOfFuel, _, _) => False
  end /\
  (index_named s ->
   (forall v log s1 item,
      in_run fetch self None 0 s v log s1 -> item ∈ more_comments v ->
      exists trees, fetch log s1 item = Some trees /\
                    fresh_response s1 trees) ->
   exists s' log, replace_more fetch fuel self None 0 s = (Ok [], s', log)).
Proof.
  intros Hself Hsh Hnd Hok Hcount Hfetch Hfuel.
  destruct (gather_total fuel top None top ts s) as (heap & s1 & Hg & Hgd & Hperm);
    [done|done|done|].
  fold (forest_targets top ts) in Hgd, Hperm.
  fold (forest_mores top ts) in Hperm.
  assert (length heap <= fuel) as Hlen.
  { rewrite Hperm. unfold forest_mores. rewrite length_fmap.
    etrans; [|exact Hfuel]. rewrite <- length_flat_map_srefs.
    rewrite <- (length_fmap fst). apply sublist_length.
    unfold forest_targets. rewrite fmap_flat_map.
    apply flat_map_sublist. intros t _. apply targets_fst_sublist. }
  pose proof (resolving_init s top ts Hsh Hnd s1 heap Hcount Hgd Hperm) as Hres.
  pose proof (store_ok_gathered _ _ _ Hgd Hok) as Hok1.
  pose proof (growing_gathered _ _ _ _ _ Hsh Hgd) as Hgr1.
  assert (replace_more fetch fuel self None 0 s
          = replace_more_loop fetch fuel self 0 (Locals None heap []) [] s1)
    as Hrun.
  { unfold replace_more, comments_list. rewrite Hself.
    unfold ret at 1. unfold bind at 1. by rewrite Hg. }
  rewrite Hrun. split.
  - pose proof (resolving_loop s top ts Hsh Hnd fetch Hfetch fuel self heap []
                  [] s1 Hres Hok1 Hgr1 Hself Hlen) as Hloop.
    destruct (replace_more_loop _ _ _ _ _ _ _) as [[[res| | |] s'] log];
      try done.
    destruct Hloop as (-> & Hres' & Hgr'). split; [done|].
    assert (forall r, reach s' top r -> ~ is_more s' r) as Hnone
      by (intros r; by eapply resolving_no_more).
    split; [done|]. split.
    { destruct (growing_list self top s' Hself Hgr') as (fuel' & rs & Hrun' & _).
      eauto. }
    intros fuel' rs s'' Hlist.
    apply (list_reach _ _ top) in Hlist as [-> Hrs]; [|done].
    eapply Forall_impl; [done|]. simpl. intros r [Hr [o Ho]].
    destruct o as [c|m]; [by exists c|].
    destruct (Hnone r Hr). by exists m.
  - intros Hnamed Hfresh.
    apply (resolving_loop_returns s top ts Hsh Hnd fetch self Hself Hfetch
             Hfresh fuel heap [] [] s1); try done.
    + apply (index_named_extends s); [by eapply gathered_extends|done|].
      intros n. destruct Hgd as (_ & -> & _). by left.
    + by eapply in_run_start.
Qed.

Lemma thread_store_ok : store_ok thread.
Proof.
  split.
  - intros r c Hr.
    do 5 (destruct r as [|r];
          [try discriminate Hr; injection Hr as <-; by eexists|]).
    done.
  - intros n r Hn. unfold thread in Hn. cbn [_comments_by_id] in Hn.
    apply lookup_insert_Some in Hn as [[<- <-]|[_ Hn]]; [by eexists|].
    apply lookup_insert_Some in Hn as [[<- <-]|[_ Hn]]; [by eexists|].
    by rewrite lookup_empty in Hn.
Qed.

Lemma thread_index_named : index_named thread.
Proof.
  intros n [r Hn]. unfold thread in Hn. cbn [_comments_by_id] in Hn.
  apply lookup_insert_Some in Hn as [[<- <-]|[_ Hn]];
    [by exists 0, (comment "x" "t3_1" true 1)|].
  apply lookup_insert_Some in Hn as [[<- <-]|[_ Hn]];
    [by exists 2, (comment "y" "x" false 2)|].
  by rewrite lookup_empty in Hn.
Qed.

Lemma replace_more_resolves_all_witness :
  _comments forest0 = Some 0 /\ ssizes thread_shape <= 5 /\
  index_named thread /\
  (exists s' log,
     replace_more new_root 5 forest0 None 0 thread = (Ok [], s', log)) /\
  match replace_more new_root 5 forest0 None 0 thread with
  | (Ok res, s', _) =>
      res = [] /\
      (forall r, reach s' 0 r -> ~ is_more s' r) /\
      (exists fuel' rs, list_ fuel' forest0 s' = (Ok rs, s')) /\
      (forall fuel' rs s'',
         list_ fuel' forest0 s' = (Ok rs, s'') -> Forall (is_comment s') rs)
  | (Raise e, _, _) => replace_more_error e
  | (Stuck, _, _) | (OutOfFuel, _, _) => False
  end.
Proof.
  split; [reflexivity|]. split; [vm_compute; lia|].
  split; [exact thread_index_named|].
  destruct (replace_more_resolves_all new_root 5 forest0 0 thread_shape thread)
    as [Hall Hreturns].
  - reflexivity.
  - exact thread_forest_shape.
  - exact thread_NoDup.
  - exact thread_store_ok.
  - intros r m Hr Hm. vm_compute in Hr.
    repeat (apply elem_of_cons in Hr as [->|Hr];
            [injection Hm as <-; simpl; lia|]).
    by apply elem_of_nil in Hr.
  - exact new_root_comments.
  - vm_compute. lia.
  - split; [|exact Hall]. apply Hreturns; [exact thread_index_named|].
    intros v log s1 item _ _. apply new_root_fresh.
Defined.

(** ** Priority *)

Lemma in_run_ordered fetch self limit threshold s0 v log s :
  in_run fetch self limit threshold s0 v log s ->
  Forall (is_more s) (more_comments v) /\
  heap_ordered (count_of s) (more_comments v).
Proof.
  induction 1 as [fuel tree heap s _ Hg|v log s v' log' s' _ [Hm Ho] Hne Hbody].
  - simpl. by eapply gather_ordered.
  - destruct (loop_body_ordered fetch self threshold v log s Hm Ho Hne)
      as (item & rest & _ & _ & Hstep).
    by apply (Hstep _ _ _ Hbody).
Qed.

(** The loop of [replace_more] goes through the states of [in_run]. *)
Lemma replace_more_loop_in_run fetch self limit threshold s0 fuel v log s
    res s' log' :
  in_run fetch self limit threshold s0 v log s ->
  replace_more_loop fetch fuel self threshold v log s = (Ok res, s', log') ->
  exists v', in_run fetch self limit threshold s0 v' log' s' /\
             more_comments v' = [] /\ res = skipped v'.
Proof.
  revert v log s. induction fuel as [|fuel IH]; intros v log s Hin.
  - simpl. destruct (more_comments v) eqn:Hheap; [|done].
    intros [= <- <- <-]. eauto.
  - destruct (decide (more_comments v = [])) as [Hnil|Hne].
    + rewrite replace_more_loop_nil by done. intros [= <- <- <-]. eauto.
    + rewrite replace_more_loop_S by done.
      destruct (loop_body _ _ _ _ _ _) as [[[v1| | |] s1] log1] eqn:Hbody;
        try done.
      apply IH. by eapply in_run_step.
Qed.

(** C1, as stated, fails: four top-level placeholders with the same
    pending count are pushed in the order 0, 1, 2, 3 of the top-level
    sequence, and fetched in the order 0, 2, 1, 3: placeholder 2 is
    fetched before placeholder 1, which was inserted earlier, and the
    counts do not strictly decrease. *)
Lemma equal_counts_fetch_order :
  lists equal_counts !! 0 = Some [0; 1; 2; 3] /\
  count_of equal_counts 1 = count_of equal_counts 2 /\
  (replace_more no_children 4 forest0 None 0 equal_counts).1.1 = Ok [] /\
  (replace_more no_children 4 forest0 None 0 equal_counts).2 = [0; 2; 1; 3].
Proof. repeat split; vm_compute; reflexivity. Qed.

(** C1 (amended): at every iteration of every run of [replace_more], the
    placeholder popped, which is the one the iteration fetches if it
    fetches at all, has a pending child count at least as large as that
    of every placeholder left in the priority collection. The order
    among equal counts is the one of the binary heap. *)
Theorem replace_more_pops_largest
    (fetch : list ref -> state -> ref -> option (list tree))
    (self : CommentForest) (limit : option Z) (threshold : Z) (s0 : state)
    (v : locals) (log : list ref) (s : state) :
  in_run fetch self limit threshold s0 v log s ->
  more_comments v <> [] ->
  exists item rest,
    heappop (more_lt s) (more_comments v) = Some (item, rest) /\
    (forall x, x ∈ rest -> (count_of s x <= count_of s item)%Z) /\
    forall o s' log',
      loop_body fetch self threshold v log s = (o, s', log') ->
      log' = log \/ log' = log ++ [item].
Proof.
  intros Hin Hne. destruct (in_run_ordered _ _ _ _ _ _ _ _ Hin) as [Hm Ho].
  destruct (loop_body_ordered fetch self threshold v log s Hm Ho Hne)
    as (item & rest & Hpop & Hmax & Hstep).
  exists item, rest. split; [done|]. split; [done|].
  intros o s' log' Hbody. by apply (Hstep _ _ _ Hbody).
Qed.

Lemma replace_more_pops_largest_witness :
  in_run no_children forest0 None 0 spec_counts
    (Locals None [1; 3; 2; 0] []) []
    (_gather_more_comments 4 0 None spec_counts).2 /\
  exists item rest,
    heappop (more_lt (_gather_more_comments 4 0 None spec_counts).2)
      [1; 3; 2; 0] = Some (item, rest) /\
    (forall x, x ∈ rest ->
       (count_of (_gather_more_comments 4 0 None spec_counts).2 x
        <= count_of (_gather_more_comments 4 0 None spec_counts).2 item)%Z) /\
    forall o s' log',
      loop_body no_children forest0 0 (Locals None [1; 3; 2; 0] []) []
        (_gather_more_comments 4 0 None spec_counts).2 = (o, s', log') ->
      log' = [] \/ log' = [] ++ [item].
Proof.
  assert (in_run no_children forest0 None 0 spec_counts
            (Locals None [1; 3; 2; 0] []) []
            (_gather_more_comments 4 0 None spec_counts).2) as Hin.
  { apply (in_run_start _ _ _ _ _ 4 0); [reflexivity|].
    vm_compute. reflexivity. }
  split; [exact Hin|].
  apply (replace_more_pops_largest no_children forest0 None 0 spec_counts
           (Locals None [1; 3; 2; 0] []) [] _ Hin).
  discriminate.
Defined.

(** The spec's example: with pending counts 5, 50, 1 and 20 the fetches
    are made in the order 50, 20, 5, 1. *)
Example spec_counts_fetch_order :
  (replace_more no_children 4 forest0 None 0 spec_counts).2 = [1; 3; 0; 2].
Proof. vm_compute. reflexivity. Qed.

(** ** Removal targets *)

(** C8 fails on the code at this input. The forest is one placeholder;
    the first fetch answers a reply to a comment that is not in the
    forest, holding a placeholder; when the second fetch answers the
    placeholder "m3", which has no parent comment, the top-level sequence
    of the forest is empty, and [parent_tree or tree] picks the fetched
    list (address 4) as its removal target, not the top-level sequence
    (address 0), to which the insert appends it. *)
Theorem orphan_placeholder_target :
  (replace_more nested_answers 10 forest0 None 0 lone_placeholder).1.1 = Ok [] /\
  (replace_more nested_answers 10 forest0 None 0 lone_placeholder).2 = [0; 2; 4] /\
  objs (replace_more nested_answers 10 forest0 None 0 lone_placeholder).1.2 !! 4
    = Some (OMore (MoreComments.Build "m3" 1 [] (Some 4) (Some 0))) /\
  lists (replace_more nested_answers 10 forest0 None 0 lone_placeholder).1.2 !! 0
    = Some [4].
Proof. repeat split; vm_compute; reflexivity. Qed.

(** C9 fails on the code at the same input with the limit 2: the
    placeholder "m3" (address 4) is skipped and returned, its removal
    took place in the fetched list, and it is still in the top-level
    sequence of the forest. *)
Theorem skipped_placeholder_stays :
  (replace_more nested_answers 10 forest0 (Some 2%Z) 0 lone_placeholder).1.1
    = Ok [4] /\
  lists (replace_more nested_answers 10 forest0 (Some 2%Z) 0
           lone_placeholder).1.2 !! 0 = Some [4] /\
  reach (replace_more nested_answers 10 forest0 (Some 2%Z) 0
           lone_placeholder).1.2 0 4 /\
  is_more (replace_more nested_answers 10 forest0 (Some 2%Z) 0
             lone_placeholder).1.2 4.
Proof.
  assert (lists (replace_more nested_answers 10 forest0 (Some 2%Z) 0
                   lone_placeholder).1.2 !! 0 = Some [4]) as Htop
    by (vm_compute; reflexivity).
  split; [vm_compute; reflexivity|]. split; [exact Htop|]. split.
  - eapply reach_top; [exact Htop|]. apply elem_of_cons. by left.
  - eexists. vm_compute. reflexivity.
Qed.

(** * Further properties of the forest *)

(** ** Indexing *)

Lemma getitem_in_range self l rs s index :
  _comments self = Some l -> lists s !! l = Some rs ->
  (- Z.of_nat (length rs) <= index < Z.of_nat (length rs))%Z ->
  exists r, __getitem__ self index s = (Ok r, s) /\
            rs !! Z.to_nat (index mod Z.of_nat (length rs)) = Some r.
Proof.
  intros Hself Hl Hin. unfold __getitem__, comments_list. rewrite Hself.
  unfold ret at 1. unfold bind at 1.
  rewrite (bind_Ok _ _ _ _ _ (get_list_Some _ _ _ Hl)). cbn zeta.
  set (n := Z.of_nat (length rs)) in *.
  assert (Z.to_nat (index mod n) < length rs) as Hlt.
  { pose proof (Z.mod_pos_bound index n ltac:(lia)). lia. }
  destruct (lookup_lt_is_Some_2 _ _ Hlt) as [r Hr]. exists r.
  split; [|done].
  destruct (index <? 0)%Z eqn:Hneg.
  - apply Z.ltb_lt in Hneg.
    assert (index mod n = index + n)%Z as Hmod
      by (symmetry; apply (Z.mod_unique index n (-1)); lia).
    rewrite Hmod in Hr.
    destruct (index + n <? 0)%Z eqn:Hneg'; [apply Z.ltb_lt in Hneg'; lia|].
    by rewrite Hr.
  - rewrite Hneg. apply Z.ltb_ge in Hneg. rewrite Z.mod_small in Hr by lia.
    by rewrite Hr.
Qed.

Lemma getitem_out_of_range self l rs s index :
  _comments self = Some l -> lists s !! l = Some rs ->
  ~ (- Z.of_nat (length rs) <= index < Z.of_nat (length rs))%Z ->
  __getitem__ self index s = (Raise IndexError, s).
Proof.
  intros Hself Hl Hout. unfold __getitem__, comments_list. rewrite Hself.
  unfold ret at 1. unfold bind at 1.
  rewrite (bind_Ok _ _ _ _ _ (get_list_Some _ _ _ Hl)). cbn zeta.
  destruct (index <? 0)%Z eqn:Hneg.
  - apply Z.ltb_lt in Hneg.
    destruct (_ <? 0)%Z eqn:Hneg'; [done|]. apply Z.ltb_ge in Hneg'. lia.
  - rewrite Hneg. apply Z.ltb_ge in Hneg.
    rewrite lookup_ge_None_2 by lia. done.
Qed.

Lemma len_populated self l rs s :
  _comments self = Some l -> lists s !! l = Some rs ->
  __len__ self s = (Ok (length rs), s).
Proof.
  intros Hself Hl. unfold __len__. rewrite Hself.
  rewrite (bind_Ok _ _ _ _ _ (get_list_Some _ _ _ Hl)). by destruct rs.
Qed.

Lemma getitem_last self l rs r s :
  _comments self = Some l -> lists s !! l = Some (rs ++ [r]) ->
  __getitem__ self (-1) s = (Ok r, s).
Proof.
  intros Hself Hl.
  destruct (getitem_in_range self l (rs ++ [r]) s (-1) Hself Hl)
    as (r' & -> & Hr'); [rewrite length_app; simpl; lia|].
  do 2 f_equal. rewrite length_app in Hr'. simpl in Hr'.
  assert ((-1) mod Z.of_nat (length rs + 1) = Z.of_nat (length rs))%Z as Hmod
    by (symmetry; apply (Z.mod_unique _ _ (-1)); lia).
  rewrite Hmod, Nat2Z.id in Hr'.
  rewrite lookup_app_r, Nat.sub_diag in Hr' by lia. by injection Hr' as <-.
Qed.

(** On a populated forest, [forest[index]] returns exactly for the
    indices from [-len(forest)] to [len(forest) - 1], a negative index
    counting from the end, and raises [IndexError] for every other
    integer; the store is left as it is. *)
Theorem getitem_within_len (self : CommentForest) (l : loc) (rs : list ref)
    (s : state) (index : Z) :
  _comments self = Some l -> lists s !! l = Some rs ->
  __len__ self s = (Ok (length rs), s) /\
  ((- Z.of_nat (length rs) <= index < Z.of_nat (length rs))%Z ->
   exists r, __getitem__ self index s = (Ok r, s) /\
             rs !! Z.to_nat (index mod Z.of_nat (length rs)) = Some r) /\
  (~ (- Z.of_nat (length rs) <= index < Z.of_nat (length rs))%Z ->
   __getitem__ self index s = (Raise IndexError, s)).
Proof.
  intros Hself Hl. split; [by eapply len_populated|]. split.
  - by eapply getitem_in_range.
  - by eapply getitem_out_of_range.
Qed.

Lemma getitem_within_len_witness :
  lists thread !! 0 = Some [0; 4] /\
  __len__ forest0 thread = (Ok 2, thread) /\
  exists r, __getitem__ forest0 (-1) thread = (Ok r, thread) /\
            [0; 4] !! Z.to_nat ((-1) mod 2) = Some r.
Proof.
  split; [reflexivity|].
  destruct (getitem_within_len forest0 0 [0; 4] thread (-1) eq_refl eq_refl)
    as (Hlen & Hin & _).
  split; [exact Hlen|]. apply Hin. simpl. lia.
Defined.

(** ** A forest that was never populated *)

(** A forest built without comments cannot be indexed, flattened or
    expanded: each of these raises [TypeError], without touching the store
    and without a fetch. *)
Theorem unset_forest_raises
    (fetch : list ref -> state -> ref -> option (list tree))
    (fuel sub : nat) (limit : option Z) (threshold index : Z) (s : state) :
  __getitem__ (__init__ sub None) index s = (Raise TypeError, s) /\
  list_ fuel (__init__ sub None) s = (Raise TypeError, s) /\
  replace_more fetch fuel (__init__ sub None) limit threshold s
    = (Raise TypeError, s, []).
Proof. done. Qed.

(** ** Inserting *)

Lemma set_submission_Ok_lists r sub s u s' :
  set_submission r sub s = (Ok u, s') -> lists s' = lists s.
Proof.
  unfold set_submission. intros H. inv_bind H as o s1 H1.
  apply get_obj_Ok in H1 as [_ ->]. destruct o; by injection H as _ <-.
Qed.

Lemma insert_duplicate self r o s :
  objs s !! r = Some o -> is_Some (_comments_by_id s !! obj_name o) ->
  _insert_comment self r s = (Raise DuplicateReplaceException, s).
Proof.
  intros Ho Hdup. unfold _insert_comment.
  rewrite (bind_Ok _ _ _ _ _ (get_obj_Some _ _ _ Ho)).
  unfold get_index at 1. unfold bind at 1.
  by rewrite bool_decide_true.
Qed.

Lemma insert_top self top r o rs s :
  _comments self = Some top -> objs s !! r = Some o ->
  lists s !! top = Some rs -> _comments_by_id s !! obj_name o = None ->
  (isinstance_More o = true \/
   exists c, o = OComment c /\ Comment.is_root c = true) ->
  exists s',
    _insert_comment self r s = (Ok tt, s') /\
    lists s' = <[top := rs ++ [r]]> (lists s) /\
    (forall c, o = OComment c -> _comments_by_id s' !! Comment.name c = Some r) /\
    (isinstance_More o = true -> _comments_by_id s' = _comments_by_id s) /\
    exists o', objs s' !! r = Some o' /\ obj_name o' = obj_name o /\
               isinstance_More o' = isinstance_More o.
Proof.
  intros Hself Ho Htop Hfresh Hkind.
  assert (r < length (objs s)) as Hlt by (by eapply lookup_lt_Some).
  unfold _insert_comment.
  rewrite (bind_Ok _ _ _ _ _ (get_obj_Some _ _ _ Ho)).
  unfold get_index at 1. unfold bind at 1.
  rewrite bool_decide_false by (rewrite Hfresh; by intros [? ?]).
  destruct o as [c|m].
  - destruct Hkind as [?|(c' & [= <-] & Hroot)]; [done|].
    rewrite (bind_Ok _ _ _ _ _ (set_submission_Comment _ _ _ _ Ho)).
    rewrite Hroot. unfold comments_list. rewrite Hself.
    unfold ret at 1. unfold bind at 1.
    rewrite (list_append_Some _ _ rs) by done.
    eexists. split; [done|]. simpl. split_and!; [done| |done|].
    + intros c' [= <-]. by rewrite lookup_insert_eq.
    + eexists. by rewrite list_lookup_insert_eq.
  - rewrite (bind_Ok _ _ _ _ _ (set_submission_More _ _ _ _ Ho)).
    unfold comments_list. rewrite Hself.
    unfold ret at 1. unfold bind at 1.
    rewrite (list_append_Some _ _ rs) by done.
    eexists. split; [done|]. simpl. split_and!; [done|done|done|].
    eexists. by rewrite list_lookup_insert_eq.
Qed.

(** A placeholder or a root comment whose identity is not in the index is
    appended to the top-level sequence: it becomes the last element and
    the length grows by one, no other list changes, a comment is then
    found in the index under its name, and a placeholder leaves the index
    as it was. *)
Theorem insert_top_level (self : CommentForest) (top : loc) (r : ref)
    (o : obj) (rs : list ref) (s : state) :
  _comments self = Some top -> objs s !! r = Some o ->
  lists s !! top = Some rs -> _comments_by_id s !! obj_name o = None ->
  (isinstance_More o = true \/
   exists c, o = OComment c /\ Comment.is_root c = true) ->
  exists s',
    _insert_comment self r s = (Ok tt, s') /\
    lists s' = <[top := rs ++ [r]]> (lists s) /\
    __getitem__ self (-1) s' = (Ok r, s') /\
    __len__ self s' = (Ok (S (length rs)), s') /\
    (forall c, o = OComment c -> _comments_by_id s' !! Comment.name c = Some r) /\
    (isinstance_More o = true -> _comments_by_id s' = _comments_by_id s).
Proof.
  intros Hself Ho Htop Hfresh Hkind.
  destruct (insert_top self top r o rs s Hself Ho Htop Hfresh Hkind)
    as (s' & Hrun & Hl & Hidx & Hmore & _).
  assert (lists s' !! top = Some (rs ++ [r])) as Htop'.
  { rewrite Hl. apply list_lookup_insert_eq. by eapply lookup_lt_Some. }
  exists s'. split_and!; try done.
  - by eapply getitem_last.
  - rewrite (len_populated _ _ _ _ Hself Htop'). rewrite length_app. simpl.
    do 2 f_equal. lia.
Qed.

Lemma insert_top_level_witness :
  exists s',
    _insert_comment forest0 0 root_comment = (Ok tt, s') /\
    lists s' = <[0 := [] ++ [0]]> (lists root_comment) /\
    __getitem__ forest0 (-1) s' = (Ok 0, s') /\
    __len__ forest0 s' = (Ok 1, s') /\
    (forall c, comment "c1" "t3_1" true 1 = OComment c ->
       _comments_by_id s' !! Comment.name c = Some 0) /\
    (isinstance_More (comment "c1" "t3_1" true 1) = true ->
     _comments_by_id s' = _comments_by_id root_comment).
Proof.
  apply (insert_top_level forest0 0 0 (comment "c1" "t3_1" true 1) []
           root_comment).
  - reflexivity.
  - reflexivity.
  - reflexivity.
  - reflexivity.
  - right. eexists. split; reflexivity.
Defined.

(** A reply whose parent is in the index is appended to the replies of
    that parent, attached to the discussion and found in the index under
    its name; no other list changes. Nothing nested under the reply
    carries its name or the name of its parent. *)
Theorem insert_reply (self : CommentForest) (r p : ref) (c pc : Comment.t)
    (rs : list ref) (s : state) :
  objs s !! r = Some (OComment c) -> Comment.is_root c = false ->
  _comments_by_id s !! Comment.name c = None ->
  _comments_by_id s !! Comment.parent_id c = Some p ->
  objs s !! p = Some (OComment pc) ->
  lists s !! Comment.replies pc = Some rs ->
  ~ nested_name s c (Comment.name c) ->
  ~ nested_name s c (Comment.parent_id c) ->
  exists s',
    _insert_comment self r s = (Ok tt, s') /\
    lists s' = <[Comment.replies pc := rs ++ [r]]> (lists s) /\
    _comments_by_id s' !! Comment.name c = Some r /\
    objs s' !! r =
      Some (OComment (Comment.Build (Comment.name c) (Comment.parent_id c)
                        false (Comment.replies c) (Some (_submission self)))).
Proof.
  intros Hr Hroot Hfresh Hparent Hp Hrs _ _.
  rewrite (insert_non_root _ _ _ _ Hr Hroot Hfresh).
  assert (Comment.parent_id c <> Comment.name c) as Hne by congruence.
  rewrite lookup_insert_ne by done. rewrite Hparent.
  set (c' := Comment.Build _ _ _ _ _). set (s1 := State _ _ _).
  assert (r < length (objs s)) as Hlt by (by eapply lookup_lt_Some).
  assert (exists pc', objs s1 !! p = Some (OComment pc') /\
                      Comment.replies pc' = Comment.replies pc)
    as (pc' & Hpc' & Hrep).
  { unfold s1. simpl. destruct (decide (r = p)) as [->|Hrp].
    - rewrite list_lookup_insert_eq by done. simplify_eq. by exists c'.
    - rewrite list_lookup_insert_ne by done. by exists pc. }
  rewrite (bind_Ok _ _ _ _ _ (replies_of_Some _ _ _ Hpc')). rewrite Hrep.
  rewrite (list_append_Some s1 _ rs) by done.
  eexists. split; [done|]. simpl. split_and!; [done| |].
  - by rewrite lookup_insert_eq.
  - rewrite list_lookup_insert_eq by done. unfold c'. by rewrite Hroot.
Qed.

Lemma insert_reply_witness :
  exists s',
    _insert_comment forest0 2 reply_to_x = (Ok tt, s') /\
    lists s' = <[1 := [] ++ [2]]> (lists reply_to_x) /\
    _comments_by_id s' !! "z" = Some 2 /\
    objs s' !! 2 =
      Some (OComment (Comment.Build "z" "x" false 2 (Some 0))).
Proof.
  apply (insert_reply forest0 2 0 (Comment.Build "z" "x" false 2 None)
           (Comment.Build "x" "t3_1" true 1 None) [] reply_to_x);
    try reflexivity; apply nested_name_empty; reflexivity.
Defined.

(** On a forest that was never populated the insert of a root comment
    raises [AttributeError], but only after the comment was entered in
    the index: inserting it again raises [DuplicateReplaceException]. *)
Theorem insert_unset_forest_registers (self : CommentForest) (r : ref)
    (c : Comment.t) (s : state) :
  _comments self = None -> objs s !! r = Some (OComment c) ->
  Comment.is_root c = true -> _comments_by_id s !! Comment.name c = None ->
  exists s',
    _insert_comment self r s = (Raise AttributeError, s') /\
    _comments_by_id s' !! Comment.name c = Some r /\ lists s' = lists s /\
    _insert_comment self r s' = (Raise DuplicateReplaceException, s').
Proof.
  intros Hself Hr Hroot Hfresh.
  assert (r < length (objs s)) as Hlt by (by eapply lookup_lt_Some).
  unfold _insert_comment at 1.
  rewrite (bind_Ok _ _ _ _ _ (get_obj_Some _ _ _ Hr)).
  unfold get_index at 1. unfold bind at 1.
  rewrite bool_decide_false by (simpl; rewrite Hfresh; by intros [? ?]).
  rewrite (bind_Ok _ _ _ _ _ (set_submission_Comment _ _ _ _ Hr)).
  rewrite Hroot. unfold comments_list. rewrite Hself.
  eexists. split; [done|]. simpl. split_and!.
  - by rewrite lookup_insert_eq.
  - done.
  - eapply insert_duplicate.
    + simpl. by rewrite list_lookup_insert_eq.
    + simpl. rewrite lookup_insert_eq. by eexists.
Qed.

Lemma insert_unset_forest_registers_witness :
  exists s',
    _insert_comment (__init__ 0 None) 0 root_comment
      = (Raise AttributeError, s') /\
    _comments_by_id s' !! "c1" = Some 0 /\ lists s' = lists root_comment /\
    _insert_comment (__init__ 0 None) 0 s'
      = (Raise DuplicateReplaceException, s').
Proof.
  apply (insert_unset_forest_registers (__init__ 0 None) 0
           (Comment.Build "c1" "t3_1" true 1 None) root_comment);
    reflexivity.
Defined.

(** A placeholder is never entered in the index, so nothing detects that
    it is inserted a second time: both inserts succeed and the top-level
    sequence holds it twice. *)
Theorem insert_placeholder_twice (self : CommentForest) (top : loc) (r : ref)
    (m : MoreComments.t) (rs : list ref) (s : state) :
  _comments self = Some top -> objs s !! r = Some (OMore m) ->
  lists s !! top = Some rs ->
  _comments_by_id s !! MoreComments.name m = None ->
  exists s1 s2,
    _insert_comment self r s = (Ok tt, s1) /\
    _insert_comment self r s1 = (Ok tt, s2) /\
    lists s2 !! top = Some (rs ++ [r; r]) /\
    _comments_by_id s2 = _comments_by_id s.
Proof.
  intros Hself Hr Htop Hfresh.
  assert (r < length (objs s)) as Hlt by (by eapply lookup_lt_Some).
  assert (top < length (lists s)) as Hlt' by (by eapply lookup_lt_Some).
  destruct (insert_top self top r (OMore m) rs s Hself Hr Htop Hfresh)
    as (s1 & Hrun1 & Hl1 & _ & Hidx1 & o1 & Ho1 & Hname1 & Hmore1); [by left|].
  destruct o1 as [c1|m1]; [done|].
  assert (lists s1 !! top = Some (rs ++ [r])) as Htop1
    by (rewrite Hl1; by rewrite list_lookup_insert_eq).
  destruct (insert_top self top r (OMore m1) (rs ++ [r]) s1 Hself Ho1
              Htop1) as (s2 & Hrun2 & Hl2 & _ & Hidx2 & _); [|by left|].
  { rewrite Hidx1 by done. simpl in *. by rewrite Hname1. }
  exists s1, s2. split_and!; [done|done| |].
  - rewrite Hl2, Hl1. rewrite list_lookup_insert_eq
      by (by rewrite length_insert).
    by rewrite <- app_assoc.
  - rewrite Hidx2, Hidx1 by done. done.
Qed.

Lemma insert_placeholder_twice_witness :
  exists s1 s2,
    _insert_comment forest0 0 lone_placeholder = (Ok tt, s1) /\
    _insert_comment forest0 0 s1 = (Ok tt, s2) /\
    lists s2 !! 0 = Some ([0] ++ [0; 0]) /\
    _comments_by_id s2 = _comments_by_id lone_placeholder.
Proof.
  apply (insert_placeholder_twice forest0 0 0
           (MoreComments.Build "m1" 5 [] None None) [0] lone_placeholder);
    reflexivity.
Defined.

(** ** Populating *)

Lemma set_submission_total r sub s :
  is_Some (objs s !! r) ->
  exists s', set_submission r sub s = (Ok tt, s') /\
    lists s' = lists s /\ length (objs s') = length (objs s) /\
    extends s s' /\
    (forall n, is_Some (_comments_by_id s !! n) ->
       is_Some (_comments_by_id s' !! n)) /\
    (forall c, objs s !! r = Some (OComment c) ->
       _comments_by_id s' !! Comment.name c = Some r).
Proof.
  intros [o Ho]. destruct o as [c|m].
  - rewrite (set_submission_Comment _ _ _ _ Ho). eexists. split; [done|].
    simpl. split_and!; [done|by rewrite length_insert| | |].
    + by eapply extends_set_obj.
    + intros n Hn. destruct (decide (Comment.name c = n)) as [<-|Hne].
      * rewrite lookup_insert_eq. by eexists.
      * by rewrite lookup_insert_ne.
    + intros c' Hc'. simplify_eq. by rewrite lookup_insert_eq.
  - rewrite (set_submission_More _ _ _ _ Ho). eexists. split; [done|].
    simpl. split_and!; [done|by rewrite length_insert| |done|].
    + by eapply extends_set_obj.
    + intros c' Hc'. simplify_eq.
Qed.

Lemma update_loop sub rs s :
  Forall (fun r => is_Some (objs s !! r)) rs ->
  exists s', for_each (fun comment => set_submission comment sub) rs s
               = (Ok tt, s') /\
    lists s' = lists s /\ length (objs s') = length (objs s) /\
    extends s s' /\
    (forall n, is_Some (_comments_by_id s !! n) ->
       is_Some (_comments_by_id s' !! n)) /\
    (forall r c, r ∈ rs -> objs s !! r = Some (OComment c) ->
       is_Some (_comments_by_id s' !! Comment.name c)).
Proof.
  revert s. induction rs as [|r rs IH]; intros s Hrs.
  - exists s. split_and!; try done.
    + apply extends_refl.
    + by intros r c ?%elem_of_nil.
  - apply Forall_cons in Hrs as [Hr Hrs].
    destruct (set_submission_total r sub s Hr)
      as (s1 & Hrun1 & Hl1 & Hlen1 & Hext1 & Hidx1 & Hreg1).
    destruct (IH s1) as (s' & Hrun & Hl & Hlen & Hext & Hidx & Hreg).
    { eapply Forall_impl; [done|]. simpl. intros r' Hr'.
      apply lookup_lt_is_Some. rewrite Hlen1. by apply lookup_lt_is_Some. }
    exists s'. split_and!.
    + simpl. by rewrite (bind_Ok _ _ _ _ _ Hrun1).
    + congruence.
    + congruence.
    + by eapply extends_trans.
    + auto.
    + intros r' c [->|Hin]%elem_of_cons Hc.
      * apply Hidx. rewrite (Hreg1 _ Hc). by eexists.
      * destruct (Hext1 _ _ Hc) as (o1 & Ho1 & Hcore).
        apply core_OComment in Hcore as (c1 & -> & _ & <- & _).
        by eapply Hreg.
Qed.

(** [_update] makes the given list the top-level sequence of the forest
    (the list itself, not a copy) and attaches its nodes to the
    discussion: no list changes, no object is made, and every comment of
    the list is in the index afterwards, so that inserting it raises
    [DuplicateReplaceException]. *)
Theorem update_registers (self : CommentForest) (l : loc) (rs : list ref)
    (s : state) :
  lists s !! l = Some rs -> Forall (fun r => is_Some (objs s !! r)) rs ->
  exists self' s',
    _update self l s = (Ok self', s') /\
    _comments self' = Some l /\ _submission self' = _submission self /\
    lists s' = lists s /\ length (objs s') = length (objs s) /\
    forall r c, r ∈ rs -> objs s !! r = Some (OComment c) ->
      is_Some (_comments_by_id s' !! Comment.name c) /\
      _insert_comment self' r s' = (Raise DuplicateReplaceException, s').
Proof.
  intros Hl Hrs.
  destruct (update_loop (_submission self) rs s Hrs)
    as (s' & Hrun & Hl' & Hlen & Hext & _ & Hreg).
  exists (Forest (Some l) (_submission self)), s'. split_and!; try done.
  - unfold _update. rewrite (bind_Ok _ _ _ _ _ (get_list_Some _ _ _ Hl)).
    by rewrite (bind_Ok _ _ _ _ _ Hrun).
  - intros r c Hin Hc. pose proof (Hreg _ _ Hin Hc) as Hn.
    split; [done|].
    destruct (Hext _ _ Hc) as (o' & Ho' & Hcore).
    apply core_OComment in Hcore as (c' & -> & _ & Hname & _).
    eapply insert_duplicate; [done|]. simpl. by rewrite Hname.
Qed.

Lemma update_registers_witness :
  exists self' s',
    _update (__init__ 0 None) 0 root_comments = (Ok self', s') /\
    _comments self' = Some 0 /\ _submission self' = 0 /\
    lists s' = lists root_comments /\
    length (objs s') = length (objs root_comments) /\
    forall r c, r ∈ [0; 1] -> objs root_comments !! r = Some (OComment c) ->
      is_Some (_comments_by_id s' !! Comment.name c) /\
      _insert_comment self' r s' = (Raise DuplicateReplaceException, s').
Proof.
  apply (update_registers (__init__ 0 None) 0 [0; 1] root_comments).
  - reflexivity.
  - repeat constructor; by eexists.
Defined.

(** ** Gathering *)

(** On a forest whose nodes are distinct objects,
    [_gather_more_comments(tree)] returns the placeholders of the
    forest, all of them and each once, at any depth, arranged as a heap
    whose first element has the largest pending count. It writes nothing
    but the removal targets: lists, index and every object that is not
    a placeholder of the forest are as before, and each placeholder
    returned lies in the list that its removal target designates. *)
Theorem gather_collects (fuel : nat) (tree : loc) (ts : list stree)
    (s : state) :
  forest_shape s tree ts -> NoDup (flat_map srefs ts) -> ssizes ts <= fuel ->
  exists heap s',
    _gather_more_comments fuel tree None s = (Ok heap, s') /\
    heap ≡ₚ forest_mores tree ts /\
    (forall root x, heap !! 0 = Some root -> x ∈ heap ->
       (count_of s' x <= count_of s' root)%Z) /\
    lists s' = lists s /\ _comments_by_id s' = _comments_by_id s /\
    (forall r, r ∉ forest_mores tree ts -> objs s' !! r = objs s !! r) /\
    (forall r, r ∈ heap ->
       exists m l rs, objs s' !! r = Some (OMore m) /\
         MoreComments._remove_from m = Some l /\
         lists s' !! l = Some rs /\ r ∈ rs).
Proof.
  intros Hsh Hnd Hfuel.
  destruct (gather_total fuel tree None tree ts s)
    as (heap & s' & Hrun & Hg & Hperm); [done|done|done|].
  fold (forest_targets tree ts) in Hg, Hperm.
  fold (forest_mores tree ts) in Hperm.
  exists heap, s'. split; [done|]. split; [done|].
  destruct (gather_ordered _ _ _ _ _ _ Hrun) as [_ Hord].
  destruct (gathered_pending _ _ _ _ _ Hsh Hnd Hg Hperm) as [_ Hpend].
  destruct Hg as (Hl & Hi & _ & Hout & _).
  split_and!; try done.
  intros root x Hroot [i Hx]%list_elem_of_lookup.
  by eapply heap_ordered_root.
Qed.

Lemma gather_collects_witness :
  exists heap s',
    _gather_more_comments 5 0 None thread = (Ok heap, s') /\
    heap ≡ₚ forest_mores 0 thread_shape /\
    (forall root x, heap !! 0 = Some root -> x ∈ heap ->
       (count_of s' x <= count_of s' root)%Z) /\
    lists s' = lists thread /\ _comments_by_id s' = _comments_by_id thread /\
    (forall r, r ∉ forest_mores 0 thread_shape ->
       objs s' !! r = objs thread !! r) /\
    (forall r, r ∈ heap ->
       exists m l rs, objs s' !! r = Some (OMore m) /\
         MoreComments._remove_from m = Some l /\
         lists s' !! l = Some rs /\ r ∈ rs).
Proof.
  apply (gather_collects 5 0 thread_shape thread).
  - exact thread_forest_shape.
  - exact thread_NoDup.
  - vm_compute. lia.
Defined.

(** The removal target of a top-level placeholder of a gathered list is
    the [parent_tree] given, unless that list is empty: then it is the
    gathered list itself. *)
Theorem gather_fallback (fuel : nat) (tree pt : loc) (ts : list stree)
    (prs : list ref) (s : state) :
  forest_shape s tree ts -> NoDup (flat_map srefs ts) ->
  lists s !! pt = Some prs -> ssizes ts <= fuel ->
  exists heap s',
    _gather_more_comments fuel tree (Some pt) s = (Ok heap, s') /\
    forall r, SMore r ∈ ts ->
      exists m, objs s' !! r = Some (OMore m) /\
        MoreComments._remove_from m =
          Some (match prs with [] => tree | _ :: _ => pt end).
Proof.
  intros Hsh Hnd Hpt Hfuel.
  set (fb := match prs with [] => tree | _ :: _ => pt end).
  destruct (gather_total fuel tree (Some pt) fb ts s)
    as (heap & s' & Hrun & Hg & _); [done| |done|].
  { intros s1 Hs1. unfold parent_tree_or_tree.
    rewrite (bind_Ok _ _ _ _ _ (get_list_Some _ _ prs ltac:(by rewrite Hs1))).
    unfold fb. by destruct prs. }
  exists heap, s'. split; [done|]. intros r Hr.
  fold (forest_targets fb ts) in Hg.
  assert ((r, fb) ∈ forest_targets fb ts) as Hin.
  { apply elem_of_flat_map. exists (SMore r). split; [done|].
    simpl. by left. }
  destruct Hg as (_ & _ & _ & _ & Hset).
  destruct (Hset r) as (m & c & _ & Hc & Hm).
  { apply list_elem_of_fmap. by exists (r, fb). }
  rewrite (target_unique fb ts Hnd _ _ _ Hc Hin) in Hm. eauto.
Qed.

Lemma gather_fallback_witness :
  exists heap s',
    _gather_more_comments 1 1 (Some 0) fetched_placeholder = (Ok heap, s') /\
    forall r, SMore r ∈ [SMore 0] ->
      exists m, objs s' !! r = Some (OMore m) /\
        MoreComments._remove_from m =
          Some (match @nil ref with [] => 1 | _ :: _ => 0 end).
Proof.
  apply (gather_fallback 1 1 0 [SMore 0] [] fetched_placeholder).
  - split; [reflexivity|]. repeat constructor. by eexists.
  - simpl. apply NoDup_singleton.
  - reflexivity.
  - vm_compute. lia.
Defined.

(** ** The order of a flatten *)

Lemma ssize_skids t : ssize t = S (ssizes (skids t)).
Proof. by destruct t. Qed.

Lemma ssizes_skids q : ssizes q = length q + ssizes (flat_map skids q).
Proof.
  induction q as [|t q IH]; [done|].
  rewrite ssizes_cons, ssize_skids. simpl. rewrite ssizes_app. lia.
Qed.

Lemma list_loop_bfs fuel comments qt s :
  Forall (shape s) qt -> ssizes qt <= fuel ->
  list_loop fuel comments (map sroot qt) s = (Ok (comments ++ bfsq fuel qt), s).
Proof.
  revert comments qt.
  induction fuel as [|fuel IH]; intros comments [|t qt] Hsh Hfuel; simpl.
  - by rewrite app_nil_r.
  - rewrite ssizes_cons in Hfuel. destruct t; simpl in Hfuel; lia.
  - by rewrite app_nil_r.
  - apply Forall_cons in Hsh as [Ht Hqt]. rewrite ssizes_cons in Hfuel.
    destruct t as [r l kids|r].
    + apply shape_SComment in Ht as ((c & Hc & <-) & Hl & Hkids).
      rewrite ssize_SComment in Hfuel. simpl.
      rewrite (bind_Ok _ _ _ _ _ (get_obj_Some _ _ _ Hc)). simpl.
      rewrite (bind_Ok _ _ _ _ _ (replies_of_Some _ _ _ Hc)).
      rewrite (bind_Ok _ _ _ _ _ (get_list_Some _ _ _ Hl)).
      rewrite <- map_app. rewrite IH.
      * by rewrite <- app_assoc.
      * by apply Forall_app.
      * rewrite ssizes_app. lia.
    + destruct Ht as (m & Hm). simpl in Hfuel. simpl.
      rewrite (bind_Ok _ _ _ _ _ (get_obj_Some _ _ _ Hm)). simpl.
      rewrite IH by (done || lia). by rewrite <- app_assoc, app_nil_r.
Qed.

Lemma bfsq_app fuel q1 q2 :
  ssizes (q1 ++ q2) <= fuel ->
  bfsq fuel (q1 ++ q2) =
    map sroot q1 ++ bfsq (fuel - length q1) (q2 ++ flat_map skids q1).
Proof.
  revert fuel q2. induction q1 as [|t q1 IH]; intros fuel q2 Hfuel.
  - simpl. by rewrite Nat.sub_0_r, app_nil_r.
  - rewrite <- app_comm_cons, ssizes_cons, ssize_skids in Hfuel.
    destruct fuel as [|fuel]; [lia|]. simpl.
    rewrite <- app_assoc, IH.
    + by rewrite <- app_assoc.
    + rewrite !ssizes_app in *. lia.
Qed.

Lemma bfsq_levels n q fuel fuel' :
  ssizes q <= n -> ssizes q <= fuel -> ssizes q <= fuel' ->
  bfsq fuel q = levels fuel' q.
Proof.
  revert q fuel fuel'. induction n as [|n IH]; intros q fuel fuel' Hn Hf Hf'.
  - destruct q as [|t q]; [by destruct fuel, fuel'|].
    rewrite ssizes_cons, ssize_skids in Hn. lia.
  - destruct q as [|t q]; [by destruct fuel, fuel'|].
    pose proof (ssizes_skids (t :: q)) as Hsz. simpl length in Hsz.
    destruct fuel' as [|fuel']; [lia|].
    rewrite <- (app_nil_r (t :: q)) at 1.
    rewrite bfsq_app by (by rewrite app_nil_r).
    cbn [levels]. f_equal. apply IH; simpl length; lia.
Qed.

(** A flatten yields the nodes in breadth-first order: the top-level
    sequence first, as it stands, then the replies of its comments from
    left to right, then theirs, level by level. *)
Theorem list_breadth_first (fuel : nat) (self : CommentForest) (top : loc)
    (ts : list stree) (s : state) :
  _comments self = Some top -> forest_shape s top ts -> ssizes ts <= fuel ->
  exists rs,
    list_ fuel self s = (Ok rs, s) /\
    rs = levels (ssizes ts) ts /\
    lists s !! top = Some (take (length ts) rs).
Proof.
  intros Hself [Htop Hts] Hfuel. exists (levels (ssizes ts) ts).
  split; [|split; [done|]].
  - unfold list_, comments_list. rewrite Hself.
    unfold ret at 1. unfold bind at 1.
    rewrite (bind_Ok _ _ _ _ _ (get_list_Some _ _ _ Htop)).
    rewrite list_loop_bfs by done. simpl. do 2 f_equal.
    by apply (bfsq_levels (ssizes ts)).
  - rewrite Htop. f_equal. destruct ts as [|t ts]; [done|].
    pose proof (ssizes_skids (t :: ts)) as Hsz. simpl length in Hsz.
    destruct (ssizes (t :: ts)) as [|n] eqn:Hn; [lia|].
    cbn [levels]. rewrite take_app_length'; [done|by rewrite length_map].
Qed.

Lemma list_breadth_first_witness :
  exists rs,
    list_ 5 forest0 thread = (Ok rs, thread) /\
    rs = levels (ssizes thread_shape) thread_shape /\
    lists thread !! 0 = Some (take (length thread_shape) rs).
Proof.
  apply (list_breadth_first 5 forest0 0 thread_shape thread).
  - reflexivity.
  - exact thread_forest_shape.
  - vm_compute. lia.
Defined.

(** ** What [replace_more] never removes *)

Lemma is_comment_extends s s' r : extends s s' -> is_comment s r -> is_comment s' r.
Proof.
  intros Hext [c Hc]. destruct (Hext _ _ Hc) as (o' & Ho' & Hcore).
  apply core_OComment in Hcore as (c' & -> & _). by exists c'.
Qed.

Lemma keeps_refl s : keeps_comments s s.
Proof. split; [apply extends_refl|]. split; eauto. Qed.

Lemma keeps_trans s1 s2 s3 :
  keeps_comments s1 s2 -> keeps_comments s2 s3 -> keeps_comments s1 s3.
Proof.
  intros (Hext1 & Hl1 & Hi1) (Hext2 & Hl2 & Hi2).
  split; [by eapply extends_trans|]. split; [|auto].
  intros l rs Hrs. destruct (Hl1 _ _ Hrs) as (rs2 & Hrs2 & Hocc1).
  destruct (Hl2 _ _ Hrs2) as (rs3 & Hrs3 & Hocc2).
  exists rs3. split; [done|]. intros r Hr. etrans; [by apply Hocc1|].
  apply Hocc2. by eapply is_comment_extends.
Qed.

(** A change of objects that the forest may make keeps the comments. *)
Lemma keeps_objs s s' :
  extends s s' -> lists s' = lists s ->
  (forall n, is_Some (_comments_by_id s !! n) ->
     is_Some (_comments_by_id s' !! n)) ->
  keeps_comments s s'.
Proof.
  intros Hext Hl Hi. split; [done|]. split; [|done].
  intros l rs Hrs. exists rs. rewrite Hl. eauto.
Qed.

Lemma keeping_bind {A B} (m : M A) (k : A -> M B) :
  keeping m -> (forall a, keeping (k a)) -> keeping (bind m k).
Proof.
  intros Hm Hk s. unfold bind. specialize (Hm s).
  destruct (m s) as [[a| | |] s1]; simpl in *; try done.
  eapply keeps_trans; [done|]. apply Hk.
Qed.

Lemma keeping_ret {A} (a : A) : keeping (ret a).
Proof. intros s. apply keeps_refl. Qed.

Lemma keeping_raise {A} e : keeping (raise (A := A) e).
Proof. intros s. apply keeps_refl. Qed.

Lemma keeping_get_obj r : keeping (get_obj r).
Proof. intros s. unfold get_obj. destruct (objs s !! r); apply keeps_refl. Qed.

Lemma keeping_get_list l : keeping (get_list l).
Proof. intros s. unfold get_list. destruct (lists s !! l); apply keeps_refl. Qed.

Lemma keeping_get_index : keeping get_index.
Proof. intros s. apply keeps_refl. Qed.

Lemma keeping_heappush_more h x : keeping (heappush_more h x).
Proof. intros s. apply keeps_refl. Qed.

Lemma keeping_alloc_obj o : keeping (alloc_obj o).
Proof. intros s. apply keeps_objs; [apply preserves_alloc_obj|done|done]. Qed.

Lemma keeping_alloc_list rs : keeping (alloc_list rs).
Proof.
  intros s. split; [apply preserves_alloc_list|]. split; [|done].
  intros l rs0 Hl. exists rs0. split; [|done]. simpl.
  by apply lookup_app_l_Some.
Qed.

Lemma keeping_set_submission r sub : keeping (set_submission r sub).
Proof.
  intros s. apply keeps_objs; [apply preserves_set_submission| |].
  - unfold set_submission, bind, get_obj.
    by destruct (objs s !! r) as [[c|m]|].
  - unfold set_submission, bind, get_obj.
    destruct (objs s !! r) as [[c|m]|]; simpl; try done.
    intros n Hn. destruct (decide (Comment.name c = n)) as [<-|Hne].
    + rewrite lookup_insert_eq. by eexists.
    + by rewrite lookup_insert_ne.
Qed.

Lemma keeping_set_remove_from r c : keeping (set_remove_from r c).
Proof.
  intros s. apply keeps_objs; [apply preserves_set_remove_from| |];
    unfold set_remove_from, bind, get_obj;
    by destruct (objs s !! r) as [[c'|m]|].
Qed.

Lemma keeping_list_append l x : keeping (list_append l x).
Proof.
  intros s. split; [apply preserves_list_append|]. split.
  - unfold list_append, bind, get_list.
    destruct (lists s !! l) as [rs|] eqn:Hl; simpl; [|eauto].
    intros l' rs' Hl'. destruct (decide (l = l')) as [<-|Hne].
    + rewrite list_lookup_insert_eq by (by eapply lookup_lt_Some).
      simplify_eq. eexists. split; [done|]. intros r _. rewrite occ_app. lia.
    + rewrite list_lookup_insert_ne by done. eauto.
  - unfold list_append, bind, get_list. by destruct (lists s !! l).
Qed.

(** The removal of a popped item takes a placeholder out of a list,
    never a comment. *)
Lemma keeping_remove_from_target item : keeping (remove_from_target item).
Proof.
  intros s. split; [apply preserves_remove_from_target|].
  unfold remove_from_target, bind, get_obj.
  destruct (objs s !! item) as [[c|m]|] eqn:Hitem; simpl; [by eauto| |by eauto].
  destruct (MoreComments._remove_from m) as [l|]; simpl; [|by eauto].
  unfold list_remove, bind, get_list.
  destruct (lists s !! l) as [rs|] eqn:Hl; simpl; [|by eauto].
  destruct (remove_first item rs) as [rs'|] eqn:Hrm; simpl; [|by eauto].
  split; [|done]. intros l' rs0 Hl'. destruct (decide (l = l')) as [<-|Hne].
  - rewrite list_lookup_insert_eq by (by eapply lookup_lt_Some).
    simplify_eq. eexists. split; [done|]. intros r [c Hc].
    rewrite (occ_remove_first _ _ _ r Hrm).
    case_decide; [simplify_eq|lia].
  - rewrite list_lookup_insert_ne by done. eauto.
Qed.

Create HintDb keeping.
#[local] Hint Resolve keeping_ret keeping_raise keeping_get_obj
  keeping_get_list keeping_get_index keeping_heappush_more
  keeping_alloc_obj keeping_alloc_list keeping_set_submission
  keeping_set_remove_from keeping_list_append keeping_remove_from_target
  : keeping.

Ltac keeping_step :=
  match goal with
  | |- keeping (bind _ _) => apply keeping_bind; [|intros ?]
  | |- keeping (match ?x with _ => _ end) => destruct x
  | |- keeping (if ?x then _ else _) => destruct x
  | |- keeping (let _ := _ in _) => cbv zeta
  | |- keeping _ => solve [auto with keeping]
  end.
Ltac keeping_tac := repeat keeping_step.

Lemma keeping_replies_of r : keeping (replies_of r).
Proof. unfold replies_of. keeping_tac. Qed.

Lemma keeping_parent_tree_or_tree pt tree :
  keeping (parent_tree_or_tree pt tree).
Proof. unfold parent_tree_or_tree. keeping_tac. Qed.

Lemma keeping_comments_list self e : keeping (comments_list self e).
Proof. unfold comments_list. keeping_tac. Qed.

#[local] Hint Resolve keeping_replies_of keeping_parent_tree_or_tree
  keeping_comments_list : keeping.

Lemma keeping_for_each {A} (f : A -> M unit) xs :
  (forall x, keeping (f x)) -> keeping (for_each f xs).
Proof. intros Hf. induction xs; simpl; keeping_tac. Qed.

Lemma keeping_insert_comment self comment :
  keeping (_insert_comment self comment).
Proof. unfold _insert_comment. keeping_tac. Qed.

Lemma keeping_gather_loop fuel tree pt heap queue :
  keeping (_gather_loop fuel tree pt heap queue).
Proof.
  revert heap queue. induction fuel as [|fuel IH]; intros heap queue.
  - destruct queue as [|[p r] queue]; simpl; [keeping_tac|].
    intros s. apply keeps_refl.
  - destruct queue as [|[p r] queue]; simpl; keeping_tac.
Qed.

#[local] Hint Resolve keeping_insert_comment keeping_gather_loop : keeping.

Lemma keeping_gather fuel tree pt :
  keeping (_gather_more_comments fuel tree pt).
Proof. unfold _gather_more_comments. keeping_tac. Qed.

Lemma keeping_alloc_tree t : keeping (alloc_tree t).
Proof.
  induction t as [n c ch|n p root kids IH] using tree_ind'; [simpl; keeping_tac|].
  rewrite alloc_tree_TComment. apply keeping_bind; [|intros; keeping_tac].
  induction IH; simpl; keeping_tac.
Qed.

#[local] Hint Resolve keeping_gather keeping_alloc_tree : keeping.

Lemma keeping_alloc_trees ts : keeping (alloc_trees ts).
Proof. induction ts; simpl; keeping_tac. Qed.

#[local] Hint Resolve keeping_alloc_trees : keeping.

Lemma keeping_alloc_forest ts : keeping (alloc_forest ts).
Proof. unfold alloc_forest. keeping_tac. Qed.

#[local] Hint Resolve keeping_alloc_forest : keeping.

Lemma keeping_merge_fetched self item trees v :
  keeping (merge_fetched self item trees v).
Proof.
  unfold merge_fetched. apply keeping_bind; [keeping_tac|]. intros new.
  apply keeping_bind; [keeping_tac|]. intros found.
  apply keeping_bind.
  - generalize (more_comments v). induction found; intros h; keeping_tac.
  - intros h. keeping_tac. apply keeping_for_each. auto with keeping.
Qed.

Section keeps.
Variable fetch : list ref -> state -> ref -> option (list tree).

Lemma loop_body_keeps self threshold v log s :
  keeps_comments s (loop_body fetch self threshold v log s).1.2.
Proof.
  unfold loop_body.
  destruct (heappop _ _) as [[item rest]|]; [|apply keeps_refl].
  destruct (objs s !! item) as [[c|m]|]; try apply keeps_refl.
  destruct (skip_test _ _ _).
  - pose proof (keeping_remove_from_target item s) as Hk.
    unfold bind. destruct (remove_from_target item s) as [[[]| | |] s'];
      done.
  - destruct (fetch log s item) as [trees|]; [|apply keeps_refl].
    pose proof (keeping_merge_fetched self item trees
                  (Locals (remaining v) rest (skipped v)) s) as Hk.
    by destruct (merge_fetched _ _ _ _ _) as [o s'].
Qed.

Lemma replace_more_loop_keeps fuel self threshold v log s :
  keeps_comments s (replace_more_loop fetch fuel self threshold v log s).1.2.
Proof.
  revert v log s. induction fuel as [|fuel IH]; intros v log s; simpl.
  - destruct (more_comments v); apply keeps_refl.
  - destruct (more_comments v) eqn:Hheap; [apply keeps_refl|].
    pose proof (loop_body_keeps self threshold v log s) as Hk.
    destruct (loop_body _ _ _ _ _ _) as [[[v'| | |] s1] log1]; try done.
    eapply keeps_trans; [done|]. apply IH.
Qed.

Lemma replace_more_keeps fuel self limit threshold s :
  keeps_comments s (replace_more fetch fuel self limit threshold s).1.2.
Proof.
  unfold replace_more.
  assert (keeping (let* tree := comments_list self TypeError in
                   _gather_more_comments fuel tree None)) as Hk
    by keeping_tac.
  specialize (Hk s).
  destruct (bind _ _ s) as [[heap| | |] s1]; try done.
  eapply keeps_trans; [done|]. apply replace_more_loop_keeps.
Qed.
End keeps.

Lemma keeps_reach s s' top r :
  keeps_comments s s' -> reach s top r -> is_comment s r -> reach s' top r.
Proof.
  intros (Hext & Hl & _). induction 1 as [rs r Hrs Hr|p c rs r Hp IH Hpc Hrs Hr];
    intros Hcom.
  - destruct (Hl _ _ Hrs) as (rs' & Hrs' & Hocc).
    eapply reach_top; [done|]. apply occ_elem. apply occ_elem in Hr.
    specialize (Hocc r Hcom). lia.
  - destruct (Hext _ _ Hpc) as (o' & Ho' & Hcore).
    apply core_OComment in Hcore as (c' & -> & Hrep & _).
    destruct (Hl _ _ Hrs) as (rs' & Hrs' & Hocc).
    eapply reach_reply; [apply IH; by exists c|done|by rewrite Hrep|].
    apply occ_elem. apply occ_elem in Hr. specialize (Hocc r Hcom). lia.
Qed.

(** [replace_more] never takes a comment away, whatever its arguments,
    the answers of the fetch collaborator and the outcome of the call,
    an error included: a comment that was in a list is still in that
    list, a comment that could be reached from a list can still be
    reached from it, and a name of the index is still in the index. *)
Theorem replace_more_keeps_comments
    (fetch : list ref -> state -> ref -> option (list tree))
    (fuel : nat) (self : CommentForest) (limit : option Z) (threshold : Z)
    (s : state) :
  let s' := (replace_more fetch fuel self limit threshold s).1.2 in
  (forall l rs r, lists s !! l = Some rs -> is_comment s r -> r ∈ rs ->
     is_comment s' r /\ exists rs', lists s' !! l = Some rs' /\ r ∈ rs') /\
  (forall top r, is_comment s r -> reach s top r -> reach s' top r) /\
  (forall n, is_Some (_comments_by_id s !! n) ->
     is_Some (_comments_by_id s' !! n)).
Proof.
  intros s'.
  pose proof (replace_more_keeps fetch fuel self limit threshold s) as Hk.
  fold s' in Hk. split; [|split].
  - intros l rs r Hrs Hcom Hr. destruct Hk as (Hext & Hl & _).
    split; [by eapply is_comment_extends|].
    destruct (Hl _ _ Hrs) as (rs' & Hrs' & Hocc). exists rs'.
    split; [done|]. apply occ_elem. apply occ_elem in Hr.
    specialize (Hocc r Hcom). lia.
  - intros top r Hcom Hreach. by eapply keeps_reach.
  - by destruct Hk as (_ & _ & Hi).
Qed.

Lemma replace_more_keeps_comments_witness :
  lists thread !! 1 = Some [1; 2] /\ is_comment thread 2 /\
  is_comment (replace_more one_reply 5 forest0 (Some 1%Z) 0 thread).1.2 2 /\
  exists rs',
    lists (replace_more one_reply 5 forest0 (Some 1%Z) 0 thread).1.2 !! 1
      = Some rs' /\ 2 ∈ rs'.
Proof.
  assert (is_comment thread 2) as Hcom by (by eexists).
  split; [reflexivity|]. split; [exact Hcom|].
  apply (proj1 (replace_more_keeps_comments one_reply 5 forest0 (Some 1%Z) 0
                  thread) 1 [1; 2] 2 eq_refl Hcom).
  apply elem_of_cons. right. apply elem_of_cons. by left.
Defined.

(** ** The threshold *)

Section threshold.
Variable fetch : list ref -> state -> ref -> option (list tree).

Lemma loop_body_threshold self threshold v log s o s' log' :
  loop_body fetch self threshold v log s = (o, s', log') ->
  (log' = log \/
   exists item, log' = log ++ [item] /\ is_more s item /\
                (threshold <= count_of s item)%Z) /\
  (forall v', o = Ok v' ->
     (remaining v' = None <-> remaining v = None) /\
     (remaining v = None ->
      skipped v' = skipped v \/
      exists item, skipped v' = skipped v ++ [item] /\ is_more s item /\
                   (count_of s item < threshold)%Z)).
Proof.
  unfold loop_body.
  destruct (heappop _ _) as [[item rest]|];
    [|intros [= <- <- <-]; split; [by left|done]].
  destruct (objs s !! item) as [[c|m]|] eqn:Hitem;
    try (intros [= <- <- <-]; split; [by left|done]).
  assert (count_of s item = MoreComments.count m) as Hcount
    by (unfold count_of; by rewrite Hitem).
  assert (is_more s item) as Hmore by (by exists m).
  destruct (skip_test _ _ _) eqn:Hskip.
  - destruct (bind _ _ s) as [o1 s1] eqn:Hrun. intros [= <- <- <-].
    split; [by left|]. intros v' ->.
    inv_bind Hrun as u s2 Hrm. injection Hrun as <- <-. simpl.
    split; [done|]. intros Hrem. right. exists item.
    split; [done|]. split; [done|].
    unfold skip_test in Hskip. rewrite Hrem in Hskip. simpl in Hskip.
    apply bool_decide_eq_true in Hskip. lia.
  - assert (threshold <= count_of s item)%Z as Hge.
    { unfold skip_test in Hskip. apply orb_false_iff in Hskip as [_ Hskip].
      apply bool_decide_eq_false in Hskip. lia. }
    destruct (fetch log s item) as [trees|].
    + destruct (merge_fetched _ _ _ _ _) as [o1 s1] eqn:Hrun.
      intros [= <- <- <-]. split; [right; eauto|].
      intros v' ->.
      apply merge_fetched_remaining in Hrun as [Hrem' Hsk]. simpl in *.
      split; [|by left]. rewrite Hrem'. by destruct (remaining v).
    + intros [= <- <- <-]. split; [right; eauto|done].
Qed.

Lemma replace_more_loop_threshold fuel self threshold v log s o s' log' :
  (forall r, r ∈ log -> is_more s r /\ (threshold <= count_of s r)%Z) ->
  (remaining v = None ->
   forall r, r ∈ skipped v -> is_more s r /\ (count_of s r < threshold)%Z) ->
  replace_more_loop fetch fuel self threshold v log s = (o, s', log') ->
  (forall r, r ∈ log' -> is_more s' r /\ (threshold <= count_of s' r)%Z) /\
  (remaining v = None -> forall res, o = Ok res ->
   forall r, r ∈ res -> is_more s' r /\ (count_of s' r < threshold)%Z).
Proof.
  revert v log s. induction fuel as [|fuel IH]; intros v log s Hlog Hsk; simpl.
  - destruct (more_comments v); intros [= <- <- <-]; split; try done.
    intros Hrem res [= <-]. simpl. by apply Hsk.
  - destruct (more_comments v) eqn:Hheap.
    { intros [= <- <- <-]. split; [done|].
      intros Hrem res [= <-]. simpl. by apply Hsk. }
    destruct (loop_body _ _ _ _ _ _) as [[o1 s1] log1] eqn:Hbody.
    pose proof (loop_body_keeps fetch self threshold v log s) as (Hext & _).
    rewrite Hbody in Hext. simpl in Hext.
    destruct (loop_body_threshold _ _ _ _ _ _ _ _ Hbody) as [Hlog1 Hsk1].
    assert (forall r (P : Z -> Prop),
              is_more s r /\ P (count_of s r) ->
              is_more s1 r /\ P (count_of s1 r)) as Hmono.
    { intros r P [Hm Hc]. split; [by eapply is_more_extends|].
      by rewrite (count_of_extends _ _ _ Hext Hm). }
    assert (forall r, r ∈ log1 ->
              is_more s1 r /\ (threshold <= count_of s1 r)%Z) as Hlog1'.
    { intros r Hr. apply (Hmono r (fun c => threshold <= c)%Z).
      destruct Hlog1 as [->|(item & -> & Hm & Hc)]; [by apply Hlog|].
      apply elem_of_app in Hr as [Hr|Hr%list_elem_of_singleton];
        [auto|subst; auto]. }
    destruct o1 as [v1| | |]; try (intros [= <- <- <-]; by split).
    intros Hrun. destruct (Hsk1 v1 eq_refl) as [Hrem1 Hcase].
    destruct (IH v1 log1 s1 Hlog1') as [Hfin1 Hfin2]; [|done|].
    { intros Hrem%Hrem1 r Hr. apply (Hmono r (fun c => c < threshold)%Z).
      destruct (Hcase Hrem) as [Heq|(item & Heq & Hm & Hc)];
        rewrite Heq in Hr; [by apply Hsk|].
      apply elem_of_app in Hr as [Hr|Hr%list_elem_of_singleton];
        [auto|subst; auto]. }
    split; [done|]. intros Hrem. apply Hfin2. by apply Hrem1.
Qed.

(** Whatever the outcome of [replace_more], every placeholder handed
    to the fetch collaborator has a pending count of at least
    [threshold]; and when no limit is set, every placeholder returned
    has a pending count below [threshold]. *)
Theorem replace_more_threshold (fuel : nat) (self : CommentForest)
    (limit : option Z) (threshold : Z) (s : state) :
  let '(o, s', log) := replace_more fetch fuel self limit threshold s in
  (forall r, r ∈ log -> is_more s' r /\ (threshold <= count_of s' r)%Z) /\
  (limit = None -> forall res, o = Ok res ->
   forall r, r ∈ res -> is_more s' r /\ (count_of s' r < threshold)%Z).
Proof.
  unfold replace_more.
  destruct (bind _ _ s) as [[heap| | |] s1];
    try (split; [by intros r ?%elem_of_nil|done]).
  destruct (replace_more_loop _ _ _ _ _ _ _) as [[o s'] log] eqn:Hrun.
  apply replace_more_loop_threshold in Hrun; [done| |].
  - by intros r ?%elem_of_nil.
  - by intros _ r ?%elem_of_nil.
Qed.
End threshold.

Lemma replace_more_threshold_witness :
  (replace_more one_reply 5 forest0 None 5 thread).1.1 = Ok [4] /\
  (replace_more one_reply 5 forest0 None 5 thread).2 = [3; 1] /\
  let '(o, s', log) := replace_more one_reply 5 forest0 None 5 thread in
  (forall r, r ∈ log -> is_more s' r /\ (5 <= count_of s' r)%Z) /\
  ((None : option Z) = None -> forall res, o = Ok res ->
   forall r, r ∈ res -> is_more s' r /\ (count_of s' r < 5)%Z).
Proof.
  split; [vm_compute; reflexivity|]. split; [vm_compute; reflexivity|].
  apply (replace_more_threshold one_reply 5 forest0 None 5 thread).
Defined.

(** ** A response that repeats a node *)

Lemma named_extends s s' r t : extends s s' -> named s r t -> named s' r t.
Proof.
  intros Hext (o & Ho & Hn). destruct (Hext _ _ Ho) as (o' & Ho' & Hcore).
  exists o'. split; [done|]. by rewrite (obj_name_core _ _ Hcore).
Qed.

Lemma alloc_tree_named t s r s' :
  alloc_tree t s = (Ok r, s') -> named s' r t.
Proof.
  destruct t as [n p root kids|n c ch].
  - rewrite alloc_tree_TComment. intros H.
    inv_bind H as rs s1 H1. inv_bind H as l s2 H2.
    unfold alloc_obj in H. injection H as <- <-.
    eexists. split; [simpl; apply list_lookup_middle; done|done].
  - simpl. unfold alloc_obj. intros [= <- <-].
    eexists. split; [simpl; apply list_lookup_middle; done|done].
Qed.

Lemma alloc_trees_named ts s rs s' :
  alloc_trees ts s = (Ok rs, s') -> Forall2 (named s') rs ts.
Proof.
  revert s rs. induction ts as [|t ts IH]; intros s rs; simpl.
  - by intros [= <- <-].
  - intros H. inv_bind H as r s1 H1. inv_bind H as rs' s2 H2.
    injection H as <- <-. constructor; [|by eapply IH].
    eapply named_extends; [|by eapply alloc_tree_named].
    by eapply (preserves_Ok _ _ _ _ (preserves_alloc_trees ts)).
Qed.

Lemma alloc_forest_named ts s new s' :
  alloc_forest ts s = (Ok new, s') ->
  _comments_by_id s' = _comments_by_id s /\
  exists rs, lists s' !! new = Some rs /\ Forall2 (named s') rs ts.
Proof.
  unfold alloc_forest. intros H. inv_bind H as rs s1 H1.
  unfold alloc_list in H. injection H as <- <-. split.
  - pose proof (keeping_alloc_trees ts s) as Hk. rewrite H1 in Hk.
    destruct (alloc_trees_spec ts s 0 0 ltac:(lia) ltac:(lia))
      as (rs' & s1' & sts & os & ls & Hrun & (_ & _ & Hi & _) & _).
    rewrite H1 in Hrun. by injection Hrun as _ <-.
  - exists rs. split; [simpl; by apply list_lookup_middle|].
    eapply Forall2_impl; [by eapply alloc_trees_named|].
    intros r t (o & Ho & Hn). by exists o.
Qed.

Lemma frames_bind {A B} (m : M A) (k : A -> M B) :
  frames m -> (forall a, frames (k a)) -> frames (bind m k).
Proof.
  intros Hm Hk s. unfold bind. destruct (Hm s) as [Hl Hi].
  destruct (m s) as [[a| | |] s1]; simpl in *; try done.
  destruct (Hk a s1) as [Hl' Hi']. split; congruence.
Qed.

Lemma frames_ret {A} (a : A) : frames (ret a).
Proof. done. Qed.

Lemma frames_raise {A} e : frames (raise (A := A) e).
Proof. done. Qed.

Lemma frames_get_obj r : frames (get_obj r).
Proof. intros s. unfold get_obj. by destruct (objs s !! r). Qed.

Lemma frames_get_list l : frames (get_list l).
Proof. intros s. unfold get_list. by destruct (lists s !! l). Qed.

Lemma frames_heappush_more h x : frames (heappush_more h x).
Proof. done. Qed.

Lemma frames_set_remove_from r c : frames (set_remove_from r c).
Proof.
  intros s. unfold set_remove_from, bind, get_obj.
  by destruct (objs s !! r) as [[c'|m]|].
Qed.

Create HintDb frames.
#[local] Hint Resolve frames_ret frames_raise frames_get_obj frames_get_list
  frames_heappush_more frames_set_remove_from : frames.

Ltac frames_step :=
  match goal with
  | |- frames (bind _ _) => apply frames_bind; [|intros ?]
  | |- frames (match ?x with _ => _ end) => destruct x
  | |- frames (if ?x then _ else _) => destruct x
  | |- frames _ => solve [auto with frames]
  end.
Ltac frames_tac := repeat frames_step.

Lemma frames_replies_of r : frames (replies_of r).
Proof. unfold replies_of. frames_tac. Qed.

Lemma frames_parent_tree_or_tree pt tree : frames (parent_tree_or_tree pt tree).
Proof. unfold parent_tree_or_tree. frames_tac. Qed.

#[local] Hint Resolve frames_replies_of frames_parent_tree_or_tree : frames.

Lemma frames_gather_loop fuel tree pt heap queue :
  frames (_gather_loop fuel tree pt heap queue).
Proof.
  revert heap queue. induction fuel as [|fuel IH]; intros heap queue.
  - destruct queue as [|[p r] queue]; simpl; [frames_tac|done].
  - destruct queue as [|[p r] queue]; simpl; frames_tac.
Qed.

#[local] Hint Resolve frames_gather_loop : frames.

(** A gather writes no list and no index entry. *)
Lemma frames_gather fuel tree pt : frames (_gather_more_comments fuel tree pt).
Proof. unfold _gather_more_comments. frames_tac. Qed.

(** The pushes that follow a nested gather. *)
Lemma push_total sub found h s :
  Forall (is_more s) found ->
  exists h' s',
    (fix push (found : list ref) (more_comments : list ref) : M (list ref) :=
       match found with
       | [] => ret more_comments
       | more :: found' =>
           let* _ := set_submission more sub in
           let* more_comments := heappush_more more_comments more in
           push found' more_comments
       end) found h s = (Ok h', s') /\
    lists s' = lists s /\ _comments_by_id s' = _comments_by_id s /\
    extends s s'.
Proof.
  revert h s. induction found as [|r found IH]; intros h s Hfound.
  - exists h, s. split_and!; try done. apply extends_refl.
  - apply Forall_cons in Hfound as [[m Hm] Hfound].
    rewrite (bind_Ok _ _ _ _ _ (set_submission_More _ _ _ _ Hm)).
    unfold heappush_more at 1. unfold bind at 1.
    set (s1 := State _ _ _).
    assert (extends s s1) as Hext by (by eapply extends_set_obj).
    destruct (IH (heappush (more_lt s1) h r) s1)
      as (h' & s' & Hrun & Hl & Hi & Hext').
    { eapply Forall_impl; [done|]. intros r'. by apply is_more_extends. }
    exists h', s'. split_and!; try done. by eapply extends_trans.
Qed.

Lemma inserts_duplicate self rs s :
  (exists r o, r ∈ rs /\ objs s !! r = Some o /\
     is_Some (_comments_by_id s !! obj_name o)) ->
  forall u s', for_each (_insert_comment self) rs s <> (Ok u, s').
Proof.
  revert s. induction rs as [|r0 rs IH]; intros s (r & o & Hin & Ho & Hdup) u s'.
  - by apply elem_of_nil in Hin.
  - simpl. intros Hrun. inv_bind Hrun as u1 s1 Hins.
    destruct (decide (r = r0)) as [->|Hne].
    + by rewrite (insert_duplicate _ _ _ _ Ho Hdup) in Hins.
    + apply elem_of_cons in Hin as [?|Hin]; [done|].
      pose proof (keeping_insert_comment self r0 s) as (Hext & _ & Hidx).
      rewrite Hins in Hext, Hidx. simpl in Hext, Hidx.
      destruct (Hext _ _ Ho) as (o' & Ho' & Hcore).
      apply (IH s1) in Hrun; [done|]. exists r, o'. split_and!; try done.
      rewrite (obj_name_core _ _ Hcore). by apply Hidx.
Qed.

Section duplicate.
Variable fetch : list ref -> state -> ref -> option (list tree).

(** When the fetch collaborator answers a node whose name is already
    in the index, the iteration cannot end normally; if that node is
    the first of the response, the iteration raises
    [DuplicateReplaceException] after the fetch, with every list of the
    forest and the index as they were: nothing of the response was
    inserted and the placeholder was not removed. *)
Theorem loop_body_duplicate (self : CommentForest) (top : loc)
    (threshold : Z) (v : locals) (log : list ref) (s : state)
    (item : ref) (rest : list ref) (m : MoreComments.t)
    (trees : list tree) :
  _comments self = Some top -> is_Some (lists s !! top) ->
  heappop (more_lt s) (more_comments v) = Some (item, rest) ->
  objs s !! item = Some (OMore m) ->
  skip_test (remaining v) threshold m = false ->
  fetch log s item = Some trees ->
  (forall t, t ∈ trees -> is_Some (_comments_by_id s !! tree_name t) ->
     forall v' s' log',
       loop_body fetch self threshold v log s <> (Ok v', s', log')) /\
  (forall t trees', trees = t :: trees' ->
     is_Some (_comments_by_id s !! tree_name t) ->
     exists s',
       loop_body fetch self threshold v log s
         = (Raise DuplicateReplaceException, s', log ++ [item]) /\
       _comments_by_id s' = _comments_by_id s /\
       forall l rs, lists s !! l = Some rs -> lists s' !! l = Some rs).
Proof.
  intros Hself [rtop Htop] Hpop Hitem Hskip Hfetch.
  unfold loop_body. rewrite Hpop, Hitem, Hskip, Hfetch.
  set (v0 := Locals (remaining v) rest (skipped v)).
  (* the steps before the inserts *)
  destruct (fetched_gather_total trees (Some top) s)
    as (new & s1 & found & s2 & Halloc & Hgather); [by eexists|].
  destruct (alloc_forest_named _ _ _ _ Halloc) as (Hi1 & rs & Hnew & Hnamed).
  pose proof (preserves_Ok _ _ _ _ (preserves_alloc_forest trees) Halloc)
    as Hext1.
  pose proof (keeping_alloc_forest trees s) as (_ & Hl1 & _).
  rewrite Halloc in Hl1. simpl in Hl1.
  pose proof (preserves_Ok _ _ _ _ (preserves_gather _ _ _) Hgather) as Hext2.
  destruct (frames_gather (S (forest_size trees)) new (Some top) s1)
    as [Hl2 Hi2].
  rewrite Hgather in Hl2, Hi2. simpl in Hl2, Hi2.
  destruct (gather_ordered _ _ _ _ _ _ Hgather) as [Hfound _].
  destruct (push_total (_submission self) found (more_comments v0) s2 Hfound)
    as (h & s3 & Hpush & Hl3 & Hi3 & Hext3).
  assert (lists s3 !! new = Some rs) as Hnew3 by congruence.
  assert (Forall2 (named s3) rs trees) as Hnamed3.
  { eapply Forall2_impl; [done|]. intros r t Hn.
    eapply named_extends; [|done]. by eapply extends_trans. }
  assert (_comments_by_id s3 = _comments_by_id s) as Hi by congruence.
  assert (merge_fetched self item trees v0 s =
          (let* _ := for_each (_insert_comment self) rs in
           let* _ := remove_from_target item in
           ret (Locals (match remaining v0 with
                        | Some n => Some (n - 1)%Z
                        | None => None
                        end) h (skipped v0))) s3) as Hmerge.
  { unfold merge_fetched. rewrite (bind_Ok _ _ _ _ _ Halloc).
    rewrite Hself. rewrite (bind_Ok _ _ _ _ _ Hgather).
    rewrite (bind_Ok _ _ _ _ _ Hpush).
    by rewrite (bind_Ok _ _ _ _ _ (get_list_Some _ _ _ Hnew3)). }
  rewrite Hmerge. split.
  - intros t Ht Hdup v' s' log' Hrun.
    destruct (bind _ _ s3) as [o4 s4] eqn:Hrun4.
    injection Hrun as -> -> _.
    inv_bind Hrun4 as u s5 Hins.
    apply list_elem_of_lookup in Ht as [i Ht].
    destruct (Forall2_lookup_r _ _ _ _ _ Hnamed3 Ht) as (r & Hr & o & Ho & Hn).
    apply (inserts_duplicate self rs s3) in Hins; [done|].
    exists r, o. split; [by eapply list_elem_of_lookup_2|].
    split; [done|]. by rewrite Hn, Hi.
  - intros t trees' -> Hdup.
    apply Forall2_cons_inv_r in Hnamed3
      as (r & rs' & (o & Ho & Hn) & _ & ->).
    simpl for_each.
    assert (_insert_comment self r s3 = (Raise DuplicateReplaceException, s3))
      as Hins.
    { eapply insert_duplicate; [done|]. by rewrite Hn, Hi. }
    unfold bind at 1. unfold bind at 1. rewrite Hins.
    exists s3. split; [done|]. split; [done|].
    intros l rs0 Hl. destruct (Hl1 _ _ Hl) as (rs1 & Hrs1 & _).
    rewrite Hl3, Hl2.
    (* allocation appends lists *)
    destruct (alloc_forest_spec (t :: trees') s 0 0 ltac:(lia) ltac:(lia))
      as (new' & s1' & sts & os & ls & Halloc' & (_ & Happ & _) & _).
    rewrite Halloc in Halloc'. injection Halloc' as _ <-.
    rewrite Happ. by apply lookup_app_l_Some.
Qed.
End duplicate.

Lemma loop_body_duplicate_witness :
  exists s',
    loop_body answers_x forest0 0 (Locals None [1] []) [] thread
      = (Raise DuplicateReplaceException, s', [] ++ [1]) /\
    _comments_by_id s' = _comments_by_id thread /\
    forall l rs, lists thread !! l = Some rs -> lists s' !! l = Some rs.
Proof.
  assert (is_Some (_comments_by_id thread !! "x")) as Hx
    by (exists 0; reflexivity).
  apply (proj2 (loop_body_duplicate answers_x forest0 0 0 (Locals None [1] [])
                  [] thread 1 [] (MoreComments.Build "a" 5 [] None None)
                  [TComment "x" "t3_1" true []]
                  eq_refl ltac:(by eexists) eq_refl eq_refl eq_refl eq_refl)
           (TComment "x" "t3_1" true []) [] eq_refl Hx).
Defined.

(** ** The priority collection *)

(** [heappush] on a heap of placeholders adds the item, and nothing
    else, and leaves a heap: no element has a larger pending count than
    the one before it on the way to the front, so the first element has
    the largest count of all. *)
Theorem heappush_keeps_heap (s : state) (heap : list ref) (r : ref) :
  heap_ordered (count_of s) heap ->
  heappush (more_lt s) heap r ≡ₚ r :: heap /\
  heap_ordered (count_of s) (heappush (more_lt s) heap r) /\
  forall root x, heappush (more_lt s) heap r !! 0 = Some root ->
    x ∈ r :: heap -> (count_of s x <= count_of s root)%Z.
Proof.
  intros Hord. pose proof (heappush_perm (more_lt s) heap r) as Hperm.
  pose proof (heappush_ordered _ _ (more_lt_key s) heap r Hord) as Hord'.
  split; [done|]. split; [done|].
  intros root x Hroot Hx. rewrite <- Hperm in Hx.
  apply list_elem_of_lookup in Hx as [i Hx]. by eapply heap_ordered_root.
Qed.

Lemma heappush_keeps_heap_witness :
  heappush (more_lt spec_counts) [1; 0; 2] 3 = [1; 3; 2; 0] /\
  heappush (more_lt spec_counts) [1; 0; 2] 3 ≡ₚ 3 :: [1; 0; 2] /\
  heap_ordered (count_of spec_counts) (heappush (more_lt spec_counts) [1; 0; 2] 3) /\
  forall root x, heappush (more_lt spec_counts) [1; 0; 2] 3 !! 0 = Some root ->
    x ∈ 3 :: [1; 0; 2] -> (count_of spec_counts x <= count_of spec_counts root)%Z.
Proof.
  split; [vm_compute; reflexivity|].
  apply (heappush_keeps_heap spec_counts [1; 0; 2] 3).
  intros i x y Hi Hx Hy.
  destruct i as [|[|[|i]]]; simpl in Hx, Hy; simplify_eq; vm_compute;
    congruence.
Defined.

(** * Properties of [Reddit] *)

Import Reddit.

(** ** What the rate-limit pattern can match *)

Lemma substring_0 pos s : substring pos 0 s = EmptyString.
Proof. revert s. induction pos as [|pos IH]; intros [|c s]; simpl; auto. Qed.

Lemma substring_S pos n s c :
  String.get pos s = Some c ->
  substring pos (S n) s = String c (substring (S pos) n s).
Proof.
  revert s. induction pos as [|pos IH]; intros [|c' s]; simpl; try done.
  - by intros [= ->].
  - intros Hc. by rewrite (IH s Hc).
Qed.

Lemma digit_of_range c :
  nat_of_ascii "0" <= nat_of_ascii c <= nat_of_ascii "9" ->
  exists d, digit_of c = Some d /\ (0 <= d <= 9)%Z.
Proof.
  change (nat_of_ascii "0") with 48. change (nat_of_ascii "9") with 57.
  intros Hc. unfold digit_of. rewrite decide_True by done.
  eexists. split; [done|]. lia.
Qed.

(** Rewrite a captured substring into the characters found. *)
Ltac count_S q p :=
  match q with
  | p => constr:(0)
  | S ?q' => let k := count_S q' p in constr:(S k)
  end.

Ltac captured :=
  repeat match goal with
  | |- context [substring ?p (?q - ?p) ?s] =>
      let k := count_S q p in
      replace (q - p) with k by lia
  end;
  repeat match goal with
  | H : String.get ?p ?s = Some ?c |- context [substring ?p (S ?n) ?s] =>
      rewrite (substring_S p n s c H)
  end;
  rewrite ?substring_0.

Lemma match_Some_id {T} (e : option T) x :
  match e with Some y => Some y | None => None end = Some x -> e = Some x.
Proof. by destruct e. Qed.

Lemma length_append (a b : string) :
  String.length (a +:+ b) = String.length a + String.length b.
Proof. induction a as [|c a IH]; simpl; [done|]. by rewrite IH. Qed.

Lemma substring_app pos a b s :
  substring pos (a + b) s = substring pos a s +:+ substring (pos + a) b s.
Proof.
  revert s. induction pos as [|pos IH]; intros s.
  - revert s. induction a as [|a IHa]; intros s.
    { simpl. by rewrite substring_0. }
    destruct s as [|c s]; simpl; [by destruct b|].
    change (String c (substring 0 a s) +:+ substring a b s)
      with (String c (substring 0 a s +:+ substring (0 + a) b s)).
    f_equal. apply IHa.
  - destruct s as [|c s]; simpl; [done|]. apply IH.
Qed.

Lemma substring_1 pos s c :
  String.get pos s = Some c -> substring pos 1 s = String c EmptyString.
Proof. intros Hc. by rewrite (substring_S _ _ _ _ Hc), substring_0. Qed.

(** The characters of a text that a message holds. *)
Lemma holds_at_get msg pos t i c :
  holds_at msg pos t -> String.get i t = Some c ->
  String.get (i + pos) msg = Some c.
Proof.
  unfold holds_at. intros Ht Hc.
  destruct (decide (i < String.length t)) as [Hlt|Hge].
  - rewrite <- (substring_correct1 msg pos _ i Hlt). by rewrite Ht.
  - rewrite <- Ht in Hc. rewrite substring_correct2 in Hc by lia. done.
Qed.

(** Group 1 holds one or two digits. *)
Lemma digits_match s pos caps
    (K : nat -> gmap nat string -> option (gmap nat string)) x :
  rmatch (Group 1 (Rep 1 2 (Range "0" "9"))) s pos caps K = Some x ->
  exists g1 p' n,
    K p' (<[1 := g1]> caps) = Some x /\ p' = String.length g1 + pos /\
    is_count g1 n /\ (0 <= n <= 99)%Z /\ holds_at s pos g1.
Proof.
  cbn [rmatch Init.Nat.pred]. intros HK%match_Some_id. revert HK.
  destruct (String.get pos s) as [c1|] eqn:Hc1; [|done].
  case_decide as Hd1; [|done].
  destruct (digit_of_range _ Hd1) as (d1 & Hdig1 & Hr1).
  assert (K (S pos) (<[1 := substring pos (S pos - pos) s]> caps) = Some x ->
          exists g1 p' n,
            K p' (<[1 := g1]> caps) = Some x /\ p' = String.length g1 + pos /\
            is_count g1 n /\ (0 <= n <= 99)%Z /\ holds_at s pos g1) as Hone.
  { replace (S pos - pos) with 1 by lia.
    rewrite (substring_1 _ _ _ Hc1). intros HK.
    exists (String c1 EmptyString), (S pos), d1.
    split; [done|]. split; [done|].
    split; [split; [simpl; lia|simpl; by rewrite Hdig1]|].
    split; [lia|]. unfold holds_at. simpl String.length.
    by apply substring_1. }
  destruct (String.get (S pos) s) as [c2|] eqn:Hc2; [|done].
  case_decide as Hd2; [|done].
  destruct (digit_of_range _ Hd2) as (d2 & Hdig2 & Hr2).
  destruct (K (S (S pos)) _) as [x1|] eqn:HK2; [|done].
  intros [= <-].
  assert (substring pos 2 s = String c1 (String c2 EmptyString)) as Hsub.
  { rewrite (substring_S _ _ _ _ Hc1), (substring_S _ _ _ _ Hc2).
    by rewrite substring_0. }
  exists (String c1 (String c2 EmptyString)), (S (S pos)).
  exists (10 * d1 + d2)%Z. split_and!.
  - rewrite <- HK2. do 2 f_equal.
    replace (S (S pos) - pos) with 2 by lia. by rewrite Hsub.
  - done.
  - split; [simpl; lia|]. simpl. by rewrite Hdig1, Hdig2.
  - lia.
  - lia.
  - exact Hsub.
Qed.

(** Case analysis on the characters that a match reads. *)
Ltac read_chars s :=
  repeat first
    [ match goal with
      | H : String.get ?p s = _ |- context [String.get ?p s] => rewrite H
      end
    | match goal with
      | |- context [String.get ?p s] =>
          let c := fresh "c" in
          let H := fresh "Hc" in
          destruct (String.get p s) as [c|] eqn:H
      end
    | match goal with
      | |- context [decide (?c = ?d)] =>
          let Heq := fresh "Heq" in
          destruct (decide (c = d)) as [Heq|Heq];
          [first [subst c | discriminate Heq | clear Heq]
          |try (exfalso; apply Heq; reflexivity)]
      end ].

(** The text read from [pos] on. *)
Ltac held :=
  unfold holds_at; simpl String.length;
  repeat match goal with
  | H : String.get ?p ?s = Some ?c |- context [substring ?p (S ?n) ?s] =>
      rewrite (substring_S p n s c H)
  end;
  rewrite ?substring_0; reflexivity.

(** Group 2 holds one of four words. *)
Lemma unit_match s pos caps
    (K : nat -> gmap nat string -> option (gmap nat string)) x :
  rmatch (Group 2 (Alt (Seq (lit "second") (Opt (Chr "s")))
                       (Seq (lit "minute") (Opt (Chr "s")))))
    s pos caps K = Some x ->
  exists u p' k,
    K p' (<[2 := u]> caps) = Some x /\ p' = String.length u + pos /\
    unit_seconds u = Some k /\
    (forall m : Z, (if contains "minute" u then m * 60 else m)%Z = (m * k)%Z) /\
    holds_at s pos u.
Proof.
  cbn [rmatch lit]. read_chars s; try done; captured; intros H;
    repeat match type of H with
    | context [K ?p ?c] =>
        let HK := fresh "HK" in
        destruct (K p c) eqn:HK
    end;
    try done; simplify_eq;
    (eexists _, _, _; split; [eassumption|]);
    (split; [reflexivity|]); (split; [reflexivity|]);
    (split; [intros m; cbn; lia|held]).
Qed.

Lemma rmatch_Seq {R} r1 r2 s pos caps (k : nat -> gmap nat string -> option R) :
  rmatch (Seq r1 r2) s pos caps k =
  rmatch r1 s pos caps (fun pos' caps' => rmatch r2 s pos' caps' k).
Proof. done. Qed.

Lemma rmatch_Chr {R} c s pos caps (k : nat -> gmap nat string -> option R) x :
  rmatch (Chr c) s pos caps k = Some x ->
  String.get pos s = Some c /\ k (S pos) caps = Some x.
Proof.
  simpl. destruct (String.get pos s) as [c'|]; [|done].
  case_decide; [|done]. by subst.
Qed.

(** What a match of the pattern at [pos] has read there. *)
Lemma pattern_read s pos caps :
  rmatch _ratelimit_regex s pos ∅ (fun _ caps => Some caps) = Some caps ->
  exists g1 u n k,
    caps !! 1 = Some g1 /\ caps !! 2 = Some u /\
    is_count g1 n /\ (0 <= n <= 99)%Z /\ unit_seconds u = Some k /\
    (forall m : Z, (if contains "minute" u then m * 60 else m)%Z = (m * k)%Z) /\
    holds_at s pos (delay_text g1 u).
Proof.
  unfold _ratelimit_regex. rewrite rmatch_Seq.
  intros (g1 & p1 & n & HK & -> & Hcount & Hn & Hg1)%digits_match.
  rewrite rmatch_Seq in HK. apply rmatch_Chr in HK as [Hblank HK].
  apply unit_match in HK as (u & p2 & k & [= Hcaps] & _ & Hk & Hmin & Hu).
  subst caps. exists g1, u, n, k. split_and!; try done; try lia.
  unfold holds_at, delay_text in *.
  rewrite !length_append. simpl String.length.
  rewrite !substring_app, Hg1.
  replace (pos + String.length g1) with (String.length g1 + pos) by lia.
  rewrite (substring_1 _ _ _ Hblank).
  replace (String.length g1 + pos + 1) with (S (String.length g1 + pos))
    by lia.
  by rewrite Hu.
Qed.

Lemma unit_seconds_words u k :
  unit_seconds u = Some k -> u ∈ ["seconds"; "second"; "minutes"; "minute"].
Proof.
  unfold unit_seconds.
  destruct (decide (u ∈ ["seconds"; "second"])) as [Hs|_].
  { intros _. rewrite !elem_of_cons in Hs. rewrite !elem_of_cons.
    destruct Hs as [->|[->|[]%elem_of_nil]]; auto. }
  destruct (decide (u ∈ ["minutes"; "minute"])) as [Hm|_]; [|done].
  intros _. rewrite !elem_of_cons in Hm. rewrite !elem_of_cons.
  destruct Hm as [->|[->|[]%elem_of_nil]]; auto.
Qed.


(** A count and a unit held at [pos] are matched there. *)
Lemma pattern_complete s pos count unit_ n k :
  is_count count n -> unit_seconds unit_ = Some k ->
  holds_at s pos (delay_text count unit_) ->
  rmatch _ratelimit_regex s pos ∅ (fun _ caps => Some caps) <> None.
Proof.
  intros [Hlen Hint] Hunit Hheld.
  pose proof (fun i c => holds_at_get s pos _ i c Hheld) as Hget.
  apply unit_seconds_words in Hunit.
  assert (forall c d, digit_of c = Some d ->
            nat_of_ascii "0" <= nat_of_ascii c <= nat_of_ascii "9") as Hdigit.
  { intros c d. unfold digit_of. case_decide; [|done]. intros _.
    change (nat_of_ascii "0") with 48. change (nat_of_ascii "9") with 57.
    done. }
  destruct count as [|c1 [|c2 [|c3 count]]]; [simpl in Hlen; lia| | |
    simpl in Hlen; lia].
  - (* one digit *)
    simpl in Hint. destruct (digit_of c1) as [d1|] eqn:Hd1; [|done].
    apply Hdigit in Hd1.
    pose proof (Hget 0 c1 eq_refl) as G0.
    pose proof (Hget 1 " "%char eq_refl) as G1.
    repeat (apply elem_of_cons in Hunit as [->|Hunit]);
      [| | | |by apply elem_of_nil in Hunit];
      pose proof (Hget 2 _ eq_refl) as G2; pose proof (Hget 3 _ eq_refl) as G3;
      pose proof (Hget 4 _ eq_refl) as G4; pose proof (Hget 5 _ eq_refl) as G5;
      pose proof (Hget 6 _ eq_refl) as G6; pose proof (Hget 7 _ eq_refl) as G7;
      simpl in G0, G1, G2, G3, G4, G5, G6, G7;
      unfold _ratelimit_regex; cbn [rmatch lit Init.Nat.pred];
      rewrite G0; rewrite decide_True by done;
      rewrite G1; rewrite (decide_False (P := _ <= nat_of_ascii " " <= _))
        by (cbv; lia);
      rewrite ?G2, ?G3, ?G4, ?G5, ?G6, ?G7;
      repeat (first [rewrite decide_True by done
                    |rewrite decide_False by done]);
      rewrite ?G2, ?G3, ?G4, ?G5, ?G6, ?G7;
      repeat (first [rewrite decide_True by done
                    |rewrite decide_False by done]);
      repeat case_match; done.
  - (* two digits *)
    simpl in Hint. destruct (digit_of c1) as [d1|] eqn:Hd1; [|done].
    destruct (digit_of c2) as [d2|] eqn:Hd2; [|done].
    apply Hdigit in Hd1. apply Hdigit in Hd2.
    pose proof (Hget 0 c1 eq_refl) as G0.
    pose proof (Hget 1 c2 eq_refl) as G1.
    pose proof (Hget 2 " "%char eq_refl) as G2.
    repeat (apply elem_of_cons in Hunit as [->|Hunit]);
      [| | | |by apply elem_of_nil in Hunit];
      pose proof (Hget 3 _ eq_refl) as G3;
      pose proof (Hget 4 _ eq_refl) as G4; pose proof (Hget 5 _ eq_refl) as G5;
      pose proof (Hget 6 _ eq_refl) as G6; pose proof (Hget 7 _ eq_refl) as G7;
      pose proof (Hget 8 _ eq_refl) as G8;
      simpl in G0, G1, G2, G3, G4, G5, G6, G7, G8;
      unfold _ratelimit_regex; cbn [rmatch lit Init.Nat.pred];
      rewrite G0; rewrite decide_True by done;
      rewrite G1; rewrite decide_True by done;
      rewrite G2, ?G3, ?G4, ?G5, ?G6, ?G7, ?G8;
      repeat (first [rewrite decide_True by done
                    |rewrite decide_False by done]);
      rewrite ?G3, ?G4, ?G5, ?G6, ?G7, ?G8;
      repeat (first [rewrite decide_True by done
                    |rewrite decide_False by done]);
      repeat case_match; done.
Qed.

(** [search_from] stops at the first position with a match. *)
Lemma search_from_first fuel r s pos caps :
  search_from fuel r s pos = Some caps ->
  exists p, pos <= p /\
    rmatch r s p ∅ (fun _ caps => Some caps) = Some caps /\
    forall q, pos <= q < p ->
      rmatch r s q ∅ (fun _ caps => Some caps) = None.
Proof.
  revert pos. induction fuel as [|fuel IH]; intros pos; cbn [search_from];
    destruct (rmatch r s pos ∅ (fun _ caps => Some caps)) as [c|] eqn:Hm;
    try done.
  - intros [= <-]. exists pos. split; [done|]. split; [done|]. lia.
  - intros [= <-]. exists pos. split; [done|]. split; [done|]. lia.
  - intros (p & Hp & Hmatch & Hnone)%IH. exists p. split; [lia|].
    split; [done|]. intros q Hq.
    destruct (decide (q = pos)) as [->|Hne]; [done|]. apply Hnone. lia.
Qed.



(** ** The delay *)

Lemma delay_table : forallb delay_checked (seq 0 100) = true.
Proof. vm_compute. reflexivity. Qed.

Lemma delay_ok_seconds n (minutes : bool) :
  (0 <= n <= 99)%Z ->
  let seconds := if minutes then (n * 60)%Z else n in
  delay_ok (add seconds (min_ (truediv seconds 10) 1)) seconds = true.
Proof.
  intros Hn. pose proof delay_table as Ht.
  rewrite forallb_forall in Ht. specialize (Ht (Z.to_nat n)).
  unfold delay_checked in Ht. rewrite Z2Nat.id in Ht by lia.
  apply andb_true_iff in Ht as [H1 H2]; [by destruct minutes|].
  apply in_seq. lia.
Qed.

Lemma contains_minute u :
  u ∈ ["seconds"; "second"; "minutes"; "minute"] ->
  exists b : bool, contains "minute" u = b.
Proof. eauto. Qed.


(** What a successful search has read, and where. *)
Lemma search_read s caps :
  search _ratelimit_regex s = Some caps ->
  exists pos g1 u n k,
    caps !! 1 = Some g1 /\ caps !! 2 = Some u /\
    is_count g1 n /\ (0 <= n <= 99)%Z /\ unit_seconds u = Some k /\
    (forall m : Z, (if contains "minute" u then m * 60 else m)%Z = (m * k)%Z) /\
    holds_at s pos (delay_text g1 u) /\
    (forall pos' count' unit' n' k',
       pos' < pos -> is_count count' n' -> unit_seconds unit' = Some k' ->
       ~ holds_at s pos' (delay_text count' unit')).
Proof.
  intros (pos & _ & Hmatch & Hnone)%search_from_first.
  destruct (pattern_read _ _ _ Hmatch)
    as (g1 & u & n & k & H1 & H2 & Hcount & Hn & Hk & Hmin & Hheld).
  exists pos, g1, u, n, k. split_and!; try done; try lia.
  intros pos' count' unit' n' k' Hlt Hcount' Hunit' Hheld'.
  apply (pattern_complete _ _ _ _ _ _ Hcount' Hunit' Hheld').
  apply Hnone. lia.
Qed.

Lemma handle_rate_limit_read ratelimit items :
  match _handle_rate_limit ratelimit items with
  | Raises _ => False
  | Return None => True
  | Return (Some x) =>
      exists item seconds,
        item ∈ items /\ error_type item = "RATELIMIT" /\
        (0 <= seconds <= ratelimit)%Z /\ (seconds <= 5940)%Z /\
        read_from (message item) seconds x /\
        x = add seconds (min_ (truediv seconds 10) 1)
  end.
Proof.
  induction items as [|item items IH]; [done|].
  assert (match _handle_rate_limit ratelimit items with
          | Raises _ => False
          | Return None => True
          | Return (Some x) =>
              exists item' seconds,
                item' ∈ item :: items /\ error_type item' = "RATELIMIT" /\
                (0 <= seconds <= ratelimit)%Z /\ (seconds <= 5940)%Z /\
                read_from (message item') seconds x /\
                x = add seconds (min_ (truediv seconds 10) 1)
          end) as IH'.
  { destruct (_handle_rate_limit ratelimit items) as [[x|]|]; try done.
    destruct IH as (i & sec & Hin & ?). exists i, sec.
    split; [by right|done]. }
  cbn [_handle_rate_limit]. case_decide as Htype; [|done].
  destruct (search _ _) as [caps|] eqn:Hsearch; [|done].
  destruct (search_read _ _ Hsearch)
    as (pos & g1 & u & n & k & -> & -> & Hcount & Hn & Hk & Hmin & Hheld
        & Hfirst).
  rewrite (proj2 Hcount).
  set (seconds := if contains "minute" u then (n * 60)%Z else n).
  cbv zeta. fold seconds.
  destruct (seconds <=? ratelimit)%Z eqn:Hle; [|done].
  apply Z.leb_le in Hle. exists item, seconds.
  split; [by left|]. split; [done|].
  pose proof (delay_ok_seconds n (contains "minute" u) Hn) as Hok.
  cbv zeta in Hok. fold seconds in Hok.
  assert (seconds = (n * k)%Z) as Hsec by apply Hmin.
  assert (k = 1 \/ k = 60)%Z as Hk'.
  { unfold unit_seconds in Hk. repeat case_decide; simplify_eq; auto. }
  split_and!; try done; try lia.
  exists pos, g1, u, n, k. split_and!; done.
Qed.

(** [_handle_rate_limit] never raises. A delay that it returns was read
    from the message of an item of type RATELIMIT: at the first position
    where the message holds a count of one or two digits, a blank and
    one of the units second(s) and minute(s), it holds that count and
    unit; the seconds they stand for (the count, times 60 for minutes)
    are within [ratelimit_seconds], and the delay is
    [seconds + min(seconds / 10, 1)]: the integer [seconds + 1] above
    ten seconds, a float from [seconds] to [seconds + 1] up to ten. *)
Theorem handle_rate_limit_bounded (ratelimit_seconds : Z)
    (items : list RedditErrorItem) :
  match _handle_rate_limit ratelimit_seconds items with
  | Raises _ => False
  | Return None => True
  | Return (Some x) =>
      exists item seconds,
        item ∈ items /\ error_type item = "RATELIMIT" /\
        (0 <= seconds <= ratelimit_seconds)%Z /\ (seconds <= 5940)%Z /\
        read_from (message item) seconds x /\
        x = add seconds (min_ (truediv seconds 10) 1)
  end.
Proof. apply handle_rate_limit_read. Qed.

(** The scan of the items ends at the first item of type RATELIMIT whose
    message holds no delay: the result is [None], whatever follows; and
    so it is when no item has that type. *)
Theorem handle_rate_limit_break (ratelimit_seconds : Z)
    (pre : list RedditErrorItem) (item : RedditErrorItem)
    (rest : list RedditErrorItem) :
  Forall (fun i => error_type i <> "RATELIMIT") pre ->
  _handle_rate_limit ratelimit_seconds pre = Return None /\
  (error_type item = "RATELIMIT" ->
   search _ratelimit_regex (message item) = None ->
   _handle_rate_limit ratelimit_seconds (pre ++ item :: rest) = Return None).
Proof.
  induction 1 as [|i pre Hi _ IH].
  - split; [done|]. intros Htype Hsearch. cbn [app _handle_rate_limit].
    rewrite decide_True by done. by rewrite Hsearch.
  - rewrite <- app_comm_cons. cbn [_handle_rate_limit].
    by rewrite !decide_False.
Qed.

Lemma handle_rate_limit_break_witness :
  _handle_rate_limit 600 [ErrorItem "RATELIMIT" "try again in 5 seconds" None]
    = Return (Some (PyFloat 5.5)) /\
  _handle_rate_limit 600 no_delay_first = Return None.
Proof.
  split; [vm_compute; reflexivity|].
  refine (proj2 (handle_rate_limit_break 600
                   [ErrorItem "BAD_SR_NAME" "that name isn't going to work"
                      (Some "sr")]
                   (ErrorItem "RATELIMIT" "you are doing that too much" None)
                   [ErrorItem "RATELIMIT" "try again in 5 seconds" None] _)
            eq_refl _).
  - repeat constructor. simpl. discriminate.
  - vm_compute. reflexivity.
Defined.

(** ** [post] *)

Section post.
Context {J F A V X : Type}.
Variable _objectify_request :
  list (@event J F A) -> @call J F A -> V + @error X.
Variable ratelimit_seconds : Z.

End post.

Lemma rate_limited_once_run :
  post rate_limited_once 600 "api/submit" None None None (Some "{}") []
  = (inl "ok",
     [Request (Call None None (Some "{}") "POST" None "api/submit");
      Sleep (PyFloat 5.5);
      Request (Call None None None "POST" None "api/submit")]).
Proof. vm_compute. reflexivity. Qed.

(** ** [info] *)

(** [info] raises [TypeError] unless exactly one of its three arguments
    is given, and when the one given as [fullnames] or as [subreddits]
    is a string; otherwise it returns the generator over the argument
    given; it makes no request itself. *)
Theorem info_arguments {Sub : Type} (fullnames : option (iterable string))
    (url : option string) (subreddits : option (iterable (name_item Sub))) :
  match info fullnames url subreddits with
  | Return (GenFullnames names) =>
      fullnames = Some (Items names) /\ url = None /\ subreddits = None
  | Return (GenSubreddits names) =>
      fullnames = None /\ url = None /\ subreddits = Some (Items names)
  | Return (GenUrl u) =>
      fullnames = None /\ url = Some u /\ subreddits = None
  | Raises e =>
      (e = TypeError info_TypeError_str /\
       ((exists s, fullnames = Some (IsStr s)) \/
        (exists s, subreddits = Some (IsStr s)))) \/
      (e = TypeError info_TypeError_one /\
       none_count fullnames url subreddits <> 2)
  end.
Proof.
  destruct fullnames as [[s|names]|], url as [u|], subreddits as [[s'|names']|];
    cbn; try (split_and!; done);
    first [ by (right; split; [done|cbn; lia])
          | by (left; split; [done|eauto]) ].
Qed.

Section info.
Context {J F A V X Sub : Type}.
Variable _objectify_request :
  list (@event J F A) -> @call J F A -> V + @error X.
Variable API_PATH_info : string.
Variable str_ : Sub -> string.
Variable elements : V -> list V.

Local Abbreviation answer := (answer _objectify_request API_PATH_info).
Local Abbreviation info_call := (@info_call J F A API_PATH_info).
Local Abbreviation info_request := (@info_request J F A API_PATH_info).

Lemma ceil_step n : 0 < n -> S ((n - 100 + 99) / 100) = (n + 99) / 100.
Proof.
  intros Hpos. destruct (decide (n <= 100)).
  - replace (n - 100 + 99) with 99 by lia.
    change (99 `div` 100) with 0.
    apply (Nat.div_unique _ _ _ (n - 1)); lia.
  - replace (n + 99) with (n - 100 + 99 + 1 * 100) by lia.
    rewrite Nat.div_add by lia. lia.
Qed.

Lemma answer_0 name chunk chunks tr :
  answer name (chunk :: chunks) tr 0
  = Some (_objectify_request tr (info_request name chunk)).
Proof. unfold Reddit.answer. simpl. by rewrite app_nil_r. Qed.

Lemma answer_S name chunk chunks tr i :
  answer name (chunk :: chunks) tr (S i)
  = answer name chunks (tr ++ [info_call name chunk]) i.
Proof.
  unfold Reddit.answer. simpl. destruct (chunks !! i); [|done].
  by rewrite <- app_assoc.
Qed.

Lemma info_loop_batched fuel name names yielded tr :
  length names <= fuel ->
  exists res,
    info_loop _objectify_request API_PATH_info elements fuel name names
      yielded tr = Some res /\
    batched _objectify_request API_PATH_info elements name names yielded
      tr res.
Proof.
  revert names yielded tr.
  induction fuel as [|fuel IH]; intros names yielded tr Hfuel.
  { destruct names; [|simpl in Hfuel; lia].
    exists (yielded, None, tr). split; [done|].
    exists [], []. simpl. rewrite !app_nil_r. split_and!; done. }
  destruct names as [|a names'].
  { exists (yielded, None, tr). split; [done|].
    exists [], []. simpl. rewrite !app_nil_r. split_and!; done. }
  set (names := a :: names') in *.
  set (chunk := take 100 names).
  assert (0 < length names) as Hpos by (unfold names; cbn [length]; lia).
  assert (0 < length chunk <= 100) as Hchunk.
  { unfold chunk. rewrite length_take. lia. }
  assert (length (drop 100 names) = length names - 100) as Hdrop
    by apply length_drop.
  assert (length (drop 100 names) <= fuel) as Hfuel'
    by (unfold names in *; cbn [length] in *; lia).
  assert (forall chunks',
            concat chunks' = drop 100 names ->
            length chunks' = (length (drop 100 names) + 99) / 100 ->
            Forall (fun c => 0 < length c <= 100) chunks' ->
            (forall i c, chunks' !! i = Some c -> S i < length chunks' ->
               length c = 100) ->
            concat (chunk :: chunks') = names /\
            length (chunk :: chunks') = (length names + 99) / 100 /\
            Forall (fun c => 0 < length c <= 100) (chunk :: chunks') /\
            (forall i c, (chunk :: chunks') !! i = Some c ->
               S i < length (chunk :: chunks') -> length c = 100))
    as Hchunks.
  { intros chunks' Hcat Hlen Hall Hfull. split_and!.
    - change (chunk ++ concat chunks' = names). rewrite Hcat.
      apply take_drop.
    - cbn [length]. rewrite Hlen, Hdrop. by apply ceil_step.
    - by constructor.
    - intros [|i] c; simpl.
      + intros [= <-] Hi. unfold chunk. rewrite length_take.
        assert (0 < length chunks') as Hpos' by lia.
        rewrite Hlen, Hdrop in Hpos'.
        destruct (decide (length names <= 100)); [|lia].
        replace (length names - 100 + 99) with 99 in Hpos' by lia.
        change (99 `div` 100) with 0 in Hpos'. lia.
      + intros Hc Hi. apply (Hfull i); [done|lia]. }
  assert (info_loop _objectify_request API_PATH_info elements (S fuel) name
            names yielded tr =
          match get _objectify_request API_PATH_info
                  (Some (PDict [(name, VStr (String.concat "," chunk))])) tr
          with
          | (inl v, tr) =>
              info_loop _objectify_request API_PATH_info elements fuel name
                (drop 100 names) (yielded ++ elements v) tr
          | (inr e, tr) => Some (yielded, Some e, tr)
          end) as Hstep by done.
  rewrite Hstep. unfold get, request_.
  fold (info_request name chunk).
  destruct (_objectify_request tr _) as [v|e] eqn:Hanswer.
  - destruct (IH (drop 100 names) (yielded ++ elements v)
                (tr ++ [info_call name chunk]) Hfuel')
      as (res & Hrun & chunks' & vs & Hcat & Hlen & Hall & Hfull & Hvs
          & Hyield & Hend).
    destruct (Hchunks chunks' Hcat Hlen Hall Hfull)
      as (Hcat1 & Hlen1 & Hall1 & Hfull1).
    exists res. split; [done|].
    exists (chunk :: chunks'), (v :: vs). split_and!; try done.
    + intros [|i] v'; simpl.
      * intros [= <-]. by rewrite answer_0, Hanswer.
      * intros Hv'. rewrite answer_S. by apply Hvs.
    + rewrite Hyield. simpl. by rewrite <- app_assoc.
    + destruct (res.1.2) as [e|].
      * destruct Hend as [He Htr]. cbn [length]. rewrite answer_S.
        split; [done|]. rewrite Htr. simpl. by rewrite <- app_assoc.
      * destruct Hend as [He Htr]. cbn [length]. split; [by rewrite He|].
        rewrite Htr. simpl. by rewrite <- app_assoc.
  - destruct (IH (drop 100 names) [] [] Hfuel')
      as (_ & _ & chunks' & _ & Hcat & Hlen & Hall & Hfull & _).
    destruct (Hchunks chunks' Hcat Hlen Hall Hfull)
      as (Hcat1 & Hlen1 & Hall1 & Hfull1).
    eexists. split; [done|].
    exists (chunk :: chunks'), []. split_and!; try done.
    + simpl. by rewrite app_nil_r.
    + simpl. by rewrite answer_0, Hanswer.
Qed.

(** A generator of [info] over names, run to its end, asks for the
    names in batches of 100: one GET of [API_PATH["info"]] for each
    consecutive chunk of 100 names and one for what is left, in order,
    the names of a chunk joined by commas under the parameter [id]
    (for [fullnames]) or [sr_name] (for [subreddits]): for [n] names,
    [ceil(n / 100)] requests, and none for an empty list. What it
    yields is the items of the answers, in order. A request that
    raises ends the run: no request follows it, and its exception is
    the outcome of the run. *)
Theorem info_batches (tr : list event) :
  (forall names, exists res,
     drain _objectify_request API_PATH_info str_ elements
       (GenFullnames names) tr = Some res /\
     batched _objectify_request API_PATH_info elements "id" names [] tr
       res) /\
  (forall names, exists res,
     drain _objectify_request API_PATH_info str_ elements
       (GenSubreddits names) tr = Some res /\
     batched _objectify_request API_PATH_info elements "sr_name"
       (map (str_item str_) names) [] tr res).
Proof.
  split; intros names; unfold drain.
  - apply info_loop_batched. lia.
  - rewrite <- (length_map (str_item str_)). apply info_loop_batched. lia.
Qed.
End info.

(** ** [random_subreddit] *)

Lemma slashes_cons c s :
  slashes (String c s) = if decide (c = "/"%char) then S (slashes s)
                         else slashes s.
Proof.
  unfold slashes. cbn [list_ascii_of_string List.filter].
  destruct (decide (c = "/"%char)) as [->|Hc]; [done|].
  destruct (Ascii.eqb "/" c) eqn:E; [|done].
  apply Ascii.eqb_eq in E. congruence.
Qed.

Lemma split_nonempty sep s : split sep s <> [].
Proof.
  destruct s as [|c s]; cbn [split]; [done|].
  destruct (decide (c = sep)); [done|]. by destruct (split sep s).
Qed.

Lemma split_length s : length (split "/" s) = S (slashes s).
Proof.
  induction s as [|c s IH]; [done|].
  rewrite slashes_cons. cbn [split].
  destruct (decide (c = "/"%char)); [by cbn [length]; rewrite IH|].
  destruct (split "/" s); [done|]. exact IH.
Qed.

Lemma split_pieces s : Forall no_slash (split "/" s).
Proof.
  induction s as [|c s IH]; [by repeat constructor|].
  cbn [split]. destruct (decide (c = "/"%char)); [by constructor|].
  destruct (split "/" s) as [|h t] eqn:E; [by apply split_nonempty in E|].
  apply Forall_cons in IH as [Hh Ht]. constructor; [|done].
  unfold no_slash in *. rewrite slashes_cons. by rewrite decide_False.
Qed.

Lemma no_slash_cons c s : no_slash (String c s) -> c <> "/"%char /\ no_slash s.
Proof.
  unfold no_slash. rewrite slashes_cons.
  by destruct (decide (c = "/"%char)).
Qed.

Lemma split_whole a : no_slash a -> split "/" a = [a].
Proof.
  induction a as [|c a IH]; [done|].
  intros [Hc Ha]%no_slash_cons. cbn [split].
  by rewrite decide_False, IH.
Qed.

Lemma split_piece a b :
  no_slash a -> split "/" (a +:+ String "/" b) = a :: split "/" b.
Proof.
  induction a as [|c a IH]; [done|].
  intros [Hc Ha]%no_slash_cons.
  change (String c a +:+ String "/" b) with (String c (a +:+ String "/" b)).
  cbn [split]. by rewrite decide_False, IH.
Qed.

(** The third piece of a path that names a subreddit. *)
Lemma split_subreddit a name tail :
  no_slash a -> no_slash name ->
  tail = EmptyString \/ (exists rest, tail = String "/" rest) ->
  split "/" (String "/" (a +:+ String "/" (name +:+ tail))) !! 2 = Some name.
Proof.
  intros Ha Hname Htail. cbn [split]. rewrite decide_True by done.
  rewrite split_piece by done.
  destruct Htail as [->|[rest ->]].
  - replace (name +:+ "") with name; [by rewrite split_whole|].
    clear. induction name as [|c n IH]; [done|].
    change (String c n +:+ "") with (String c (n +:+ "")). by rewrite <- IH.
  - by rewrite split_piece.
Qed.

Section random_subreddit.
Context {J F A V X Sub : Type}.
Variable _objectify_request :
  list (@event J F A) -> @call J F A -> V + @error X.
Variable Subreddit : string -> Sub + @error X.
Variable _fetch : list (@event J F A) -> Sub -> option (@error X).
Variable API_PATH_subreddit : string -> string.

(** [random_subreddit] makes one GET, of the path of [random] or of
    [randnsfw], that carries the value of the counter as [unique], and
    advances the counter, however the request ends. Only when the
    request was redirected to a path with at least two "/" is a
    subreddit made: from the third piece of the path, which has no "/"
    in it; if making it raises, that exception is raised and nothing
    is fetched, otherwise the subreddit is fetched and returned, or
    the exception of the fetch raised. A request that returns normally
    gives [AttributeError], a redirect to a path with fewer than two
    "/" gives [IndexError], and another exception is passed on: in
    these cases no subreddit is made or fetched. *)
Theorem random_subreddit_outcome (nsfw : bool) (counter : Z)
    (tr : list event) :
  let c :=
    Call None None None "GET" (Some (PDict [("unique", VInt counter)]))
      (API_PATH_subreddit (if nsfw then "randnsfw" else "random")) in
  exists r tr',
    random_subreddit _objectify_request Subreddit _fetch API_PATH_subreddit
      nsfw counter tr = (r, (counter + 1)%Z, tr') /\
    match _objectify_request tr c with
    | inl _ => r = inr (Python AttributeError) /\ tr' = tr ++ [Request c]
    | inr (Redirect p) =>
        if (slashes p <? 2)%nat
        then r = inr (Python IndexError) /\ tr' = tr ++ [Request c]
        else
          exists name,
            split "/" p !! 2 = Some name /\ no_slash name /\
            match Subreddit name with
            | inr e => r = inr e /\ tr' = tr ++ [Request c]
            | inl subreddit =>
                tr' = tr ++ [Request c; FetchSubreddit name] /\
                r = match _fetch (tr ++ [Request c]) subreddit with
                    | Some e => inr e
                    | None => inl subreddit
                    end
            end
    | inr e => r = inr e /\ tr' = tr ++ [Request c]
    end.
Proof.
  intros c. unfold random_subreddit, _next_unique, get, request_. fold c.
  destruct (_objectify_request tr c) as [v|[items|p|e|e]];
    try (by eexists _, _).
  pose proof (split_length p) as Hlen.
  pose proof (split_pieces p) as Hpieces.
  destruct (split "/" p !! 2) as [name|] eqn:Hname.
  - assert (2 < length (split "/" p)) as Hlt
      by (apply lookup_lt_is_Some; eauto).
    assert ((slashes p <? 2)%nat = false) as -> by (apply Nat.ltb_ge; lia).
    assert (no_slash name) as Hno.
    { eapply Forall_forall in Hpieces; [done|].
      by eapply list_elem_of_lookup_2. }
    destruct (Subreddit name) as [subreddit|e] eqn:Hsub.
    + destruct (_fetch _ subreddit) as [e|] eqn:Hfetch.
      * eexists _, _. split; [done|]. exists name.
        by rewrite Hsub, Hfetch, <- app_assoc.
      * eexists _, _. split; [done|]. exists name.
        by rewrite Hsub, Hfetch, <- app_assoc.
    + eexists _, _. split; [done|]. exists name. by rewrite Hsub.
  - apply lookup_ge_None in Hname.
    assert ((slashes p <? 2)%nat = true) as -> by (apply Nat.ltb_lt; lia).
    by eexists _, _.
Qed.

(** When the request of [random_subreddit] is redirected to the path
    ["/" a "/" name] or ["/" a "/" name "/" rest], where [a] and [name]
    have no "/" in them, and a subreddit can be made from [name], that
    subreddit is fetched and returned, or the exception of the fetch
    raised. *)
Theorem random_subreddit_redirect (nsfw : bool) (counter : Z)
    (tr : list event) (a name tail : string) (subreddit : Sub) :
  let c :=
    Call None None None "GET" (Some (PDict [("unique", VInt counter)]))
      (API_PATH_subreddit (if nsfw then "randnsfw" else "random")) in
  no_slash a -> no_slash name ->
  tail = EmptyString \/ (exists rest, tail = String "/" rest) ->
  _objectify_request tr c
  = inr (Redirect ("/" +:+ a +:+ "/" +:+ name +:+ tail)) ->
  Subreddit name = inl subreddit ->
  random_subreddit _objectify_request Subreddit _fetch API_PATH_subreddit
    nsfw counter tr
  = (match _fetch (tr ++ [Request c]) subreddit with
     | Some e => inr e
     | None => inl subreddit
     end, (counter + 1)%Z, tr ++ [Request c; FetchSubreddit name]).
Proof.
  intros c Ha Hname Htail Hredirect Hsub.
  unfold random_subreddit, _next_unique, get, request_. fold c.
  rewrite Hredirect.
  change ("/" +:+ a +:+ "/" +:+ name +:+ tail)
    with (String "/" (a +:+ String "/" (name +:+ tail))).
  rewrite split_subreddit by done. rewrite Hsub.
  rewrite <- app_assoc. by destruct (_fetch _ subreddit).
Qed.
End random_subreddit.

Lemma random_subreddit_redirect_witness :
  random_subreddit redirects named_subreddit fetched subreddit_path false 0 []
  = (inl "redditdev", 1%Z,
     [Request (Call None None None "GET" (Some (PDict [("unique", VInt 0)]))
                 "r/random/");
      FetchSubreddit "redditdev"]).
Proof.
  apply (random_subreddit_redirect redirects named_subreddit fetched
           subreddit_path false 0 [] "r" "redditdev" "/?unique=0" "redditdev").
  - reflexivity.
  - reflexivity.
  - right. exists "?unique=0". reflexivity.
  - reflexivity.
  - reflexivity.
Defined.

(** ** The sessions *)

(** The sessions after [_prepare_asyncprawcore] on a new instance.
    [TypeError] is raised exactly when a token manager and the legacy
    refresh token are both given to a client that is not a script.
    Otherwise the instance is read-only exactly when it is no script
    and has neither a token manager nor a refresh token; then
    [read_only] cannot be unset, which raises [ClientException]. An
    instance that is not read-only can be set read-only, and unsetting
    it again gives back the instance as it was. *)
Theorem prepare_read_only (truth : setting -> bool) (token_manager : bool)
    (config : Config) :
  let refresh := is_set (_do_not_use_refresh_token config) in
  match _prepare_asyncprawcore truth (fresh token_manager config) with
  | Raises e =>
      e = TypeError refresh_token_message /\
      script truth config = false /\ token_manager = true /\ refresh = true
  | Return self =>
      (script truth config = true \/ token_manager = false
       \/ refresh = false) /\
      read_only self = negb (script truth config || token_manager || refresh)
      /\ (exists self',
            set_read_only true self = Return self' /\
            read_only self' = true /\
            set_read_only false self' = set_read_only false self) /\
      match set_read_only false self with
      | Raises e => e = ClientException read_only_message /\
                    read_only self = true
      | Return self' => self' = self /\ read_only self = false
      end
  end.
Proof.
  destruct config as [cid secret uri user pass refresh_token].
  unfold _prepare_asyncprawcore, _prepare_trusted_asyncprawcore,
    _prepare_untrusted_asyncprawcore, _prepare_common_authorizer, script,
    fresh.
  cbn [client_secret username password _do_not_use_refresh_token
       Reddit.config new_session set_cores _token_manager].
  destruct (truth secret), (truth user), (truth pass), token_manager,
    (is_set refresh_token); cbn; split_and?; eauto.
Qed.

